(** * An order-statistic red-black tree: [jp::ordered_set]

    A shallow embedding of [src/include/jp/ordered_set.hpp]: nodes live in a
    heap indexed by addresses, the member functions are programs of a state
    and error monad, loops run on fuel. The properties of the specification
    are proved over this embedding. *)

From stdpp Require Import gmap list sorting.
From Stdlib Require Import ZArith Lia.

Local Open Scope Z_scope.

(** * jp::ordered_set : an order-statistics red-black tree

    Shallow embedding of [include/jp/ordered_set.hpp].  The node graph lives
    in a heap (a finite map from addresses to node records); every [node*] of
    the source is an address, [nullptr] is address 0, and every member
    function is a computation in a state-and-error monad over the heap and
    the [ordered_set] objects.  [size_t] is a 64-bit unsigned integer, with
    its wrap-around written out. *)

(** ** Addresses, machine integers *)

Abbreviation ptr := N (only parsing).
Definition null : ptr := 0%N.

Definition ptr_eqb (p q : ptr) : bool := N.eqb p q.
Infix "=?p" := ptr_eqb (at level 70).

Definition SIZE_MAX1 : Z := 2 ^ 64.
Definition wrap (x : Z) : Z := x mod SIZE_MAX1.

(** [static constexpr bool RED = 0; BLACK = 1;] *)
Definition RED : bool := false.
Definition BLACK : bool := true.

(** ** Errors and the monad *)

Inductive error := NullDeref | Dangling | AssertFail | OutOfFuel.

Inductive result (S A : Type) :=
| Ok (a : A) (s : S)
| Err (e : error).
Arguments Ok {S A} a s.
Arguments Err {S A} e.

Section OrderedSet.

Context {Key : Type}.
(** [Cmp_Fn CMP] and the value-initialised key [Key{}] of the sentinel. *)
Variable CMP : Key -> Key -> bool.
Variable Key0 : Key.

(** [struct node] *)
Record node := mk_node {
  n_size : Z;
  n_left : ptr;
  n_right : ptr;
  n_parent : ptr;
  n_key : Key;
  n_color : bool
}.

(** The data members of [class ordered_set]. *)
Record ordered_set := mk_set { m_nil : ptr; m_root : ptr }.

(** The data members of [class const_iterator]; [m_tree] is the address of
    the owning [ordered_set] object. *)
Record const_iterator := mk_it { m_tree : N; m_node : ptr }.

Record state := mk_state {
  heap : gmap N node;
  objs : gmap N ordered_set
}.

Definition M (A : Type) : Type := state -> result state A.

Definition ret {A} (a : A) : M A := fun s => Ok a s.
Definition bind {A B} (m : M A) (k : A -> M B) : M B :=
  fun s => match m s with
           | Ok a s' => k a s'
           | Err e => Err e
           end.
Definition fail {A} (e : error) : M A := fun _ => Err e.

Notation "x <- m ;; k" := (bind m (fun x => k))
  (at level 100, m at next level, right associativity).
Notation "m ;; k" := (bind m (fun _ => k))
  (at level 100, right associativity).

Definition when (b : bool) (m : M unit) : M unit := if b then m else ret tt.

(** A loop with an early exit: the body answers [inl a] to go round again
    with the loop variables [a], and [inr r] to leave with [r]. *)
Fixpoint loop {A R} (fuel : nat) (body : A -> M (A + R)) (a : A) : M R :=
  match fuel with
  | O => fail OutOfFuel
  | S fuel' =>
      x <- body a ;;
      match x with
      | inl a' => loop fuel' body a'
      | inr r => ret r
      end
  end.

(** No walk through the node graph of a well-formed tree is longer than the
    number of allocated nodes. *)
Definition get_fuel : M nat := fun s => Ok (S (size (heap s))) s.

(** ** Memory *)

Definition load (p : ptr) : M node := fun s =>
  if p =?p null then Err NullDeref
  else match heap s !! p with
       | Some n => Ok n s
       | None => Err Dangling
       end.

Definition store (p : ptr) (n : node) : M unit := fun s =>
  if p =?p null then Err NullDeref
  else match heap s !! p with
       | Some _ => Ok tt (mk_state (<[p := n]> (heap s)) (objs s))
       | None => Err Dangling
       end.

(** [new node{...}] *)
Definition new_node (n : node) : M ptr := fun s =>
  let p := fresh ({[null]} ∪ dom (heap s)) in
  Ok p (mk_state (<[p := n]> (heap s)) (objs s)).

(** [delete p] *)
Definition delete_node (p : ptr) : M unit := fun s =>
  if p =?p null then Ok tt s
  else match heap s !! p with
       | Some _ => Ok tt (mk_state (delete p (heap s)) (objs s))
       | None => Err Dangling
       end.

Definition get_size (p : ptr) : M Z := n <- load p ;; ret (n_size n).
Definition get_left (p : ptr) : M ptr := n <- load p ;; ret (n_left n).
Definition get_right (p : ptr) : M ptr := n <- load p ;; ret (n_right n).
Definition get_parent (p : ptr) : M ptr := n <- load p ;; ret (n_parent n).
Definition get_key (p : ptr) : M Key := n <- load p ;; ret (n_key n).
Definition get_color (p : ptr) : M bool := n <- load p ;; ret (n_color n).

Definition set_size (p : ptr) (v : Z) : M unit :=
  n <- load p ;;
  store p (mk_node v (n_left n) (n_right n) (n_parent n) (n_key n) (n_color n)).
Definition set_left (p : ptr) (v : ptr) : M unit :=
  n <- load p ;;
  store p (mk_node (n_size n) v (n_right n) (n_parent n) (n_key n) (n_color n)).
Definition set_right (p : ptr) (v : ptr) : M unit :=
  n <- load p ;;
  store p (mk_node (n_size n) (n_left n) v (n_parent n) (n_key n) (n_color n)).
Definition set_parent (p : ptr) (v : ptr) : M unit :=
  n <- load p ;;
  store p (mk_node (n_size n) (n_left n) (n_right n) v (n_key n) (n_color n)).
Definition set_color (p : ptr) (v : bool) : M unit :=
  n <- load p ;;
  store p (mk_node (n_size n) (n_left n) (n_right n) (n_parent n) (n_key n) v).

(** [p->size += v] and [p->size -= v] on [size_t]. *)
Definition add_size (p : ptr) (v : Z) : M unit :=
  s <- get_size p ;; set_size p (wrap (s + v)).
Definition sub_size (p : ptr) (v : Z) : M unit :=
  s <- get_size p ;; set_size p (wrap (s - v)).

(** The members of the object at address [this]. *)
Definition load_obj (this : N) : M ordered_set := fun s =>
  match objs s !! this with
  | Some o => Ok o s
  | None => Err Dangling
  end.
Definition store_obj (this : N) (o : ordered_set) : M unit := fun s =>
  Ok tt (mk_state (heap s) (<[this := o]> (objs s))).

Definition get_nil (this : N) : M ptr := o <- load_obj this ;; ret (m_nil o).
Definition get_root (this : N) : M ptr := o <- load_obj this ;; ret (m_root o).
Definition set_nil (this : N) (v : ptr) : M unit :=
  o <- load_obj this ;; store_obj this (mk_set v (m_root o)).
Definition set_root (this : N) (v : ptr) : M unit :=
  o <- load_obj this ;; store_obj this (mk_set (m_nil o) v).

(** ** Node Store and primitives *)

(** [equal] and [not_equal] *)
Definition equal (lhs rhs : Key) : bool := negb (CMP lhs rhs) && negb (CMP rhs lhs).
Definition not_equal (lhs rhs : Key) : bool := CMP lhs rhs || CMP rhs lhs.

(** [ordered_set::ordered_set()] *)
Definition ctor (this : N) : M unit :=
  nil <- new_node (mk_node 0 null null null Key0 BLACK) ;;
  store_obj this (mk_set nil nil) ;;
  nil <- get_nil this ;; set_left nil nil ;;
  nil <- get_nil this ;; set_right nil nil ;;
  nil <- get_nil this ;; set_parent nil nil.

(** [erase_tree]: breadth-first release of a subtree; the queue is a list,
    front at the head. *)
Definition erase_tree (this : N) (root : ptr) : M unit :=
  nil <- get_nil this ;;
  if root =?p nil then ret tt
  else
    fuel <- get_fuel ;;
    loop fuel (fun buffor : list ptr =>
      match buffor with
      | [] => ret (inr tt)
      | x :: buffor =>
          xl <- get_left x ;; nil <- get_nil this ;;
          let buffor := if negb (xl =?p nil) then buffor ++ [xl] else buffor in
          xr <- get_right x ;; nil <- get_nil this ;;
          let buffor := if negb (xr =?p nil) then buffor ++ [xr] else buffor in
          delete_node x ;;
          ret (inl buffor)
      end) [root].

(** [delete_all_memory] *)
Definition delete_all_memory (this : N) : M unit :=
  r <- get_root this ;; erase_tree this r ;;
  nil <- get_nil this ;; delete_node nil ;;
  set_nil this null ;;
  set_root this null.

(** [~ordered_set()] *)
Definition dtor (this : N) : M unit := delete_all_memory this.

(** ** Search/Rank Engine *)

(** [min(node* x)] and [max(node* x)] *)
Definition min_node (this : N) (x : ptr) : M ptr :=
  nil <- get_nil this ;;
  if negb (x =?p nil) then
    fuel <- get_fuel ;;
    loop fuel (fun x =>
      xl <- get_left x ;; nil <- get_nil this ;;
      if negb (xl =?p nil) then ret (inl xl) else ret (inr x)) x
  else ret x.

Definition max_node (this : N) (x : ptr) : M ptr :=
  nil <- get_nil this ;;
  if negb (x =?p nil) then
    fuel <- get_fuel ;;
    loop fuel (fun x =>
      xr <- get_right x ;; nil <- get_nil this ;;
      if negb (xr =?p nil) then ret (inl xr) else ret (inr x)) x
  else ret x.

(** [successor] and [predecessor] *)
Definition successor (this : N) (x : ptr) : M ptr :=
  xr <- get_right x ;; nil <- get_nil this ;;
  if negb (xr =?p nil) then min_node this xr
  else
    fuel <- get_fuel ;;
    loop fuel (fun x =>
      nil <- get_nil this ;;
      if negb (x =?p nil) then
        xp <- get_parent x ;; xpl <- get_left xp ;;
        if x =?p xpl then ret (inr xp)
        else ret (inl xp)
      else ret (inr nil)) x.

Definition predecessor (this : N) (x : ptr) : M ptr :=
  xl <- get_left x ;; nil <- get_nil this ;;
  if negb (xl =?p nil) then max_node this xl
  else
    fuel <- get_fuel ;;
    loop fuel (fun x =>
      nil <- get_nil this ;;
      if negb (x =?p nil) then
        xp <- get_parent x ;; xpr <- get_right xp ;;
        if x =?p xpr then ret (inr xp)
        else ret (inl xp)
      else ret (inr nil)) x.

(** [search] *)
Definition search (this : N) (key : Key) : M ptr :=
  x <- get_root this ;;
  fuel <- get_fuel ;;
  loop fuel (fun x =>
    nil <- get_nil this ;;
    if negb (x =?p nil) then
      k <- get_key x ;;
      if not_equal key k then
        if CMP key k then xl <- get_left x ;; ret (inl xl)
        else xr <- get_right x ;; ret (inl xr)
      else ret (inr x)
    else ret (inr x)) x.

(** [order_of_key] *)
Definition order_of_key (this : N) (key : Key) : M Z :=
  r <- get_root this ;;
  current <- get_size r ;;
  x <- get_root this ;;
  fuel <- get_fuel ;;
  r <- loop fuel (fun '(current, x) =>
    nil <- get_nil this ;;
    if negb (x =?p nil) then
      k <- get_key x ;;
      if not_equal key k then
        if CMP key k then
          let current := wrap (current - 1) in
          xr <- get_right x ;; nil <- get_nil this ;;
          current <- (if negb (xr =?p nil)
                      then s <- get_size xr ;; ret (wrap (current - s))
                      else ret current) ;;
          xl <- get_left x ;;
          ret (inl (current, xl))
        else
          xr <- get_right x ;; ret (inl (current, xr))
      else ret (inr (current, x))
    else ret (inr (current, x))) (current, x) ;;
  let '(current, x) := r in
  xr <- get_right x ;; nil <- get_nil this ;;
  current <- (if negb (xr =?p nil)
              then s <- get_size xr ;; ret (wrap (current - s))
              else ret current) ;;
  nil <- get_nil this ;;
  let current := if negb (x =?p nil) then wrap (current - 1) else current in
  ret current.

(** [find(key)] *)
Definition find (this : N) (key : Key) : M const_iterator :=
  x <- search this key ;; ret (mk_it this x).

(** [find_by_order] *)
Definition find_by_order (this : N) (order : Z) : M const_iterator :=
  r <- get_root this ;; rl <- get_left r ;;
  current <- get_size rl ;;
  x <- get_root this ;;
  fuel <- get_fuel ;;
  x <- loop fuel (fun '(current, x) =>
    nil <- get_nil this ;;
    if negb (x =?p nil) && negb (current =? order) then
      if current >? order then
        xl <- get_left x ;; s <- get_size xl ;;
        let current := wrap (current - s) in
        x <- get_left x ;;
        xl <- get_left x ;; s <- get_size xl ;;
        let current := wrap (current + s) in
        ret (inl (current, x))
      else
        x <- get_right x ;;
        xl <- get_left x ;; s <- get_size xl ;;
        let current := wrap (current + wrap (1 + s)) in
        ret (inl (current, x))
    else ret (inr x)) (current, x) ;;
  ret (mk_it this x).

(** [size()] and [empty()] *)
Definition size_ (this : N) : M Z :=
  r <- get_root this ;; get_size r.

Definition empty_ (this : N) : M bool :=
  r <- get_root this ;; s <- get_size r ;; ret (s =? 0).

(** [min()], [max()], [begin()], [end()] *)
Definition min_ (this : N) : M const_iterator :=
  r <- get_root this ;; x <- min_node this r ;; ret (mk_it this x).

Definition max_ (this : N) : M const_iterator :=
  r <- get_root this ;; x <- max_node this r ;; ret (mk_it this x).

Definition begin_ (this : N) : M const_iterator := find_by_order this 0.

Definition end_ (this : N) : M const_iterator :=
  nil <- get_nil this ;; ret (mk_it this nil).

(** [clear()] *)
Definition clear (this : N) : M unit :=
  r <- get_root this ;; erase_tree this r ;;
  nil <- get_nil this ;; set_root this nil.

(** ** Balancing Engine *)

(** [rotate_left] and [rotate_right] *)
Definition rotate_left (this : N) (x : ptr) : M unit :=
  y <- get_right x ;;
  yl <- get_left y ;; set_right x yl ;;
  yl <- get_left y ;; nil <- get_nil this ;;
  when (negb (yl =?p nil)) (set_parent yl x) ;;
  xp <- get_parent x ;; set_parent y xp ;;
  xp <- get_parent x ;; nil <- get_nil this ;;
  (if xp =?p nil then set_root this y
   else
     xpl <- get_left xp ;;
     if x =?p xpl then set_left xp y
     else set_right xp y) ;;
  set_left y x ;;
  set_parent x y ;;
  xl <- get_left x ;; nil <- get_nil this ;;
  when (negb (xl =?p nil)) (s <- get_size xl ;; add_size y s) ;;
  add_size y 1 ;;
  yr <- get_right y ;; nil <- get_nil this ;;
  when (negb (yr =?p nil)) (s <- get_size yr ;; sub_size x s) ;;
  sub_size x 1.

Definition rotate_right (this : N) (x : ptr) : M unit :=
  y <- get_left x ;;
  yr <- get_right y ;; set_left x yr ;;
  yr <- get_right y ;; nil <- get_nil this ;;
  when (negb (yr =?p nil)) (set_parent yr x) ;;
  xp <- get_parent x ;; set_parent y xp ;;
  xp <- get_parent x ;; nil <- get_nil this ;;
  (if xp =?p nil then set_root this y
   else
     xpl <- get_left xp ;;
     if x =?p xpl then set_left xp y
     else set_right xp y) ;;
  set_right y x ;;
  set_parent x y ;;
  xr <- get_right x ;; nil <- get_nil this ;;
  when (negb (xr =?p nil)) (s <- get_size xr ;; add_size y s) ;;
  add_size y 1 ;;
  yl <- get_left y ;; nil <- get_nil this ;;
  when (negb (yl =?p nil)) (s <- get_size yl ;; sub_size x s) ;;
  sub_size x 1.

(** [transplant] *)
Definition transplant (this : N) (u v : ptr) : M unit :=
  up <- get_parent u ;; nil <- get_nil this ;;
  (if up =?p nil then set_root this v
   else
     upl <- get_left up ;;
     if u =?p upl then set_left up v
     else set_right up v) ;;
  up <- get_parent u ;; set_parent v up.

(** [updateSize]; [value] is a [size_t], so the caller's [-1] arrives as
    [SIZE_MAX]. *)
Definition updateSize (start end_ : ptr) (value : Z) : M unit :=
  fuel <- get_fuel ;;
  loop fuel (fun start =>
    if negb (start =?p end_) then
      add_size start value ;;
      p <- get_parent start ;;
      ret (inl p)
    else ret (inr tt)) start.

(** [fixup_insert]: one round of the [while] loop, then the function. *)
Definition fixup_insert_body (this : N) (z : ptr) : M (ptr + unit) :=
  zp <- get_parent z ;; c <- get_color zp ;;
  if Bool.eqb c RED then
    zp <- get_parent z ;; zpp <- get_parent zp ;; zppl <- get_left zpp ;;
    if zp =?p zppl then
      y <- get_right zpp ;;
      yc <- get_color y ;;
      if Bool.eqb yc RED then
        zp <- get_parent z ;; set_color zp BLACK ;;
        set_color y BLACK ;;
        zp <- get_parent z ;; zpp <- get_parent zp ;; set_color zpp RED ;;
        zp <- get_parent z ;; zpp <- get_parent zp ;;
        ret (inl zpp)
      else
        zp <- get_parent z ;; zpr <- get_right zp ;;
        z <- (if z =?p zpr then rotate_left this zp ;; ret zp else ret z) ;;
        zp <- get_parent z ;; set_color zp BLACK ;;
        zp <- get_parent z ;; zpp <- get_parent zp ;; set_color zpp RED ;;
        zp <- get_parent z ;; zpp <- get_parent zp ;; rotate_right this zpp ;;
        ret (inl z)
    else
      y <- get_left zpp ;;
      yc <- get_color y ;;
      if Bool.eqb yc RED then
        zp <- get_parent z ;; set_color zp BLACK ;;
        set_color y BLACK ;;
        zp <- get_parent z ;; zpp <- get_parent zp ;; set_color zpp RED ;;
        zp <- get_parent z ;; zpp <- get_parent zp ;;
        ret (inl zpp)
      else
        zp <- get_parent z ;; zpl <- get_left zp ;;
        z <- (if z =?p zpl then rotate_right this zp ;; ret zp else ret z) ;;
        zp <- get_parent z ;; set_color zp BLACK ;;
        zp <- get_parent z ;; zpp <- get_parent zp ;; set_color zpp RED ;;
        zp <- get_parent z ;; zpp <- get_parent zp ;; rotate_left this zpp ;;
        ret (inl z)
  else ret (inr tt).

Definition fixup_insert (this : N) (z : ptr) : M unit :=
  fuel <- get_fuel ;;
  loop fuel (fixup_insert_body this) z ;;
  r <- get_root this ;; set_color r BLACK.

(** [insert] *)
Definition insert (this : N) (key : Key) : M (const_iterator * bool) :=
  x <- get_root this ;;
  y <- get_nil this ;;
  fuel <- get_fuel ;;
  r <- loop fuel (fun '(x, y) =>
    nil <- get_nil this ;;
    if negb (x =?p nil) then
      let y := x in
      k <- get_key x ;;
      if equal key k then ret (inr (inr x))
      else if CMP key k then xl <- get_left x ;; ret (inl (xl, y))
      else xr <- get_right x ;; ret (inl (xr, y))
    else ret (inr (inl y))) (x, y) ;;
  match r with
  | inr x => ret (mk_it this x, false)
  | inl y =>
      nil <- get_nil this ;;
      z <- new_node (mk_node 1 nil nil y key RED) ;;
      nil <- get_nil this ;;
      (if y =?p nil then set_root this z
       else
         zk <- get_key z ;; yk <- get_key y ;;
         if CMP zk yk then set_left y z
         else set_right y z) ;;
      zp <- get_parent z ;; nil <- get_nil this ;;
      updateSize zp nil 1 ;;
      fixup_insert this z ;;
      ret (mk_it this z, true)
  end.

(** [fixup_erase]: one round of the [while] loop, then the function. *)
Definition fixup_erase_body (this : N) (x : ptr) : M (ptr + ptr) :=
  r <- get_root this ;;
  xc <- (if negb (x =?p r) then get_color x else ret RED) ;;
  if negb (x =?p r) && Bool.eqb xc BLACK then
    xp <- get_parent x ;; xpl <- get_left xp ;;
    if x =?p xpl then
      w <- get_right xp ;;
      wc <- get_color w ;;
      w <- (if Bool.eqb wc RED then
              set_color w BLACK ;;
              xp <- get_parent x ;; set_color xp RED ;;
              xp <- get_parent x ;; rotate_left this xp ;;
              xp <- get_parent x ;; get_right xp
            else ret w) ;;
      wl <- get_left w ;; wlc <- get_color wl ;;
      wr <- get_right w ;;
      wrc <- (if Bool.eqb wlc BLACK then get_color wr else ret RED) ;;
      if Bool.eqb wlc BLACK && Bool.eqb wrc BLACK then
        set_color w RED ;;
        xp <- get_parent x ;;
        ret (inl xp)
      else
        wr <- get_right w ;; wrc <- get_color wr ;;
        w <- (if Bool.eqb wrc BLACK then
                wl <- get_left w ;; set_color wl BLACK ;;
                set_color w RED ;;
                rotate_right this w ;;
                xp <- get_parent x ;; get_right xp
              else ret w) ;;
        xp <- get_parent x ;; xpc <- get_color xp ;; set_color w xpc ;;
        xp <- get_parent x ;; set_color xp BLACK ;;
        wr <- get_right w ;; set_color wr BLACK ;;
        xp <- get_parent x ;; rotate_left this xp ;;
        r <- get_root this ;;
        ret (inl r)
    else
      w <- get_left xp ;;
      wc <- get_color w ;;
      w <- (if Bool.eqb wc RED then
              set_color w BLACK ;;
              xp <- get_parent x ;; set_color xp RED ;;
              xp <- get_parent x ;; rotate_right this xp ;;
              xp <- get_parent x ;; get_left xp
            else ret w) ;;
      wr <- get_right w ;; wrc <- get_color wr ;;
      wl <- get_left w ;;
      wlc <- (if Bool.eqb wrc BLACK then get_color wl else ret RED) ;;
      if Bool.eqb wrc BLACK && Bool.eqb wlc BLACK then
        set_color w RED ;;
        xp <- get_parent x ;;
        ret (inl xp)
      else
        wl <- get_left w ;; wlc <- get_color wl ;;
        w <- (if Bool.eqb wlc BLACK then
                wr <- get_right w ;; set_color wr BLACK ;;
                set_color w RED ;;
                rotate_left this w ;;
                xp <- get_parent x ;; get_left xp
              else ret w) ;;
        xp <- get_parent x ;; xpc <- get_color xp ;; set_color w xpc ;;
        xp <- get_parent x ;; set_color xp BLACK ;;
        wl <- get_left w ;; set_color wl BLACK ;;
        xp <- get_parent x ;; rotate_right this xp ;;
        r <- get_root this ;;
        ret (inl r)
  else ret (inr x).

Definition fixup_erase (this : N) (x : ptr) : M unit :=
  fuel <- get_fuel ;;
  x <- loop fuel (fixup_erase_body this) x ;;
  set_color x BLACK.

(** [erase(node* z)] *)
Definition erase_node (this : N) (z : ptr) : M const_iterator :=
  zp <- get_parent z ;; nil <- get_nil this ;;
  updateSize zp nil (wrap (-1)) ;;
  sz <- successor this z ;;
  let it := mk_it this sz in
  let y := z in
  yc <- get_color y ;;
  let y_original_color := yc in
  zl <- get_left z ;; nil <- get_nil this ;;
  r <-
    (if zl =?p nil then
       x <- get_right z ;;
       zr <- get_right z ;; transplant this z zr ;;
       ret (x, y_original_color)
     else
       zr <- get_right z ;; nil <- get_nil this ;;
       if zr =?p nil then
         x <- get_left z ;;
         zl <- get_left z ;; transplant this z zl ;;
         ret (x, y_original_color)
       else
         zr <- get_right z ;; y <- min_node this zr ;;
         y_original_color <- get_color y ;;
         x <- get_right y ;;
         yp <- get_parent y ;;
         (if yp =?p z then set_parent x y
          else
            yp <- get_parent y ;; updateSize yp z (wrap (-1)) ;;
            yr <- get_right y ;; s <- get_size yr ;; sub_size y s ;;
            yr <- get_right y ;; transplant this y yr ;;
            zr <- get_right z ;; set_right y zr ;;
            yr <- get_right y ;; set_parent yr y ;;
            yr <- get_right y ;; s <- get_size yr ;; add_size y s) ;;
         transplant this z y ;;
         zl <- get_left z ;; set_left y zl ;;
         yl <- get_left y ;; set_parent yl y ;;
         zc <- get_color z ;; set_color y zc ;;
         yl <- get_left y ;; s <- get_size yl ;; add_size y s ;;
         ret (x, y_original_color)) ;;
  let '(x, y_original_color) := r in
  when (Bool.eqb y_original_color BLACK) (fixup_erase this x) ;;
  nil <- get_nil this ;; set_parent nil nil ;;
  nil <- get_nil this ;; c <- get_color nil ;;
  (if Bool.eqb c BLACK then ret tt else fail AssertFail) ;;
  delete_node z ;;
  ret it.

(** [erase(const Key&)] *)
Definition erase (this : N) (key : Key) : M const_iterator :=
  z <- search this key ;;
  nil <- get_nil this ;;
  if z =?p nil then ret (mk_it this nil)
  else erase_node this z.

(** ** Container lifecycle *)

(** [deep_copy(src, dst)] *)
Definition deep_copy (src dst : N) : M unit :=
  r <- get_root src ;; nil <- get_nil src ;;
  if r =?p nil then ret tt
  else
    r <- get_root src ;;
    fuel <- get_fuel ;;
    loop fuel (fun buffor : list ptr =>
      match buffor with
      | [] => ret (inr tt)
      | x :: buffor =>
          k <- get_key x ;; insert dst k ;;
          xl <- get_left x ;; nil <- get_nil src ;;
          let buffor := if negb (xl =?p nil) then buffor ++ [xl] else buffor in
          xr <- get_right x ;; nil <- get_nil src ;;
          let buffor := if negb (xr =?p nil) then buffor ++ [xr] else buffor in
          ret (inl buffor)
      end) [r].

(** [ordered_set(const ordered_set& other)] *)
Definition copy_ctor (this other : N) : M unit :=
  ctor this ;;
  deep_copy other this.

(** [ordered_set(ordered_set&& other)] *)
Definition move_ctor (this other : N) : M unit :=
  o <- load_obj other ;;
  store_obj this (mk_set (m_nil o) (m_root o)) ;;
  nil <- new_node (mk_node 0 null null null Key0 BLACK) ;;
  set_nil other nil ;;
  nil <- get_nil other ;; set_root other nil.

(** [operator=(const ordered_set& other)]; the result is returned by value,
    copy-constructed from [*this] into the caller's slot [result]. *)
Definition copy_assign (this other result : N) : M unit :=
  if N.eqb other this then copy_ctor result this
  else
    deep_copy other this ;;
    copy_ctor result this.

(** [operator=(ordered_set&& other)] *)
Definition move_assign (this other result : N) : M unit :=
  if N.eqb other this then copy_ctor result this
  else
    delete_all_memory this ;;
    n <- get_nil other ;; set_nil this n ;;
    r <- get_root other ;; set_root this r ;;
    nil <- new_node (mk_node 0 null null null Key0 BLACK) ;;
    set_nil other nil ;;
    nil <- get_nil other ;; set_root other nil ;;
    copy_ctor result this.

(** ** Iteration Protocol *)

(** [const_iterator::operator=]: both members are assigned, and the function
    body ends without a [return] statement, so no iterator is handed back:
    the second component is the returned value, if any. *)
Definition it_assign (self other : const_iterator) : const_iterator * option const_iterator :=
  let self := mk_it (m_tree other) (m_node self) in
  let self := mk_it (m_tree self) (m_node other) in
  (self, None).

(** [operator++()] and [operator--()] *)
Definition it_incr (self : const_iterator) : M const_iterator :=
  x <- successor (m_tree self) (m_node self) ;;
  ret (mk_it (m_tree self) x).

Definition it_decr (self : const_iterator) : M const_iterator :=
  x <- predecessor (m_tree self) (m_node self) ;;
  ret (mk_it (m_tree self) x).

(** [operator==], [operator!=], [operator*] *)
Definition it_eq (self other : const_iterator) : bool := m_node self =?p m_node other.
Definition it_ne (self other : const_iterator) : bool := negb (m_node self =?p m_node other).
Definition it_deref (self : const_iterator) : M Key := get_key (m_node self).

(** The client loop: start at [begin()], stop at [end()], collect each key and increment. *)
Definition iterate (this : N) : M (list Key) :=
  it <- begin_ this ;;
  fuel <- get_fuel ;;
  loop fuel (fun '(it, out) =>
    e <- end_ this ;;
    if it_ne it e then
      k <- it_deref it ;;
      it <- it_incr it ;;
      ret (inl (it, out ++ [k]))
    else ret (inr out)) (it, []).

End OrderedSet.

Arguments node Key : clear implicits.
Arguments state Key : clear implicits.
Arguments M Key A : clear implicits.

(** * Specification-level view of the node graph *)

(** The requirements on [Cmp_Fn]: a strict weak ordering. *)
Record StrictWeakOrder {Key : Type} (CMP : Key -> Key -> bool) : Prop := {
  swo_irrefl : forall a, CMP a a = false;
  swo_trans : forall a b c, CMP a b = true -> CMP b c = true -> CMP a c = true;
  swo_equiv_trans : forall a b c, equal CMP a b = true -> equal CMP b c = true -> equal CMP a c = true
}.

Section Abstraction.

Context {Key : Type}.
Variable CMP : Key -> Key -> bool.
Variable Key0 : Key.

(** A tree of nodes, each with the address it lives at. *)
Inductive ptree :=
| PLeaf
| PNode (p : ptr) (c : bool) (s : Z) (l : ptree) (k : Key) (r : ptree).

(** One step of the path from a subtree up to the root: the parent node and
    the sibling subtree. *)
Inductive frame :=
| FL (p : ptr) (c : bool) (s : Z) (k : Key) (r : ptree)
| FR (p : ptr) (c : bool) (s : Z) (l : ptree) (k : Key).

Definition ctx := list frame.

Definition plug1 (f : frame) (t : ptree) : ptree :=
  match f with
  | FL p c s k r => PNode p c s t k r
  | FR p c s l k => PNode p c s l k t
  end.

Fixpoint plug (c : ctx) (t : ptree) : ptree :=
  match c with
  | [] => t
  | f :: up => plug up (plug1 f t)
  end.

(** The address of the root of a subtree; the sentinel for the empty one. *)
Definition rootp (nil : ptr) (t : ptree) : ptr :=
  match t with
  | PLeaf => nil
  | PNode p _ _ _ _ _ => p
  end.

Definition frame_ptr (f : frame) : ptr :=
  match f with
  | FL p _ _ _ _ => p
  | FR p _ _ _ _ => p
  end.

Definition ctx_ptr (nil : ptr) (c : ctx) : ptr :=
  match c with
  | [] => nil
  | f :: _ => frame_ptr f
  end.

(** The address of the root of [plug c t], given the address [child] of the
    root of [t]. *)
Fixpoint ctx_root (c : ctx) (child : ptr) : ptr :=
  match c with
  | [] => child
  | f :: up => ctx_root up (frame_ptr f)
  end.

(** In-order listings. *)
Fixpoint ptrs (t : ptree) : list ptr :=
  match t with
  | PLeaf => []
  | PNode p _ _ l _ r => ptrs l ++ p :: ptrs r
  end.

Fixpoint keys (t : ptree) : list Key :=
  match t with
  | PLeaf => []
  | PNode _ _ _ l k r => keys l ++ k :: keys r
  end.

(** The nodes in order, each with its address and its key. *)
Fixpoint nodes (t : ptree) : list (ptr * Key) :=
  match t with
  | PLeaf => []
  | PNode p _ _ l k r => nodes l ++ (p, k) :: nodes r
  end.

Fixpoint nodes_before (c : ctx) : list (ptr * Key) :=
  match c with
  | [] => []
  | FL _ _ _ _ _ :: up => nodes_before up
  | FR p _ _ l k :: up => nodes_before up ++ nodes l ++ [(p, k)]
  end.

Fixpoint nodes_after (c : ctx) : list (ptr * Key) :=
  match c with
  | [] => []
  | FL p _ _ k r :: up => (p, k) :: nodes r ++ nodes_after up
  | FR _ _ _ _ _ :: up => nodes_after up
  end.

Fixpoint ctx_ptrs (c : ctx) : list ptr :=
  match c with
  | [] => []
  | FL p _ _ _ r :: up => p :: ptrs r ++ ctx_ptrs up
  | FR p _ _ l _ :: up => p :: ptrs l ++ ctx_ptrs up
  end.

(** Keys to the left and to the right of the hole. *)
Fixpoint keys_before (c : ctx) : list Key :=
  match c with
  | [] => []
  | FL _ _ _ _ _ :: up => keys_before up
  | FR _ _ _ l k :: up => keys_before up ++ keys l ++ [k]
  end.

Fixpoint keys_after (c : ctx) : list Key :=
  match c with
  | [] => []
  | FL _ _ _ k r :: up => k :: keys r ++ keys_after up
  | FR _ _ _ _ _ :: up => keys_after up
  end.

Fixpoint ptrs_before (c : ctx) : list ptr :=
  match c with
  | [] => []
  | FL _ _ _ _ _ :: up => ptrs_before up
  | FR p _ _ l _ :: up => ptrs_before up ++ ptrs l ++ [p]
  end.

Fixpoint ptrs_after (c : ctx) : list ptr :=
  match c with
  | [] => []
  | FL p _ _ _ r :: up => p :: ptrs r ++ ptrs_after up
  | FR _ _ _ _ _ :: up => ptrs_after up
  end.

(** Number of nodes, and the [size] member of the root. *)
Fixpoint count (t : ptree) : Z :=
  match t with
  | PLeaf => 0
  | PNode _ _ _ l _ r => 1 + count l + count r
  end.

Definition tsize (t : ptree) : Z :=
  match t with
  | PLeaf => 0
  | PNode _ _ s _ _ _ => s
  end.

Definition tcolor (t : ptree) : bool :=
  match t with
  | PLeaf => BLACK
  | PNode _ c _ _ _ _ => c
  end.

Definition tleft (t : ptree) : ptree :=
  match t with
  | PLeaf => PLeaf
  | PNode _ _ _ l _ _ => l
  end.

Definition tright (t : ptree) : ptree :=
  match t with
  | PLeaf => PLeaf
  | PNode _ _ _ _ _ r => r
  end.

Definition tkey (t : ptree) : Key :=
  match t with
  | PLeaf => Key0
  | PNode _ _ _ _ k _ => k
  end.

(** The record at the root of [t]: a node of the tree, or the sentinel. *)
Definition root_node (nil np par : ptr) (t : ptree) : node Key :=
  mk_node (tsize t) (rootp nil (tleft t)) (rootp nil (tright t))
    (match t with PLeaf => np | PNode _ _ _ _ _ _ => par end) (tkey t) (tcolor t).

Fixpoint height (t : ptree) : nat :=
  match t with
  | PLeaf => O
  | PNode _ _ _ l _ r => S (Nat.max (height l) (height r))
  end.

(** ** The heap holds the tree *)

(** [shape h nil par t]: the heap [h] holds the nodes of [t], linked as [t]
    says, with the root's [parent] member equal to [par]. *)
Fixpoint shape (h : gmap N (node Key)) (nil par : ptr) (t : ptree) : Prop :=
  match t with
  | PLeaf => True
  | PNode p c s l k r =>
      h !! p = Some (mk_node s (rootp nil l) (rootp nil r) par k c) /\
      shape h nil p l /\ shape h nil p r
  end.

(** [ctx_shape h nil child c]: the heap holds the path [c], the node at its
    lower end having [child] as the child on the side of the hole. *)
Fixpoint ctx_shape (h : gmap N (node Key)) (nil child : ptr) (c : ctx) : Prop :=
  match c with
  | [] => True
  | FL p c s k r :: up =>
      h !! p = Some (mk_node s child (rootp nil r) (ctx_ptr nil up) k c) /\
      shape h nil p r /\ ctx_shape h nil p up
  | FR p c s l k :: up =>
      h !! p = Some (mk_node s (rootp nil l) child (ctx_ptr nil up) k c) /\
      shape h nil p l /\ ctx_shape h nil p up
  end.

(** The object at [this] owns the tree [plug c t], seen from the subtree [t];
    [np] is the current content of the sentinel's [parent] member. *)
Record zrep (this : N) (nil np : ptr) (c : ctx) (t : ptree) (s : state Key) : Prop := {
  zrep_obj : objs s !! this = Some (mk_set nil (ctx_root c (rootp nil t)));
  zrep_nil : heap s !! nil = Some (mk_node 0 nil nil np Key0 BLACK);
  zrep_ctx : ctx_shape (heap s) nil (rootp nil t) c;
  zrep_sub : shape (heap s) nil (ctx_ptr nil c) t;
  zrep_nodup : NoDup (null :: nil :: ptrs t ++ ctx_ptrs c)
}.

(** The representation invariant seen from the root. *)
Definition rep (this : N) (nil : ptr) (t : ptree) (s : state Key) : Prop :=
  zrep this nil nil [] t s.

(** ** The invariants of the data model *)

(** Binary-search-tree order. *)
Fixpoint bst (t : ptree) : Prop :=
  match t with
  | PLeaf => True
  | PNode _ _ _ l k r =>
      bst l /\ bst r /\
      Forall (fun x => CMP x k = true) (keys l) /\
      Forall (fun x => CMP k x = true) (keys r)
  end.

(** Size augmentation; the [size_t] members hold the true counts. *)
Fixpoint sizes_ok (t : ptree) : Prop :=
  match t with
  | PLeaf => True
  | PNode _ _ s l _ r => s = 1 + tsize l + tsize r /\ sizes_ok l /\ sizes_ok r
  end.

(** Red-black colouring: [rbt n t] says every path from the root of [t] to a
    leaf passes [n] black nodes and no red node has a red child. *)
Fixpoint rbt (n : nat) (t : ptree) : Prop :=
  match t with
  | PLeaf => n = O
  | PNode _ c _ l _ r =>
      if c then
        match n with
        | O => False
        | S n' => rbt n' l /\ rbt n' r
        end
      else
        tcolor l = BLACK /\ tcolor r = BLACK /\ rbt n l /\ rbt n r
  end.

Definition red_black (t : ptree) : Prop :=
  tcolor t = BLACK /\ exists n, rbt n t.

End Abstraction.

Arguments PLeaf {Key}.
Arguments ptree Key : clear implicits.
Arguments frame Key : clear implicits.
Arguments ctx Key : clear implicits.

(** * What the claims speak of *)

Section Specification.

Context {Key : Type}.
Variable CMP : Key -> Key -> bool.
Variable Key0 : Key.

Notation "x <- m ;; k" := (bind m (fun x => k))
  (at level 100, m at next level, right associativity).
Notation "m ;; k" := (bind m (fun _ => k))
  (at level 100, right associativity).

(** The object at [this] holds a well-formed tree [T]. *)
Definition wf (this : N) (nil : ptr) (T : ptree Key) (s : state Key) : Prop :=
  rep Key0 this nil T s /\ bst CMP T /\ sizes_ok T /\ red_black T.

(** The number of keys of [l] that are less than [key]. *)
Fixpoint count_less (key : Key) (l : list Key) : Z :=
  match l with
  | [] => 0
  | x :: l' => (if CMP x key then 1 else 0) + count_less key l'
  end.

(** Strictly increasing lists of keys. *)
Definition lt (a b : Key) : Prop := CMP a b = true.

Definition sorted (l : list Key) : Prop := StronglySorted lt l.

(** Insertion into and removal from a strictly increasing list, up to
    equivalence of keys; membership up to equivalence. *)
Fixpoint ins_list (key : Key) (l : list Key) : list Key :=
  match l with
  | [] => [key]
  | x :: l' =>
      if CMP key x then key :: x :: l'
      else if CMP x key then x :: ins_list key l'
      else x :: l'
  end.

Fixpoint del_list (key : Key) (l : list Key) : list Key :=
  match l with
  | [] => []
  | x :: l' =>
      if CMP key x then x :: l'
      else if CMP x key then x :: del_list key l'
      else l'
  end.

Definition mem_list (key : Key) (l : list Key) : bool :=
  existsb (fun x => equal CMP key x) l.

(** A client's mutating calls. *)
Inductive op :=
| Insert (k : Key)
| Erase (k : Key).

Definition run_op (this : N) (o : op) : M Key unit :=
  match o with
  | Insert k => insert CMP this k ;; ret tt
  | Erase k => erase CMP this k ;; ret tt
  end.

Fixpoint run_ops (this : N) (ops : list op) : M Key unit :=
  match ops with
  | [] => ret tt
  | o :: ops' => run_op this o ;; run_ops this ops'
  end.

(** A default-constructed set followed by the calls [ops]. *)
Definition session (this : N) (ops : list op) : M Key unit :=
  ctor Key0 this ;; run_ops this ops.

(** The keys a set should hold, as a sorted list without equivalent keys. *)
Definition model_op (l : list Key) (o : op) : list Key :=
  match o with
  | Insert k => ins_list k l
  | Erase k => del_list k l
  end.

Definition model_ops (ops : list op) : list Key := fold_left model_op ops [].

(** The black height below [p] when, at [p] and below, every [size] member is
    one more than the sizes of the two children, no red node has a red child
    and both sides of every node have the same black height. *)
Fixpoint check_node (h : gmap N (node Key)) (nil : ptr) (fuel : nat) (p : ptr) : option nat :=
  match fuel with
  | O => None
  | S fuel' =>
      if p =?p nil then Some O
      else
        match h !! p with
        | None => None
        | Some n =>
            match h !! n_left n, h !! n_right n with
            | Some l, Some r =>
                match check_node h nil fuel' (n_left n), check_node h nil fuel' (n_right n) with
                | Some bl, Some br =>
                    if (n_size n =? 1 + n_size l + n_size r) && (bl =? br)%nat &&
                       (n_color n || (n_color l && n_color r))
                    then Some (if n_color n then S bl else bl)
                    else None
                | _, _ => None
                end
            | _, _ => None
            end
        end
  end.

(** Root and sentinel black, the sentinel of size 0, and the whole tree in
    order for [check_node]. *)
Definition validate (this : N) (s : state Key) : bool :=
  match objs s !! this with
  | None => false
  | Some o =>
      match heap s !! m_nil o, heap s !! m_root o with
      | Some nl, Some rt =>
          n_color nl && (n_size nl =? 0) && n_color rt &&
          match check_node (heap s) (m_nil o) (S (size (heap s))) (m_root o) with
          | Some _ => true
          | None => false
          end
      | _, _ => false
      end
  end.

End Specification.

Notation "x <- m ;; k" := (bind m (fun x => k))
  (at level 100, m at next level, right associativity).
Notation "m ;; k" := (bind m (fun _ => k))
  (at level 100, right associativity).

(** * Weakest preconditions for the monad *)

Section Wp.

Context {Key : Type}.

Definition wp {A} (m : M Key A) (s : state Key) (Q : A -> state Key -> Prop) : Prop :=
  match m s with
  | Ok a s' => Q a s'
  | Err _ => False
  end.

Lemma wp_ok {A} (m : M Key A) s Q :
  wp m s Q <-> exists a s', m s = Ok a s' /\ Q a s'.
Proof.
  unfold wp. split.
  - destruct (m s); [eauto | tauto].
  - intros (a & s' & -> & H). exact H.
Qed.

Lemma wp_ret {A} (a : A) s (Q : A -> state Key -> Prop) : Q a s -> wp (ret a) s Q.
Proof. exact id. Qed.

Lemma wp_bind {A B} (m : M Key A) (k : A -> M Key B) s Q :
  wp m s (fun a s' => wp (k a) s' Q) -> wp (bind m k) s Q.
Proof. unfold wp, bind. destruct (m s); auto. Qed.

Lemma wp_bind_inv {A B} (m : M Key A) (k : A -> M Key B) s Q :
  wp (bind m k) s Q -> wp m s (fun a s' => wp (k a) s' Q).
Proof. unfold wp, bind. destruct (m s); auto. Qed.

Lemma wp_mono {A} (m : M Key A) s (Q Q' : A -> state Key -> Prop) :
  wp m s Q -> (forall a s', Q a s' -> Q' a s') -> wp m s Q'.
Proof. unfold wp. destruct (m s); auto. Qed.

Lemma wp_eq {A} (m : M Key A) s a s' (Q : A -> state Key -> Prop) :
  m s = Ok a s' -> Q a s' -> wp m s Q.
Proof. unfold wp. intros ->. auto. Qed.

Lemma ptr_eqb_refl p : (p =?p p) = true.
Proof. apply N.eqb_refl. Qed.

Lemma ptr_eqb_ne p q : p <> q -> (p =?p q) = false.
Proof. apply N.eqb_neq. Qed.

Lemma ptr_eqb_eq p q : (p =?p q) = true <-> p = q.
Proof. apply N.eqb_eq. Qed.

Lemma wp_load p (n : node Key) h o Q :
  p <> null -> h !! p = Some n -> Q n (mk_state h o) -> wp (load p) (mk_state h o) Q.
Proof.
  intros Hp Hn HQ. unfold wp, load. rewrite ptr_eqb_ne by done. cbn. rewrite Hn. done.
Qed.

Lemma wp_store p (n n0 : node Key) h o (Q : unit -> state Key -> Prop) :
  p <> null -> h !! p = Some n0 -> Q tt (mk_state (<[p := n]> h) o) ->
  wp (store p n) (mk_state h o) Q.
Proof.
  intros Hp Hn HQ. unfold wp, store. rewrite ptr_eqb_ne by done. cbn. rewrite Hn. done.
Qed.

Lemma wp_load_obj this (ob : ordered_set) (h : gmap N (node Key)) o Q :
  o !! this = Some ob -> Q ob (mk_state h o) -> wp (load_obj this) (mk_state h o) Q.
Proof. intros Ho HQ. unfold wp, load_obj. cbn. rewrite Ho. done. Qed.

Lemma wp_store_obj this (ob : ordered_set) (h : gmap N (node Key)) o
    (Q : unit -> state Key -> Prop) :
  Q tt (mk_state h (<[this := ob]> o)) -> wp (store_obj this ob) (mk_state h o) Q.
Proof. done. Qed.

Lemma wp_get_fuel (h : gmap N (node Key)) o (Q : nat -> state Key -> Prop) :
  Q (S (size h)) (mk_state h o) -> wp get_fuel (mk_state h o) Q.
Proof. done. Qed.

Lemma wp_delete_node p (n0 : node Key) h o (Q : unit -> state Key -> Prop) :
  p <> null -> h !! p = Some n0 -> Q tt (mk_state (delete p h) o) ->
  wp (delete_node p) (mk_state h o) Q.
Proof.
  intros Hp Hn HQ. unfold wp, delete_node. rewrite ptr_eqb_ne by done. cbn. rewrite Hn. done.
Qed.

Lemma wp_new_node (n : node Key) h o (Q : ptr -> state Key -> Prop) :
  (forall p, p <> null -> h !! p = None -> Q p (mk_state (<[p := n]> h) o)) ->
  wp (new_node n) (mk_state h o) Q.
Proof.
  intros HQ. unfold wp, new_node. cbn.
  pose proof (is_fresh ({[null]} ∪ dom h)) as Hf.
  set (p := fresh ({[null]} ∪ dom h)) in *.
  apply HQ.
  - intros E. apply Hf. rewrite E. set_solver.
  - apply not_elem_of_dom. set_solver.
Qed.

(** The loop rule: an invariant indexed by a measure that every further
    round decreases. *)
Lemma wp_loop {A R} (body : A -> M Key (A + R)) (I : nat -> A -> state Key -> Prop)
    (Q : R -> state Key -> Prop) :
  (forall n a s, I n a s ->
     wp (body a) s (fun x s' =>
       match x with
       | inl a' => exists n', (n' < n)%nat /\ I n' a' s'
       | inr r => Q r s'
       end)) ->
  forall fuel n a s, I n a s -> (n < fuel)%nat -> wp (loop fuel body a) s Q.
Proof.
  intros Hbody. induction fuel as [|fuel IH]; intros n a s HI Hmu; [lia|].
  cbn [loop]. apply wp_bind. eapply wp_mono; [eapply Hbody, HI|].
  intros [a'|r] s' H; cbn beta iota.
  - destruct H as (n' & Hlt & HI'). eapply IH; [exact HI' | lia].
  - done.
Qed.

End Wp.

Lemma wrap_small x : 0 <= x < SIZE_MAX1 -> wrap x = x.
Proof. intros H. unfold wrap. by apply Z.mod_small. Qed.

Ltac wrap_simpl :=
  repeat match goal with
  | |- context [wrap ?x] => rewrite (wrap_small x) by lia
  end.

(** ** Distinct addresses *)

Definition disj (l k : list ptr) : Prop := forall x, x ∈ l -> x ∈ k -> False.

Lemma NoDup_app_disj (l k : list ptr) : NoDup (l ++ k) <-> NoDup l /\ NoDup k /\ disj l k.
Proof. rewrite NoDup_app. unfold disj. naive_solver. Qed.

Lemma NoDup_cons_disj (x : ptr) l : NoDup (x :: l) <-> (x ∉ l) /\ NoDup l.
Proof. apply NoDup_cons. Qed.

Lemma disj_nil_l k : disj [] k <-> True.
Proof. unfold disj. split; [done|]. intros _ x H. inversion H. Qed.
Lemma disj_nil_r l : disj l [] <-> True.
Proof. unfold disj. split; [done|]. intros _ x _ H. inversion H. Qed.
Lemma disj_cons_l x l k : disj (x :: l) k <-> (x ∉ k) /\ disj l k.
Proof. unfold disj. split.
  - intros H. split; [intros Hx; eapply H; [left|done] | intros y Hy; apply H; by right].
  - intros [H1 H2] y Hy Hk. apply elem_of_cons in Hy as [->|Hy]; [done | by eapply H2].
Qed.
Lemma disj_cons_r x l k : disj l (x :: k) <-> (x ∉ l) /\ disj l k.
Proof. unfold disj. split.
  - intros H. split; [intros Hx; eapply H; [done|left] | intros y Hy Hk; eapply H; [done | by right]].
  - intros [H1 H2] y Hy Hk. apply elem_of_cons in Hk as [->|Hk]; [done | by eapply H2].
Qed.
Lemma disj_app_l l1 l2 k : disj (l1 ++ l2) k <-> disj l1 k /\ disj l2 k.
Proof. unfold disj. setoid_rewrite elem_of_app. naive_solver. Qed.
Lemma disj_app_r l k1 k2 : disj l (k1 ++ k2) <-> disj l k1 /\ disj l k2.
Proof. unfold disj. setoid_rewrite elem_of_app. naive_solver. Qed.
Lemma disj_sym l k : disj l k -> disj k l.
Proof. unfold disj. naive_solver. Qed.
Lemma notin_nil (x : ptr) : (x ∉ @nil ptr) <-> True.
Proof. split; [done|]. intros _ H. inversion H. Qed.
Lemma notin_cons (x y : ptr) l : (x ∉ y :: l) <-> x <> y /\ (x ∉ l).
Proof. apply not_elem_of_cons. Qed.
Lemma notin_app (x : ptr) l k : (x ∉ l ++ k) <-> (x ∉ l) /\ (x ∉ k).
Proof. apply not_elem_of_app. Qed.
Lemma NoDup_nil_iff : NoDup (@nil ptr) <-> True.
Proof. split; [done|]. intros _. constructor. Qed.

Lemma NoDup_perm (l k : list ptr) : l ≡ₚ k -> NoDup l -> NoDup k.
Proof. by intros ->. Qed.

Ltac nodup_facts H :=
  lazymatch type of H with
  | True => clear H
  | _ /\ _ =>
      let H1 := fresh "Hd" in let H2 := fresh "Hd" in
      destruct H as [H1 H2]; nodup_facts H1; nodup_facts H2
  | NoDup [] => clear H
  | NoDup (_ :: _) => apply NoDup_cons_disj in H; nodup_facts H
  | NoDup (_ ++ _) => apply NoDup_app_disj in H; nodup_facts H
  | disj [] _ => clear H
  | disj _ [] => clear H
  | disj (_ :: _) _ => apply disj_cons_l in H; nodup_facts H
  | disj (_ ++ _) _ => apply disj_app_l in H; nodup_facts H
  | disj _ (_ :: _) => apply disj_cons_r in H; nodup_facts H
  | disj _ (_ ++ _) => apply disj_app_r in H; nodup_facts H
  | _ ∉ [] => clear H
  | _ ∉ _ :: _ => apply notin_cons in H; nodup_facts H
  | _ ∉ _ ++ _ => apply notin_app in H; nodup_facts H
  | _ => idtac
  end.

Ltac nodup_norm :=
  repeat first
    [ rewrite NoDup_cons_disj
    | rewrite NoDup_app_disj
    | rewrite NoDup_nil_iff
    | rewrite disj_nil_l
    | rewrite disj_nil_r
    | rewrite disj_cons_l
    | rewrite disj_cons_r
    | rewrite disj_app_l
    | rewrite disj_app_r
    | rewrite notin_nil
    | rewrite notin_cons
    | rewrite notin_app ].

Ltac destruct_ands :=
  repeat match goal with
  | H : _ /\ _ |- _ => destruct H
  | H : True |- _ => clear H
  end.

Lemma rootp_ne {Key} (nil x : ptr) (t : ptree Key) :
  x <> nil -> x ∉ ptrs t -> x <> rootp nil t.
Proof.
  destruct t; cbn; [done|]. intros _ H ->. apply H.
  apply elem_of_app. right. left.
Qed.

Lemma rootp_in {Key} (nil : ptr) (t : ptree Key) :
  rootp nil t = nil \/ rootp nil t ∈ ptrs t.
Proof.
  destruct t; cbn; [by left|]. right. apply elem_of_app. right. left.
Qed.

Lemma rootp_tleft_ne {Key} (nil x : ptr) (t : ptree Key) :
  x <> nil -> x ∉ ptrs t -> x <> rootp nil (tleft t).
Proof.
  destruct t; cbn; [done|]. intros Hn H. apply rootp_ne; [done|].
  intros Hin. apply H. apply elem_of_app. by left.
Qed.

Lemma rootp_tright_ne {Key} (nil x : ptr) (t : ptree Key) :
  x <> nil -> x ∉ ptrs t -> x <> rootp nil (tright t).
Proof.
  destruct t; cbn; [done|]. intros Hn H. apply rootp_ne; [done|].
  intros Hin. apply H. apply elem_of_app. right. by right.
Qed.

Ltac ptr_ne0 :=
  solve [ assumption | apply not_eq_sym; assumption ].

Ltac ptr_ne :=
  solve [ assumption | apply not_eq_sym; assumption
        | apply rootp_ne; [ptr_ne0 | assumption]
        | apply not_eq_sym; apply rootp_ne; [ptr_ne0 | assumption]
        | apply rootp_tleft_ne; [ptr_ne0 | assumption]
        | apply not_eq_sym; apply rootp_tleft_ne; [ptr_ne0 | assumption]
        | apply rootp_tright_ne; [ptr_ne0 | assumption]
        | apply not_eq_sym; apply rootp_tright_ne; [ptr_ne0 | assumption] ].

(** Heaps as chains of updates *)

Lemma lookup_upd_ne {V} (h : gmap N V) p q n v :
  q <> p -> h !! p = v -> <[q := n]> h !! p = v.
Proof. intros Hne <-. by apply lookup_insert_ne. Qed.

Lemma lookup_upd_eq {V} (h : gmap N V) p n :
  <[p := n]> h !! p = Some n.
Proof. apply lookup_insert_eq. Qed.

Lemma lookup_del_ne {V} (h : gmap N V) p q v :
  q <> p -> h !! p = v -> delete q h !! p = v.
Proof. intros Hne <-. by apply lookup_delete_ne. Qed.

Lemma upd_same {V} (h : gmap N V) p n n0 :
  <[p := n]> (<[p := n0]> h) = <[p := n]> h.
Proof. apply insert_insert_eq. Qed.

Lemma upd_under {V} (h h' : gmap N V) p q n m :
  q <> p -> <[p := n]> h = h' -> <[p := n]> (<[q := m]> h) = <[q := m]> h'.
Proof. intros Hne <-. by apply insert_insert_ne. Qed.

Lemma wp_store_norm {Key} p (n n0 : node Key) h h' o (Q : unit -> state Key -> Prop) :
  p <> null -> h !! p = Some n0 -> <[p := n]> h = h' -> Q tt (mk_state h' o) ->
  wp (store p n) (mk_state h o) Q.
Proof. intros Hp Hn <-. by eapply wp_store. Qed.

Lemma wp_store_obj_norm {Key} this (ob : ordered_set) (h : gmap N (node Key)) o o'
    (Q : unit -> state Key -> Prop) :
  <[this := ob]> o = o' -> Q tt (mk_state h o') -> wp (store_obj this ob) (mk_state h o) Q.
Proof. intros <-. apply wp_store_obj. Qed.

Lemma root_cell {Key} (Key0 : Key) (h : gmap N (node Key)) nil np par t :
  h !! nil = Some (mk_node 0 nil nil np Key0 BLACK) -> shape h nil par t ->
  h !! rootp nil t = Some (root_node Key0 nil np par t).
Proof. destruct t; cbn; [done|]. by intros _ (H & _). Qed.

Lemma shape_tleft {Key} (h : gmap N (node Key)) nil par t :
  shape h nil par t -> shape h nil (rootp nil t) (tleft t).
Proof. destruct t; cbn; tauto. Qed.

Lemma shape_tright {Key} (h : gmap N (node Key)) nil par t :
  shape h nil par t -> shape h nil (rootp nil t) (tright t).
Proof. destruct t; cbn; tauto. Qed.

Ltac lookup_solve :=
  lazymatch goal with
  | |- <[?p := _]> _ !! ?p = _ => apply lookup_upd_eq
  | |- <[_ := _]> _ !! _ = _ => apply lookup_upd_ne; [ptr_ne | lookup_solve]
  | |- _ !! rootp _ (tleft _) = _ =>
      first [ eassumption
            | eapply root_cell; [eassumption | eapply shape_tleft; eassumption] ]
  | |- _ !! rootp _ (tright _) = _ =>
      first [ eassumption
            | eapply root_cell; [eassumption | eapply shape_tright; eassumption] ]
  | |- _ !! rootp _ _ = _ => first [ eassumption | eapply root_cell; eassumption ]
  | |- delete _ _ !! _ = _ => apply lookup_del_ne; [ptr_ne | lookup_solve]
  | |- _ => eassumption
  end.

(** [<[p:=n]> h = ?h']: overwrite the binding of [p] in the chain [h] when
    there is one, add it in front otherwise. *)
Ltac has_key p h :=
  lazymatch h with
  | <[p := _]> _ => idtac
  | <[_ := _]> ?h0 => has_key p h0
  end.

Ltac upd_norm :=
  lazymatch goal with
  | |- <[?p := _]> (<[?p := _]> _) = _ => apply upd_same
  | |- <[?p := _]> (<[?q := _]> ?h0) = _ =>
      tryif has_key p h0
      then (apply upd_under; [ptr_ne | upd_norm])
      else reflexivity
  | |- _ => reflexivity
  end.

Ltac ptr_fact :=
  solve [ assumption | apply not_eq_sym; assumption | apply disj_sym; assumption | exact I ].

Ltac solve_nodup :=
  nodup_norm; repeat split; ptr_fact.

(** ** Frame lemmas *)

Section Frame.

Context {Key : Type}.
Implicit Types (h : gmap N (node Key)) (t : ptree Key) (c : ctx Key).

Lemma shape_upd h nil par t q n :
  q ∉ ptrs t -> shape h nil par t -> shape (<[q := n]> h) nil par t.
Proof.
  revert par. induction t as [|p c s l IHl k r IHr]; intros par Hq; cbn [shape ptrs] in *; [done|].
  apply notin_app in Hq as [Hl Hq]. apply notin_cons in Hq as [Hp Hr].
  intros (H1 & H2 & H3). split; [|split].
  - by apply lookup_upd_ne.
  - by apply IHl.
  - by apply IHr.
Qed.

Lemma shape_del h nil par t q :
  q ∉ ptrs t -> shape h nil par t -> shape (delete q h) nil par t.
Proof.
  revert par. induction t as [|p c s l IHl k r IHr]; intros par Hq; cbn [shape ptrs] in *; [done|].
  apply notin_app in Hq as [Hl Hq]. apply notin_cons in Hq as [Hp Hr].
  intros (H1 & H2 & H3). split; [|split].
  - rewrite lookup_delete_ne; done.
  - by apply IHl.
  - by apply IHr.
Qed.

Lemma ctx_shape_upd h nil child c q n :
  q ∉ ctx_ptrs c -> ctx_shape h nil child c -> ctx_shape (<[q := n]> h) nil child c.
Proof.
  revert child. induction c as [|[p cp sp kp r|p cp sp l kp] up IH]; intros child Hq;
    cbn [ctx_shape ctx_ptrs] in *; [done| |].
  all: apply notin_cons in Hq as [Hp Hq]; apply notin_app in Hq as [Hr Hup].
  all: intros (H1 & H2 & H3); split; [|split];
    [ by apply lookup_upd_ne | by apply shape_upd | by apply IH ].
Qed.

Lemma ctx_shape_del h nil child c q :
  q ∉ ctx_ptrs c -> ctx_shape h nil child c -> ctx_shape (delete q h) nil child c.
Proof.
  revert child. induction c as [|[p cp sp kp r|p cp sp l kp] up IH]; intros child Hq;
    cbn [ctx_shape ctx_ptrs] in *; [done| |].
  all: apply notin_cons in Hq as [Hp Hq]; apply notin_app in Hq as [Hr Hup].
  all: intros (H1 & H2 & H3); split; [|split];
    [ rewrite lookup_delete_ne; done | by apply shape_del | by apply IH ].
Qed.

Lemma ctx_root_plug nil c t : ctx_root c (rootp nil t) = rootp nil (plug c t).
Proof.
  revert t. induction c as [|f up IH]; intros t; [done|].
  cbn [plug ctx_root]. rewrite <- IH. by destruct f.
Qed.

End Frame.

Ltac frame_solve :=
  lazymatch goal with
  | |- shape (<[_ := _]> _) _ _ _ => apply shape_upd; [assumption | frame_solve]
  | |- ctx_shape (<[_ := _]> _) _ _ _ => apply ctx_shape_upd; [assumption | frame_solve]
  | |- shape (delete _ _) _ _ _ => apply shape_del; [assumption | frame_solve]
  | |- ctx_shape (delete _ _) _ _ _ => apply ctx_shape_del; [assumption | frame_solve]
  | |- _ => assumption
  end.

Ltac nodup_solve :=
  lazymatch goal with
  | |- True => exact I
  | |- _ /\ _ => split; nodup_solve
  | |- NoDup [] => constructor
  | |- NoDup (_ :: _) => apply NoDup_cons_disj; nodup_solve
  | |- NoDup (_ ++ _) => apply NoDup_app_disj; nodup_solve
  | |- disj [] _ => apply disj_nil_l; exact I
  | |- disj _ [] => apply disj_nil_r; exact I
  | |- disj (_ :: _) _ => apply disj_cons_l; nodup_solve
  | |- disj (_ ++ _) _ => apply disj_app_l; nodup_solve
  | |- disj _ (_ :: _) => apply disj_cons_r; nodup_solve
  | |- disj _ (_ ++ _) => apply disj_app_r; nodup_solve
  | |- _ ∉ [] => apply notin_nil; exact I
  | |- _ ∉ _ :: _ => apply notin_cons; nodup_solve
  | |- _ ∉ _ ++ _ => apply notin_app; nodup_solve
  | |- _ => ptr_fact
  end.

Ltac shape_solve :=
  lazymatch goal with
  | |- True => exact I
  | |- _ /\ _ => split; shape_solve
  | |- _ !! _ = _ => lookup_solve
  | |- shape _ _ _ _ => frame_solve
  | |- ctx_shape _ _ _ _ => frame_solve
  end.

(** ** Symbolic execution *)

Ltac wp_simpl :=
  cbn beta iota delta [n_size n_left n_right n_parent n_key n_color heap objs
                       m_nil m_root m_tree m_node negb andb orb Bool.eqb RED BLACK
                       rootp ctx_ptr frame_ptr ctx_root tsize tcolor tleft tright tkey
                       root_node fst snd].

Ltac wp_prim :=
  lazymatch goal with
  | |- wp (bind _ _) _ _ => apply wp_bind
  | |- wp (ret _) _ _ => apply wp_ret
  | |- wp (load _) _ _ => eapply wp_load; [ptr_ne | lookup_solve | ]
  | |- wp (store _ _) _ _ => eapply wp_store_norm; [ptr_ne | lookup_solve | upd_norm | ]
  | |- wp (load_obj _) _ _ => eapply wp_load_obj; [lookup_solve | ]
  | |- wp (store_obj _ _) _ _ => eapply wp_store_obj_norm; [upd_norm | ]
  | |- wp get_fuel _ _ => apply wp_get_fuel
  | |- wp (get_left _) _ _ => unfold get_left at 1
  | |- wp (get_right _) _ _ => unfold get_right at 1
  | |- wp (get_parent _) _ _ => unfold get_parent at 1
  | |- wp (get_size _) _ _ => unfold get_size at 1
  | |- wp (get_key _) _ _ => unfold get_key at 1
  | |- wp (get_color _) _ _ => unfold get_color at 1
  | |- wp (set_left _ _) _ _ => unfold set_left at 1
  | |- wp (set_right _ _) _ _ => unfold set_right at 1
  | |- wp (set_parent _ _) _ _ => unfold set_parent at 1
  | |- wp (set_size _ _) _ _ => unfold set_size at 1
  | |- wp (set_color _ _) _ _ => unfold set_color at 1
  | |- wp (add_size _ _) _ _ => unfold add_size at 1
  | |- wp (sub_size _ _) _ _ => unfold sub_size at 1
  | |- wp (get_nil _) _ _ => unfold get_nil at 1
  | |- wp (get_root _) _ _ => unfold get_root at 1
  | |- wp (set_nil _ _) _ _ => unfold set_nil at 1
  | |- wp (set_root _ _) _ _ => unfold set_root at 1
  | |- wp (when _ _) _ _ => unfold when at 1
  | |- wp (if ?c then _ else _) _ _ =>
      lazymatch c with
      | context [?a =?p ?a] => rewrite (ptr_eqb_refl a)
      | context [?a =?p ?b] => rewrite (ptr_eqb_ne a b) by ptr_ne
      end
  end; wp_simpl.

Ltac ptr_cmp_simpl :=
  repeat match goal with
  | |- context [?a =?p ?a] => rewrite (ptr_eqb_refl a)
  | |- context [?a =?p ?b] => rewrite (ptr_eqb_ne a b) by ptr_ne
  end; wp_simpl.

Ltac wp_run := wp_simpl; repeat wp_prim.

Ltac abs_simpl :=
  cbn [heap objs shape ctx_shape ptrs ctx_ptrs rootp ctx_ptr frame_ptr ctx_root
       plug plug1 app] in *.

Ltac ptr_facts :=
  repeat match goal with
  | H : NoDup [] |- _ => clear H
  | H : NoDup (_ :: _) |- _ => nodup_facts H
  | H : NoDup (_ ++ _) |- _ => nodup_facts H
  | H : _ ∉ [] |- _ => clear H
  | H : _ ∉ _ :: _ |- _ => nodup_facts H
  | H : _ ∉ _ ++ _ |- _ => nodup_facts H
  | H : disj [] _ |- _ => clear H
  | H : disj _ [] |- _ => clear H
  | H : disj (_ :: _) _ |- _ => nodup_facts H
  | H : disj (_ ++ _) _ |- _ => nodup_facts H
  | H : disj _ (_ :: _) |- _ => nodup_facts H
  | H : disj _ (_ ++ _) |- _ => nodup_facts H
  end.

(** Case analysis on a subtree: empty, or a node with two subtrees. *)
Tactic Notation "open_tree" constr(t) "as" simple_intropattern(pat) :=
  destruct t as pat; abs_simpl; ptr_facts; destruct_ands.

(** Take a [zrep] hypothesis apart, down to facts on single addresses. *)
Ltac zrep_open H :=
  let Hobj := fresh "Hobj" in let Hnil := fresh "Hnil" in
  let Hctx := fresh "Hctx" in let Hsub := fresh "Hsub" in
  let Hnd := fresh "Hnd" in
  destruct H as [Hobj Hnil Hctx Hsub Hnd];
  abs_simpl; nodup_facts Hnd; destruct_ands.

(** Prove a [zrep] goal for a heap given as a chain of updates. *)
Ltac zrep_close :=
  split;
  cbn [heap objs shape ctx_shape ptrs ctx_ptrs rootp ctx_ptr frame_ptr ctx_root
       plug plug1 app];
  [ lookup_solve | lookup_solve | shape_solve | shape_solve | nodup_solve ].

(** * Moving the focus of a zipper *)

Section Zipper.

Context {Key : Type}.
Variable Key0 : Key.
Implicit Types (h : gmap N (node Key)) (t : ptree Key) (c : ctx Key) (f : frame Key).

Lemma keys_plug c t : keys (plug c t) = keys_before c ++ keys t ++ keys_after c.
Proof.
  revert t. induction c as [|[p cp sp kp r|p cp sp l kp] up IH]; intros t; cbn.
  - by rewrite app_nil_r.
  - rewrite IH. cbn. by rewrite <- !app_assoc.
  - rewrite IH. cbn. rewrite <- !app_assoc. cbn. done.
Qed.

Lemma ptrs_plug c t : ptrs (plug c t) = ptrs_before c ++ ptrs t ++ ptrs_after c.
Proof.
  revert t. induction c as [|[p cp sp kp r|p cp sp l kp] up IH]; intros t; cbn.
  - by rewrite app_nil_r.
  - rewrite IH. cbn. by rewrite <- !app_assoc.
  - rewrite IH. cbn. rewrite <- !app_assoc. cbn. done.
Qed.

Lemma nodes_plug c t : nodes (plug c t) = nodes_before c ++ nodes t ++ nodes_after c.
Proof.
  revert t. induction c as [|[p cp sp kp r|p cp sp l kp] up IH]; intros t; cbn.
  - by rewrite app_nil_r.
  - rewrite IH. cbn. by rewrite <- !app_assoc.
  - rewrite IH. cbn. rewrite <- !app_assoc. cbn. done.
Qed.

Lemma keys_nodes t : keys t = map snd (nodes t).
Proof. induction t; cbn; [done|]. rewrite map_app. cbn. congruence. Qed.

Lemma ptrs_nodes t : ptrs t = map fst (nodes t).
Proof. induction t; cbn; [done|]. rewrite map_app. cbn. congruence. Qed.

Lemma keys_before_nodes c : keys_before c = map snd (nodes_before c).
Proof.
  induction c as [|[p cp sp kp r|p cp sp l kp] up IH]; cbn; [done|done|].
  rewrite !map_app, keys_nodes. cbn. congruence.
Qed.

Lemma keys_after_nodes c : keys_after c = map snd (nodes_after c).
Proof.
  induction c as [|[p cp sp kp r|p cp sp l kp] up IH]; cbn; [done| |done].
  rewrite !map_app, keys_nodes. cbn. congruence.
Qed.

Lemma ptrs_before_nodes c : ptrs_before c = map fst (nodes_before c).
Proof.
  induction c as [|[p cp sp kp r|p cp sp l kp] up IH]; cbn; [done|done|].
  rewrite !map_app, ptrs_nodes. cbn. congruence.
Qed.

Lemma ptrs_after_nodes c : ptrs_after c = map fst (nodes_after c).
Proof.
  induction c as [|[p cp sp kp r|p cp sp l kp] up IH]; cbn; [done| |done].
  rewrite !map_app, ptrs_nodes. cbn. congruence.
Qed.

Lemma ctx_ptrs_perm c : ctx_ptrs c ≡ₚ ptrs_before c ++ ptrs_after c.
Proof.
  induction c as [|[p cp sp kp r|p cp sp l kp] up IH]; cbn; [done| |].
  - rewrite IH. solve_Permutation.
  - rewrite IH. solve_Permutation.
Qed.

Lemma zptrs_perm c t : ptrs t ++ ctx_ptrs c ≡ₚ ptrs (plug c t).
Proof. rewrite ptrs_plug, ctx_ptrs_perm. solve_Permutation. Qed.

Lemma length_ptrs_keys t : length (ptrs t) = length (keys t).
Proof. induction t; cbn; [done|]. rewrite !length_app. cbn. lia. Qed.

Lemma length_before c : length (ptrs_before c) = length (keys_before c).
Proof.
  induction c as [|[p cp sp kp r|p cp sp l kp] up IH]; cbn; [done|done|].
  rewrite !length_app, length_ptrs_keys. cbn. lia.
Qed.

Lemma count_length t : count t = Z.of_nat (length (keys t)).
Proof. induction t; cbn [count keys]; [done|]. rewrite length_app. cbn. lia. Qed.

Lemma count_nonneg t : 0 <= count t.
Proof. rewrite count_length. lia. Qed.

Lemma sizes_ok_tsize t : sizes_ok t -> tsize t = count t.
Proof.
  induction t as [|p c s l IHl k r IHr]; cbn; [done|].
  intros (-> & Hl & Hr). rewrite IHl, IHr by done. done.
Qed.

(** One step up or down. *)
Lemma zrep_step this nil np f c t s :
  zrep Key0 this nil np (f :: c) t s <-> zrep Key0 this nil np c (plug1 f t) s.
Proof.
  split; intros [Hobj Hnil Hctx Hsub Hnd]; destruct f as [p cp sp kp r|p cp sp l kp];
    split; cbn [heap objs shape ctx_shape ptrs ctx_ptrs rootp ctx_ptr frame_ptr
                ctx_root plug plug1] in *; try tauto.
  all: eapply NoDup_perm; [|exact Hnd]; do 2 constructor; solve_Permutation.
Qed.

Lemma zrep_plug this nil np c t s :
  zrep Key0 this nil np c t s <-> zrep Key0 this nil np [] (plug c t) s.
Proof.
  revert t. induction c as [|f up IH]; intros t; [done|].
  rewrite zrep_step. apply IH.
Qed.

(** The tree does not depend on what is in the sentinel's [parent] member
    beyond that one cell. *)
Lemma zrep_heap_size this nil np c t s :
  zrep Key0 this nil np c t s -> (length (ptrs (plug c t)) + 1 <= size (heap s))%nat.
Proof.
  intros [Hobj Hnil Hctx Hsub Hnd]%zrep_plug. cbn [ctx_ptrs plug] in *.
  rewrite app_nil_r in Hnd. apply NoDup_cons in Hnd as [_ Hnd].
  set (T := plug c t) in *.
  assert (Hsub' : forall par t', shape (heap s) nil par t' -> forall q, q ∈ ptrs t' -> q ∈ dom (heap s)).
  { intros par t'. revert par. induction t' as [|p cp sp l IHl k r IHr]; intros par Hs q Hq; cbn in *.
    - inversion Hq.
    - destruct Hs as (H1 & H2 & H3). apply elem_of_app in Hq as [Hq|Hq]; [by eapply IHl|].
      apply elem_of_cons in Hq as [->|Hq]; [|by eapply IHr].
      apply elem_of_dom. eauto. }
  assert (Hall : forall q, q ∈ nil :: ptrs T -> q ∈ dom (heap s)).
  { intros q Hq. apply elem_of_cons in Hq as [->|Hq].
    - apply elem_of_dom. eauto.
    - eapply Hsub'; eauto. }
  rewrite <- size_dom.
  replace (length (ptrs T) + 1)%nat with (length (nil :: ptrs T)) by (cbn; lia).
  rewrite <- (size_list_to_set (C := gset N)) by done.
  apply subseteq_size. intros q Hq. apply Hall. by apply elem_of_list_to_set in Hq.
Qed.

End Zipper.

Section Rotations.

Context {Key : Type}.
Variable Key0 : Key.

Definition rot_up (s : Z) (a : ptree Key) : Z :=
  wrap (match a with PLeaf => s | PNode _ _ sa _ _ _ => wrap (s + sa) end + 1).
Definition rot_down (s : Z) (a : ptree Key) : Z :=
  wrap (match a with PLeaf => s | PNode _ _ sa _ _ _ => wrap (s - sa) end - 1).

Arguments rot_up : simpl never.
Arguments rot_down : simpl never.

Lemma wp_rotate_left this nil np c x cx sx A kx y cy sy B ky C s (Q : unit -> state Key -> Prop) :
  zrep Key0 this nil np c (PNode x cx sx A kx (PNode y cy sy B ky C)) s ->
  (forall s',
     zrep Key0 this nil np c
       (PNode y cy (rot_up sy A) (PNode x cx (rot_down sx C) A kx B) ky C) s' ->
     Q tt s') ->
  wp (rotate_left this x) s Q.
Proof.
  intros H HQ. destruct s as [h o].
  destruct c as [|[p cp sp kp r|p cp sp l kp] up];
  destruct A as [|a ca sa A1 ka A2]; destruct B as [|b cb sb B1 kb B2];
  destruct C as [|c0 cc sc C1 kc C2].
  all: zrep_open H.
  all: unfold rotate_left; wp_run.
  all: apply HQ; unfold rot_up, rot_down; zrep_close.
Qed.

Lemma wp_rotate_right this nil np c x cx sx A kx y cy sy B ky C s (Q : unit -> state Key -> Prop) :
  zrep Key0 this nil np c (PNode x cx sx (PNode y cy sy A ky B) kx C) s ->
  (forall s',
     zrep Key0 this nil np c
       (PNode y cy (rot_up sy C) A ky (PNode x cx (rot_down sx A) B kx C)) s' ->
     Q tt s') ->
  wp (rotate_right this x) s Q.
Proof.
  intros H HQ. destruct s as [h o].
  destruct c as [|[p cp sp kp r|p cp sp l kp] up];
  destruct A as [|a ca sa A1 ka A2]; destruct B as [|b cb sb B1 kb B2];
  destruct C as [|c0 cc sc C1 kc C2].
  all: zrep_open H.
  all: unfold rotate_right; wp_run.
  all: apply HQ; unfold rot_up, rot_down; zrep_close.
Qed.

End Rotations.

Arguments rot_up : simpl never.
Arguments rot_down : simpl never.

(** * The Search/Rank Engine *)

Section Order.

Context {Key : Type}.
Variable CMP : Key -> Key -> bool.
Hypothesis Hswo : StrictWeakOrder CMP.

Lemma cmp_irrefl a : CMP a a = false.
Proof. apply Hswo. Qed.

Lemma cmp_trans a b c : CMP a b = true -> CMP b c = true -> CMP a c = true.
Proof. apply Hswo. Qed.

Lemma cmp_asym a b : CMP a b = true -> CMP b a = false.
Proof.
  intros H. destruct (CMP b a) eqn:E; [|done].
  pose proof (cmp_trans _ _ _ H E) as H'. by rewrite cmp_irrefl in H'.
Qed.

Lemma not_equal_equal a b : not_equal CMP a b = negb (equal CMP a b).
Proof. unfold not_equal, equal. by destruct (CMP a b), (CMP b a). Qed.

Lemma equal_sym a b : equal CMP a b = equal CMP b a.
Proof. unfold equal. by destruct (CMP a b), (CMP b a). Qed.

Lemma equal_refl a : equal CMP a a = true.
Proof. unfold equal. by rewrite cmp_irrefl. Qed.

Lemma equal_cmp_l a b x : equal CMP a b = true -> CMP x a = true -> CMP x b = true.
Proof.
  intros Hab Hxa. destruct (CMP x b) eqn:E; [done|].
  destruct (CMP b x) eqn:E'.
  - pose proof (cmp_trans _ _ _ E' Hxa) as H. unfold equal in Hab. by rewrite H, andb_false_r in Hab.
  - assert (Hxb : equal CMP x b = true) by (unfold equal; by rewrite E, E').
    rewrite equal_sym in Hab.
    pose proof (swo_equiv_trans _ Hswo _ _ _ Hxb Hab) as H.
    unfold equal in H. by rewrite Hxa in H.
Qed.

Lemma equal_cmp_r a b x : equal CMP a b = true -> CMP a x = true -> CMP b x = true.
Proof.
  intros Hab Hax. destruct (CMP b x) eqn:E; [done|].
  destruct (CMP x b) eqn:E'.
  - pose proof (cmp_trans _ _ _ Hax E') as H. unfold equal in Hab. by rewrite H in Hab.
  - assert (Hxb : equal CMP b x = true) by (unfold equal; by rewrite E, E').
    pose proof (swo_equiv_trans _ Hswo _ _ _ Hab Hxb) as H.
    unfold equal in H. by rewrite Hax in H.
Qed.

(** The number of keys of a list strictly less than [key]. *)

Abbreviation count_less := (count_less CMP) (only parsing).

Lemma count_less_app key l1 l2 :
  count_less key (l1 ++ l2) = count_less key l1 + count_less key l2.
Proof. induction l1; cbn; lia. Qed.

Lemma count_less_all key l :
  Forall (fun x => CMP x key = true) l -> count_less key l = Z.of_nat (length l).
Proof. induction 1 as [|x l Hx _ IH]; cbn [count_less length]; [done|]. rewrite Hx. lia. Qed.

Lemma count_less_none key l :
  Forall (fun x => CMP x key = false) l -> count_less key l = 0.
Proof. induction 1 as [|x l Hx _ IH]; cbn [count_less length]; [done|]. rewrite Hx. lia. Qed.

Lemma count_less_bounds key l : 0 <= count_less key l <= Z.of_nat (length l).
Proof. induction l; cbn [count_less length]; [lia|]. destruct (CMP _ _); lia. Qed.

End Order.

Section ReadOnly.

Context {Key : Type}.
Variable CMP : Key -> Key -> bool.
Variable Key0 : Key.
Hypothesis Hswo : StrictWeakOrder CMP.
Implicit Types (h : gmap N (node Key)) (t : ptree Key) (c : ctx Key).

(** [key] lies between the keys to the left and to the right of the hole. *)
Definition around (key : Key) (c : ctx Key) : Prop :=
  Forall (fun x => CMP x key = true) (keys_before c) /\
  Forall (fun x => CMP key x = true) (keys_after c).

Lemma around_left key c p cp sp l k r :
  around key c -> bst CMP (PNode p cp sp l k r) -> CMP key k = true ->
  around key (FL p cp sp k r :: c).
Proof.
  intros [Hb Ha] (_ & _ & _ & Hr) Hk. split; cbn; [done|].
  constructor; [done|]. apply Forall_app. split; [|done].
  eapply Forall_impl; [exact Hr|]. intros x Hx. eapply (cmp_trans CMP Hswo); eassumption.
Qed.

Lemma around_right key c p cp sp l k r :
  around key c -> bst CMP (PNode p cp sp l k r) -> CMP k key = true ->
  around key (FR p cp sp l k :: c).
Proof.
  intros [Hb Ha] (_ & _ & Hl & _) Hk. split; cbn; [|done].
  apply Forall_app. split; [done|]. apply Forall_app. split; [|constructor; [done|constructor]].
  eapply Forall_impl; [exact Hl|]. intros x Hx. cbn beta in Hx. eapply (cmp_trans CMP Hswo); eassumption.
Qed.

Lemma height_le_length t : (height t <= length (ptrs t))%nat.
Proof. induction t; cbn; [done|]. rewrite length_app. cbn. lia. Qed.

Lemma height_plug c t : (height t <= height (plug c t))%nat.
Proof.
  revert t. induction c as [|f up IH]; intros t; cbn; [done|].
  etrans; [|apply IH]. destruct f; cbn; lia.
Qed.

Lemma fuel_enough this nil np c t s :
  zrep Key0 this nil np c t s -> (height (plug c t) + 1 < S (size (heap s)))%nat.
Proof.
  intros H%zrep_heap_size. pose proof (height_le_length (plug c t)). lia.
Qed.

(** The result of a descent towards [key]: a zipper of the tree whose focus
    is either empty or a node with a key equivalent to [key]. *)
Definition found (this : N) (nil : ptr) (T : ptree Key) (key : Key) (s : state Key)
    (c : ctx Key) (t : ptree Key) : Prop :=
  plug c t = T /\ zrep Key0 this nil nil c t s /\ bst CMP t /\ around key c /\
  match t with
  | PLeaf => True
  | PNode _ _ _ _ k _ => equal CMP key k = true
  end.

Lemma wp_search this nil T s key (Q : ptr -> state Key -> Prop) :
  rep Key0 this nil T s -> bst CMP T ->
  (forall c t, found this nil T key s c t -> Q (rootp nil t) s) ->
  wp (search CMP this key) s Q.
Proof.
  intros Hrep Hbst HQ. destruct s as [h o]. unfold search.
  pose proof Hrep as Hrep'. zrep_open Hrep'. wp_run.
  eapply wp_loop with (n := height T) (I := fun n x s' =>
    s' = mk_state h o /\ exists c t, plug c t = T /\ zrep Key0 this nil nil c t s' /\
      x = rootp nil t /\ bst CMP t /\ around key c /\ n = height t).
  - intros n x s' (-> & c & t & HT & Hz & -> & Hb & Ha & ->).
    pose proof Hz as Hz'. destruct t as [|p cp sp l k r]; zrep_open Hz'; wp_run.
    + apply (HQ c PLeaf). by unfold found.
    + destruct (not_equal CMP key k) eqn:Hne; wp_run.
      * destruct (CMP key k) eqn:Hlt; wp_run.
        -- exists (height l). split; [cbn; lia|]. split; [done|].
           exists (FL p cp sp k r :: c), l. split; [done|]. split; [by apply zrep_step|].
           split; [done|]. split; [apply Hb|]. split; [by eapply around_left|done].
        -- exists (height r). split; [cbn; lia|]. split; [done|].
           assert (CMP k key = true) by (unfold not_equal in Hne; by rewrite Hlt in Hne).
           exists (FR p cp sp l k :: c), r. split; [done|]. split; [by apply zrep_step|].
           split; [done|]. split; [apply Hb|]. split; [by eapply around_right|done].
      * apply (HQ c (PNode p cp sp l k r)).
        rewrite (not_equal_equal CMP) in Hne. unfold found.
        by destruct (equal CMP key k).
  - split; [done|]. exists [], T. by repeat (split; [done|]).
  - pose proof (fuel_enough _ _ _ _ _ _ Hrep). cbn in *. lia.
Qed.

Lemma count_plug c t :
  count (plug c t) =
  Z.of_nat (length (keys_before c)) + count t + Z.of_nat (length (keys_after c)).
Proof. rewrite !count_length, keys_plug, !length_app. lia. Qed.

Lemma count_less_found key c t :
  bst CMP t -> around key c ->
  match t with PLeaf => True | PNode _ _ _ _ k _ => equal CMP key k = true end ->
  count_less CMP key (keys (plug c t)) =
  Z.of_nat (length (keys_before c)) +
  match t with PLeaf => 0 | PNode _ _ _ l _ _ => count l end.
Proof.
  intros Hb [Hbe Haf] Heq. rewrite keys_plug, !count_less_app.
  rewrite (count_less_all _ _ _ Hbe).
  rewrite (count_less_none CMP key (keys_after c)).
  2:{ eapply Forall_impl; [exact Haf|]. intros x Hx. by apply cmp_asym. }
  destruct t as [|p cp sp l k r]; cbn [keys count_less]; [lia|].
  destruct Hb as (_ & _ & Hl & Hr).
  rewrite count_less_app. cbn [count_less].
  rewrite (count_less_all CMP key (keys l)).
  2:{ eapply Forall_impl; [exact Hl|]. intros x Hx. cbn beta in Hx.
      rewrite (equal_sym CMP) in Heq. eapply equal_cmp_l; eauto. }
  rewrite (count_less_none CMP key (keys r)).
  2:{ eapply Forall_impl; [exact Hr|]. intros x Hx. cbn beta in Hx.
      apply cmp_asym; [done|]. rewrite (equal_sym CMP) in Heq. eapply equal_cmp_r; eauto. }
  assert (CMP k key = false) as ->.
  { unfold equal in Heq. by destruct (CMP k key); destruct (CMP key k). }
  rewrite count_length. lia.
Qed.

Lemma wp_order_of_key this nil T s key (Q : Z -> state Key -> Prop) :
  rep Key0 this nil T s -> bst CMP T -> sizes_ok T -> count T < SIZE_MAX1 ->
  Q (count_less CMP key (keys T)) s ->
  wp (order_of_key CMP this key) s Q.
Proof.
  intros Hrep Hbst Hsz Hbound HQ. destruct s as [h o]. unfold order_of_key.
  pose proof Hrep as Hrep'. zrep_open Hrep'. wp_run.
  eapply wp_loop with (n := height T) (I := fun n '(current, x) s' =>
    s' = mk_state h o /\ exists c t, plug c t = T /\ zrep Key0 this nil nil c t s' /\
      x = rootp nil t /\ bst CMP t /\ sizes_ok t /\ around key c /\
      current = Z.of_nat (length (keys_before c)) + tsize t /\ n = height t).
  2: split; [done|]; exists [], T; by repeat (split; [done|]).
  2: pose proof (fuel_enough _ _ _ _ _ _ Hrep); cbn in *; lia.
  intros n [current x] s' (-> & c & t & HT & Hz & -> & Hb & Hs & Ha & -> & ->).
  pose proof Hz as Hz'. destruct t as [|p cp sp l k r]; zrep_open Hz'; wp_run.
  - (* the sentinel: absent key *)
    rewrite <- HT, (count_less_found key c PLeaf) in HQ by done.
    ptr_cmp_simpl. exact HQ.
  - assert (Hcnt := count_plug c (PNode p cp sp l k r)). rewrite HT in Hcnt.
    destruct Hs as (Hsp & Hsl & Hsr).
    pose proof (sizes_ok_tsize _ Hsl) as Hl. pose proof (sizes_ok_tsize _ Hsr) as Hr.
    pose proof (count_nonneg l). pose proof (count_nonneg r).
    cbn [count] in Hcnt.
    destruct (not_equal CMP key k) eqn:Hne; wp_run.
    + destruct (CMP key k) eqn:Hlt; wp_run.
      * open_tree r as [|pr cr sr rl rk rr]; wp_run.
        all: exists (height l); (split; [cbn; lia|]); (split; [done|]).
        all: eexists (FL p cp sp k _ :: c), l; (split; [done|]); (split; [by apply zrep_step|]).
        all: (split; [done|]); (split; [apply Hb|]); (split; [done|]); (split; [by eapply around_left|]).
        all: cbn [keys_before tsize] in *; (split; [|done]).
        all: wrap_simpl; lia.
      * exists (height r). split; [cbn; lia|]. split; [done|].
        assert (CMP k key = true) by (unfold not_equal in Hne; by rewrite Hlt in Hne).
        exists (FR p cp sp l k :: c), r. split; [done|]. split; [by apply zrep_step|].
        split; [done|]. split; [apply Hb|]. split; [done|]. split; [by eapply around_right|].
        cbn [keys_before tsize]. split; [|done].
        rewrite !length_app. cbn [length]. rewrite (count_length l) in *. lia.
    + rewrite (not_equal_equal CMP) in Hne.
      assert (Heq : equal CMP key k = true) by (by destruct (equal CMP key k)).
      rewrite <- HT, (count_less_found key c (PNode p cp sp l k r)) in HQ by done.
      open_tree r as [|pr cr sr rl rk rr]; wp_run.
      all: ptr_cmp_simpl; cbn [tsize] in *.
      all: wrap_simpl.
      all: match goal with |- _ ?a _ =>
             replace a with (Z.of_nat (length (keys_before c)) + count l) by lia end.
      all: done.
Qed.

Lemma count_length_ptrs t : count t = Z.of_nat (length (ptrs t)).
Proof. by rewrite count_length, length_ptrs_keys. Qed.

Lemma count_plug_ptrs c t :
  count (plug c t) =
  Z.of_nat (length (ptrs_before c)) + count t + Z.of_nat (length (ptrs_after c)).
Proof. rewrite !count_length_ptrs, ptrs_plug, !length_app. lia. Qed.

Lemma nth_focus nil c p cp sp l k r :
  nth (length (ptrs_before c) + length (ptrs l)) (ptrs (plug c (PNode p cp sp l k r))) nil = p.
Proof.
  rewrite ptrs_plug. cbn [ptrs].
  replace (ptrs_before c ++ (ptrs l ++ p :: ptrs r) ++ ptrs_after c)
    with ((ptrs_before c ++ ptrs l) ++ p :: (ptrs r ++ ptrs_after c))
    by (by rewrite <- !app_assoc).
  rewrite <- length_app. by rewrite nth_middle.
Qed.

Lemma sizes_ok_children t :
  sizes_ok t ->
  sizes_ok (tleft t) /\ sizes_ok (tright t) /\
  tsize (tleft t) = count (tleft t) /\ tsize (tright t) = count (tright t) /\
  0 <= count (tleft t) <= count t /\ 0 <= count (tright t) <= count t.
Proof.
  intros H. destruct t as [|p cp sp l k r]; cbn [tleft tright sizes_ok count tsize] in *.
  - repeat split; lia.
  - destruct H as (_ & Hl & Hr).
    pose proof (sizes_ok_tsize _ Hl). pose proof (sizes_ok_tsize _ Hr).
    pose proof (count_nonneg l). pose proof (count_nonneg r).
    repeat split; try done; lia.
Qed.

(** The position of rank [order]: the sentinel when there is none. *)
Definition nth_ptr (nil : ptr) (T : ptree Key) (order : Z) : ptr :=
  nth (Z.to_nat order) (ptrs T) nil.

Lemma wp_find_by_order this nil T s order (Q : const_iterator -> state Key -> Prop) :
  rep Key0 this nil T s -> sizes_ok T -> count T < SIZE_MAX1 ->
  0 <= order < SIZE_MAX1 ->
  Q (mk_it this (nth_ptr nil T order)) s ->
  wp (find_by_order this order) s Q.
Proof.
  intros Hrep Hsz Hbound Hord HQ. destruct s as [h o]. unfold find_by_order.
  pose proof Hrep as Hrep'. zrep_open Hrep'. wp_run.
  eapply wp_loop with (n := height T) (I := fun n '(current, x) s' =>
    s' = mk_state h o /\ exists c t, plug c t = T /\ zrep Key0 this nil nil c t s' /\
      x = rootp nil t /\ sizes_ok t /\
      current = Z.of_nat (length (ptrs_before c)) + tsize (tleft t) /\
      (order < count T -> Z.of_nat (length (ptrs_before c)) <= order <
                          Z.of_nat (length (ptrs_before c)) + count t) /\
      (count T <= order -> ptrs_after c = []) /\ n = height t).
  2:{ split; [done|]. exists [], T. repeat (split; [done|]).
      done. }
  2:{ pose proof (fuel_enough _ _ _ _ _ _ Hrep); cbn in *; lia. }
  intros n [current x] s' (-> & c & t & HT & Hz & -> & Hs & -> & Hin & Hout & ->).
  pose proof Hz as Hz'; destruct t as [|p cp sp l k r]; zrep_open Hz'; wp_run.
  - assert (Hc := count_plug_ptrs c PLeaf). rewrite HT in Hc. cbn [count] in *.
    replace (nth_ptr nil T order) with nil in HQ; [done|].
    unfold nth_ptr. rewrite nth_overflow; [done|].
    rewrite count_length_ptrs in *. lia.
  - assert (Hc := count_plug_ptrs c (PNode p cp sp l k r)). rewrite HT in Hc.
    destruct Hs as (Hsp & Hsl & Hsr).
    pose proof (sizes_ok_tsize _ Hsl) as Hl. pose proof (sizes_ok_tsize _ Hsr) as Hr.
    pose proof (count_nonneg l). pose proof (count_nonneg r).
    destruct (sizes_ok_children _ Hsl) as (Hsll & _ & Hll & _ & Hbl & _).
    destruct (sizes_ok_children _ Hsr) as (Hsrl & _ & Hrl & _ & Hbr & _).
    cbn [count tleft tsize] in *.
    destruct (Z.eqb_spec (Z.of_nat (length (ptrs_before c)) + tsize l) order) as [Heq|Hne]; wp_run.
    + replace (nth_ptr nil T order) with p in HQ; [done|].
      unfold nth_ptr. rewrite <- HT, <- Heq, Hl, count_length_ptrs, <- Nat2Z.inj_add, Nat2Z.id.
      by rewrite nth_focus.
    + destruct (Z.gtb_spec (Z.of_nat (length (ptrs_before c)) + tsize l) order) as [Hgt|Hle]; wp_run.
      * exists (height l). split; [cbn; lia|]. split; [done|].
        exists (FL p cp sp k r :: c), l. split; [done|]. split; [by apply zrep_step|].
        split; [done|]. split; [done|]. cbn [ptrs_before ptrs_after].
        split; [wrap_simpl; lia|]. split; [lia|]. split; [lia|done].
      * exists (height r). split; [cbn; lia|]. split; [done|].
        exists (FR p cp sp l k :: c), r. split; [done|]. split; [by apply zrep_step|].
        split; [done|]. split; [done|]. cbn [ptrs_before ptrs_after].
        rewrite !length_app. cbn [length]. rewrite (count_length_ptrs l) in *.
        split; [wrap_simpl; lia|]. split; [lia|]. split; [done|done].
Qed.

(** ** Minimum and successor *)

Definition is_FL (f : frame Key) : Prop :=
  match f with FL _ _ _ _ _ => True | FR _ _ _ _ _ => False end.

Lemma plug_app c1 c2 t : plug (c1 ++ c2) t = plug c2 (plug c1 t).
Proof. revert t. induction c1 as [|f c1 IH]; intros t; cbn; [done|]. apply IH. Qed.

Lemma zrep_app this nil np c1 c2 t s :
  zrep Key0 this nil np (c1 ++ c2) t s <-> zrep Key0 this nil np c2 (plug c1 t) s.
Proof.
  revert t. induction c1 as [|f c1 IH]; intros t; cbn [app plug]; [done|].
  rewrite zrep_step. apply IH.
Qed.

Lemma ptrs_left_path lc y cy sy ky ry :
  Forall is_FL lc ->
  exists rest, ptrs (plug lc (PNode y cy sy PLeaf ky ry)) = y :: rest.
Proof.
  revert y cy sy ky ry. induction lc as [|[p cp sp kp r|p cp sp l kp] lc IH];
    intros y cy sy ky ry Hall; cbn [plug plug1].
  - cbn. eauto.
  - inversion Hall; subst.
    rewrite ptrs_plug. cbn [ptrs app].
    assert (Hb : ptrs_before lc = []).
    { clear -H2. induction lc as [|[]]; cbn; [done| |]; inversion H2; subst; auto. done. }
    rewrite Hb. cbn. eauto.
  - inversion Hall; subst. done.
Qed.

Lemma height_plug_ge c t : (length c + height t <= height (plug c t))%nat.
Proof.
  revert t. induction c as [|f up IH]; intros t; cbn [plug length]; [lia|].
  etrans; [|apply IH]. destruct f; cbn; lia.
Qed.

Lemma wp_min_node this nil np c x cx sx l k r s (Q : ptr -> state Key -> Prop) :
  zrep Key0 this nil np c (PNode x cx sx l k r) s ->
  (forall lc y cy sy ky ry,
     Forall is_FL lc -> plug lc (PNode y cy sy PLeaf ky ry) = PNode x cx sx l k r ->
     Q y s) ->
  wp (min_node this x) s Q.
Proof.
  intros Hrep HQ. destruct s as [h o]. unfold min_node.
  pose proof Hrep as Hrep'. zrep_open Hrep'. wp_run.
  eapply wp_loop with (n := height (PNode x cx sx l k r)) (I := fun n x' s' =>
    s' = mk_state h o /\ exists lc y cy sy ly ky ry,
      Forall is_FL lc /\ plug lc (PNode y cy sy ly ky ry) = PNode x cx sx l k r /\
      x' = y /\ n = height (PNode y cy sy ly ky ry)).
  - intros n x' s' (-> & lc & y & cy & sy & ly & ky & ry & Hall & Hplug & -> & ->).
    assert (Hz : zrep Key0 this nil np (lc ++ c) (PNode y cy sy ly ky ry) (mk_state h o)).
    { apply zrep_app. by rewrite Hplug. }
    pose proof Hz as Hz'. zrep_open Hz'. wp_run.
    open_tree ly as [|pl cl sl ll kl rl]; wp_run.
    + by eapply HQ.
    + exists (height (PNode pl cl sl ll kl rl)). split; [cbn; lia|]. split; [done|].
      exists (FL y cy sy ky ry :: lc), pl, cl, sl, ll, kl, rl.
      split; [by constructor|]. cbn [plug plug1]. by rewrite Hplug.
  - split; [done|]. exists [], x, cx, sx, l, k, r. by split.
  - pose proof (fuel_enough _ _ _ _ _ _ Hrep) as Hf.
    pose proof (height_plug c (PNode x cx sx l k r)). cbn [heap] in *. lia.
Qed.

(** The in-order successor of the node in focus. *)
Definition succ_ptr (nil : ptr) (c : ctx Key) (r : ptree Key) : ptr :=
  hd nil (ptrs r ++ ptrs_after c).

Lemma wp_successor this nil c x cx sx l k r s (Q : ptr -> state Key -> Prop) :
  zrep Key0 this nil nil c (PNode x cx sx l k r) s ->
  Q (succ_ptr nil c r) s ->
  wp (successor this x) s Q.
Proof.
  intros Hrep HQ. destruct s as [h o]. unfold successor.
  pose proof Hrep as Hrep'. zrep_open Hrep'. wp_run.
  open_tree r as [|pr cr sr lr kr rr]; wp_run.
  - (* no right child: climb *)
    unfold succ_ptr in HQ. cbn [ptrs app] in HQ.
    eapply wp_loop with (n := S (length c)) (I := fun n x' s' =>
      s' = mk_state h o /\
      ((x' = nil /\ ptrs_after c = [] /\ n = O) \/
       exists c' p cp sp l' k' r',
         zrep Key0 this nil nil c' (PNode p cp sp l' k' r') s' /\ x' = p /\
         hd nil (ptrs_after c') = hd nil (ptrs_after c) /\ n = S (length c'))).
    + intros n x' s' (-> & [(-> & Hnone & ->)|(c' & p & cp & sp & l' & k' & r' & Hz & -> & Hhd & ->)]).
      * wp_run. by rewrite Hnone in HQ.
      * pose proof Hz as Hz'.
        destruct c' as [|[q cq sq kq rq|q cq sq lq kq] up]; zrep_open Hz'; wp_run.
        -- exists O. split; [lia|]. split; [done|]. left. split; [done|]. split; [|done].
           cbn in Hhd. destruct (ptrs_after c) as [|q rest] eqn:Eaf; [done|].
           exfalso. cbn in Hhd. subst q.
           assert (Hin : nil ∈ ctx_ptrs c).
           { rewrite ctx_ptrs_perm, Eaf. apply elem_of_app. right. left. }
           done.
        -- cbn in Hhd. by rewrite <- Hhd in HQ.
        -- exists (S (length up)). split; [cbn; lia|]. split; [done|]. right.
           exists up, q, cq, sq, lq, kq, (PNode p cp sp l' k' r').
           split; [by apply zrep_step in Hz|]. done.
    + split; [done|]. right. exists c, x, cx, sx, l, k, PLeaf. done.
    + pose proof (fuel_enough _ _ _ _ _ _ Hrep) as Hf.
      pose proof (height_plug_ge c (PNode x cx sx l k PLeaf)). cbn [heap height] in *. lia.
  - (* leftmost node of the right subtree *)
    eapply (wp_min_node this nil nil (FR x cx sx l k :: c)).
    + apply zrep_step. exact Hrep.
    + intros lc y cy sy ky ry Hall Hplug.
      destruct (ptrs_left_path lc y cy sy ky ry Hall) as [rest Hrest].
      unfold succ_ptr in HQ. rewrite <- Hplug, Hrest in HQ. exact HQ.
Qed.

(** ** Walking the tree from [begin()] to [end()] *)

Lemma zipper_at (T : ptree Key) (i : nat) :
  (i < length (ptrs T))%nat ->
  exists c p cp sp l k r,
    plug c (PNode p cp sp l k r) = T /\
    (length (ptrs_before c) + length (ptrs l) = i)%nat.
Proof.
  intros Hi.
  cut (forall t c j, (j < length (ptrs t))%nat ->
         exists c' p cp sp l k r,
           plug c' (PNode p cp sp l k r) = plug c t /\
           (length (ptrs_before c') + length (ptrs l) = length (ptrs_before c) + j)%nat).
  { intros H. destruct (H T [] i Hi) as (c & p & cp & sp & l & k & r & H1 & H2).
    exists c, p, cp, sp, l, k, r. split; [done|]. cbn in H2. lia. }
  clear. induction t as [|p cp sp l IHl k r IHr]; intros c j Hj; cbn [ptrs length] in Hj; [lia|].
  rewrite length_app in Hj. cbn [length] in Hj.
  destruct (Nat.lt_trichotomy j (length (ptrs l))) as [Hlt|[Heq|Hgt]].
  - destruct (IHl (FL p cp sp k r :: c) j Hlt) as (c' & p' & cp' & sp' & l' & k' & r' & H1 & H2).
    exists c', p', cp', sp', l', k', r'. split; [done|]. cbn in H2. lia.
  - exists c, p, cp, sp, l, k, r. split; [done|]. lia.
  - destruct (IHr (FR p cp sp l k :: c) (j - length (ptrs l) - 1)%nat ltac:(lia))
      as (c' & p' & cp' & sp' & l' & k' & r' & H1 & H2).
    exists c', p', cp', sp', l', k', r'. split; [done|].
    cbn [ptrs_before] in H2. rewrite !length_app in H2. cbn [length] in H2. lia.
Qed.

Lemma nth_key_focus d c p cp sp l k r :
  nth (length (ptrs_before c) + length (ptrs l)) (keys (plug c (PNode p cp sp l k r))) d = k.
Proof.
  rewrite keys_plug. cbn [keys].
  replace (keys_before c ++ (keys l ++ k :: keys r) ++ keys_after c)
    with ((keys_before c ++ keys l) ++ k :: (keys r ++ keys_after c))
    by (by rewrite <- !app_assoc).
  rewrite length_before, length_ptrs_keys, <- length_app. by rewrite nth_middle.
Qed.

Lemma nth_succ_focus nil c p cp sp l k r :
  nth (S (length (ptrs_before c) + length (ptrs l))) (ptrs (plug c (PNode p cp sp l k r))) nil
  = succ_ptr nil c r.
Proof.
  rewrite ptrs_plug. cbn [ptrs]. unfold succ_ptr.
  replace (ptrs_before c ++ (ptrs l ++ p :: ptrs r) ++ ptrs_after c)
    with ((ptrs_before c ++ ptrs l ++ [p]) ++ (ptrs r ++ ptrs_after c)).
  2:{ rewrite <- !app_assoc. cbn. done. }
  replace (S (length (ptrs_before c) + length (ptrs l)))
    with (length (ptrs_before c ++ ptrs l ++ [p]) + 0)%nat.
  2:{ rewrite !length_app. cbn. lia. }
  rewrite app_nth2_plus. by destruct (ptrs r ++ ptrs_after c).
Qed.

Lemma wp_iterate this nil T s (Q : list Key -> state Key -> Prop) :
  rep Key0 this nil T s -> sizes_ok T -> count T < SIZE_MAX1 ->
  Q (keys T) s ->
  wp (iterate this) s Q.
Proof.
  intros Hrep Hsz Hbound HQ. unfold iterate, begin_.
  apply wp_bind. eapply wp_find_by_order; eauto; [unfold SIZE_MAX1; lia|].
  destruct s as [h o]. pose proof Hrep as Hrep'. zrep_open Hrep'. wp_run.
  eapply wp_loop with (n := S (length (ptrs T))) (I := fun n '(it, out) s' =>
    s' = mk_state h o /\ exists i : nat,
      (i <= length (ptrs T))%nat /\ it = mk_it this (nth i (ptrs T) nil) /\
      out = take i (keys T) /\ n = S (length (ptrs T) - i)).
  - intros n [it out] s' (-> & i & Hi & -> & -> & ->). unfold end_, it_ne, it_deref, it_incr.
    wp_run.
    destruct (decide (i = length (ptrs T))) as [->|Hlt].
    + rewrite nth_overflow by lia. ptr_cmp_simpl. wp_run.
      rewrite length_ptrs_keys, firstn_all. exact HQ.
    + destruct (zipper_at T i ltac:(lia)) as (c & p & cp & sp & l & k & r & HT & Hidx).
      assert (Hz : zrep Key0 this nil nil c (PNode p cp sp l k r) (mk_state h o)).
      { apply zrep_plug. rewrite HT. exact Hrep. }
      assert (Hp : nth i (ptrs T) nil = p) by (rewrite <- HT, <- Hidx; apply nth_focus).
      rewrite Hp. pose proof Hz as Hz'. zrep_open Hz'. wp_run.
      eapply wp_successor; [exact Hz|]. wp_run.
      exists (S (length (ptrs T) - S i)). split; [lia|]. split; [done|].
      exists (S i). split; [lia|]. split.
      * f_equal. rewrite <- HT, <- Hidx. symmetry. apply nth_succ_focus.
      * split; [|done].
        assert (Hk : nth i (keys T) k = k) by (rewrite <- HT, <- Hidx; apply nth_key_focus).
        rewrite (take_S_r _ _ k); [done|].
        rewrite <- Hk.
        destruct (nth_lookup_or_length (keys T) i k) as [E|E]; [done|].
        rewrite <- length_ptrs_keys in E. lia.
  - split; [done|]. exists O. split; [lia|]. split; [done|]. split; [done|]. lia.
  - pose proof (zrep_heap_size _ _ _ _ _ _ _ Hrep) as Hf. cbn [plug heap] in Hf. lia.
Qed.

End ReadOnly.

(** * Invariants along a path *)

Section Structure.

Context {Key : Type}.
Implicit Types (t : ptree Key) (c : ctx Key) (f : frame Key).

(** ** Sizes *)

Fixpoint ctx_sizes (n : Z) (c : ctx Key) : Prop :=
  match c with
  | [] => True
  | FL p cp sp kp r :: up => sp = 1 + n + tsize r /\ sizes_ok r /\ ctx_sizes sp up
  | FR p cp sp l kp :: up => sp = 1 + tsize l + n /\ sizes_ok l /\ ctx_sizes sp up
  end.

Lemma sizes_ok_plug c t : sizes_ok (plug c t) <-> sizes_ok t /\ ctx_sizes (tsize t) c.
Proof.
  revert t. induction c as [|[p cp sp kp r|p cp sp l kp] up IH]; intros t; cbn [plug plug1 ctx_sizes].
  - tauto.
  - rewrite IH. cbn. tauto.
  - rewrite IH. cbn. tauto.
Qed.

Lemma sizes_ok_nonneg t : sizes_ok t -> 0 <= tsize t.
Proof. intros H. rewrite sizes_ok_tsize by done. apply count_nonneg. Qed.

(** The [size] member at the root of [plug c t], given that of [t]. *)
Fixpoint ctx_top (n : Z) (c : ctx Key) : Z :=
  match c with
  | [] => n
  | FL _ _ sp _ _ :: up => ctx_top sp up
  | FR _ _ sp _ _ :: up => ctx_top sp up
  end.

Lemma tsize_plug c t : tsize (plug c t) = ctx_top (tsize t) c.
Proof.
  revert t. induction c as [|[p cp sp kp r|p cp sp l kp] up IH]; intros t; cbn [plug plug1 ctx_top];
    [done| |]; by rewrite IH.
Qed.

Lemma ctx_sizes_le n c : ctx_sizes n c -> 0 <= n -> n <= ctx_top n c.
Proof.
  revert n. induction c as [|[p cp sp kp r|p cp sp l kp] up IH]; intros n; cbn [ctx_sizes ctx_top];
    [lia| |]; intros (Hs & Hr & Hup) Hn; pose proof (sizes_ok_nonneg _ Hr);
    specialize (IH _ Hup); lia.
Qed.

(** ** Red-black colouring *)

Fixpoint ctx_rb (hc : bool) (n : nat) (c : ctx Key) : Prop :=
  match c with
  | [] => hc = BLACK
  | FL p cp sp kp r :: up =>
      (cp = RED -> hc = BLACK /\ tcolor r = BLACK) /\ rbt n r /\
      ctx_rb cp (if cp then S n else n) up
  | FR p cp sp l kp :: up =>
      (cp = RED -> hc = BLACK /\ tcolor l = BLACK) /\ rbt n l /\
      ctx_rb cp (if cp then S n else n) up
  end.

(** The same, but for the colour of the root of the subtree in the hole. *)
Definition ctx_rbw (n : nat) (c : ctx Key) : Prop :=
  match c with
  | [] => True
  | FL p cp sp kp r :: up =>
      (cp = RED -> tcolor r = BLACK) /\ rbt n r /\ ctx_rb cp (if cp then S n else n) up
  | FR p cp sp l kp :: up =>
      (cp = RED -> tcolor l = BLACK) /\ rbt n l /\ ctx_rb cp (if cp then S n else n) up
  end.

Lemma rb_plug c t n : rbt n t -> ctx_rb (tcolor t) n c -> red_black (plug c t).
Proof.
  revert t n. induction c as [|[p cp sp kp r|p cp sp l kp] up IH]; intros t n Ht Hc;
    cbn [plug plug1 ctx_rb] in *.
  - split; [done|]. eauto.
  - destruct Hc as (H1 & H2 & H3). eapply IH; [|exact H3].
    cbn [rbt tcolor]. destruct cp; [done|]. destruct (H1 eq_refl). done.
  - destruct Hc as (H1 & H2 & H3). eapply IH; [|exact H3].
    cbn [rbt tcolor]. destruct cp; [done|]. destruct (H1 eq_refl). done.
Qed.

Lemma rb_unplug c t : red_black (plug c t) -> exists n, rbt n t /\ ctx_rb (tcolor t) n c.
Proof.
  revert t. induction c as [|[p cp sp kp r|p cp sp l kp] up IH]; intros t H;
    cbn [plug plug1 ctx_rb] in *.
  - destruct H as (Hc & n & Hn). eauto.
  - destruct (IH _ H) as (n & Hn & Hup). cbn [rbt tcolor] in *. destruct cp.
    + destruct n as [|n]; [done|]. exists n. split; [tauto|]. split; [done|]. tauto.
    + exists n. split; [tauto|]. split; [intros _; tauto|]. tauto.
  - destruct (IH _ H) as (n & Hn & Hup). cbn [rbt tcolor] in *. destruct cp.
    + destruct n as [|n]; [done|]. exists n. split; [tauto|]. split; [done|]. tauto.
    + exists n. split; [tauto|]. split; [intros _; tauto|]. tauto.
Qed.

Lemma ctx_rb_w hc n c : ctx_rb hc n c -> ctx_rbw n c.
Proof. destruct c as [|[]]; cbn; [done| |]; tauto. Qed.

Lemma ctx_rb_black n c : ctx_rbw n c -> ctx_rb BLACK n c.
Proof. destruct c as [|[]]; cbn; [done| |]; tauto. Qed.

End Structure.

(** ** Keys *)

Section Keys.

Context {Key : Type}.
Variable CMP : Key -> Key -> bool.
Implicit Types (t : ptree Key) (c : ctx Key) (f : frame Key).

Abbreviation lt := (lt CMP) (only parsing).
Abbreviation sorted := (sorted CMP) (only parsing).
Abbreviation ins_list := (ins_list CMP) (only parsing).
Abbreviation del_list := (del_list CMP) (only parsing).
Abbreviation mem_list := (mem_list CMP) (only parsing).

Hypothesis Hswo : StrictWeakOrder CMP.

Lemma sorted_app l1 l2 :
  sorted (l1 ++ l2) <-> sorted l1 /\ sorted l2 /\ Forall (fun x => Forall (lt x) l2) l1.
Proof.
  unfold sorted. induction l1 as [|a l1 IH]; cbn.
  - split; [intros H; repeat split; [constructor|done|constructor] | tauto].
  - split.
    + intros H. apply StronglySorted_inv in H as [H1 H2]. apply IH in H1 as (H3 & H4 & H5).
      apply Forall_app in H2 as [H6 H7]. repeat split; try done; by constructor.
    + intros (H1 & H2 & H3). apply StronglySorted_inv in H1 as [H4 H5].
      apply Forall_cons in H3 as [H6 H7]. constructor.
      * apply IH. tauto.
      * apply Forall_app. tauto.
Qed.

Lemma bst_sorted t : bst CMP t <-> sorted (keys t).
Proof.
  induction t as [|p cp sp l IHl k r IHr]; cbn [bst keys].
  - split; [intros _; constructor | done].
  - rewrite sorted_app, IHl, IHr. split.
    + intros (Hl & Hr & Hlk & Hkr). split; [done|]. split.
      * constructor; [done|]. exact Hkr.
      * eapply Forall_impl; [exact Hlk|]. intros x Hx. constructor; [exact Hx|].
        eapply Forall_impl; [exact Hkr|]. intros y Hy. unfold lt in *. cbn beta in *.
        eapply (cmp_trans CMP Hswo); eassumption.
    + intros (Hl & Hkr & Hall). apply StronglySorted_inv in Hkr as [Hr Hkr].
      repeat split; try done.
      eapply Forall_impl; [exact Hall|]. intros x Hx. by apply Forall_cons in Hx as [Hx _].
Qed.

Lemma ins_list_skip key l1 l2 :
  Forall (fun x => CMP x key = true) l1 -> ins_list key (l1 ++ l2) = l1 ++ ins_list key l2.
Proof.
  induction 1 as [|x l1 Hx _ IH]; cbn [app ins_list]; [done|].
  rewrite (cmp_asym CMP Hswo _ _ Hx), Hx, IH. done.
Qed.

Lemma del_list_skip key l1 l2 :
  Forall (fun x => CMP x key = true) l1 -> del_list key (l1 ++ l2) = l1 ++ del_list key l2.
Proof.
  induction 1 as [|x l1 Hx _ IH]; cbn [app del_list]; [done|].
  rewrite (cmp_asym CMP Hswo _ _ Hx), Hx, IH. done.
Qed.

Lemma mem_list_skip key l1 l2 :
  Forall (fun x => CMP x key = true) l1 -> mem_list key (l1 ++ l2) = mem_list key l2.
Proof.
  unfold mem_list. induction 1 as [|x l1 Hx _ IH]; cbn [app existsb]; [done|].
  rewrite IH. unfold equal. by rewrite Hx, andb_false_r.
Qed.

Lemma ins_list_here key l :
  Forall (fun x => CMP key x = true) l -> ins_list key l = key :: l.
Proof. destruct 1 as [|x l Hx _]; cbn [ins_list]; [done|]. by rewrite Hx. Qed.

Lemma del_list_none key l :
  Forall (fun x => CMP key x = true) l -> del_list key l = l.
Proof. destruct 1 as [|x l Hx _]; cbn [del_list]; [done|]. by rewrite Hx. Qed.

Lemma mem_list_none key l :
  Forall (fun x => CMP key x = true) l -> mem_list key l = false.
Proof.
  unfold mem_list. induction 1 as [|x l Hx _ IH]; cbn [existsb]; [done|].
  rewrite IH. unfold equal. by rewrite Hx.
Qed.

Lemma ins_list_found key k l :
  equal CMP key k = true -> ins_list key (k :: l) = k :: l.
Proof.
  unfold equal. intros H. cbn [ins_list].
  destruct (CMP key k); [done|]. by destruct (CMP k key).
Qed.

Lemma del_list_found key k l :
  equal CMP key k = true -> del_list key (k :: l) = l.
Proof.
  unfold equal. intros H. cbn [del_list].
  destruct (CMP key k); [done|]. by destruct (CMP k key).
Qed.

Lemma mem_list_found key k l :
  equal CMP key k = true -> mem_list key (k :: l) = true.
Proof. unfold mem_list. cbn [existsb]. by intros ->. Qed.

End Keys.

(** * Insertion *)

Section UpdateSize.

Context {Key : Type}.
Variable Key0 : Key.
Implicit Types (h : gmap N (node Key)) (t : ptree Key) (c : ctx Key) (f : frame Key).

(** Add [v] to the [size] member of a node of the path. *)
Definition frame_add (v : Z) (f : frame Key) : frame Key :=
  match f with
  | FL p c s k r => FL p c (wrap (s + v)) k r
  | FR p c s l k => FR p c (wrap (s + v)) l k
  end.

Lemma ctx_ptr_app_cons nil c1 f c2 :
  ctx_ptr nil (c1 ++ f :: c2) = ctx_ptr nil (c1 ++ [f]).
Proof. by destruct c1. Qed.

Lemma ctx_ptrs_app c1 c2 : ctx_ptrs (c1 ++ c2) ≡ₚ ctx_ptrs c1 ++ ctx_ptrs c2.
Proof.
  induction c1 as [|[p cp sp kp r|p cp sp l kp] c1 IH]; cbn; [done| |]; rewrite IH; solve_Permutation.
Qed.

Lemma ctx_ptr_in nil c : ctx_ptr nil c = nil \/ ctx_ptr nil c ∈ ctx_ptrs c.
Proof. destruct c as [|[]]; cbn; [by left| |]; right; left. Qed.

Lemma frame_ptr_add v f : frame_ptr (frame_add v f) = frame_ptr f.
Proof. by destruct f. Qed.

Lemma ctx_ptr_map_add nil v c1 c2 :
  ctx_ptr nil (map (frame_add v) c1 ++ c2) = ctx_ptr nil (c1 ++ c2).
Proof. destruct c1 as [|f c1]; cbn; [done|]. apply frame_ptr_add. Qed.

Lemma wp_updateSize_loop this nil np v c2 c1 :
  forall fuel t s (Q : unit -> state Key -> Prop),
  (length c1 < fuel)%nat ->
  zrep Key0 this nil np (c1 ++ c2) t s ->
  (forall s', zrep Key0 this nil np (map (frame_add v) c1 ++ c2) t s' -> Q tt s') ->
  wp (loop fuel (fun start =>
        if negb (start =?p ctx_ptr nil c2) then
          add_size start v ;; p <- get_parent start ;; ret (inl p)
        else ret (inr tt)) (ctx_ptr nil (c1 ++ c2))) s Q.
Proof.
  induction c1 as [|f c1 IH]; intros fuel t s Q Hfuel Hz HQ;
    (destruct fuel as [|fuel]; [cbn in Hfuel; lia|]); cbn [loop app map].
  - wp_run. ptr_cmp_simpl. wp_run. by apply HQ.
  - destruct s as [h o]. pose proof Hz as Hz'.
    assert (Hne : frame_ptr f <> ctx_ptr nil c2).
    { destruct Hz as [_ _ _ _ Hnd]. cbn [app] in Hnd.
      assert (Hnd' : NoDup (frame_ptr f :: nil :: ctx_ptrs c2)).
      { eapply (NoDup_perm _ ((null :: ptrs t ++
            match f with FL _ _ _ _ r => ptrs r | FR _ _ _ l _ => ptrs l end ++ ctx_ptrs c1)
            ++ frame_ptr f :: nil :: ctx_ptrs c2)) in Hnd.
        2:{ destruct f; cbn; rewrite ctx_ptrs_app; solve_Permutation. }
        by apply NoDup_app_disj in Hnd as (_ & Hnd & _). }
      nodup_facts Hnd'. destruct (ctx_ptr_in nil c2) as [->|Hin]; [done|].
      intros E. rewrite <- E in Hin. done. }
    destruct f as [p cp sp kp r|p cp sp l kp]; zrep_open Hz'; cbn [frame_ptr] in *; wp_run.
    + eapply (IH _ (plug1 (frame_add v (FL p cp sp kp r)) t)); [cbn in Hfuel; lia| |].
      * cbn [frame_add]. apply zrep_step. zrep_close.
      * intros s' Hs'. apply HQ. cbn [map app]. by apply zrep_step.
    + eapply (IH _ (plug1 (frame_add v (FR p cp sp l kp)) t)); [cbn in Hfuel; lia| |].
      * cbn [frame_add]. apply zrep_step. zrep_close.
      * intros s' Hs'. apply HQ. cbn [map app]. by apply zrep_step.
Qed.

Lemma wp_updateSize this nil np v c1 c2 t s (Q : unit -> state Key -> Prop) :
  zrep Key0 this nil np (c1 ++ c2) t s ->
  (forall s', zrep Key0 this nil np (map (frame_add v) c1 ++ c2) t s' -> Q tt s') ->
  wp (updateSize (ctx_ptr nil (c1 ++ c2)) (ctx_ptr nil c2) v) s Q.
Proof.
  intros Hz HQ. unfold updateSize. destruct s as [h o]. wp_run.
  eapply wp_updateSize_loop; [|exact Hz|exact HQ].
  pose proof (fuel_enough _ _ _ _ _ _ _ Hz) as Hf.
  pose proof (height_plug_ge (c1 ++ c2) t). rewrite length_app in *. cbn [heap] in *. lia.
Qed.

End UpdateSize.

(** ** The insertion fixup *)

Section FixupInsert.

Context {Key : Type}.
Variable Key0 : Key.
Implicit Types (h : gmap N (node Key)) (t : ptree Key) (c : ctx Key) (f : frame Key).

Definition set_tcolor (cl : bool) (t : ptree Key) : ptree Key :=
  match t with
  | PLeaf => PLeaf
  | PNode p _ s l k r => PNode p cl s l k r
  end.

Definition frame_color (f : frame Key) : bool :=
  match f with
  | FL _ c _ _ _ => c
  | FR _ c _ _ _ => c
  end.

Definition frame_set_color (cl : bool) (f : frame Key) : frame Key :=
  match f with
  | FL p _ s k r => FL p cl s k r
  | FR p _ s l k => FR p cl s l k
  end.

(** One round of the fixup loop on the zipper focused at [z]: the next
    zipper, or [None] when the loop is left. *)
Definition ins_fix_step (c : ctx Key) (t : ptree Key) : option (ctx Key * ptree Key) :=
  match c with
  | fp :: fg :: up =>
      if frame_color fp then None
      else
        match fg with
        | FL g cg sg kg u =>
            if negb (tcolor u) then
              Some (up, PNode g RED sg (plug1 (frame_set_color BLACK fp) t) kg
                          (set_tcolor BLACK u))
            else
              match fp with
              | FL p _ sp kp rs =>
                  Some (FL p BLACK (rot_up sp u) kp (PNode g RED (rot_down sg t) rs kg u) :: up, t)
              | FR p _ sp ls kp =>
                  match t with
                  | PNode z cz sz zl zk zr =>
                      let sz' := rot_up sz ls in
                      let P := PNode p RED (rot_down sp zr) ls kp zl in
                      Some (FL z BLACK (rot_up sz' u) zk
                              (PNode g RED (rot_down sg P) zr kg u) :: up, P)
                  | PLeaf => None
                  end
              end
        | FR g cg sg u kg =>
            if negb (tcolor u) then
              Some (up, PNode g RED sg (set_tcolor BLACK u) kg
                          (plug1 (frame_set_color BLACK fp) t))
            else
              match fp with
              | FR p _ sp ls kp =>
                  Some (FR p BLACK (rot_up sp u) (PNode g RED (rot_down sg t) u kg ls) kp :: up, t)
              | FL p _ sp kp rs =>
                  match t with
                  | PNode z cz sz zl zk zr =>
                      let sz' := rot_up sz rs in
                      let P := PNode p RED (rot_down sp zl) zr kp rs in
                      Some (FR z BLACK (rot_up sz' u)
                              (PNode g RED (rot_down sg P) u kg zl) zk :: up, P)
                  | PLeaf => None
                  end
              end
        end
  | _ => None
  end.

(** A red parent is never the root. *)
Definition ins_fix_pre (c : ctx Key) : Prop :=
  match c with
  | [fp] => frame_color fp = BLACK
  | _ => True
  end.

Ltac next_state :=
  let s' := fresh "s" in let Hz := fresh "Hz" in let Hz' := fresh "Hz" in
  intros s' Hz; destruct s' as [? ?]; pose proof Hz as Hz'; zrep_open Hz'.

Lemma wp_fixup_insert_body this nil c z cz sz zl zk zr s
    (Q : ptr + unit -> state Key -> Prop) :
  zrep Key0 this nil nil c (PNode z cz sz zl zk zr) s ->
  ins_fix_pre c ->
  (forall c' t' s', ins_fix_step c (PNode z cz sz zl zk zr) = Some (c', t') ->
     zrep Key0 this nil nil c' t' s' -> Q (inl (rootp nil t')) s') ->
  (ins_fix_step c (PNode z cz sz zl zk zr) = None -> Q (inr tt) s) ->
  wp (fixup_insert_body this z) s Q.
Proof.
  intros Hz Hpre Hstep Hdone. destruct s as [h o]. unfold fixup_insert_body.
  destruct c as [|fp [|fg up]].
  - zrep_open Hz. wp_run. by apply Hdone.
  - cbn in Hpre. destruct fp as [p cp sp kp rs|p cp sp ls kp]; cbn in Hpre; subst cp;
      zrep_open Hz; wp_run; by apply Hdone.
  - clear Hpre.
    destruct fp as [p [|] sp kp rs|p [|] sp ls kp].
    1,3: zrep_open Hz; wp_run; by apply Hdone.
    all: clear Hdone.
    all: destruct fg as [g cg sg kg u|g cg sg u kg].
    all: unfold ins_fix_step in Hstep; cbn [frame_color] in Hstep.
    all: destruct (tcolor u) eqn:Hu; cbn [negb] in Hstep.
    all: specialize (Hstep _ _ _ eq_refl) || specialize (fun s' => Hstep _ _ s' eq_refl).
    all: try (destruct u as [|pu cu su ul uk ur]; [discriminate|]; cbn in Hu; subst cu).
    all: pose proof Hz as Hz'; zrep_open Hz'; wp_run.
    all: rewrite ?Hu; wp_run.
    all: cbn [plug1 frame_set_color set_tcolor] in Hstep.
    all: try (apply Hstep; zrep_close).
    + (* left-left, black uncle *)
      eapply (wp_rotate_right Key0 this nil nil up g RED sg (PNode z cz sz zl zk zr) kg p BLACK sp rs kp u);
        [zrep_close|].
      next_state. wp_run. apply Hstep. by apply zrep_step.
    + (* left child of a right child *)
      eapply (wp_rotate_right Key0 this nil nil (FR g cg sg u kg :: up) p RED sp zl kp z cz sz zr zk rs);
        [zrep_close|].
      next_state. wp_run.
      eapply (wp_rotate_left Key0 this nil nil up g RED sg u kg z BLACK (rot_up sz rs) zl zk
                (PNode p RED (rot_down sp zl) zr kp rs));
        [zrep_close|].
      next_state. wp_run. apply Hstep. by apply zrep_step.
    + (* right child of a left child *)
      eapply (wp_rotate_left Key0 this nil nil (FL g cg sg kg u :: up) p RED sp ls kp z cz sz zl zk zr);
        [zrep_close|].
      next_state. wp_run.
      eapply (wp_rotate_right Key0 this nil nil up g RED sg
                (PNode p RED (rot_down sp zr) ls kp zl) kg z BLACK (rot_up sz ls) zr zk u);
        [zrep_close|].
      next_state. wp_run. apply Hstep. by apply zrep_step.
    + (* right-right, black uncle *)
      eapply (wp_rotate_left Key0 this nil nil up g RED sg u kg p BLACK sp ls kp (PNode z cz sz zl zk zr));
        [zrep_close|].
      next_state. wp_run. apply Hstep. by apply zrep_step.
Qed.

End FixupInsert.

Section FixupInsertPure.

Context {Key : Type}.
Implicit Types (t A B C G : ptree Key) (c up : ctx Key) (f : frame Key).

Lemma rot_left_sizes x cx cx' sx A kx y cy cy' sy B ky C :
  sizes_ok (PNode x cx sx A kx (PNode y cy sy B ky C)) -> sx < SIZE_MAX1 ->
  sizes_ok (PNode y cy' (rot_up sy A) (PNode x cx' (rot_down sx C) A kx B) ky C) /\
  rot_up sy A = sx.
Proof.
  cbn [sizes_ok tsize]. intros (Hx & HA & Hy & HB & HC) Hlt.
  pose proof (sizes_ok_nonneg _ HA). pose proof (sizes_ok_nonneg _ HB).
  pose proof (sizes_ok_nonneg _ HC).
  assert (E1 : rot_down sx C = 1 + tsize A + tsize B).
  { unfold rot_down. destruct C; cbn [tsize] in *; wrap_simpl; lia. }
  assert (E2 : rot_up sy A = sx).
  { unfold rot_up. destruct A; cbn [tsize] in *; wrap_simpl; lia. }
  rewrite E1, E2. repeat split; try done; lia.
Qed.

Lemma rot_right_sizes x cx cx' sx A kx y cy cy' sy B ky C :
  sizes_ok (PNode x cx sx (PNode y cy sy A ky B) kx C) -> sx < SIZE_MAX1 ->
  sizes_ok (PNode y cy' (rot_up sy C) A ky (PNode x cx' (rot_down sx A) B kx C)) /\
  rot_up sy C = sx.
Proof.
  cbn [sizes_ok tsize]. intros (Hx & (Hy & HA & HB) & HC) Hlt.
  pose proof (sizes_ok_nonneg _ HA). pose proof (sizes_ok_nonneg _ HB).
  pose proof (sizes_ok_nonneg _ HC).
  assert (E1 : rot_down sx A = 1 + tsize B + tsize C).
  { unfold rot_down. destruct A; cbn [tsize] in *; wrap_simpl; lia. }
  assert (E2 : rot_up sy C = sx).
  { unfold rot_up. destruct C; cbn [tsize] in *; wrap_simpl; lia. }
  rewrite E1, E2. repeat split; try done; lia.
Qed.

(** Replacing the subtree in focus by one with the same size. *)
Lemma sizes_ok_replace up G G' :
  sizes_ok (plug up G) -> tsize (plug up G) < SIZE_MAX1 ->
  (sizes_ok G -> tsize G < SIZE_MAX1 -> sizes_ok G' /\ tsize G' = tsize G) ->
  sizes_ok (plug up G') /\ tsize (plug up G') = tsize (plug up G).
Proof.
  intros HGup Hlt H. apply sizes_ok_plug in HGup as (HG & Hup).
  rewrite tsize_plug in Hlt. rewrite !tsize_plug. rewrite sizes_ok_plug.
  pose proof (ctx_sizes_le _ _ Hup (sizes_ok_nonneg _ HG)) as Hle.
  assert (Hb : tsize G < SIZE_MAX1) by lia.
  destruct (H HG Hb) as (HG' & E). rewrite E. tauto.
Qed.

Lemma nodes_replace up G G' :
  nodes G' = nodes G -> nodes (plug up G') = nodes (plug up G).
Proof. intros E. by rewrite !nodes_plug, E. Qed.

Lemma sizes_ok_set_tcolor cl t : sizes_ok (set_tcolor cl t) <-> sizes_ok t.
Proof. by destruct t. Qed.

Lemma tsize_set_tcolor cl t : tsize (set_tcolor cl t) = tsize t.
Proof. by destruct t. Qed.

Lemma nodes_set_tcolor cl t : nodes (set_tcolor cl t) = nodes t.
Proof. by destruct t. Qed.

Lemma set_tcolor_id t : set_tcolor (tcolor t) t = t.
Proof. by destruct t. Qed.

Lemma ins_fix_step_nodes c t c' t' :
  ins_fix_step c t = Some (c', t') -> nodes (plug c' t') = nodes (plug c t).
Proof.
  unfold ins_fix_step. intros H.
  destruct c as [|fp [|fg up]]; try discriminate.
  destruct (frame_color fp); [discriminate|].
  destruct fg as [g cg sg kg u|g cg sg u kg]; destruct (tcolor u);
    cbn [negb] in H.
  all: destruct fp as [p cp sp kp rs|p cp sp ls kp]; try destruct t as [|z cz sz zl zk zr];
    try discriminate.
  all: injection H as <- <-; cbn [plug plug1 frame_set_color].
  all: apply nodes_replace; cbn [nodes]; rewrite ?nodes_set_tcolor; cbn [nodes];
    by rewrite <- ?app_assoc; cbn; rewrite <- ?app_assoc.
Qed.

Lemma ins_fix_step_sizes c t c' t' :
  ins_fix_step c t = Some (c', t') ->
  sizes_ok (plug c t) -> tsize (plug c t) < SIZE_MAX1 ->
  sizes_ok (plug c' t') /\ tsize (plug c' t') = tsize (plug c t).
Proof.
  unfold ins_fix_step. intros H.
  destruct c as [|fp [|fg up]]; try discriminate.
  destruct (frame_color fp); [discriminate|].
  destruct fg as [g cg sg kg u|g cg sg u kg]; destruct (tcolor u);
    cbn [negb] in H.
  all: destruct fp as [p cp sp kp rs|p cp sp ls kp]; try destruct t as [|z cz sz zl zk zr];
    try discriminate.
  all: injection H as <- <-; cbn [plug plug1 frame_set_color].
  all: intros Hs Hb; apply sizes_ok_replace; [done|done|]; clear Hs Hb; intros Hs Hb.
  (* recolourings *)
  all: try (cbn [sizes_ok tsize] in *; rewrite ?sizes_ok_set_tcolor, ?tsize_set_tcolor; tauto).
  all: try (eapply (rot_right_sizes g); [exact Hs|exact Hb]).
  all: try (eapply (rot_left_sizes g); [exact Hs|exact Hb]).
  - destruct Hs as (Hg & Hp & Hu).
    pose proof (sizes_ok_nonneg _ Hu).
    assert (Hpb : sp < SIZE_MAX1) by (cbn [tsize] in *; lia).
    destruct (rot_left_sizes p RED RED sp ls kp z cz BLACK sz zl zk zr Hp Hpb) as (H1 & H2).
    eapply (rot_right_sizes g RED RED sg _ kg z BLACK BLACK); [|exact Hb]. cbn [sizes_ok tsize] in *. rewrite H2 in H1 |- *. tauto.
  - destruct Hs as (Hg & Hu & Hp).
    pose proof (sizes_ok_nonneg _ Hu).
    assert (Hpb : sp < SIZE_MAX1) by (cbn [tsize] in *; lia).
    destruct (rot_right_sizes p RED RED sp zl kp z cz BLACK sz zr zk rs Hp Hpb) as (H1 & H2).
    eapply (rot_left_sizes g RED RED sg _ kg z BLACK BLACK); [|exact Hb]. cbn [sizes_ok tsize] in *. rewrite H2 in H1 |- *. tauto.
Qed.

(** The invariant of the fixup loop: the subtree in focus has a red root and
    is otherwise well coloured; so is the path above it, but for the colour
    of the parent of the node in focus. *)
Definition ins_inv (n : nat) (c : ctx Key) (t : ptree Key) : Prop :=
  tcolor t = RED /\ rbt n t /\ ctx_rbw n c.

Lemma ins_inv_pre n c t : ins_inv n c t -> ins_fix_pre c.
Proof.
  intros (_ & _ & Hc). destruct c as [|fp [|fg up]]; cbn; try done.
  destruct fp as [p [|] ? ? ?|p [|] ? ? ?]; cbn in *; try done; by destruct Hc as (_ & _ & ?).
Qed.

Lemma rbt_set_black n t : tcolor t = RED -> rbt n t -> rbt (S n) (set_tcolor BLACK t).
Proof. destruct t as [|p [|] s l k r]; cbn; try done. tauto. Qed.

Lemma ins_fix_step_inv n c t c' t' :
  ins_inv n c t -> ins_fix_step c t = Some (c', t') ->
  (exists n', ins_inv n' c' t') /\ (length c' < length c)%nat.
Proof.
  unfold ins_fix_step. intros (Ht & Hn & Hc) H.
  destruct c as [|fp [|fg up]]; try discriminate.
  destruct t as [|z [|] sz zl zk zr]; try discriminate. clear Ht.
  destruct fg as [g cg sg kg u|g cg sg u kg];
    destruct fp as [p [|] sp kp rs|p [|] sp ls kp]; cbn [frame_color] in H; try discriminate.
  all: cbn [ctx_rbw ctx_rb] in Hc; destruct Hc as (Hrs & Hnrs & (Hcg & Hu & Hup)).
  all: specialize (Hrs eq_refl).
  all: destruct cg; [|by destruct (Hcg eq_refl)]; clear Hcg.
  all: destruct u as [|pu [|] su ul uk ur]; cbn [tcolor negb] in H; injection H as <- <-.
  all: split; [|cbn [length]; lia].
  all: cbn [rbt tcolor] in *.
  (* black uncle *)
  all: try (exists n; unfold ins_inv; cbn [tcolor rbt ctx_rbw RED BLACK]; by intuition).
  (* red uncle *)
  all: exists (S n); unfold ins_inv; cbn [tcolor rbt ctx_rbw plug1 frame_set_color set_tcolor RED BLACK];
    split; [done|]; (split; [by intuition|]); by eapply ctx_rb_w.
Qed.

Lemma ins_fix_done n c t :
  ins_inv n c t -> ins_fix_step c t = None -> red_black (set_tcolor BLACK (plug c t)).
Proof.
  intros (Ht & Hn & Hc) H. unfold ins_fix_step in H.
  destruct c as [|fp [|fg up]].
  - cbn [plug]. split; [by destruct t|]. exists (S n). by apply rbt_set_black.
  - destruct fp as [p cp sp kp rs|p cp sp ls kp]; cbn in Hc; destruct Hc as (H1 & H2 & H3);
      subst cp; cbn [plug plug1 set_tcolor]; (split; [done|]); exists (S n); cbn; done.
  - assert (Hfp : frame_color fp = BLACK).
    { destruct (frame_color fp) eqn:E; [done|]. exfalso.
      destruct t as [|z [|] sz zl zk zr]; try discriminate.
      destruct fg as [g cg sg kg u|g cg sg u kg]; destruct (negb (tcolor u));
        destruct fp; discriminate. }
    assert (Hrb : red_black (plug (fp :: fg :: up) t)).
    { eapply rb_plug; [exact Hn|]. rewrite Ht. remember (fg :: up) as c'.
      destruct fp as [p cp sp kp rs|p cp sp ls kp]; cbn [frame_color] in Hfp; subst cp;
        cbn [ctx_rbw] in Hc; cbn [ctx_rb]; destruct Hc as (H1 & H2 & H3);
        (split; [intros; discriminate|]); (split; [done|]); exact H3. }
    destruct Hrb as (Hcol & Hrb). rewrite <- Hcol, set_tcolor_id. split; [done|]. exact Hrb.
Qed.

(** Updating the sizes along the path changes neither colours nor keys. *)
Lemma ctx_rb_map_add v hc n c : ctx_rb hc n (map (frame_add v) c) <-> ctx_rb hc n c.
Proof.
  revert hc n. induction c as [|[p cp sp kp r|p cp sp l kp] up IH]; intros hc n;
    cbn [map frame_add ctx_rb]; [done| |]; by rewrite IH.
Qed.

Lemma ctx_rbw_map_add v n c : ctx_rbw n (map (frame_add v) c) <-> ctx_rbw n c.
Proof.
  destruct c as [|[p cp sp kp r|p cp sp l kp] up]; cbn [map frame_add ctx_rbw]; [done| |];
    by rewrite ctx_rb_map_add.
Qed.

Lemma nodes_before_map_add v c : nodes_before (map (frame_add v) c) = nodes_before c.
Proof.
  induction c as [|[p cp sp kp r|p cp sp l kp] up IH]; cbn [map frame_add nodes_before];
    [done|done|]. by rewrite IH.
Qed.

Lemma nodes_after_map_add v c : nodes_after (map (frame_add v) c) = nodes_after c.
Proof.
  induction c as [|[p cp sp kp r|p cp sp l kp] up IH]; cbn [map frame_add nodes_after];
    [done| |done]. by rewrite IH.
Qed.

Lemma ctx_sizes_incr n c :
  ctx_sizes n c -> 0 <= n -> ctx_top n c + 1 < SIZE_MAX1 ->
  ctx_sizes (n + 1) (map (frame_add 1) c) /\
  ctx_top (n + 1) (map (frame_add 1) c) = ctx_top n c + 1.
Proof.
  revert n. induction c as [|[p cp sp kp r|p cp sp l kp] up IH]; intros n;
    cbn [map frame_add ctx_sizes ctx_top]; [done| |].
  all: intros (Hs & Hr & Hup) Hn Hb; pose proof (sizes_ok_nonneg _ Hr) as Hrn.
  all: pose proof (ctx_sizes_le _ _ Hup ltac:(lia)) as Hle.
  all: rewrite (wrap_small (sp + 1)) by lia.
  all: destruct (IH sp Hup ltac:(lia) Hb) as (IH1 & IH2).
  all: split; [|done]; split; [lia|]; split; done.
Qed.

Lemma ctx_sizes_decr n c :
  ctx_sizes n c -> 1 <= n -> ctx_top n c < SIZE_MAX1 ->
  ctx_sizes (n - 1) (map (frame_add (wrap (-1))) c) /\
  ctx_top (n - 1) (map (frame_add (wrap (-1))) c) = ctx_top n c - 1.
Proof.
  assert (Hw : forall s, 1 <= s < SIZE_MAX1 -> wrap (s + wrap (-1)) = s - 1).
  { intros s Hs. unfold wrap, SIZE_MAX1 in *.
    rewrite Zplus_mod_idemp_r. replace (s + -1) with (s - 1) by lia.
    apply Z.mod_small. lia. }
  revert n. induction c as [|[p cp sp kp r|p cp sp l kp] up IH]; intros n;
    cbn [map frame_add ctx_sizes ctx_top]; [done| |].
  all: intros (Hs & Hr & Hup) Hn Hb; pose proof (sizes_ok_nonneg _ Hr) as Hrn.
  all: pose proof (ctx_sizes_le _ _ Hup ltac:(lia)) as Hle.
  all: rewrite (Hw sp) by lia.
  all: destruct (IH sp Hup ltac:(lia) Hb) as (IH1 & IH2).
  all: split; [|done]; split; [lia|]; split; done.
Qed.

End FixupInsertPure.

Section Insert.

Context {Key : Type}.
Variable CMP : Key -> Key -> bool.
Variable Key0 : Key.
Hypothesis Hswo : StrictWeakOrder CMP.
Implicit Types (h : gmap N (node Key)) (t T : ptree Key) (c : ctx Key) (f : frame Key).

Lemma shape_fresh h nil par t z :
  shape h nil par t -> h !! z = None -> z ∉ ptrs t.
Proof.
  revert par. induction t as [|p cp sp l IHl k r IHr]; intros par Hs Hz; cbn [shape ptrs] in *.
  - apply notin_nil. exact I.
  - destruct Hs as (H1 & H2 & H3). apply notin_app. split; [by eapply IHl|].
    apply notin_cons. split; [|by eapply IHr]. intros ->. congruence.
Qed.

Lemma ctx_shape_fresh h nil child c z :
  ctx_shape h nil child c -> h !! z = None -> z ∉ ctx_ptrs c.
Proof.
  revert child. induction c as [|[p cp sp kp r|p cp sp l kp] up IH]; intros child Hs Hz;
    cbn [ctx_shape ctx_ptrs] in *.
  - apply notin_nil. exact I.
  - destruct Hs as (H1 & H2 & H3). apply notin_cons. split; [intros ->; congruence|].
    apply notin_app. split; [by eapply shape_fresh|by eapply IH].
  - destruct Hs as (H1 & H2 & H3). apply notin_cons. split; [intros ->; congruence|].
    apply notin_app. split; [by eapply shape_fresh|by eapply IH].
Qed.

Lemma wp_blacken_root this nil T s (Q : unit -> state Key -> Prop) :
  rep Key0 this nil T s ->
  (forall s', rep Key0 this nil (set_tcolor BLACK T) s' -> Q tt s') ->
  wp (r <- get_root this ;; set_color r BLACK) s Q.
Proof.
  intros Hrep HQ. destruct s as [h o]. unfold rep in *.
  destruct T as [|p cp sp l k r]; zrep_open Hrep; wp_run; apply HQ; cbn [set_tcolor]; zrep_close.
Qed.

Lemma wp_fixup_insert this nil c t s n (Q : unit -> state Key -> Prop) :
  zrep Key0 this nil nil c t s -> ins_inv n c t ->
  sizes_ok (plug c t) -> tsize (plug c t) < SIZE_MAX1 ->
  (forall T' s',
     rep Key0 this nil T' s' -> red_black T' -> nodes T' = nodes (plug c t) ->
     sizes_ok T' -> tsize T' = tsize (plug c t) -> Q tt s') ->
  wp (fixup_insert this (rootp nil t)) s Q.
Proof.
  intros Hz Hinv Hsz Hb HQ. unfold fixup_insert. destruct s as [h o]. wp_run.
  eapply wp_loop with (n := length c) (I := fun m z s' =>
    exists c' t' n', zrep Key0 this nil nil c' t' s' /\ z = rootp nil t' /\ ins_inv n' c' t' /\
      nodes (plug c' t') = nodes (plug c t) /\ sizes_ok (plug c' t') /\
      tsize (plug c' t') = tsize (plug c t) /\ m = length c').
  - intros m z s' (c' & t' & n' & Hz' & -> & Hinv' & Hnodes & Hsz' & Hts & ->).
    assert (Ht' : exists z cz sz zl zk zr, t' = PNode z cz sz zl zk zr).
    { destruct Hinv' as (Hc & _). destruct t'; [discriminate|]. eauto 10. }
    destruct Ht' as (z & cz & sz & zl & zk & zr & ->).
    eapply wp_fixup_insert_body; [exact Hz'|by eapply ins_inv_pre| |].
    + intros c'' t'' s'' Hstep Hz''.
      destruct (ins_fix_step_inv _ _ _ _ _ Hinv' Hstep) as ((n'' & Hinv'') & Hlen).
      assert (Hb' : tsize (plug c' (PNode z cz sz zl zk zr)) < SIZE_MAX1) by (by rewrite Hts).
      destruct (ins_fix_step_sizes _ _ _ _ Hstep Hsz' Hb') as (Hsz'' & Hts'').
      exists (length c''). split; [done|]. exists c'', t'', n''.
      split; [done|]. split; [done|]. split; [done|].
      split; [by rewrite (ins_fix_step_nodes _ _ _ _ Hstep)|].
      split; [done|]. split; [|done]. cbn [rootp] in *. by rewrite Hts''.
    + intros Hnone. cbn [rootp] in *. eapply wp_blacken_root.
      * apply (zrep_plug Key0 this nil nil c'). exact Hz'.
      * intros s'' Hrep. eapply HQ; [exact Hrep| | | |].
        -- by eapply ins_fix_done.
        -- by rewrite nodes_set_tcolor.
        -- by apply sizes_ok_set_tcolor.
        -- by rewrite tsize_set_tcolor.
  - exists c, t, n. by repeat (split; [done|]).
  - pose proof (fuel_enough _ _ _ _ _ _ _ Hz) as Hf.
    pose proof (height_plug_ge c t). cbn [heap] in *. lia.
Qed.

(** Descent and, for an absent key, link, size update and fixup. *)
Lemma wp_insert this nil T s key (Q : const_iterator * bool -> state Key -> Prop) :
  rep Key0 this nil T s -> bst CMP T -> sizes_ok T -> red_black T ->
  tsize T + 1 < SIZE_MAX1 ->
  (forall c x cx sx l k r,
     found CMP Key0 this nil T key s c (PNode x cx sx l k r) ->
     Q (mk_it this x, false) s) ->
  (forall c z T' s',
     found CMP Key0 this nil T key s c PLeaf ->
     rep Key0 this nil T' s' -> red_black T' ->
     nodes T' = nodes_before c ++ (z, key) :: nodes_after c ->
     sizes_ok T' -> tsize T' = tsize T + 1 ->
     Q (mk_it this z, true) s') ->
  wp (insert CMP this key) s Q.
Proof.
  intros Hrep Hbst Hsz Hrb Hbound Hpresent Habsent. destruct s as [h o]. unfold insert.
  pose proof Hrep as Hrep'. zrep_open Hrep'. wp_run.
  eapply wp_loop with (n := height T) (I := fun n '(x, y) s' =>
    s' = mk_state h o /\ exists c t, plug c t = T /\ zrep Key0 this nil nil c t s' /\
      x = rootp nil t /\ y = ctx_ptr nil c /\ bst CMP t /\ around CMP key c /\ n = height t).
  2:{ split; [done|]. exists [], T. repeat (split; [done|]). done. }
  2:{ pose proof (fuel_enough _ _ _ _ _ _ _ Hrep). cbn in *. lia. }
  intros n [x y] s' (-> & c & t & HT & Hz & -> & -> & Hb & Ha & ->).
  pose proof Hz as Hz'. destruct t as [|p cp sp l k r]; zrep_open Hz'; wp_run.
  - (* absent: a new node below the last node of the descent *)
    assert (Hfound : found CMP Key0 this nil T key (mk_state h o) c PLeaf) by done.
    specialize (Habsent c).
    apply wp_bind, wp_new_node. intros z Hznull Hzfresh.
    assert (Hzc : z ∉ ctx_ptrs c) by (by eapply ctx_shape_fresh).
    assert (Hznil : z <> nil) by (intros ->; congruence).
    assert (Hsz' : sizes_ok (plug c PLeaf)) by (by rewrite HT).
    assert (Hrb' : red_black (plug c PLeaf)) by (by rewrite HT).
    assert (Hb' : tsize (plug c PLeaf) + 1 < SIZE_MAX1) by (by rewrite HT).
    apply sizes_ok_plug in Hsz' as (_ & Hcs). rewrite tsize_plug in Hb'. cbn [tsize] in *.
    destruct (ctx_sizes_incr 0 c Hcs ltac:(lia) Hb') as (Hcs' & Htop').
    apply rb_unplug in Hrb' as (n0 & Hn0 & Hcrb). cbn [rbt tcolor] in *. subst n0.
    assert (Hpost : forall s1,
      zrep Key0 this nil nil (map (frame_add 1) c ++ []) (PNode z RED 1 PLeaf key PLeaf) s1 ->
      wp (fixup_insert this z ;; ret (mk_it this z, true)) s1 Q).
    { intros s1 Hz1. rewrite app_nil_r in Hz1. apply wp_bind.
      eapply (wp_fixup_insert this nil _ (PNode z RED 1 PLeaf key PLeaf) s1 O); [exact Hz1| | | |].
      - split; [done|]. split; [done|]. apply ctx_rbw_map_add. by eapply ctx_rb_w.
      - apply sizes_ok_plug. cbn [tsize sizes_ok]. done.
      - rewrite tsize_plug. cbn [tsize]. replace 1 with (0 + 1) at 1 by lia. lia.
      - intros T' s2 Hrep2 Hrb2 Hnodes2 Hsz2 Hts2. wp_run.
        eapply Habsent; [done|exact Hrep2|done| |done|].
        + rewrite Hnodes2, nodes_plug, nodes_before_map_add, nodes_after_map_add. done.
        + rewrite Hts2, tsize_plug. cbn [tsize]. replace 1 with (0 + 1) at 1 by lia.
          rewrite Htop'. rewrite <- HT, tsize_plug. done. }
    destruct c as [|[p cp sp kp r|p cp sp l kp] up]; zrep_open Hz; abs_simpl; ptr_facts;
      wp_run.
    + eapply (wp_updateSize Key0 this nil nil 1 [] [] (PNode z RED 1 PLeaf key PLeaf));
        [zrep_close|exact Hpost].
    + assert (Hk : CMP key kp = true).
      { destruct Ha as [_ Ha]. cbn in Ha. by apply Forall_cons in Ha as [Ha _]. }
      rewrite Hk. wp_run.
      eapply (wp_updateSize Key0 this nil nil 1 (FL p cp sp kp r :: up) []
                (PNode z RED 1 PLeaf key PLeaf)); [|exact Hpost].
      rewrite app_nil_r. zrep_close.
    + assert (Hk : CMP key kp = false).
      { destruct Ha as [Ha _]. cbn in Ha. apply Forall_app in Ha as [_ Ha].
        apply Forall_app in Ha as [_ Ha]. apply Forall_cons in Ha as [Ha _].
        by apply (cmp_asym CMP Hswo). }
      rewrite Hk. wp_run.
      eapply (wp_updateSize Key0 this nil nil 1 (FR p cp sp l kp :: up) []
                (PNode z RED 1 PLeaf key PLeaf)); [|exact Hpost].
      rewrite app_nil_r. zrep_close.
  - destruct (equal CMP key k) eqn:Heq; wp_run.
    + eapply Hpresent. by split.
    + destruct (CMP key k) eqn:Hlt; wp_run.
      * exists (height l). split; [cbn; lia|]. split; [done|].
        exists (FL p cp sp k r :: c), l. split; [done|]. split; [by apply zrep_step|].
        split; [done|]. split; [done|]. split; [apply Hb|]. split; [by eapply around_left|done].
      * exists (height r). split; [cbn; lia|]. split; [done|].
        assert (CMP k key = true).
        { unfold equal in Heq. rewrite Hlt in Heq. by destruct (CMP k key). }
        exists (FR p cp sp l k :: c), r. split; [done|]. split; [by apply zrep_step|].
        split; [done|]. split; [done|]. split; [apply Hb|]. split; [by eapply around_right|done].
Qed.

End Insert.

(** * Erasure *)

Section Focus.

Context {Key : Type}.
Variable Key0 : Key.

(** The record of the node in focus, the sentinel included: its [parent]
    member names the node above the hole. *)
Lemma focus_cell this nil np c t s :
  zrep Key0 this nil np c t s -> (t = PLeaf -> np = ctx_ptr nil c) ->
  heap s !! rootp nil t =
  Some (mk_node (tsize t) (rootp nil (tleft t)) (rootp nil (tright t)) (ctx_ptr nil c)
          (tkey Key0 t) (tcolor t)).
Proof.
  intros [Hobj Hnil Hctx Hsub Hnd] Hnp. destruct t as [|p cp sp l k r]; cbn in *.
  - by rewrite Hnil, Hnp.
  - tauto.
Qed.

End Focus.

Ltac with_focus Hz Hnp :=
  let Hx := fresh "Hx" in
  pose proof (focus_cell _ _ _ _ _ _ _ Hz Hnp) as Hx;
  cbn [heap ctx_ptr frame_ptr] in Hx.

Ltac next_state Hz :=
  let s' := fresh "s" in let Hz' := fresh "Hz" in
  intros s' Hz; destruct s' as [? ?]; pose proof Hz as Hz'; zrep_open Hz'.

Ltac clear_state :=
  repeat match goal with
  | H : _ !! _ = _ |- _ => clear H
  | H : shape _ _ _ _ |- _ => clear H
  | H : ctx_shape _ _ _ _ |- _ => clear H
  | H : _ <> _ |- _ => clear H
  | H : _ ∉ _ |- _ => clear H
  | H : disj _ _ |- _ => clear H
  | H : NoDup _ |- _ => clear H
  end.

Ltac er_run Hwl Hwr :=
  repeat (progress (wp_run; rewrite ?Hwl, ?Hwr; unfold BLACK, RED; cbn [Bool.eqb andb])).

Section FixupErase.

Context {Key : Type}.
Variable Key0 : Key.
Implicit Types (h : gmap N (node Key)) (t w : ptree Key) (c up : ctx Key) (f : frame Key).

(** The rest of a round once the sibling [w] of the node in focus is black;
    the node in focus is the left child of [p]. *)
Definition del_fix_left (p : ptr) (cp : bool) (sp : Z) (kp : Key) (w : ptree Key)
    (up : ctx Key) (t : ptree Key) : option (ctx Key * ptree Key) :=
  match w with
  | PLeaf => None
  | PNode pw cw sw wl kw wr =>
      if tcolor wl && tcolor wr then
        Some (up, PNode p cp sp t kp (PNode pw RED sw wl kw wr))
      else
        let w' :=
          if tcolor wr then
            match wl with
            | PLeaf => None
            | PNode pl cl sl ll kl lr =>
                Some (pl, rot_up sl wr, ll, kl, PNode pw RED (rot_down sw ll) lr kw wr)
            end
          else Some (pw, sw, wl, kw, wr) in
        match w' with
        | None => None
        | Some (pw', sw', wl', kw', wr') =>
            let wr'' := set_tcolor BLACK wr' in
            Some ([], plug up (PNode pw' cp (rot_up sw' t)
                                 (PNode p BLACK (rot_down sp wr'') t kp wl') kw' wr''))
        end
  end.

(** The same when the node in focus is the right child of [p]. *)
Definition del_fix_right (p : ptr) (cp : bool) (sp : Z) (w : ptree Key) (kp : Key)
    (up : ctx Key) (t : ptree Key) : option (ctx Key * ptree Key) :=
  match w with
  | PLeaf => None
  | PNode pw cw sw wl kw wr =>
      if tcolor wr && tcolor wl then
        Some (up, PNode p cp sp (PNode pw RED sw wl kw wr) kp t)
      else
        let w' :=
          if tcolor wl then
            match wr with
            | PLeaf => None
            | PNode pr cr sr rl kr rr =>
                Some (pr, rot_up sr wl, PNode pw RED (rot_down sw rr) wl kw rl, kr, rr)
            end
          else Some (pw, sw, wl, kw, wr) in
        match w' with
        | None => None
        | Some (pw', sw', wl', kw', wr') =>
            let wl'' := set_tcolor BLACK wl' in
            Some ([], plug up (PNode pw' cp (rot_up sw' t) wl'' kw'
                                 (PNode p BLACK (rot_down sp wl'') wr' kp t)))
        end
  end.

(** One round of the erase fixup on the zipper focused at [x]: the next
    zipper, or [None] when the loop is left. *)
Definition del_fix_step (c : ctx Key) (t : ptree Key) : option (ctx Key * ptree Key) :=
  match c with
  | [] => None
  | fp :: up =>
      if negb (tcolor t) then None
      else
        match fp with
        | FL p cp sp kp w =>
            match w with
            | PNode pw false sw wl kw wr =>
                del_fix_left p RED (rot_down sp wr) kp wl
                  (FL pw BLACK (rot_up sw t) kw wr :: up) t
            | _ => del_fix_left p cp sp kp w up t
            end
        | FR p cp sp w kp =>
            match w with
            | PNode pw false sw wl kw wr =>
                del_fix_right p RED (rot_down sp wl) wr kp
                  (FR pw BLACK (rot_up sw t) wl kw :: up) t
            | _ => del_fix_right p cp sp w kp up t
            end
        end
  end.

(** The code of [fixup_erase_body] after the sibling has been made black. *)
Definition fixup_erase_left_tail (this : N) (x w : ptr) : M Key (ptr + ptr) :=
  wl <- get_left w ;; wlc <- get_color wl ;;
  wr <- get_right w ;;
  wrc <- (if Bool.eqb wlc BLACK then get_color wr else ret RED) ;;
  if Bool.eqb wlc BLACK && Bool.eqb wrc BLACK then
    set_color w RED ;;
    xp <- get_parent x ;;
    ret (inl xp)
  else
    wr <- get_right w ;; wrc <- get_color wr ;;
    w <- (if Bool.eqb wrc BLACK then
            wl <- get_left w ;; set_color wl BLACK ;;
            set_color w RED ;;
            rotate_right this w ;;
            xp <- get_parent x ;; get_right xp
          else ret w) ;;
    xp <- get_parent x ;; xpc <- get_color xp ;; set_color w xpc ;;
    xp <- get_parent x ;; set_color xp BLACK ;;
    wr <- get_right w ;; set_color wr BLACK ;;
    xp <- get_parent x ;; rotate_left this xp ;;
    r <- get_root this ;;
    ret (inl r).

Definition fixup_erase_right_tail (this : N) (x w : ptr) : M Key (ptr + ptr) :=
  wr <- get_right w ;; wrc <- get_color wr ;;
  wl <- get_left w ;;
  wlc <- (if Bool.eqb wrc BLACK then get_color wl else ret RED) ;;
  if Bool.eqb wrc BLACK && Bool.eqb wlc BLACK then
    set_color w RED ;;
    xp <- get_parent x ;;
    ret (inl xp)
  else
    wl <- get_left w ;; wlc <- get_color wl ;;
    w <- (if Bool.eqb wlc BLACK then
            wr <- get_right w ;; set_color wr BLACK ;;
            set_color w RED ;;
            rotate_left this w ;;
            xp <- get_parent x ;; get_left xp
          else ret w) ;;
    xp <- get_parent x ;; xpc <- get_color xp ;; set_color w xpc ;;
    xp <- get_parent x ;; set_color xp BLACK ;;
    wl <- get_left w ;; set_color wl BLACK ;;
    xp <- get_parent x ;; rotate_right this xp ;;
    r <- get_root this ;;
    ret (inl r).

Lemma wp_fixup_erase_left_tail this nil np up p cp sp kp pw cw sw wl kw wr t s
    (Q : ptr + ptr -> state Key -> Prop) :
  zrep Key0 this nil np (FL p cp sp kp (PNode pw cw sw wl kw wr) :: up) t s ->
  (t = PLeaf -> np = p) ->
  (forall c' t' s',
     del_fix_left p cp sp kp (PNode pw cw sw wl kw wr) up t = Some (c', t') ->
     zrep Key0 this nil np c' t' s' -> Q (inl (rootp nil t')) s') ->
  wp (fixup_erase_left_tail this (rootp nil t) pw) s Q.
Proof.
  intros Hz Hnp HQ. destruct s as [h o]. unfold fixup_erase_left_tail.
  unfold del_fix_left in HQ.
  destruct (tcolor wl) eqn:Hwl; destruct (tcolor wr) eqn:Hwr; cbn [andb] in HQ.
  - (* both children of the sibling black *)
    with_focus Hz Hnp. zrep_open Hz. er_run Hwl Hwr.
    apply (HQ _ _ _ eq_refl). zrep_close.
  - (* right child red *)
    destruct wr as [|pr cr sr rl kr rr]; [discriminate|]. cbn in Hwr. subst cr.
    with_focus Hz Hnp. zrep_open Hz. er_run Hwl Hwr.
    eapply (wp_rotate_left Key0 this nil np up p BLACK sp t kp pw cp sw wl kw
              (PNode pr BLACK sr rl kr rr)); [zrep_close|].
    next_state Hz1. wp_run. cbn [set_tcolor] in HQ.
    specialize (fun s1 => HQ _ _ s1 eq_refl). rewrite <- ctx_root_plug in HQ. cbn [rootp] in HQ.
    apply HQ. by apply (zrep_plug Key0 this nil np up).
  - (* left child red, right child black *)
    destruct wl as [|pl cl sl ll kl lr]; [discriminate|]. cbn in Hwl. subst cl.
    with_focus Hz Hnp. pose proof Hz as Hz'. zrep_open Hz'. er_run Hwl Hwr.
    eapply (wp_rotate_right Key0 this nil np (FR p cp sp t kp :: up) pw RED sw ll kw
              pl BLACK sl lr kl wr); [zrep_close|].
    clear_state. intros [h1 o1] Hz1.
    assert (Hnp1 : t = PLeaf -> np = ctx_ptr nil (FL p cp sp kp
       (PNode pl BLACK (rot_up sl wr) ll kl (PNode pw RED (rot_down sw ll) lr kw wr)) :: up))
      by exact Hnp.
    apply zrep_step in Hz1. cbn [plug1] in Hz1.
    apply (proj2 (zrep_step Key0 this nil np (FL p cp sp kp _) up t _)) in Hz1.
    with_focus Hz1 Hnp1. pose proof Hz1 as Hz2. zrep_open Hz2.
    er_run Hwl Hwr.
    cbn [set_tcolor] in HQ.
    specialize (fun s1 => HQ _ _ s1 eq_refl); rewrite <- ctx_root_plug in HQ; cbn [rootp] in HQ.
    eapply (wp_rotate_left Key0 this nil np up p BLACK sp t kp pl cp (rot_up sl wr) ll kl
              (PNode pw BLACK (rot_down sw ll) lr kw wr)); [zrep_close|].
    next_state Hz3. wp_run.
    apply HQ. by apply (zrep_plug Key0 this nil np up).
  - (* both children red *)
    destruct wr as [|pr cr sr rl kr rr]; [discriminate|]. cbn in Hwr. subst cr.
    with_focus Hz Hnp. zrep_open Hz. er_run Hwl Hwr.
    eapply (wp_rotate_left Key0 this nil np up p BLACK sp t kp pw cp sw wl kw
              (PNode pr BLACK sr rl kr rr)); [zrep_close|].
    next_state Hz1. wp_run. cbn [set_tcolor] in HQ.
    specialize (fun s1 => HQ _ _ s1 eq_refl). rewrite <- ctx_root_plug in HQ. cbn [rootp] in HQ.
    apply HQ. by apply (zrep_plug Key0 this nil np up).
Qed.

Lemma wp_fixup_erase_right_tail this nil np up p cp sp kp pw cw sw wl kw wr t s
    (Q : ptr + ptr -> state Key -> Prop) :
  zrep Key0 this nil np (FR p cp sp (PNode pw cw sw wl kw wr) kp :: up) t s ->
  (t = PLeaf -> np = p) ->
  (forall c' t' s',
     del_fix_right p cp sp (PNode pw cw sw wl kw wr) kp up t = Some (c', t') ->
     zrep Key0 this nil np c' t' s' -> Q (inl (rootp nil t')) s') ->
  wp (fixup_erase_right_tail this (rootp nil t) pw) s Q.
Proof.
  intros Hz Hnp HQ. destruct s as [h o]. unfold fixup_erase_right_tail.
  unfold del_fix_right in HQ.
  destruct (tcolor wr) eqn:Hwr; destruct (tcolor wl) eqn:Hwl; cbn [andb] in HQ.
  - (* both children of the sibling black *)
    with_focus Hz Hnp. zrep_open Hz. er_run Hwl Hwr.
    apply (HQ _ _ _ eq_refl). zrep_close.
  - (* left child red *)
    destruct wl as [|pl cl sl ll kl lr]; [discriminate|]. cbn in Hwl. subst cl.
    with_focus Hz Hnp. zrep_open Hz. er_run Hwl Hwr.
    eapply (wp_rotate_right Key0 this nil np up p BLACK sp (PNode pl BLACK sl ll kl lr) kp
              pw cp sw wr kw t); [zrep_close|].
    next_state Hz1. wp_run. cbn [set_tcolor] in HQ.
    specialize (fun s1 => HQ _ _ s1 eq_refl). rewrite <- ctx_root_plug in HQ. cbn [rootp] in HQ.
    apply HQ. by apply (zrep_plug Key0 this nil np up).
  - (* right child red, left child black *)
    destruct wr as [|pr cr sr rl kr rr]; [discriminate|]. cbn in Hwr. subst cr.
    with_focus Hz Hnp. pose proof Hz as Hz'. zrep_open Hz'. er_run Hwl Hwr.
    eapply (wp_rotate_left Key0 this nil np (FL p cp sp kp t :: up) pw RED sw wl kw
              pr BLACK sr rl kr rr); [zrep_close|].
    clear_state. intros [h1 o1] Hz1.
    assert (Hnp1 : t = PLeaf -> np = ctx_ptr nil (FR p cp sp
       (PNode pr BLACK (rot_up sr wl) (PNode pw RED (rot_down sw rr) wl kw rl) kr rr) kp :: up))
      by exact Hnp.
    apply zrep_step in Hz1. cbn [plug1] in Hz1.
    apply (proj2 (zrep_step Key0 this nil np (FR p cp sp _ kp) up t _)) in Hz1.
    with_focus Hz1 Hnp1. pose proof Hz1 as Hz2. zrep_open Hz2.
    er_run Hwl Hwr.
    cbn [set_tcolor] in HQ.
    specialize (fun s1 => HQ _ _ s1 eq_refl); rewrite <- ctx_root_plug in HQ; cbn [rootp] in HQ.
    eapply (wp_rotate_right Key0 this nil np up p BLACK sp
              (PNode pw BLACK (rot_down sw rr) wl kw rl) kp pr cp (rot_up sr wl) rr kr t);
      [zrep_close|].
    next_state Hz3. wp_run.
    apply HQ. by apply (zrep_plug Key0 this nil np up).
  - (* both children red *)
    destruct wl as [|pl cl sl ll kl lr]; [discriminate|]. cbn in Hwl. subst cl.
    with_focus Hz Hnp. zrep_open Hz. er_run Hwl Hwr.
    eapply (wp_rotate_right Key0 this nil np up p BLACK sp (PNode pl BLACK sl ll kl lr) kp
              pw cp sw wr kw t); [zrep_close|].
    next_state Hz1. wp_run. cbn [set_tcolor] in HQ.
    specialize (fun s1 => HQ _ _ s1 eq_refl). rewrite <- ctx_root_plug in HQ. cbn [rootp] in HQ.
    apply HQ. by apply (zrep_plug Key0 this nil np up).
Qed.

Definition del_fix_pre (c : ctx Key) (t : ptree Key) : Prop :=
  match c with
  | [] => True
  | FL _ _ _ _ w :: _ =>
      tcolor t = BLACK ->
      match w with
      | PLeaf => False
      | PNode _ cw _ wl _ _ => cw = RED -> wl <> PLeaf
      end
  | FR _ _ _ w _ :: _ =>
      tcolor t = BLACK ->
      match w with
      | PLeaf => False
      | PNode _ cw _ _ _ wr => cw = RED -> wr <> PLeaf
      end
  end.

Lemma fixup_erase_body_eq this x :
  fixup_erase_body this x =
  (r <- get_root this ;;
   xc <- (if negb (x =?p r) then get_color x else ret RED) ;;
   if negb (x =?p r) && Bool.eqb xc BLACK then
     xp <- get_parent x ;; xpl <- get_left xp ;;
     if x =?p xpl then
       w <- get_right xp ;;
       wc <- get_color w ;;
       w <- (if Bool.eqb wc RED then
               set_color w BLACK ;;
               xp <- get_parent x ;; set_color xp RED ;;
               xp <- get_parent x ;; rotate_left this xp ;;
               xp <- get_parent x ;; get_right xp
             else ret w) ;;
       fixup_erase_left_tail this x w
     else
       w <- get_left xp ;;
       wc <- get_color w ;;
       w <- (if Bool.eqb wc RED then
               set_color w BLACK ;;
               xp <- get_parent x ;; set_color xp RED ;;
               xp <- get_parent x ;; rotate_right this xp ;;
               xp <- get_parent x ;; get_left xp
             else ret w) ;;
       fixup_erase_right_tail this x w
   else ret (inr x)).
Proof. reflexivity. Qed.

Lemma rootp_ctx_root_ne nil t up p :
  nil <> p -> nil ∉ ctx_ptrs up -> p ∉ ptrs t -> disj (ptrs t) (ctx_ptrs up) ->
  rootp nil t <> ctx_root up p.
Proof.
  intros H1 H2 H3 H4.
  assert (Hin : forall q, ctx_root up q = q \/ ctx_root up q ∈ ctx_ptrs up).
  { clear. induction up as [|f up IH]; intros q; [by left|]. right.
    cbn [ctx_root]. destruct (IH (frame_ptr f)) as [->|Hin].
    - destruct f; cbn; set_solver.
    - destruct f; cbn; set_solver. }
  destruct t as [|x cx sx l k r]; cbn [rootp ptrs] in *.
  - destruct (Hin p) as [->|Hp]; [done|]. by intros ->.
  - destruct (Hin p) as [->|Hp].
    + intros ->. apply H3. set_solver.
    + intros ->. eapply H4; [|exact Hp]. set_solver.
Qed.

Lemma wp_fixup_erase_body this nil np c t s (Q : ptr + ptr -> state Key -> Prop) :
  zrep Key0 this nil np c t s ->
  (t = PLeaf -> np = ctx_ptr nil c) ->
  del_fix_pre c t ->
  (forall c' t' s', del_fix_step c t = Some (c', t') ->
     zrep Key0 this nil np c' t' s' -> Q (inl (rootp nil t')) s') ->
  (del_fix_step c t = None -> Q (inr (rootp nil t)) s) ->
  wp (fixup_erase_body this (rootp nil t)) s Q.
Proof.
  intros Hz Hnp Hpre Hstep Hdone. destruct s as [h o]. rewrite fixup_erase_body_eq.
  destruct c as [|fp up].
  { zrep_open Hz. wp_run. by apply Hdone. }
  assert (Hne : rootp nil t <> ctx_root up (frame_ptr fp)).
  { pose proof Hz as Hz'.
    destruct fp; zrep_open Hz'; cbn [frame_ptr];
      apply rootp_ctx_root_ne; solve [ptr_ne | done | by apply disj_sym | auto]. }
  cbn [del_fix_step] in Hstep, Hdone.
  destruct (tcolor t) eqn:Ht; cbn [negb] in Hstep, Hdone.
  2: { with_focus Hz Hnp. destruct fp; zrep_open Hz; wp_run; rewrite ?Ht; wp_run;
       by apply Hdone. }
  clear Hdone.
  destruct fp as [p cp sp kp w|p cp sp w kp]; cbn [del_fix_pre] in Hpre;
    specialize (Hpre Ht); destruct w as [|pw [|] sw wl kw wr]; try done.
  - (* left child, black sibling *)
    with_focus Hz Hnp. pose proof Hz as Hz'. zrep_open Hz'. wp_run. rewrite ?Ht. wp_run.
    by eapply wp_fixup_erase_left_tail.
  - (* left child, red sibling *)
    destruct wl as [|pl cl sl ll kl lr]; [by specialize (Hpre eq_refl)|]. clear Hpre.
    with_focus Hz Hnp. pose proof Hz as Hz'. zrep_open Hz'. wp_run. rewrite ?Ht. wp_run.
    eapply (wp_rotate_left Key0 this nil np up p RED sp t kp pw BLACK sw
              (PNode pl cl sl ll kl lr) kw wr); [zrep_close|].
    clear_state. intros [h1 o1] Hz1.
    apply (proj2 (zrep_step Key0 this nil np (FL pw BLACK _ kw wr) up _ _)) in Hz1.
    apply (proj2 (zrep_step Key0 this nil np (FL p RED _ kp _) _ t _)) in Hz1.
    with_focus Hz1 Hnp. pose proof Hz1 as Hz2. zrep_open Hz2. wp_run.
    by eapply wp_fixup_erase_left_tail.
  - (* right child, black sibling *)
    with_focus Hz Hnp. pose proof Hz as Hz'. zrep_open Hz'. wp_run. rewrite ?Ht. wp_run.
    by eapply wp_fixup_erase_right_tail.
  - (* right child, red sibling *)
    destruct wr as [|pr cr sr rl kr rr]; [by specialize (Hpre eq_refl)|]. clear Hpre.
    with_focus Hz Hnp. pose proof Hz as Hz'. zrep_open Hz'. wp_run. rewrite ?Ht. wp_run.
    eapply (wp_rotate_right Key0 this nil np up p RED sp wl kp pw BLACK sw
              (PNode pr cr sr rl kr rr) kw t); [zrep_close|].
    clear_state. intros [h1 o1] Hz1.
    apply (proj2 (zrep_step Key0 this nil np (FR pw BLACK _ wl kw) up _ _)) in Hz1.
    apply (proj2 (zrep_step Key0 this nil np (FR p RED _ _ kp) _ t _)) in Hz1.
    with_focus Hz1 Hnp. pose proof Hz1 as Hz2. zrep_open Hz2. wp_run.
    by eapply wp_fixup_erase_right_tail.
Qed.

End FixupErase.

Section FixupErasePure.

Context {Key : Type}.
Implicit Types (t w A B C G : ptree Key) (c up : ctx Key) (f : frame Key).

Lemma del_fix_left_nodes p cp sp kp w up t c' t' :
  del_fix_left p cp sp kp w up t = Some (c', t') ->
  nodes (plug c' t') = nodes (plug (FL p cp sp kp w :: up) t).
Proof.
  unfold del_fix_left. intros H.
  destruct w as [|pw cw sw wl kw wr]; [discriminate|].
  destruct (tcolor wl) eqn:Hwl; destruct (tcolor wr) eqn:Hwr; cbn [andb] in H.
  all: try (destruct wl as [|pl cl sl ll kl lr]; [discriminate|]).
  all: injection H as <- <-; cbn [plug plug1].
  all: apply nodes_replace; cbn [nodes]; rewrite ?nodes_set_tcolor; cbn [nodes];
    by rewrite <- ?app_assoc; cbn; rewrite <- ?app_assoc.
Qed.

Lemma del_fix_right_nodes p cp sp kp w up t c' t' :
  del_fix_right p cp sp w kp up t = Some (c', t') ->
  nodes (plug c' t') = nodes (plug (FR p cp sp w kp :: up) t).
Proof.
  unfold del_fix_right. intros H.
  destruct w as [|pw cw sw wl kw wr]; [discriminate|].
  destruct (tcolor wl) eqn:Hwl; destruct (tcolor wr) eqn:Hwr; cbn [andb] in H.
  all: try (destruct wr as [|pr cr sr rl kr rr]; [discriminate|]).
  all: injection H as <- <-; cbn [plug plug1].
  all: apply nodes_replace; cbn [nodes]; rewrite ?nodes_set_tcolor; cbn [nodes];
    by rewrite <- ?app_assoc; cbn; rewrite <- ?app_assoc.
Qed.

Lemma del_fix_step_nodes c t c' t' :
  del_fix_step c t = Some (c', t') -> nodes (plug c' t') = nodes (plug c t).
Proof.
  unfold del_fix_step. intros H.
  destruct c as [|fp up]; [discriminate|].
  destruct (negb (tcolor t)); [discriminate|].
  destruct fp as [p cp sp kp w|p cp sp w kp]; destruct w as [|pw [|] sw wl kw wr].
  all: try (apply del_fix_left_nodes in H); try (apply del_fix_right_nodes in H).
  all: rewrite H; try done; cbn [plug plug1].
  all: apply nodes_replace; cbn [nodes]; by rewrite <- ?app_assoc; cbn; rewrite <- ?app_assoc.
Qed.

Lemma rot_down_set_tcolor cl s t : rot_down s (set_tcolor cl t) = rot_down s t.
Proof. by destruct t. Qed.

Lemma rot_up_set_tcolor cl s t : rot_up s (set_tcolor cl t) = rot_up s t.
Proof. by destruct t. Qed.

Lemma del_fix_left_sizes p cp sp kp w up t c' t' :
  del_fix_left p cp sp kp w up t = Some (c', t') ->
  sizes_ok (plug (FL p cp sp kp w :: up) t) ->
  tsize (plug (FL p cp sp kp w :: up) t) < SIZE_MAX1 ->
  sizes_ok (plug c' t') /\ tsize (plug c' t') = tsize (plug (FL p cp sp kp w :: up) t).
Proof.
  unfold del_fix_left. intros H.
  destruct w as [|pw cw sw wl kw wr]; [discriminate|].
  destruct (tcolor wl) eqn:Hwl; destruct (tcolor wr) eqn:Hwr; cbn [andb] in H.
  all: try (destruct wl as [|pl cl sl ll kl lr]; [discriminate|]).
  all: injection H as <- <-; cbn [plug plug1].
  all: intros Hs Hb; apply sizes_ok_replace; [done|done|]; clear Hs Hb; intros Hs Hb.
  all: rewrite ?rot_down_set_tcolor.
  - cbn [sizes_ok tsize] in *. tauto.
  - destruct (rot_left_sizes p cp BLACK sp t kp pw cw cp sw _ kw wr Hs Hb) as (H1 & H2).
    cbn [sizes_ok tsize] in *. rewrite ?sizes_ok_set_tcolor, ?tsize_set_tcolor. tauto.
  - destruct Hs as (Hp & Ht & Hw).
    pose proof (sizes_ok_nonneg _ Ht).
    assert (Hwb : sw < SIZE_MAX1) by (cbn [tsize] in *; lia).
    destruct (rot_right_sizes pw cw BLACK sw ll kw pl cl cp sl lr kl wr Hw Hwb) as (H1 & H2).
    eapply (rot_left_sizes p cp BLACK sp t kp pl cp cp); [|exact Hb].
    cbn [sizes_ok tsize] in *. rewrite H2 in H1 |- *. tauto.
  - destruct (rot_left_sizes p cp BLACK sp t kp pw cw cp sw _ kw wr Hs Hb) as (H1 & H2).
    cbn [sizes_ok tsize] in *. rewrite ?sizes_ok_set_tcolor, ?tsize_set_tcolor. tauto.
Qed.

Lemma del_fix_right_sizes p cp sp kp w up t c' t' :
  del_fix_right p cp sp w kp up t = Some (c', t') ->
  sizes_ok (plug (FR p cp sp w kp :: up) t) ->
  tsize (plug (FR p cp sp w kp :: up) t) < SIZE_MAX1 ->
  sizes_ok (plug c' t') /\ tsize (plug c' t') = tsize (plug (FR p cp sp w kp :: up) t).
Proof.
  unfold del_fix_right. intros H.
  destruct w as [|pw cw sw wl kw wr]; [discriminate|].
  destruct (tcolor wr) eqn:Hwr; destruct (tcolor wl) eqn:Hwl; cbn [andb] in H.
  all: try (destruct wr as [|pr cr sr rl kr rr]; [discriminate|]).
  all: injection H as <- <-; cbn [plug plug1].
  all: intros Hs Hb; apply sizes_ok_replace; [done|done|]; clear Hs Hb; intros Hs Hb.
  all: rewrite ?rot_down_set_tcolor.
  - cbn [sizes_ok tsize] in *. tauto.
  - destruct (rot_right_sizes p cp BLACK sp wl kp pw cw cp sw _ kw t Hs Hb) as (H1 & H2).
    cbn [sizes_ok tsize] in *. rewrite ?sizes_ok_set_tcolor, ?tsize_set_tcolor. tauto.
  - destruct Hs as (Hp & Hw & Ht).
    pose proof (sizes_ok_nonneg _ Ht).
    assert (Hwb : sw < SIZE_MAX1) by (cbn [tsize] in *; lia).
    destruct (rot_left_sizes pw cw BLACK sw wl kw pr cr cp sr rl kr rr Hw Hwb) as (H1 & H2).
    eapply (rot_right_sizes p cp BLACK sp _ kp pr cp cp); [|exact Hb].
    cbn [sizes_ok tsize] in *. rewrite H2 in H1 |- *. tauto.
  - destruct (rot_right_sizes p cp BLACK sp wl kp pw cw cp sw _ kw t Hs Hb) as (H1 & H2).
    cbn [sizes_ok tsize] in *. rewrite ?sizes_ok_set_tcolor, ?tsize_set_tcolor. tauto.
Qed.

Lemma del_fix_step_sizes c t c' t' :
  del_fix_step c t = Some (c', t') ->
  sizes_ok (plug c t) -> tsize (plug c t) < SIZE_MAX1 ->
  sizes_ok (plug c' t') /\ tsize (plug c' t') = tsize (plug c t).
Proof.
  unfold del_fix_step. intros H.
  destruct c as [|fp up]; [discriminate|].
  destruct (negb (tcolor t)); [discriminate|].
  destruct fp as [p cp sp kp w|p cp sp w kp]; destruct w as [|pw [|] sw wl kw wr].
  all: try (by apply del_fix_left_sizes); try (by apply del_fix_right_sizes).
  - intros Hs Hb.
    assert (Hrot : sizes_ok (plug (FL p RED (rot_down sp wr) kp wl ::
                                    FL pw BLACK (rot_up sw t) kw wr :: up) t) /\
                   tsize (plug (FL p RED (rot_down sp wr) kp wl ::
                                  FL pw BLACK (rot_up sw t) kw wr :: up) t) =
                   tsize (plug (FL p cp sp kp (PNode pw false sw wl kw wr) :: up) t)).
    { cbn [plug plug1] in *. apply sizes_ok_replace; [done|done|].
      apply (rot_left_sizes p cp RED sp t kp pw false BLACK). }
    destruct Hrot as (Hs' & Hb'). rewrite <- Hb' in Hb |- *.
    by apply del_fix_left_sizes.
  - intros Hs Hb.
    assert (Hrot : sizes_ok (plug (FR p RED (rot_down sp wl) wr kp ::
                                    FR pw BLACK (rot_up sw t) wl kw :: up) t) /\
                   tsize (plug (FR p RED (rot_down sp wl) wr kp ::
                                  FR pw BLACK (rot_up sw t) wl kw :: up) t) =
                   tsize (plug (FR p cp sp (PNode pw false sw wl kw wr) kp :: up) t)).
    { cbn [plug plug1] in *. apply sizes_ok_replace; [done|done|].
      apply (rot_right_sizes p cp RED sp wl kp pw false BLACK). }
    destruct Hrot as (Hs' & Hb'). rewrite <- Hb' in Hb |- *.
    by apply del_fix_right_sizes.
Qed.

(** The invariant of the erase fixup: the subtree in focus is one black node
    short of what the path above it expects, counting a red root in focus as
    already blackened. *)
Definition del_inv (n : nat) (c : ctx Key) (t : ptree Key) : Prop :=
  (if tcolor t then rbt n t else rbt (S n) (set_tcolor BLACK t)) /\ ctx_rbw (S n) c.

Definition del_measure (c : ctx Key) (t : ptree Key) : nat :=
  if tcolor t then match c with [] => O | _ => S (length c) end else O.

Lemma del_inv_pre n c t : del_inv n c t -> del_fix_pre c t.
Proof.
  intros (_ & Hc). destruct c as [|[p cp sp kp w|p cp sp w kp] up]; cbn in *; [done| |].
  all: intros _; destruct Hc as (H1 & H2 & H3); destruct w as [|pw [|] sw wl kw wr];
    cbn in H2; try done.
  - intros _. destruct H2 as (_ & _ & Hl & _). by destruct wl.
  - intros _. destruct H2 as (_ & _ & _ & Hr). by destruct wr.
Qed.

Lemma del_fix_left_inv n p cp sp kp w up t c' t' :
  tcolor t = BLACK -> rbt n t -> tcolor w = BLACK ->
  ctx_rbw (S n) (FL p cp sp kp w :: up) ->
  del_fix_left p cp sp kp w up t = Some (c', t') ->
  (exists n', del_inv n' c' t') /\ (c' = [] \/ c' = up /\ tcolor t' = cp).
Proof.
  unfold del_fix_left. intros Ht Hn Hw (H1 & H2 & H3) H.
  destruct w as [|pw cw sw wl kw wr]; [discriminate|]. cbn in Hw. subst cw.
  cbn [rbt] in H2. destruct H2 as (Hwl & Hwr).
  destruct (tcolor wl) eqn:Hcl; destruct (tcolor wr) eqn:Hcr; cbn [andb] in H.
  all: try (destruct wl as [|pl [|] sl ll kl lr]; try discriminate).
  all: try (destruct wr as [|pr [|] sr rl kr rr]; try discriminate).
  all: injection H as <- <-.
  all: cbn [rbt tcolor set_tcolor] in *.
  (* the sibling turns red *)
  all: try (split; [|right; done]; destruct cp;
            [ exists (S n); split; [cbn [tcolor rbt]; by rewrite ?Hcl, ?Hcr|];
              by eapply ctx_rb_w
            | exists n; split; [cbn [tcolor rbt set_tcolor]; by rewrite ?Hcl, ?Hcr|];
              by eapply ctx_rb_w ]).
  (* a rotation ends the loop *)
  all: split; [|by left].
  all: match goal with |- exists _, del_inv _ _ (plug _ ?N) =>
         assert (Hrb : red_black (plug up N)) end.
  all: try (eapply (rb_plug up _ (if cp then S (S n) else S n)); [|exact H3];
            destruct cp; cbn [rbt tcolor]; by intuition).
  all: destruct Hrb as (Hcol & m & Hm); exists m; split; [by rewrite Hcol|done].
Qed.

Lemma del_fix_right_inv n p cp sp kp w up t c' t' :
  tcolor t = BLACK -> rbt n t -> tcolor w = BLACK ->
  ctx_rbw (S n) (FR p cp sp w kp :: up) ->
  del_fix_right p cp sp w kp up t = Some (c', t') ->
  (exists n', del_inv n' c' t') /\ (c' = [] \/ c' = up /\ tcolor t' = cp).
Proof.
  unfold del_fix_right. intros Ht Hn Hw (H1 & H2 & H3) H.
  destruct w as [|pw cw sw wl kw wr]; [discriminate|]. cbn in Hw. subst cw.
  cbn [rbt] in H2. destruct H2 as (Hwl & Hwr).
  destruct (tcolor wr) eqn:Hcr; destruct (tcolor wl) eqn:Hcl; cbn [andb] in H.
  all: try (destruct wl as [|pl [|] sl ll kl lr]; try discriminate).
  all: try (destruct wr as [|pr [|] sr rl kr rr]; try discriminate).
  all: injection H as <- <-.
  all: cbn [rbt tcolor set_tcolor] in *.
  all: try (split; [|right; done]; destruct cp;
            [ exists (S n); split; [cbn [tcolor rbt]; by rewrite ?Hcl, ?Hcr|];
              by eapply ctx_rb_w
            | exists n; split; [cbn [tcolor rbt set_tcolor]; by rewrite ?Hcl, ?Hcr|];
              by eapply ctx_rb_w ]).
  all: split; [|by left].
  all: match goal with |- exists _, del_inv _ _ (plug _ ?N) =>
         assert (Hrb : red_black (plug up N)) end.
  all: try (eapply (rb_plug up _ (if cp then S (S n) else S n)); [|exact H3];
            destruct cp; cbn [rbt tcolor]; by intuition).
  all: destruct Hrb as (Hcol & m & Hm); exists m; split; [by rewrite Hcol|done].
Qed.

Lemma del_fix_step_inv n c t c' t' :
  del_inv n c t -> del_fix_step c t = Some (c', t') ->
  (exists n', del_inv n' c' t') /\ (del_measure c' t' < del_measure c t)%nat.
Proof.
  unfold del_fix_step. intros (Hn & Hc) H.
  destruct c as [|fp up]; [discriminate|].
  destruct (tcolor t) eqn:Ht; [|discriminate]. cbn [negb] in H.
  assert (Hm : forall cp, (c' = [] \/ c' = up /\ tcolor t' = cp) ->
               (del_measure c' t' < del_measure (fp :: up) t)%nat).
  { intros cp [->|[-> _]]; unfold del_measure; rewrite Ht; destruct (tcolor t'); simpl;
      try lia. destruct up; simpl; lia. }
  assert (Hm' : forall f, (c' = [] \/ c' = f :: up /\ tcolor t' = RED) ->
               (del_measure c' t' < del_measure (fp :: up) t)%nat).
  { intros f [->|[-> Hr]]; unfold del_measure; rewrite Ht; [|rewrite Hr; simpl; lia].
    destruct (tcolor t'); simpl; lia. }
  destruct fp as [p cp sp kp w|p cp sp w kp]; destruct w as [|pw [|] sw wl kw wr].
  - discriminate.
  - destruct (del_fix_left_inv n p cp sp kp (PNode pw true sw wl kw wr) up t c' t'
                Ht Hn eq_refl Hc H) as (Hi & Hl).
    split; [done|]. by eapply Hm.
  - cbn [ctx_rbw rbt] in Hc. destruct Hc as (H1 & (Hcl & Hcr & Hl & Hr) & H3).
    destruct cp; [|by specialize (H1 eq_refl)].
    assert (Hc' : ctx_rbw (S n) (FL p RED (rot_down sp wr) kp wl ::
                                 FL pw BLACK (rot_up sw t) kw wr :: up)).
    { cbn [ctx_rbw ctx_rb]. by intuition. }
    destruct (del_fix_left_inv n _ _ _ _ _ _ _ _ _ Ht Hn Hcl Hc' H) as (Hi & Hl').
    split; [done|]. by eapply Hm'.
  - discriminate.
  - destruct (del_fix_right_inv n p cp sp kp (PNode pw true sw wl kw wr) up t c' t'
                Ht Hn eq_refl Hc H) as (Hi & Hl).
    split; [done|]. by eapply Hm.
  - cbn [ctx_rbw rbt] in Hc. destruct Hc as (H1 & (Hcl & Hcr & Hl & Hr) & H3).
    destruct cp; [|by specialize (H1 eq_refl)].
    assert (Hc' : ctx_rbw (S n) (FR p RED (rot_down sp wl) wr kp ::
                                 FR pw BLACK (rot_up sw t) wl kw :: up)).
    { cbn [ctx_rbw ctx_rb]. by intuition. }
    destruct (del_fix_right_inv n _ _ _ _ _ _ _ _ _ Ht Hn Hcr Hc' H) as (Hi & Hl').
    split; [done|]. by eapply Hm'.
Qed.

Lemma del_fix_left_some n p cp sp kp w up t :
  tcolor w = BLACK -> rbt (S n) w -> del_fix_left p cp sp kp w up t <> None.
Proof.
  unfold del_fix_left. intros Hw Hn.
  destruct w as [|pw cw sw wl kw wr]; [done|]. cbn in Hw. subst cw.
  destruct (tcolor wl) eqn:Hcl; destruct (tcolor wr) eqn:Hcr; cbn [andb]; try done.
  by destruct wl.
Qed.

Lemma del_fix_right_some n p cp sp kp w up t :
  tcolor w = BLACK -> rbt (S n) w -> del_fix_right p cp sp w kp up t <> None.
Proof.
  unfold del_fix_right. intros Hw Hn.
  destruct w as [|pw cw sw wl kw wr]; [done|]. cbn in Hw. subst cw.
  destruct (tcolor wr) eqn:Hcr; destruct (tcolor wl) eqn:Hcl; cbn [andb]; try done.
  by destruct wr.
Qed.

Lemma del_fix_done n c t :
  del_inv n c t -> del_fix_step c t = None -> red_black (plug c (set_tcolor BLACK t)).
Proof.
  intros (Hn & Hc) H. destruct (tcolor t) eqn:Ht.
  - destruct c as [|fp up].
    + cbn [plug]. rewrite <- Ht at 1. rewrite set_tcolor_id. split; [done|]. eauto.
    + exfalso. unfold del_fix_step in H. rewrite Ht in H. cbn [negb] in H.
      destruct fp as [p cp sp kp w|p cp sp w kp]; cbn [ctx_rbw] in Hc;
        destruct Hc as (H1 & H2 & H3); destruct w as [|pw [|] sw wl kw wr]; try done.
      * by eapply del_fix_left_some in H.
      * cbn [rbt] in H2. destruct H2 as (Hcl & Hcr & Hl & Hr).
        by eapply del_fix_left_some in H.
      * by eapply del_fix_right_some in H.
      * cbn [rbt] in H2. destruct H2 as (Hcl & Hcr & Hl & Hr).
        by eapply del_fix_right_some in H.
  - eapply rb_plug; [exact Hn|]. replace (tcolor (set_tcolor BLACK t)) with BLACK by (by destruct t).
    by apply ctx_rb_black.
Qed.

End FixupErasePure.

Section FixupEraseLoop.

Context {Key : Type}.
Variable Key0 : Key.
Implicit Types (h : gmap N (node Key)) (t T : ptree Key) (c : ctx Key) (f : frame Key).

Lemma plug_node c t : t <> PLeaf -> plug c t <> PLeaf.
Proof.
  revert t. induction c as [|f up IH]; intros t Ht; [done|].
  cbn [plug]. apply IH. by destruct f.
Qed.

Lemma del_fix_step_node c t c' t' : del_fix_step c t = Some (c', t') -> t' <> PLeaf.
Proof.
  unfold del_fix_step, del_fix_left, del_fix_right. intros H.
  destruct c as [|fp up]; [discriminate|].
  destruct (negb (tcolor t)); [discriminate|].
  destruct fp as [p cp sp kp w|p cp sp w kp]; destruct w as [|pw [|] sw wl kw wr];
    try discriminate.
  all: repeat match type of H with
       | context [match ?x with _ => _ end] => destruct x; try discriminate
       end.
  all: injection H as <- <-; try done; by apply plug_node.
Qed.

Lemma wp_blacken_focus this nil np c t s (Q : unit -> state Key -> Prop) :
  zrep Key0 this nil np c t s ->
  (forall s', zrep Key0 this nil np c (set_tcolor BLACK t) s' -> Q tt s') ->
  wp (set_color (rootp nil t) BLACK) s Q.
Proof.
  intros Hz HQ. destruct s as [h o].
  destruct t as [|p cp sp l k r]; pose proof Hz as Hz'; zrep_open Hz'; wp_run; apply HQ;
    cbn [set_tcolor]; zrep_close.
Qed.

Lemma wp_fixup_erase this nil np c t s n (Q : unit -> state Key -> Prop) :
  zrep Key0 this nil np c t s -> (t = PLeaf -> np = ctx_ptr nil c) -> del_inv n c t ->
  sizes_ok (plug c t) -> tsize (plug c t) < SIZE_MAX1 ->
  (forall T' s',
     zrep Key0 this nil np [] T' s' -> red_black T' -> nodes T' = nodes (plug c t) ->
     sizes_ok T' -> tsize T' = tsize (plug c t) -> Q tt s') ->
  wp (fixup_erase this (rootp nil t)) s Q.
Proof.
  intros Hz Hnp Hinv Hsz Hb HQ. unfold fixup_erase. destruct s as [h o]. wp_run.
  eapply wp_loop with (n := del_measure c t) (I := fun m x s' =>
    exists c' t' n', zrep Key0 this nil np c' t' s' /\ x = rootp nil t' /\
      (t' = PLeaf -> np = ctx_ptr nil c') /\ del_inv n' c' t' /\
      nodes (plug c' t') = nodes (plug c t) /\ sizes_ok (plug c' t') /\
      tsize (plug c' t') = tsize (plug c t) /\ m = del_measure c' t').
  - intros m x s' (c' & t' & n' & Hz' & -> & Hnp' & Hinv' & Hnodes & Hsz' & Hts & ->).
    eapply wp_fixup_erase_body; [exact Hz'|exact Hnp'|by eapply del_inv_pre| |].
    + intros c'' t'' s'' Hstep Hz''.
      destruct (del_fix_step_inv _ _ _ _ _ Hinv' Hstep) as ((n'' & Hinv'') & Hlen).
      assert (Hb' : tsize (plug c' t') < SIZE_MAX1) by (by rewrite Hts).
      destruct (del_fix_step_sizes _ _ _ _ Hstep Hsz' Hb') as (Hsz'' & Hts'').
      exists (del_measure c'' t''). split; [done|]. exists c'', t'', n''.
      split; [done|]. split; [done|].
      split; [intros E; by apply del_fix_step_node in Hstep|]. split; [done|].
      split; [by rewrite (del_fix_step_nodes _ _ _ _ Hstep)|].
      split; [done|]. split; [|done]. by rewrite Hts''.
    + intros Hnone. eapply wp_blacken_focus; [exact Hz'|].
      intros s'' Hz''. apply zrep_plug in Hz''.
      assert (Hsz2 : sizes_ok (plug c' (set_tcolor BLACK t')) /\
                     tsize (plug c' (set_tcolor BLACK t')) = tsize (plug c' t')).
      { rewrite !tsize_plug, tsize_set_tcolor. split; [|done].
        apply sizes_ok_plug. rewrite sizes_ok_set_tcolor, tsize_set_tcolor.
        by apply sizes_ok_plug. }
      destruct Hsz2 as (Hsz2 & Hts2).
      eapply HQ; [exact Hz''| | | |].
      * by eapply del_fix_done.
      * by rewrite nodes_plug, nodes_set_tcolor, <- nodes_plug.
      * done.
      * by rewrite Hts2.
  - exists c, t, n. by repeat (split; [done|]).
  - pose proof (fuel_enough _ _ _ _ _ _ _ Hz) as Hf.
    pose proof (height_plug_ge c t). cbn [heap] in *.
    assert (del_measure c t <= S (length c))%nat; [|lia].
    unfold del_measure. destruct (tcolor t); [destruct c; simpl|]; lia.
Qed.

End FixupEraseLoop.

(** * Code that frees nothing *)

Section Keeps.

Context {Key : Type}.
Implicit Types (s : state Key).

Notation "x <- m ;; k" := (bind m (fun x => k))
  (at level 100, m at next level, right associativity).
Notation "m ;; k" := (bind m (fun _ => k))
  (at level 100, right associativity).

(** [keeps m]: every node allocated before a run of [m] still is after it. *)
Definition keeps {A} (m : M Key A) : Prop :=
  forall s, match m s with
            | Ok _ s' => forall p, is_Some (heap s !! p) -> is_Some (heap s' !! p)
            | Err _ => True
            end.

Lemma keeps_ret {A} (a : A) : keeps (ret a).
Proof. intros s. cbn. auto. Qed.

Lemma keeps_fail {A} e : keeps (A := A) (fail e).
Proof. by intros s. Qed.

Lemma keeps_bind {A B} (m : M Key A) (k : A -> M Key B) :
  keeps m -> (forall a, keeps (k a)) -> keeps (bind m k).
Proof.
  intros Hm Hk s. unfold bind. specialize (Hm s). destruct (m s) as [a s'|e]; [|done].
  specialize (Hk a s'). destruct (k a s') as [b s''|e]; [|done]. auto.
Qed.

Lemma keeps_load p : keeps (load p).
Proof. intros s. unfold load. destruct (p =?p null); [done|]. by destruct (heap s !! p). Qed.

Lemma keeps_store p n : keeps (store p n).
Proof.
  intros s. unfold store. destruct (p =?p null); [done|].
  destruct (heap s !! p) eqn:E; [|done]. cbn. intros q Hq.
  destruct (decide (q = p)) as [->|Hne]; [by rewrite lookup_insert_eq|].
  by rewrite lookup_insert_ne.
Qed.

Lemma keeps_load_obj this : keeps (load_obj this).
Proof. intros s. unfold load_obj. by destruct (objs s !! this). Qed.

Lemma keeps_store_obj this o : keeps (store_obj this o).
Proof. intros s. cbn. auto. Qed.

Lemma keeps_get_fuel : keeps get_fuel.
Proof. intros s. cbn. auto. Qed.

Lemma keeps_loop {A R} (body : A -> M Key (A + R)) fuel a :
  (forall a, keeps (body a)) -> keeps (loop fuel body a).
Proof.
  intros Hb. revert a. induction fuel as [|fuel IH]; intros a; cbn [loop].
  - apply keeps_fail.
  - apply keeps_bind; [done|]. intros [a'|r]; [apply IH|apply keeps_ret].
Qed.

Lemma wp_keeps {A} (m : M Key A) s (Q : A -> state Key -> Prop) :
  keeps m -> wp m s Q ->
  wp m s (fun a s' => Q a s' /\ forall p, is_Some (heap s !! p) -> is_Some (heap s' !! p)).
Proof. intros Hk Hw. unfold wp in *. specialize (Hk s). by destruct (m s). Qed.

Ltac keeps_prim :=
  first
    [ apply keeps_ret | apply keeps_fail | apply keeps_load | apply keeps_store
    | apply keeps_load_obj | apply keeps_store_obj | apply keeps_get_fuel
    | apply keeps_bind; [|intros ?]
    | apply keeps_loop; intros ? ].

Lemma keeps_get_size p : keeps (get_size p).
Proof. unfold get_size. repeat keeps_prim. Qed.
Lemma keeps_get_left p : keeps (get_left p).
Proof. unfold get_left. repeat keeps_prim. Qed.
Lemma keeps_get_right p : keeps (get_right p).
Proof. unfold get_right. repeat keeps_prim. Qed.
Lemma keeps_get_parent p : keeps (get_parent p).
Proof. unfold get_parent. repeat keeps_prim. Qed.
Lemma keeps_get_color p : keeps (get_color p).
Proof. unfold get_color. repeat keeps_prim. Qed.
Lemma keeps_set_size p v : keeps (set_size p v).
Proof. unfold set_size. repeat keeps_prim. Qed.
Lemma keeps_set_left p v : keeps (set_left p v).
Proof. unfold set_left. repeat keeps_prim. Qed.
Lemma keeps_set_right p v : keeps (set_right p v).
Proof. unfold set_right. repeat keeps_prim. Qed.
Lemma keeps_set_parent p v : keeps (set_parent p v).
Proof. unfold set_parent. repeat keeps_prim. Qed.
Lemma keeps_set_color p v : keeps (set_color p v).
Proof. unfold set_color. repeat keeps_prim. Qed.
Lemma keeps_add_size p v : keeps (add_size p v).
Proof. unfold add_size. apply keeps_bind; [apply keeps_get_size|intros ?; apply keeps_set_size]. Qed.
Lemma keeps_sub_size p v : keeps (sub_size p v).
Proof. unfold sub_size. apply keeps_bind; [apply keeps_get_size|intros ?; apply keeps_set_size]. Qed.
Lemma keeps_get_nil this : keeps (get_nil this).
Proof. unfold get_nil. repeat keeps_prim. Qed.
Lemma keeps_get_root this : keeps (get_root this).
Proof. unfold get_root. repeat keeps_prim. Qed.
Lemma keeps_set_root this v : keeps (set_root this v).
Proof. unfold set_root. repeat keeps_prim. Qed.

Ltac keeps_step :=
  match goal with
  | |- keeps (bind _ _) => apply keeps_bind; [|intros ?]
  | |- keeps (ret _) => apply keeps_ret
  | |- keeps (fail _) => apply keeps_fail
  | |- keeps (get_size _) => apply keeps_get_size
  | |- keeps (get_left _) => apply keeps_get_left
  | |- keeps (get_right _) => apply keeps_get_right
  | |- keeps (get_parent _) => apply keeps_get_parent
  | |- keeps (get_color _) => apply keeps_get_color
  | |- keeps (set_size _ _) => apply keeps_set_size
  | |- keeps (set_left _ _) => apply keeps_set_left
  | |- keeps (set_right _ _) => apply keeps_set_right
  | |- keeps (set_parent _ _) => apply keeps_set_parent
  | |- keeps (set_color _ _) => apply keeps_set_color
  | |- keeps (add_size _ _) => apply keeps_add_size
  | |- keeps (sub_size _ _) => apply keeps_sub_size
  | |- keeps (get_nil _) => apply keeps_get_nil
  | |- keeps (get_root _) => apply keeps_get_root
  | |- keeps (set_root _ _) => apply keeps_set_root
  | |- keeps get_fuel => apply keeps_get_fuel
  | |- keeps (loop _ _ _) => apply keeps_loop; intros ?
  | |- keeps (if ?b then _ else _) => destruct b
  | |- keeps (when ?b _) => unfold when
  | |- keeps (match ?x with _ => _ end) => destruct x
  end.

Ltac keeps_solve := repeat keeps_step.

Lemma keeps_rotate_left this x : keeps (rotate_left this x).
Proof. unfold rotate_left. keeps_solve. Qed.

Lemma keeps_rotate_right this x : keeps (rotate_right this x).
Proof. unfold rotate_right. keeps_solve. Qed.

Lemma keeps_fixup_erase_left_tail this x w : keeps (fixup_erase_left_tail this x w).
Proof.
  unfold fixup_erase_left_tail.
  repeat first
    [ keeps_step
    | match goal with
      | |- keeps (rotate_left _ _) => apply keeps_rotate_left
      | |- keeps (rotate_right _ _) => apply keeps_rotate_right
      end ].
Qed.

Lemma keeps_fixup_erase_right_tail this x w : keeps (fixup_erase_right_tail this x w).
Proof.
  unfold fixup_erase_right_tail.
  repeat first
    [ keeps_step
    | match goal with
      | |- keeps (rotate_left _ _) => apply keeps_rotate_left
      | |- keeps (rotate_right _ _) => apply keeps_rotate_right
      end ].
Qed.

Lemma keeps_fixup_erase this x : keeps (fixup_erase this x).
Proof.
  unfold fixup_erase. apply keeps_bind; [apply keeps_get_fuel|]. intros fuel.
  apply keeps_bind; [|intros a; apply keeps_set_color].
  apply keeps_loop. intros a. rewrite fixup_erase_body_eq.
  repeat first
    [ keeps_step
    | match goal with
      | |- keeps (rotate_left _ _) => apply keeps_rotate_left
      | |- keeps (rotate_right _ _) => apply keeps_rotate_right
      | |- keeps (fixup_erase_left_tail _ _ _) => apply keeps_fixup_erase_left_tail
      | |- keeps (fixup_erase_right_tail _ _ _) => apply keeps_fixup_erase_right_tail
      end ].
Qed.

End Keeps.

(** * Unlinking a node *)

Section Splice.

Context {Key : Type}.
Variable Key0 : Key.
Implicit Types (h : gmap N (node Key)) (t T : ptree Key) (c lc : ctx Key) (f : frame Key).

Notation "x <- m ;; k" := (bind m (fun x => k))
  (at level 100, m at next level, right associativity).
Notation "m ;; k" := (bind m (fun _ => k))
  (at level 100, right associativity).

(** The part of [erase(node* z)] that takes [z] out of the tree; it yields
    the node [x] that moved up and the colour that left its place. *)
Definition erase_splice (this : N) (z : ptr) (y_original_color : bool) (zl nil : ptr) :
    M Key (ptr * bool) :=
  if zl =?p nil then
    x <- get_right z ;; zr <- get_right z ;; transplant this z zr ;; ret (x, y_original_color)
  else
    zr <- get_right z ;; nil <- get_nil this ;;
    if zr =?p nil then
      x <- get_left z ;; zl <- get_left z ;; transplant this z zl ;; ret (x, y_original_color)
    else
      zr <- get_right z ;; y <- min_node this zr ;; y_original_color <- get_color y ;;
      x <- get_right y ;; yp <- get_parent y ;;
      (if yp =?p z then set_parent x y
       else yp <- get_parent y ;; updateSize yp z (wrap (-1)) ;;
         yr <- get_right y ;; s <- get_size yr ;; sub_size y s ;;
         yr <- get_right y ;; transplant this y yr ;;
         zr <- get_right z ;; set_right y zr ;;
         yr <- get_right y ;; set_parent yr y ;;
         yr <- get_right y ;; s <- get_size yr ;; add_size y s) ;;
      transplant this z y ;;
      zl <- get_left z ;; set_left y zl ;;
      yl <- get_left y ;; set_parent yl y ;;
      zc <- get_color z ;; set_color y zc ;;
      yl <- get_left y ;; s <- get_size yl ;; add_size y s ;;
      ret (x, y_original_color).

(** What is left once the splice is done. *)
Definition erase_finish (this : N) (z : ptr) (it : const_iterator) (x : ptr)
    (y_original_color : bool) : M Key const_iterator :=
  when (Bool.eqb y_original_color BLACK) (fixup_erase this x) ;;
  nil <- get_nil this ;; set_parent nil nil ;;
  nil <- get_nil this ;; c <- get_color nil ;;
  (if Bool.eqb c BLACK then ret tt else fail AssertFail) ;;
  delete_node z ;; ret it.

Lemma erase_node_eq this z :
  erase_node this z =
  (zp <- get_parent z ;; nil <- get_nil this ;;
   updateSize zp nil (wrap (-1)) ;;
   sz <- successor this z ;;
   yc <- get_color z ;;
   zl <- get_left z ;; nil <- get_nil this ;;
   r <- erase_splice this z yc zl nil ;;
   let '(x, y_original_color) := r in
   erase_finish this z (mk_it this sz) x y_original_color).
Proof. reflexivity. Qed.

(** The zipper after the splice of the node in focus: the colour that left,
    the path to the subtree that moved up, and that subtree. *)
Inductive splice : ctx Key -> ptree Key -> bool -> ctx Key -> ptree Key -> Prop :=
| splice_no_left c z cz sz zk zr :
    splice c (PNode z cz sz PLeaf zk zr) cz c zr
| splice_no_right c z cz sz zl zk :
    zl <> PLeaf ->
    splice c (PNode z cz sz zl zk PLeaf) cz c zl
| splice_child c z cz sz zl zk y cy sy ky ry :
    zl <> PLeaf ->
    splice c (PNode z cz sz zl zk (PNode y cy sy PLeaf ky ry)) cy
      (FR y cz (wrap (sy + tsize zl)) zl ky :: c) ry
| splice_deep c z cz sz zl zk zr f lc y cy sy ky ry :
    zl <> PLeaf -> Forall is_FL (f :: lc) ->
    zr = plug (f :: lc) (PNode y cy sy PLeaf ky ry) ->
    splice c (PNode z cz sz zl zk zr) cy
      (map (frame_add (wrap (-1))) (f :: lc) ++
       FR y cz (wrap (wrap (wrap (sy - tsize ry) +
                            tsize (plug (map (frame_add (wrap (-1))) (f :: lc)) ry)) +
                      tsize zl)) zl ky :: c) ry.

Lemma wp_erase_splice_leaf this nil c z cz sz zl zk zr s
    (Q : ptr * bool -> state Key -> Prop) :
  zrep Key0 this nil nil c (PNode z cz sz zl zk zr) s ->
  zl = PLeaf \/ zr = PLeaf ->
  (forall yoc c' t' np s',
     splice c (PNode z cz sz zl zk zr) yoc c' t' ->
     zrep Key0 this nil np c' t' s' -> (t' = PLeaf -> np = ctx_ptr nil c') ->
     is_Some (heap s' !! z) -> Q (rootp nil t', yoc) s') ->
  wp (erase_splice this z cz (rootp nil zl) nil) s Q.
Proof.
  intros Hz Hleaf HQ. destruct s as [h o]. unfold erase_splice, transplant.
  destruct zl as [|pl cl sl ll kl lr].
  - clear Hleaf.
    specialize (fun np s' => HQ _ _ _ np s' (splice_no_left _ _ _ _ _ _)).
    destruct zr as [|pr cr sr rl kr rr];
      destruct c as [|[p cp sp kp r|p cp sp l kp] up]; zrep_open Hz; wp_run.
    all: eapply HQ; [zrep_close | cbn; done | eexists; cbn [heap]; lookup_solve].
  - destruct Hleaf as [Hl | ->]; [done|].
    assert (Hne : PNode pl cl sl ll kl lr <> PLeaf) by done.
    specialize (fun np s' => HQ _ _ _ np s' (splice_no_right _ _ _ _ _ _ Hne)).
    destruct c as [|[p cp sp kp r|p cp sp l kp] up]; zrep_open Hz; wp_run.
    all: eapply HQ; [zrep_close | cbn; done | eexists; cbn [heap]; lookup_solve].
Qed.

(** The first half of the deep case: the successor [y], a left child without
    left child, gives its place to its right subtree. *)
Lemma wp_unlink_succ {A} this nil up yp cyp syp kyp ryp y cy sy ky ry s (rest : M Key A)
    (Q : A -> state Key -> Prop) :
  zrep Key0 this nil nil (FL yp cyp syp kyp ryp :: up) (PNode y cy sy PLeaf ky ry) s ->
  (forall np s',
     zrep Key0 this nil np (FL yp cyp syp kyp ryp :: up) ry s' ->
     (ry = PLeaf -> np = yp) ->
     heap s' !! y = Some (mk_node (wrap (sy - tsize ry)) nil (rootp nil ry) yp ky cy) ->
     NoDup (y :: null :: nil :: ptrs ry ++ ctx_ptrs (FL yp cyp syp kyp ryp :: up)) ->
     wp rest s' Q) ->
  wp (yr <- get_right y ;; s <- get_size yr ;; sub_size y s ;;
      yr <- get_right y ;; transplant this y yr ;; rest) s Q.
Proof.
  intros Hz HQ. destruct s as [h o]. unfold transplant.
  assert (Hnd' : NoDup (y :: null :: nil :: ptrs ry ++ ctx_ptrs (FL yp cyp syp kyp ryp :: up))).
  { destruct Hz as [_ _ _ _ Hnd]. eapply NoDup_perm; [|exact Hnd]. cbn. solve_Permutation. }
  specialize (fun np s' H1 H2 H3 => HQ np s' H1 H2 H3 Hnd').
  destruct ry as [|px cx sx xl kx xr]; zrep_open Hz; wp_run.
  all: eapply HQ; [zrep_close | cbn; done | cbn [heap tsize rootp]; lookup_solve].
Qed.

Lemma wp_erase_splice_node this nil c z cz sz pl cl sl ll kl lr zk pr cr sr rl kr rr s
    (Q : ptr * bool -> state Key -> Prop) :
  zrep Key0 this nil nil c
    (PNode z cz sz (PNode pl cl sl ll kl lr) zk (PNode pr cr sr rl kr rr)) s ->
  (forall yoc c' t' np s',
     splice c (PNode z cz sz (PNode pl cl sl ll kl lr) zk (PNode pr cr sr rl kr rr))
       yoc c' t' ->
     zrep Key0 this nil np c' t' s' -> (t' = PLeaf -> np = ctx_ptr nil c') ->
     is_Some (heap s' !! z) -> Q (rootp nil t', yoc) s') ->
  wp (erase_splice this z cz pl nil) s Q.
Proof.
  intros Hz HQ. destruct s as [h o]. unfold erase_splice.
  assert (Hne : PNode pl cl sl ll kl lr <> PLeaf) by done.
  pose proof Hz as Hz'. zrep_open Hz'. wp_run.
  eapply (wp_min_node Key0 this nil nil (FR z cz sz (PNode pl cl sl ll kl lr) zk :: c));
    [by apply zrep_step|].
  intros lc y cy sy ky ry Hall Hplug. destruct lc as [|f lc].
  - (* the successor is the right child *)
    cbn [plug] in Hplug. injection Hplug as E1 E2 E3 E4 E5 E6. subst y cy sy rl ky ry.
    specialize (fun np s' => HQ _ _ _ np s' (splice_child _ _ _ _ _ _ _ _ _ _ _ Hne)).
    clear_state. clear Hall.
    destruct rr as [|px cx sx xl kx xr];
      destruct c as [|[p cp sp kp r|p cp sp l kp] up]; zrep_open Hz; unfold transplant; wp_run.
    all: eapply HQ; [zrep_close | cbn; done | eexists; cbn [heap]; lookup_solve].
  - (* the successor is deeper in the right subtree *)
    destruct f as [yp cyp syp kyp ryp|]; [|by apply Forall_cons in Hall as [[] _]].
    specialize (fun np s' => HQ _ _ _ np s'
      (splice_deep c z cz sz _ zk _ _ lc y cy sy ky ry Hne Hall (eq_sym Hplug))).
    assert (Hzy : zrep Key0 this nil nil
                    ((FL yp cyp syp kyp ryp :: lc) ++ FR z cz sz (PNode pl cl sl ll kl lr) zk :: c)
                    (PNode y cy sy PLeaf ky ry) (mk_state h o)).
    { apply zrep_app. rewrite Hplug. by apply zrep_step. }
    clear_state. clear Hz.
    assert (Hyz : yp <> z).
    { destruct Hzy as [_ _ _ _ Hnd]. cbn [app ctx_ptrs] in Hnd.
      rewrite ctx_ptrs_app in Hnd. cbn [ctx_ptrs] in Hnd.
      intros ->. revert Hnd. clear. intros Hnd.
      apply NoDup_cons in Hnd as [_ Hnd]. apply NoDup_cons in Hnd as [_ Hnd].
      apply NoDup_app in Hnd as (_ & _ & Hnd). apply NoDup_cons in Hnd as [Hnd _].
      apply Hnd. set_solver. }
    pose proof Hzy as Hzy'. cbn [app] in Hzy'. zrep_open Hzy'.
    wp_run.
    eapply (wp_updateSize Key0 this nil nil (wrap (-1)) (FL yp cyp syp kyp ryp :: lc)
              (FR z cz sz (PNode pl cl sl ll kl lr) zk :: c) (PNode y cy sy PLeaf ky ry));
      [exact Hzy|].
    clear_state. clear Hzy. intros [h1 o1] Hz1. cbn [map frame_add app] in Hz1.
    eapply wp_unlink_succ; [exact Hz1|]. clear Hz1.
    intros np [h2 o2] Hz2 Hnp Hy Hnd. cbn [heap] in Hy.
    set (lc' := map (frame_add (wrap (-1))) (FL yp cyp syp kyp ryp :: lc)) in HQ.
    change (FL yp cyp (wrap (syp + wrap (-1))) kyp ryp ::
            map (frame_add (wrap (-1))) lc ++ FR z cz sz (PNode pl cl sl ll kl lr) zk :: c)
      with (lc' ++ FR z cz sz (PNode pl cl sl ll kl lr) zk :: c) in Hz2, Hnd.
    assert (HR : plug lc' ry <> PLeaf).
    { unfold lc'. cbn [map plug]. apply plug_node. by destruct ry. }
    apply zrep_app, zrep_step in Hz2. cbn [plug1] in Hz2.
    assert (Hnd3 : NoDup (y :: null :: nil ::
                     ptrs (PNode z cz sz (PNode pl cl sl ll kl lr) zk (plug lc' ry)) ++
                     ctx_ptrs c)).
    { eapply NoDup_perm; [|exact Hnd]. rewrite ctx_ptrs_app. cbn [ctx_ptrs ptrs].
      rewrite <- (zptrs_perm lc' ry). solve_Permutation. }
    clear Hnd.
    assert (Hfin : forall sy3 s',
      zrep Key0 this nil np c (PNode y cz sy3 (PNode pl cl sl ll kl lr) ky (plug lc' ry)) s' ->
      zrep Key0 this nil np (lc' ++ FR y cz sy3 (PNode pl cl sl ll kl lr) ky :: c) ry s').
    { intros sy3 s' Hs'. apply zrep_app, zrep_step. exact Hs'. }
    assert (Hnp' : ry = PLeaf -> np = ctx_ptr nil
      (lc' ++ FR y cz (wrap (wrap (wrap (sy - tsize ry) + tsize (plug lc' ry)) +
                             tsize (PNode pl cl sl ll kl lr)))
                 (PNode pl cl sl ll kl lr) ky :: c)) by exact Hnp.
    specialize (fun s' H => HQ np s' (Hfin _ s' H) Hnp'). clear Hfin Hnp Hnp'.
    destruct (plug lc' ry) as [|px cx sx xl kx xr]; [done|]. clear HR. clearbody lc'.
    cbn [tsize] in HQ.
    destruct c as [|[p cp sp kp r|p cp sp l kp] up]; zrep_open Hz2;
      abs_simpl; nodup_facts Hnd3; destruct_ands; unfold transplant; wp_run.
    all: eapply HQ; [zrep_close | eexists; cbn [heap]; lookup_solve].
Qed.

Lemma wp_erase_finish this nil np c t s z it yoc (Q : const_iterator -> state Key -> Prop) :
  zrep Key0 this nil np c t s -> (t = PLeaf -> np = ctx_ptr nil c) ->
  is_Some (heap s !! z) -> z <> null -> z <> nil -> z ∉ ptrs (plug c t) ->
  (yoc = BLACK -> exists n, del_inv n c t) -> (yoc = RED -> red_black (plug c t)) ->
  sizes_ok (plug c t) -> tsize (plug c t) < SIZE_MAX1 ->
  (forall T' s',
     rep Key0 this nil T' s' -> red_black T' -> nodes T' = nodes (plug c t) ->
     sizes_ok T' -> tsize T' = tsize (plug c t) -> Q it s') ->
  wp (erase_finish this z it (rootp nil t) yoc) s Q.
Proof.
  intros Hz Hnp Hsome Hznull Hznil Hzt Hrb Hrb0 Hsz Hb HQ. unfold erase_finish.
  assert (Hend : forall T' s',
    zrep Key0 this nil np [] T' s' -> is_Some (heap s' !! z) ->
    red_black T' -> nodes T' = nodes (plug c t) ->
    sizes_ok T' -> tsize T' = tsize (plug c t) ->
    wp (nil <- get_nil this ;; set_parent nil nil ;;
        nil <- get_nil this ;; c <- get_color nil ;;
        (if Bool.eqb c BLACK then ret tt else fail AssertFail) ;;
        delete_node z ;; ret it) s' Q).
  { intros T' [h' o'] Hz' [nz Hnz] Hrb' Hnodes' Hsz' Hts'. cbn [heap] in Hnz.
    assert (HzT : z ∉ ptrs T').
    { rewrite ptrs_nodes, Hnodes', <- ptrs_nodes. exact Hzt. }
    pose proof Hz' as Hz''. zrep_open Hz''. wp_run.
    eapply wp_delete_node; [done|lookup_solve|]. wp_run.
    eapply HQ; try done. split; cbn [heap objs ctx_shape ctx_ptr ctx_ptrs ctx_root].
    - done.
    - rewrite lookup_delete_ne by done. lookup_solve.
    - done.
    - apply shape_del; [done|]. apply shape_upd; [done|]. exact Hsub.
    - by destruct Hz' as [_ _ _ _ Hnd']. }
  destruct yoc; cbn [Bool.eqb BLACK when].
  - destruct (Hrb eq_refl) as (n & Hinv). apply wp_bind.
    eapply wp_mono; [apply wp_keeps; [apply keeps_fixup_erase|]|].
    { eapply wp_fixup_erase with
        (Q := fun _ s' => exists T', zrep Key0 this nil np [] T' s' /\ red_black T' /\
                 nodes T' = nodes (plug c t) /\ sizes_ok T' /\ tsize T' = tsize (plug c t));
        [exact Hz|exact Hnp|exact Hinv|exact Hsz|exact Hb|].
      intros T' s' H1 H2 H3 H4 H5. exists T'. done. }
    intros [] s' ((T' & H1 & H2 & H3 & H4 & H5) & Hk). cbn beta.
    eapply Hend; eauto.
  - specialize (Hrb0 eq_refl). apply wp_bind. apply wp_ret. apply zrep_plug in Hz.
    eapply Hend; eauto.
Qed.

End Splice.

Section SplicePure.

Context {Key : Type}.
Implicit Types (t Z : ptree Key) (c lc : ctx Key) (f : frame Key).

(** Frames that differ in address, size and key only. *)
Inductive frame_sim : frame Key -> frame Key -> Prop :=
| sim_FL p cp sp kp r p' sp' kp' : frame_sim (FL p cp sp kp r) (FL p' cp sp' kp' r)
| sim_FR p cp sp l kp p' sp' kp' : frame_sim (FR p cp sp l kp) (FR p' cp sp' l kp').

Definition ctx_sim (c c' : ctx Key) : Prop := Forall2 frame_sim c c'.

Lemma frame_sim_refl f : frame_sim f f.
Proof. destruct f; constructor. Qed.

Lemma ctx_sim_refl c : ctx_sim c c.
Proof. induction c; constructor; [apply frame_sim_refl|done]. Qed.

Lemma ctx_sim_map_add v c : ctx_sim c (map (frame_add v) c).
Proof.
  induction c as [|[p cp sp kp r|p cp sp l kp] up IH]; cbn [map frame_add]; constructor;
    try done; constructor.
Qed.

Lemma ctx_rb_sim c c' : ctx_sim c c' -> forall hc n, ctx_rb hc n c <-> ctx_rb hc n c'.
Proof.
  induction 1 as [|f f' c c' Hf Hc IH]; intros hc n; [done|].
  destruct Hf; cbn [ctx_rb]; by rewrite IH.
Qed.

Lemma ctx_rbw_sim c c' n : ctx_sim c c' -> ctx_rbw n c <-> ctx_rbw n c'.
Proof.
  destruct 1 as [|f f' c c' Hf Hc]; [done|].
  destruct Hf; cbn [ctx_rbw]; by rewrite (ctx_rb_sim _ _ Hc).
Qed.

Lemma red_black_sim c c' t : ctx_sim c c' -> red_black (plug c t) -> red_black (plug c' t).
Proof.
  intros Hs (n & Hn & Hc)%rb_unplug. eapply rb_plug; [exact Hn|].
  by apply (ctx_rb_sim _ _ Hs).
Qed.

Lemma del_inv_sim c c' n t : ctx_sim c c' -> del_inv n c t -> del_inv n c' t.
Proof. intros Hs (H1 & H2). split; [done|]. by apply (ctx_rbw_sim _ _ _ Hs). Qed.

(** Taking out a node with an empty left (right) subtree. *)
Lemma rb_remove_no_left c p cp sp k r :
  red_black (plug c (PNode p cp sp PLeaf k r)) ->
  (cp = BLACK -> exists n, del_inv n c r) /\ (cp = RED -> red_black (plug c r)).
Proof.
  intros (n & Hn & Hc)%rb_unplug. cbn [tcolor rbt] in *. split; intros ->.
  - destruct n as [|n]; [done|]. destruct Hn as (-> & Hr). exists O. split.
    + destruct r as [|pr [|] sr rl kr rr]; cbn in *; try done. tauto.
    + by eapply ctx_rb_w.
  - destruct Hn as (_ & Hcr & -> & Hr). eapply rb_plug; [exact Hr|].
    rewrite Hcr. by eapply ctx_rb_black, ctx_rb_w.
Qed.

Lemma rb_remove_no_right c p cp sp l k :
  red_black (plug c (PNode p cp sp l k PLeaf)) ->
  (cp = BLACK -> exists n, del_inv n c l) /\ (cp = RED -> red_black (plug c l)).
Proof.
  intros (n & Hn & Hc)%rb_unplug. cbn [tcolor rbt] in *. split; intros ->.
  - destruct n as [|n]; [done|]. destruct Hn as (Hl & ->). exists O. split.
    + destruct l as [|pl [|] sl ll kl lr]; cbn in *; try done. tauto.
    + by eapply ctx_rb_w.
  - destruct Hn as (Hcl & _ & Hl & ->). eapply rb_plug; [exact Hl|].
    rewrite Hcl. by eapply ctx_rb_black, ctx_rb_w.
Qed.

Lemma splice_rb c Z yoc c' t' :
  splice c Z yoc c' t' -> red_black (plug c Z) ->
  (yoc = BLACK -> exists n, del_inv n c' t') /\ (yoc = RED -> red_black (plug c' t')).
Proof.
  destruct 1 as [c z cz sz zk zr|c z cz sz zl zk Hzl|c z cz sz zl zk y cy sy ky ry Hzl
                |c z cz sz zl zk zr f lc y cy sy ky ry Hzl Hall ->]; intros Hrb.
  - by apply rb_remove_no_left in Hrb.
  - by apply rb_remove_no_right in Hrb.
  - apply (rb_remove_no_left (FR z cz sz zl zk :: c)) in Hrb as (H1 & H2).
    assert (Hs : ctx_sim (FR z cz sz zl zk :: c) (FR y cz (wrap (sy + tsize zl)) zl ky :: c)).
    { constructor; [constructor|apply ctx_sim_refl]. }
    split; intros E.
    + destruct (H1 E) as (n & Hn). exists n. by eapply del_inv_sim.
    + by eapply red_black_sim; [exact Hs|apply H2].
  - change (plug c (PNode z cz sz zl zk (plug (f :: lc) (PNode y cy sy PLeaf ky ry))))
      with (plug (FR z cz sz zl zk :: c) (plug (f :: lc) (PNode y cy sy PLeaf ky ry))) in Hrb.
    rewrite <- plug_app in Hrb.
    apply rb_remove_no_left in Hrb as (H1 & H2).
    match goal with |- context [FR y cz ?s zl ky] =>
      assert (Hs : ctx_sim ((f :: lc) ++ FR z cz sz zl zk :: c)
                     (map (frame_add (wrap (-1))) (f :: lc) ++ FR y cz s zl ky :: c)) end.
    { apply Forall2_app; [apply ctx_sim_map_add|].
      constructor; [constructor|apply ctx_sim_refl]. }
    split; intros E.
    + destruct (H1 E) as (n & Hn). exists n. by eapply del_inv_sim.
    + by eapply red_black_sim; [exact Hs|apply H2].
Qed.

Lemma nodes_before_app c1 c2 : nodes_before (c1 ++ c2) = nodes_before c2 ++ nodes_before c1.
Proof.
  induction c1 as [|[p cp sp kp r|p cp sp l kp] c1 IH]; cbn [app nodes_before].
  - by rewrite app_nil_r.
  - done.
  - by rewrite IH, <- !app_assoc.
Qed.

Lemma nodes_after_app c1 c2 : nodes_after (c1 ++ c2) = nodes_after c1 ++ nodes_after c2.
Proof.
  induction c1 as [|[p cp sp kp r|p cp sp l kp] c1 IH]; cbn [app nodes_after]; [done| |done].
  by rewrite IH, <- app_assoc.
Qed.

Lemma nodes_before_left lc : Forall is_FL lc -> nodes_before lc = [].
Proof. induction 1 as [|[] lc Hf _ IH]; cbn; done. Qed.

Lemma ctx_ptrs_map_add v c : ctx_ptrs (map (frame_add v) c) = ctx_ptrs c.
Proof.
  induction c as [|[p cp sp kp r|p cp sp l kp] up IH]; cbn [map frame_add ctx_ptrs]; [done| |];
    by rewrite IH.
Qed.

Lemma splice_nodes c Z yoc c' t' :
  splice c Z yoc c' t' ->
  nodes (plug c' t') = nodes_before c ++ nodes (tleft Z) ++ nodes (tright Z) ++ nodes_after c.
Proof.
  destruct 1 as [c z cz sz zk zr|c z cz sz zl zk Hzl|c z cz sz zl zk y cy sy ky ry Hzl
                |c z cz sz zl zk zr f lc y cy sy ky ry Hzl Hall ->];
    cbn [tleft tright]; rewrite !nodes_plug.
  - done.
  - by rewrite app_nil_l.
  - cbn [nodes nodes_before nodes_after]. by rewrite <- !app_assoc.
  - rewrite nodes_before_app, nodes_after_app, nodes_before_map_add, nodes_after_map_add.
    rewrite (nodes_before_left _ Hall). cbn [nodes nodes_before nodes_after].
    by rewrite <- !app_assoc.
Qed.

Lemma splice_ptrs c Z yoc c' t' nil :
  splice c Z yoc c' t' ->
  rootp nil Z :: ptrs t' ++ ctx_ptrs c' ≡ₚ ptrs Z ++ ctx_ptrs c.
Proof.
  destruct 1 as [c z cz sz zk zr|c z cz sz zl zk Hzl|c z cz sz zl zk y cy sy ky ry Hzl
                |c z cz sz zl zk zr f lc y cy sy ky ry Hzl Hall ->]; cbn [rootp ptrs ctx_ptrs].
  - done.
  - solve_Permutation.
  - solve_Permutation.
  - rewrite ctx_ptrs_app, ctx_ptrs_map_add. cbn [ctx_ptrs].
    rewrite <- (zptrs_perm (f :: lc)). cbn [ptrs]. solve_Permutation.
Qed.

Lemma ctx_sizes_app n c1 c2 :
  ctx_sizes n (c1 ++ c2) <-> ctx_sizes n c1 /\ ctx_sizes (ctx_top n c1) c2.
Proof.
  revert n. induction c1 as [|[p cp sp kp r|p cp sp l kp] c1 IH]; intros n;
    cbn [app ctx_sizes ctx_top]; [tauto| |]; rewrite IH; tauto.
Qed.

Lemma ctx_top_app n c1 c2 : ctx_top n (c1 ++ c2) = ctx_top (ctx_top n c1) c2.
Proof.
  revert n. induction c1 as [|[p cp sp kp r|p cp sp l kp] c1 IH]; intros n;
    cbn [app ctx_top]; done.
Qed.

Lemma splice_sizes c Z yoc c' t' :
  splice c Z yoc c' t' ->
  sizes_ok Z -> tsize Z < SIZE_MAX1 -> ctx_sizes (tsize Z - 1) c ->
  sizes_ok (plug c' t') /\ tsize (plug c' t') = ctx_top (tsize Z - 1) c.
Proof.
  destruct 1 as [c z cz sz zk zr|c z cz sz zl zk Hzl|c z cz sz zl zk y cy sy ky ry Hzl
                |c z cz sz zl zk zr f lc y cy sy ky ry Hzl Hall ->];
    cbn [sizes_ok tsize]; intros (Hsz & Hl & Hr) Hb Hc; rewrite sizes_ok_plug, tsize_plug.
  - cbn [tsize] in Hsz. replace (tsize zr) with (sz - 1) by lia. done.
  - cbn [tsize] in Hsz. replace (tsize zl) with (sz - 1) by lia. done.
  - cbn [sizes_ok tsize] in *. destruct Hr as (Hsy & _ & Hry).
    pose proof (sizes_ok_nonneg _ Hl). pose proof (sizes_ok_nonneg _ Hry).
    rewrite (wrap_small (sy + tsize zl)) by lia.
    replace (sy + tsize zl) with (sz - 1) by lia.
    split; [|done]. split; [done|]. cbn [ctx_sizes]. split; [lia|]. done.
  - apply sizes_ok_plug in Hr as (HY & Hlc). rewrite tsize_plug in Hsz.
    cbn [sizes_ok tsize] in HY, Hlc, Hsz, Hb. destruct HY as (Hsy & _ & Hry).
    pose proof (sizes_ok_nonneg _ Hl). pose proof (sizes_ok_nonneg _ Hry).
    pose proof (ctx_sizes_le _ _ Hlc ltac:(lia)) as Hle.
    destruct (ctx_sizes_decr sy (f :: lc) Hlc ltac:(lia) ltac:(lia)) as (Hlc' & Htop').
    replace (sy - 1) with (tsize ry) in Hlc', Htop' by lia.
    rewrite tsize_plug, Htop'.
    rewrite (wrap_small (sy - tsize ry)) by lia.
    rewrite (wrap_small (sy - tsize ry + _)) by lia.
    rewrite (wrap_small (sy - tsize ry + _ + _)) by lia.
    replace (sy - tsize ry + (ctx_top sy (f :: lc) - 1) + tsize zl) with (sz - 1) by lia.
    rewrite ctx_top_app, ctx_sizes_app, Htop'. cbn [ctx_top ctx_sizes].
    split; [|done]. split; [done|]. split; [done|]. split; [cbn [ctx_top] in *; lia|]. done.
Qed.

End SplicePure.

Section EraseNode.

Context {Key : Type}.
Variable Key0 : Key.
Implicit Types (h : gmap N (node Key)) (t T : ptree Key) (c lc : ctx Key) (f : frame Key).

Lemma ptrs_after_map_add v c : ptrs_after (map (frame_add v) c) = ptrs_after c.
Proof.
  induction c as [|[p cp sp kp r|p cp sp l kp] up IH]; cbn [map frame_add ptrs_after];
    [done| |done]. by rewrite IH.
Qed.

(** [erase(node* z)] on a node of a well-formed tree: the node leaves the
    tree, which stays well formed, and the position of its in-order successor
    is returned. *)
Lemma wp_erase_node this nil c z cz sz zl zk zr s (Q : const_iterator -> state Key -> Prop) :
  zrep Key0 this nil nil c (PNode z cz sz zl zk zr) s ->
  sizes_ok (plug c (PNode z cz sz zl zk zr)) ->
  red_black (plug c (PNode z cz sz zl zk zr)) ->
  tsize (plug c (PNode z cz sz zl zk zr)) < SIZE_MAX1 ->
  (forall T' s',
     rep Key0 this nil T' s' -> red_black T' -> sizes_ok T' ->
     tsize T' = tsize (plug c (PNode z cz sz zl zk zr)) - 1 ->
     nodes T' = nodes_before c ++ nodes zl ++ nodes zr ++ nodes_after c ->
     Q (mk_it this (succ_ptr nil c zr)) s') ->
  wp (erase_node this z) s Q.
Proof.
  intros Hz Hsz Hrb Hb HQ. destruct s as [h o]. rewrite erase_node_eq.
  set (c' := map (frame_add (wrap (-1))) c).
  (* the pure side *)
  apply sizes_ok_plug in Hsz as (HsZ & Hsc). rewrite tsize_plug in Hb, HQ.
  pose proof (sizes_ok_nonneg _ HsZ) as HZn.
  assert (HZ1 : 1 <= tsize (PNode z cz sz zl zk zr)).
  { cbn [sizes_ok tsize] in *. destruct HsZ as (-> & Hl & Hr).
    pose proof (sizes_ok_nonneg _ Hl). pose proof (sizes_ok_nonneg _ Hr). lia. }
  destruct (ctx_sizes_decr _ c Hsc HZ1 Hb) as (Hsc' & Htop'). fold c' in Hsc', Htop'.
  assert (HZb : tsize (PNode z cz sz zl zk zr) < SIZE_MAX1).
  { pose proof (ctx_sizes_le _ _ Hsc HZn). lia. }
  assert (Hrb' : red_black (plug c' (PNode z cz sz zl zk zr))).
  { eapply red_black_sim; [apply ctx_sim_map_add|exact Hrb]. }
  assert (Hcont : forall yoc c'' t'' np s',
    splice c' (PNode z cz sz zl zk zr) yoc c'' t'' ->
    zrep Key0 this nil np c'' t'' s' -> (t'' = PLeaf -> np = ctx_ptr nil c'') ->
    is_Some (heap s' !! z) ->
    zrep Key0 this nil nil c' (PNode z cz sz zl zk zr) (mk_state h o) \/ True ->
    NoDup (null :: nil :: ptrs (PNode z cz sz zl zk zr) ++ ctx_ptrs c') ->
    wp (erase_finish this z (mk_it this (succ_ptr nil c zr)) (rootp nil t'') yoc) s' Q).
  { intros yoc c'' t'' np s' Hsp Hz'' Hnp Hsome _ Hnd.
    destruct (splice_rb _ _ _ _ _ Hsp Hrb') as (Hr1 & Hr2).
    destruct (splice_sizes _ _ _ _ _ Hsp HsZ HZb Hsc') as (Hs1 & Hs2).
    pose proof (splice_nodes _ _ _ _ _ Hsp) as Hn.
    pose proof (splice_ptrs _ _ _ _ _ nil Hsp) as Hp. cbn [rootp] in Hp.
    assert (Hnd' : NoDup (null :: nil :: z :: ptrs t'' ++ ctx_ptrs c'')).
    { eapply NoDup_perm; [|exact Hnd]. by rewrite Hp. }
    apply NoDup_cons in Hnd' as [Hnull Hnd']. apply NoDup_cons in Hnd' as [Hnil Hnd'].
    apply NoDup_cons in Hnd' as [Hzt _].
    eapply wp_erase_finish; [exact Hz''|exact Hnp|exact Hsome| | | |exact Hr1|exact Hr2
                            |exact Hs1| |].
    - intros ->. apply Hnull. set_solver.
    - intros ->. apply Hnil. set_solver.
    - by rewrite <- zptrs_perm.
    - rewrite Hs2, Htop'. lia.
    - intros T' s'' H1 H2 H3 H4 H5. eapply HQ; [exact H1|exact H2|exact H4| |].
      + by rewrite H5, Hs2, Htop'.
      + rewrite H3, Hn. unfold c'. by rewrite nodes_before_map_add, nodes_after_map_add. }
  clear HQ.
  (* the code *)
  pose proof Hz as Hz'. zrep_open Hz'. wp_run.
  replace (ctx_ptr nil c) with (ctx_ptr nil (c ++ [])) by (by rewrite app_nil_r).
  eapply (wp_updateSize Key0 this nil nil (wrap (-1)) c [] (PNode z cz sz zl zk zr));
    [by rewrite app_nil_r|].
  clear_state. intros [h1 o1] Hz1. rewrite app_nil_r in Hz1. fold c' in Hz1.
  apply wp_bind. eapply wp_successor; [exact Hz1|].
  replace (succ_ptr nil c' zr) with (succ_ptr nil c zr)
    by (unfold succ_ptr, c'; by rewrite ptrs_after_map_add).
  assert (Hnd1 : NoDup (null :: nil :: ptrs (PNode z cz sz zl zk zr) ++ ctx_ptrs c'))
    by (by destruct Hz1).
  specialize (fun yoc c'' t'' np s' H1 H2 H3 H4 => Hcont yoc c'' t'' np s' H1 H2 H3 H4
                (or_intror I) Hnd1).
  pose proof Hz1 as Hz1'. zrep_open Hz1'. wp_run.
  destruct zl as [|pl cl sl ll kl lr].
  - eapply wp_erase_splice_leaf; [exact Hz1|by left|].
    intros yoc c'' t'' np s' G1 G2 G3 G4. wp_run. by eapply Hcont.
  - destruct zr as [|pr cr sr rl kr rr].
    + eapply wp_erase_splice_leaf; [exact Hz1|by right|].
      intros yoc c'' t'' np s' G1 G2 G3 G4. wp_run. by eapply Hcont.
    + eapply wp_erase_splice_node; [exact Hz1|].
      intros yoc c'' t'' np s' G1 G2 G3 G4. wp_run. by eapply Hcont.
Qed.

End EraseNode.

Section Erase.

Context {Key : Type}.
Variable CMP : Key -> Key -> bool.
Variable Key0 : Key.
Hypothesis Hswo : StrictWeakOrder CMP.
Implicit Types (h : gmap N (node Key)) (t T : ptree Key) (c : ctx Key) (f : frame Key).

(** [erase(const Key&)]: nothing happens for an absent key; the node with an
    equivalent key is unlinked otherwise. *)
Lemma wp_erase this nil T s key (Q : const_iterator -> state Key -> Prop) :
  rep Key0 this nil T s -> bst CMP T -> sizes_ok T -> red_black T ->
  tsize T < SIZE_MAX1 ->
  (forall c, found CMP Key0 this nil T key s c PLeaf -> Q (mk_it this nil) s) ->
  (forall c z cz sz zl zk zr T' s',
     found CMP Key0 this nil T key s c (PNode z cz sz zl zk zr) ->
     rep Key0 this nil T' s' -> red_black T' -> sizes_ok T' ->
     tsize T' = tsize T - 1 ->
     nodes T' = nodes_before c ++ nodes zl ++ nodes zr ++ nodes_after c ->
     Q (mk_it this (succ_ptr nil c zr)) s') ->
  wp (erase CMP this key) s Q.
Proof.
  intros Hrep Hbst Hsz Hrb Hb Habsent Hpresent. unfold erase.
  apply wp_bind. eapply wp_search; [exact Hswo|exact Hrep|exact Hbst|].
  intros c t Hfound. destruct s as [h o].
  pose proof Hfound as (HT & Hz & Hbt & Har & Heq).
  destruct t as [|z cz sz zl zk zr].
  - pose proof Hz as Hz'. zrep_open Hz'. wp_run. by eapply Habsent.
  - pose proof Hz as Hz'. zrep_open Hz'. wp_run.
    eapply wp_erase_node; [exact Hz| | | |].
    + by rewrite HT.
    + by rewrite HT.
    + by rewrite HT.
    + rewrite HT. intros T' s' G1 G2 G3 G4 G5. by eapply Hpresent.
Qed.

End Erase.

(** * The public operations on well-formed sets *)

Section Steps.

Context {Key : Type}.
Variable CMP : Key -> Key -> bool.
Variable Key0 : Key.
Implicit Types (h : gmap N (node Key)) (t T : ptree Key) (c : ctx Key) (s : state Key).

Notation "x <- m ;; k" := (bind m (fun x => k))
  (at level 100, m at next level, right associativity).
Notation "m ;; k" := (bind m (fun _ => k))
  (at level 100, right associativity).

Abbreviation wf := (wf CMP Key0) (only parsing).

Lemma wp_ctor this s0 (Q : unit -> state Key -> Prop) :
  (forall nil s, wf this nil PLeaf s -> Q tt s) -> wp (ctor Key0 this) s0 Q.
Proof.
  intros HQ. destruct s0 as [h o]. unfold ctor.
  apply wp_bind, wp_new_node. intros p Hp Hfresh. wp_run.
  eapply HQ with (nil := p). split; [|split; [done|split; [done|]]].
  - split; cbn [heap objs rootp ctx_root ctx_shape shape ptrs ctx_ptrs app]; try done.
    + lookup_solve.
    + lookup_solve.
    + apply NoDup_cons. split; [set_solver|]. apply NoDup_singleton.
  - split; [done|]. by exists O.
Qed.

Hypothesis Hswo : StrictWeakOrder CMP.

Lemma sorted_insert kb ka key :
  sorted CMP (kb ++ ka) ->
  Forall (fun x => CMP x key = true) kb -> Forall (fun x => CMP key x = true) ka ->
  sorted CMP (kb ++ key :: ka).
Proof.
  intros (Hb & Ha & Hba)%sorted_app Hkb Hka. apply sorted_app. split; [done|]. split.
  - constructor; [done|]. exact Hka.
  - apply Forall_forall. intros x Hx. constructor.
    + by eapply Forall_forall in Hkb.
    + by eapply Forall_forall in Hba.
Qed.

Lemma sorted_remove l1 k l2 : sorted CMP (l1 ++ k :: l2) -> sorted CMP (l1 ++ l2).
Proof.
  intros (H1 & H2 & H3)%sorted_app. apply sorted_app.
  apply StronglySorted_inv in H2 as [H2 _]. split; [done|]. split; [done|].
  eapply Forall_impl; [exact H3|]. intros x Hx. by apply Forall_cons in Hx as [_ Hx].
Qed.

Lemma found_absent this nil T key s c :
  found CMP Key0 this nil T key s c PLeaf ->
  keys T = keys_before c ++ keys_after c /\
  Forall (fun x => CMP x key = true) (keys_before c) /\
  Forall (fun x => CMP key x = true) (keys_after c).
Proof.
  intros (HT & _ & _ & [Hb Ha] & _). rewrite <- HT, keys_plug. cbn [keys app]. done.
Qed.

Lemma found_present this nil T key s c z cz sz zl zk zr :
  found CMP Key0 this nil T key s c (PNode z cz sz zl zk zr) ->
  keys T = (keys_before c ++ keys zl) ++ zk :: (keys zr ++ keys_after c) /\
  nodes T = (nodes_before c ++ nodes zl) ++ (z, zk) :: (nodes zr ++ nodes_after c) /\
  Forall (fun x => CMP x key = true) (keys_before c ++ keys zl) /\
  Forall (fun x => CMP key x = true) (keys zr ++ keys_after c) /\
  equal CMP key zk = true.
Proof.
  intros (HT & _ & Hbst & [Hb Ha] & Heq). rewrite <- HT, keys_plug, nodes_plug.
  cbn [keys nodes]. rewrite <- !app_assoc. cbn [app]. split; [done|]. split; [done|].
  destruct Hbst as (_ & _ & Hl & Hr). rewrite !Forall_app.
  rewrite equal_sym in Heq by done.
  split; [split; [done|]|split; [split; [|done]|by rewrite equal_sym]].
  - eapply Forall_impl; [exact Hl|]. intros x Hx. cbn beta in *.
    by eapply (equal_cmp_l CMP Hswo zk key).
  - eapply Forall_impl; [exact Hr|]. intros x Hx. cbn beta in *.
    by eapply (equal_cmp_r CMP Hswo zk key).
Qed.

Lemma wp_insert_wf this nil T s key (Q : const_iterator * bool -> state Key -> Prop) :
  wf this nil T s -> tsize T + 1 < SIZE_MAX1 ->
  (forall p k, (p, k) ∈ nodes T -> equal CMP key k = true ->
     ins_list CMP key (keys T) = keys T -> mem_list CMP key (keys T) = true ->
     Q (mk_it this p, false) s) ->
  (forall z T' s', wf this nil T' s' -> keys T' = ins_list CMP key (keys T) ->
     tsize T' = tsize T + 1 -> mem_list CMP key (keys T) = false -> (z, key) ∈ nodes T' ->
     Q (mk_it this z, true) s') ->
  wp (insert CMP this key) s Q.
Proof.
  intros (Hrep & Hbst & Hsz & Hrb) Hb Hpresent Habsent.
  eapply (wp_insert CMP Key0 Hswo); [exact Hrep|exact Hbst|exact Hsz|exact Hrb|exact Hb| |].
  - intros c x cx sx l k r Hf.
    destruct (found_present _ _ _ _ _ _ _ _ _ _ _ _ Hf) as (Hk & Hn & Hl & Hr & Heq).
    eapply Hpresent; [|exact Heq| |].
    + rewrite Hn. set_solver.
    + rewrite Hk. rewrite (ins_list_skip CMP Hswo) by done.
      by rewrite (ins_list_found CMP).
    + rewrite Hk. rewrite (mem_list_skip CMP) by done. by apply mem_list_found.
  - intros c z T' s' Hf Hrep' Hrb' Hnodes Hsz' Hts.
    destruct (found_absent _ _ _ _ _ _ Hf) as (Hk & Hl & Hr).
    assert (Hk' : keys T' = keys_before c ++ key :: keys_after c).
    { rewrite keys_nodes, Hnodes, map_app. cbn [map snd].
      by rewrite <- keys_before_nodes, <- keys_after_nodes. }
    eapply Habsent; [ | |exact Hts| | ].
    + split; [done|]. split; [|done]. apply (bst_sorted CMP Hswo). rewrite Hk'.
      apply sorted_insert; [|done|done]. rewrite <- Hk. by apply (bst_sorted CMP Hswo).
    + rewrite Hk', Hk. rewrite (ins_list_skip CMP Hswo) by done.
      by rewrite (ins_list_here CMP).
    + rewrite Hk. rewrite (mem_list_skip CMP) by done. by apply mem_list_none.
    + rewrite Hnodes. set_solver.
Qed.

Lemma wp_erase_wf this nil T s key (Q : const_iterator -> state Key -> Prop) :
  wf this nil T s -> tsize T < SIZE_MAX1 ->
  (mem_list CMP key (keys T) = false -> del_list CMP key (keys T) = keys T ->
     Q (mk_it this nil) s) ->
  (forall l1 z k l2 T' s',
     nodes T = l1 ++ (z, k) :: l2 -> equal CMP key k = true ->
     mem_list CMP key (keys T) = true ->
     wf this nil T' s' -> nodes T' = l1 ++ l2 ->
     keys T' = del_list CMP key (keys T) -> tsize T' = tsize T - 1 ->
     Q (mk_it this (hd nil (map fst l2))) s') ->
  wp (erase CMP this key) s Q.
Proof.
  intros (Hrep & Hbst & Hsz & Hrb) Hb Habsent Hpresent.
  eapply (wp_erase CMP Key0 Hswo); [exact Hrep|exact Hbst|exact Hsz|exact Hrb|exact Hb| |].
  - intros c Hf. destruct (found_absent _ _ _ _ _ _ Hf) as (Hk & Hl & Hr).
    apply Habsent; rewrite Hk.
    + rewrite (mem_list_skip CMP) by done. by apply mem_list_none.
    + rewrite (del_list_skip CMP Hswo) by done. by rewrite (del_list_none CMP).
  - intros c z cz sz zl zk zr T' s' Hf Hrep' Hrb' Hsz' Hts Hnodes.
    destruct (found_present _ _ _ _ _ _ _ _ _ _ _ _ Hf) as (Hk & Hn & Hl & Hr & Heq).
    assert (Hk' : keys T' = (keys_before c ++ keys zl) ++ keys zr ++ keys_after c).
    { rewrite keys_nodes, Hnodes, !map_app.
      by rewrite <- keys_before_nodes, <- keys_after_nodes, <- !keys_nodes, <- app_assoc. }
    unfold succ_ptr. rewrite ptrs_nodes, ptrs_after_nodes, <- map_app.
    eapply Hpresent; [exact Hn|exact Heq| | | | |exact Hts].
    + rewrite Hk. rewrite (mem_list_skip CMP) by done. by apply mem_list_found.
    + split; [done|]. split; [|done]. apply (bst_sorted CMP Hswo). rewrite Hk'.
      eapply sorted_remove. rewrite <- Hk. by apply (bst_sorted CMP Hswo).
    + by rewrite Hnodes, <- !app_assoc.
    + rewrite Hk', Hk. rewrite (del_list_skip CMP Hswo) by done.
      by rewrite (del_list_found CMP).
Qed.

End Steps.

(** * Sequences of operations *)

Section Sessions.

Context {Key : Type}.
Variable CMP : Key -> Key -> bool.
Variable Key0 : Key.
Hypothesis Hswo : StrictWeakOrder CMP.
Implicit Types (h : gmap N (node Key)) (t T : ptree Key) (c : ctx Key) (s : state Key).

Notation "x <- m ;; k" := (bind m (fun x => k))
  (at level 100, m at next level, right associativity).
Notation "m ;; k" := (bind m (fun _ => k))
  (at level 100, right associativity).

Abbreviation run_op := (run_op CMP) (only parsing).
Abbreviation run_ops := (run_ops CMP) (only parsing).
Abbreviation session := (session CMP Key0) (only parsing).
Abbreviation model_op := (model_op CMP) (only parsing).
Abbreviation model_ops := (model_ops CMP) (only parsing).

Lemma wp_run_ops this nil ops :
  forall T s (Q : unit -> state Key -> Prop),
  wf CMP Key0 this nil T s -> tsize T + Z.of_nat (length ops) + 1 < SIZE_MAX1 ->
  (forall T' s', wf CMP Key0 this nil T' s' ->
     keys T' = fold_left model_op ops (keys T) ->
     tsize T' <= tsize T + Z.of_nat (length ops) -> Q tt s') ->
  wp (run_ops this ops) s Q.
Proof.
  induction ops as [|o ops IH]; intros T s Q Hwf Hb HQ; cbn [run_ops].
  - apply wp_ret. eapply HQ; [exact Hwf|done|cbn; lia].
  - cbn [length] in Hb. apply wp_bind. destruct o as [k|k]; cbn [run_op]; apply wp_bind.
    + eapply (wp_insert_wf CMP Key0 Hswo); [exact Hwf|lia| |].
      * intros p k' Hin Heq Hins Hmem. apply wp_ret.
        eapply IH; [exact Hwf|lia|]. intros T' s' Hwf' Hk Hts.
        eapply HQ; [exact Hwf'| |cbn [length]; lia]. cbn [fold_left model_op]. by rewrite Hins.
      * intros z T1 s1 Hwf1 Hk1 Hts1 Hmem Hin. apply wp_ret.
        eapply IH; [exact Hwf1|lia|]. intros T' s' Hwf' Hk Hts.
        eapply HQ; [exact Hwf'| |cbn [length]; lia]. cbn [fold_left model_op]. by rewrite <- Hk1.
    + eapply (wp_erase_wf CMP Key0 Hswo); [exact Hwf|lia| |].
      * intros Hmem Hdel. apply wp_ret.
        eapply IH; [exact Hwf|lia|]. intros T' s' Hwf' Hk Hts.
        eapply HQ; [exact Hwf'| |cbn [length]; lia]. cbn [fold_left model_op]. by rewrite Hdel.
      * intros l1 z k' l2 T1 s1 Hn Heq Hmem Hwf1 Hn1 Hk1 Hts1. apply wp_ret.
        eapply IH; [exact Hwf1|lia|]. intros T' s' Hwf' Hk Hts.
        eapply HQ; [exact Hwf'| |cbn [length]; lia]. cbn [fold_left model_op]. by rewrite <- Hk1.
Qed.

Lemma wp_session this ops s0 (Q : unit -> state Key -> Prop) :
  Z.of_nat (length ops) + 1 < SIZE_MAX1 ->
  (forall nil T s, wf CMP Key0 this nil T s -> keys T = model_ops ops ->
     tsize T <= Z.of_nat (length ops) -> Q tt s) ->
  wp (session this ops) s0 Q.
Proof.
  intros Hb HQ. unfold session. apply wp_bind. apply (wp_ctor CMP Key0 this s0).
  intros nil s Hwf.
  eapply wp_run_ops; [exact Hwf|cbn [tsize]; lia|].
  intros T' s' Hwf' Hk Hts. eapply HQ; [exact Hwf'|exact Hk|cbn [tsize] in Hts; lia].
Qed.

End Sessions.

(** * A validator for sizes and colours *)

Section Validator.

Context {Key : Type}.
Variable Key0 : Key.
Implicit Types (h : gmap N (node Key)) (t T : ptree Key) (c : ctx Key) (s : state Key).

Lemma check_node_shape h nil np t :
  h !! nil = Some (mk_node 0 nil nil np Key0 BLACK) -> nil ∉ ptrs t -> sizes_ok t ->
  forall par n fuel, shape h nil par t -> rbt n t -> (height t < fuel)%nat ->
  check_node h nil fuel (rootp nil t) = Some n.
Proof.
  intros Hnil. induction t as [|p cp sp l IHl k r IHr]; intros Hnin Hsz par n fuel Hsh Hrb Hf.
  - destruct fuel as [|fuel]; [lia|]. cbn in *. rewrite ptr_eqb_refl. by subst n.
  - destruct fuel as [|fuel]; [cbn in Hf; lia|]. cbn [rootp check_node].
    cbn [ptrs] in Hnin. apply notin_app in Hnin as [Hnl Hnin].
    apply notin_cons in Hnin as [Hnp Hnr].
    rewrite ptr_eqb_ne by done.
    destruct Hsh as (Hp & Hl & Hr). destruct Hsz as (Hsp & Hsl & Hsr).
    rewrite Hp. cbn [n_left n_right n_size n_color].
    rewrite (root_cell Key0 h nil np p l Hnil Hl), (root_cell Key0 h nil np p r Hnil Hr).
    cbn [height] in Hf. cbn [root_node n_size n_color].
    destruct cp; cbn [rbt] in Hrb.
    + destruct n as [|n]; [done|]. destruct Hrb as (Hrl & Hrr).
      rewrite (IHl Hnl Hsl p n fuel Hl Hrl) by lia.
      rewrite (IHr Hnr Hsr p n fuel Hr Hrr) by lia.
      rewrite Hsp, Z.eqb_refl, Nat.eqb_refl. done.
    + destruct Hrb as (Hcl & Hcr & Hrl & Hrr).
      rewrite (IHl Hnl Hsl p n fuel Hl Hrl) by lia.
      rewrite (IHr Hnr Hsr p n fuel Hr Hrr) by lia.
      rewrite Hsp, Z.eqb_refl, Nat.eqb_refl, Hcl, Hcr. done.
Qed.

Lemma validate_rep this nil T s :
  rep Key0 this nil T s -> sizes_ok T -> red_black T -> validate this s = true.
Proof.
  intros Hrep Hsz (Hcol & n & Hn). pose proof (fuel_enough _ _ _ _ _ _ _ Hrep) as Hf.
  destruct Hrep as [Hobj Hnil Hctx Hsub Hnd]. unfold validate.
  cbn [ctx_root rootp ctx_ptr plug] in *. rewrite Hobj. cbn [m_nil m_root].
  rewrite Hnil, (root_cell Key0 _ nil nil nil T Hnil Hsub).
  cbn [n_color n_size root_node]. rewrite Hcol.
  rewrite (check_node_shape _ nil nil T Hnil) with (par := nil) (n := n); try done.
  - apply NoDup_cons in Hnd as [_ Hnd]. apply NoDup_cons in Hnd as [Hnd _].
    rewrite app_nil_r in Hnd. exact Hnd.
  - lia.
Qed.

End Validator.

(** * Reading a well-formed set *)

Section Reading.

Context {Key : Type}.
Variable Key0 : Key.
Implicit Types (h : gmap N (node Key)) (t T : ptree Key) (c : ctx Key) (s : state Key).

Lemma shape_nodes_lookup h nil t p k :
  forall par, shape h nil par t -> (p, k) ∈ nodes t ->
  exists n, h !! p = Some n /\ n_key n = k.
Proof.
  induction t as [|q cq sq l IHl kq r IHr]; intros par Hsh Hin; cbn [nodes shape] in *.
  - by apply elem_of_nil in Hin.
  - destruct Hsh as (Hq & Hl & Hr). apply elem_of_app in Hin as [Hin|Hin].
    + by eapply IHl.
    + apply elem_of_cons in Hin as [Heq|Hin].
      * injection Heq as -> ->. eauto.
      * by eapply IHr.
Qed.

Lemma size_rep this nil T s : rep Key0 this nil T s -> size_ this s = Ok (tsize T) s.
Proof.
  intros [Hobj Hnil Hctx Hsub Hnd]. unfold size_, get_root, get_size, bind, load_obj, load, ret.
  cbn [ctx_root ctx_ptr] in *. rewrite Hobj. cbn [m_root].
  assert (Hne : rootp nil T <> null).
  { apply NoDup_cons in Hnd as [Hnull _]. destruct T; cbn [rootp ptrs] in *; set_solver. }
  rewrite ptr_eqb_ne by done. by rewrite (root_cell Key0 _ nil nil nil T Hnil Hsub).
Qed.

Lemma end_rep this nil T s : rep Key0 this nil T s -> end_ this s = Ok (mk_it this nil) s.
Proof.
  intros [Hobj _ _ _ _]. unfold end_, get_nil, bind, load_obj, ret. by rewrite Hobj.
Qed.

Lemma deref_rep this nil T s p k :
  rep Key0 this nil T s -> (p, k) ∈ nodes T -> it_deref (mk_it this p) s = Ok k s.
Proof.
  intros [Hobj Hnil Hctx Hsub Hnd] Hin.
  destruct (shape_nodes_lookup _ _ _ _ _ _ Hsub Hin) as (n & Hn & Hk).
  unfold it_deref, get_key, bind, load, ret. cbn [m_node].
  assert (Hne : p <> null).
  { apply NoDup_cons in Hnd as [Hnull _]. intros ->. apply Hnull.
    apply elem_of_cons. right. apply elem_of_app. left. rewrite ptrs_nodes.
    apply list_elem_of_In, (in_map fst _ (null, k)), list_elem_of_In. exact Hin. }
  rewrite ptr_eqb_ne by done. by rewrite Hn, Hk.
Qed.

Lemma find_by_order_rep this nil T s order :
  rep Key0 this nil T s -> sizes_ok T -> tsize T < SIZE_MAX1 -> 0 <= order < SIZE_MAX1 ->
  find_by_order this order s = Ok (mk_it this (nth_ptr nil T order)) s.
Proof.
  intros Hrep Hsz Hb Hord. rewrite (sizes_ok_tsize _ Hsz) in Hb.
  assert (Hwp : wp (find_by_order this order) s
                 (fun it s' => it = mk_it this (nth_ptr nil T order) /\ s' = s)).
  { by eapply wp_find_by_order. }
  apply wp_ok in Hwp as (it & s' & Heq & -> & ->). exact Heq.
Qed.

Lemma nth_ptr_lookup nil T (i : nat) :
  (i < length (ptrs T))%nat -> ptrs T !! i = Some (nth i (ptrs T) nil).
Proof.
  intros Hlt. destruct (lookup_lt_is_Some_2 (ptrs T) i Hlt) as [x Hx].
  by rewrite (nth_lookup_Some _ _ nil _ Hx).
Qed.

End Reading.

Section Ranks.

Context {Key : Type}.
Variable CMP : Key -> Key -> bool.
Hypothesis Hswo : StrictWeakOrder CMP.

Lemma count_less_sorted_lookup l (i : nat) k :
  sorted CMP l -> l !! i = Some k -> count_less CMP k l = Z.of_nat i.
Proof.
  intros Hs Hi. pose proof (take_drop_middle l i k Hi) as Hl. rewrite <- Hl in Hs |- *.
  apply (sorted_app CMP) in Hs as (H1 & H2 & H3).
  apply StronglySorted_inv in H2 as [H2 H4].
  rewrite count_less_app. cbn [count_less].
  rewrite (cmp_irrefl CMP Hswo).
  rewrite (count_less_all CMP k (take i l)).
  - rewrite (count_less_none CMP k (drop (S i) l)).
    + rewrite length_take. apply lookup_lt_Some in Hi. lia.
    + eapply Forall_impl; [exact H4|]. intros x Hx. by apply (cmp_asym CMP Hswo).
  - eapply Forall_impl; [exact H3|]. intros x Hx. by apply Forall_cons in Hx as [Hx _].
Qed.

End Ranks.

(** * The claims *)

Section PositionClaim.

Context {Key : Type}.
Variable Key0 : Key.
Implicit Types (h : gmap N (node Key)) (t T : ptree Key) (c : ctx Key) (s : state Key).

(** C5: on a set with correct [size] members, [find_by_order(order)] changes
    nothing and returns the position of the node at in-order index [order]
    when [order < size()], and [end()] when [order >= size()]. *)
Theorem find_by_order_position this nil T s order :
  rep Key0 this nil T s -> sizes_ok T -> tsize T < SIZE_MAX1 -> 0 <= order < SIZE_MAX1 ->
  exists n it,
    size_ this s = Ok n s /\ find_by_order this order s = Ok it s /\ m_tree it = this /\
    (order < n -> ptrs T !! Z.to_nat order = Some (m_node it)) /\
    (n <= order -> end_ this s = Ok it s).
Proof.
  intros Hrep Hsz Hb Hord. rewrite (sizes_ok_tsize _ Hsz) in Hb.
  exists (tsize T), (mk_it this (nth_ptr nil T order)).
  split; [by eapply size_rep|]. split.
  - apply (find_by_order_rep Key0); try done. by rewrite (sizes_ok_tsize _ Hsz).
  - split; [done|]. cbn [m_node]. unfold nth_ptr.
    rewrite (sizes_ok_tsize _ Hsz), count_length_ptrs. split.
    + intros Hlt. apply nth_ptr_lookup. lia.
    + intros Hge. rewrite nth_overflow by lia. by eapply end_rep.
Qed.

End PositionClaim.

Section Claims.

Context {Key : Type}.
Variable CMP : Key -> Key -> bool.
Variable Key0 : Key.
Hypothesis Hswo : StrictWeakOrder CMP.
Implicit Types (h : gmap N (node Key)) (t T : ptree Key) (c : ctx Key) (s : state Key).

Lemma order_of_key_rep this nil T s key :
  rep Key0 this nil T s -> bst CMP T -> sizes_ok T -> tsize T < SIZE_MAX1 ->
  order_of_key CMP this key s = Ok (count_less CMP key (keys T)) s.
Proof.
  intros Hrep Hbst Hsz Hb. pose proof (sizes_ok_tsize _ Hsz) as Hts.
  assert (Hwp : wp (order_of_key CMP this key) s
                 (fun r s' => r = count_less CMP key (keys T) /\ s' = s)).
  { eapply (wp_order_of_key CMP Key0 Hswo); eauto. lia. }
  apply wp_ok in Hwp as (r & s' & Heq & -> & ->). exact Heq.
Qed.

(** C4: on a well-formed set, [order_of_key(key)] changes nothing and returns
    the number of stored keys that are less than [key]: 0 when no stored key
    is less than [key], [size()] when all are, whether or not [key] is
    stored. *)
Theorem order_of_key_counts_less this nil T s key :
  rep Key0 this nil T s -> bst CMP T -> sizes_ok T -> tsize T < SIZE_MAX1 ->
  order_of_key CMP this key s = Ok (count_less CMP key (keys T)) s /\
  (Forall (fun x => CMP x key = false) (keys T) -> count_less CMP key (keys T) = 0) /\
  (Forall (fun x => CMP x key = true) (keys T) -> count_less CMP key (keys T) = tsize T).
Proof.
  intros Hrep Hbst Hsz Hb. pose proof (sizes_ok_tsize _ Hsz) as Hts. split.
  - by apply (order_of_key_rep this nil).
  - split; [apply count_less_none|]. intros Hall.
    rewrite (count_less_all CMP key _ Hall), Hts. by rewrite count_length.
Qed.

(** C8: on a well-formed set that holds a key equivalent to [key],
    [insert(key)] returns the position of that key and [false], and leaves
    the whole state as it was. *)
Theorem insert_present_noop this nil T s key :
  wf CMP Key0 this nil T s -> tsize T + 1 < SIZE_MAX1 ->
  mem_list CMP key (keys T) = true ->
  exists p k,
    insert CMP this key s = Ok (mk_it this p, false) s /\
    (p, k) ∈ nodes T /\ equal CMP key k = true.
Proof.
  intros Hwf Hb Hmem.
  assert (Hwp : wp (insert CMP this key) s
                 (fun r s' => exists p k, r = (mk_it this p, false) /\ s' = s /\
                    (p, k) ∈ nodes T /\ equal CMP key k = true)).
  { eapply (wp_insert_wf CMP Key0 Hswo); [exact Hwf|exact Hb| |].
    - intros p k Hin Heq _ _. eauto 10.
    - intros z T' s' _ _ _ Habs _. congruence. }
  apply wp_ok in Hwp as (r & s' & Heq & p & k & -> & -> & Hin & Hk). eauto.
Qed.

(** C9: on a well-formed set, [erase(key)] of an absent key returns [end()]
    and leaves the whole state as it was; [erase(key)] of a present key
    removes its node and returns the position of the node that followed it
    in order, [end()] if none did. *)
Theorem erase_returns_successor this nil T s key :
  wf CMP Key0 this nil T s -> tsize T < SIZE_MAX1 ->
  (mem_list CMP key (keys T) = false ->
     erase CMP this key s = Ok (mk_it this nil) s /\
     end_ this s = Ok (mk_it this nil) s) /\
  (mem_list CMP key (keys T) = true ->
     exists l1 z k l2 T' s',
       nodes T = l1 ++ (z, k) :: l2 /\ equal CMP key k = true /\
       erase CMP this key s = Ok (mk_it this (hd nil (map fst l2))) s' /\
       wf CMP Key0 this nil T' s' /\ nodes T' = l1 ++ l2 /\
       end_ this s' = Ok (mk_it this nil) s').
Proof.
  intros Hwf Hb.
  assert (Hwp : wp (erase CMP this key) s
                 (fun r s' =>
                    (mem_list CMP key (keys T) = false /\ r = mk_it this nil /\ s' = s) \/
                    (mem_list CMP key (keys T) = true /\
                     exists l1 z k l2 T', nodes T = l1 ++ (z, k) :: l2 /\
                       equal CMP key k = true /\ r = mk_it this (hd nil (map fst l2)) /\
                       wf CMP Key0 this nil T' s' /\ nodes T' = l1 ++ l2))).
  { eapply (wp_erase_wf CMP Key0 Hswo); [exact Hwf|exact Hb| |].
    - intros Hmem _. by left.
    - intros l1 z k l2 T' s' Hn Heq Hmem Hwf' Hn' _ _. right. split; [done|].
      exists l1, z, k, l2, T'. done. }
  apply wp_ok in Hwp as (r & s' & Heq & Hcases). split; intros Hmem.
  - destruct Hcases as [(_ & -> & ->)|(Hm & _)]; [|congruence].
    split; [exact Heq|]. destruct Hwf as (Hrep & _). by eapply end_rep.
  - destruct Hcases as [(Hm & _)|(_ & l1 & z & k & l2 & T' & Hn & Hk & -> & Hwf' & Hn')];
      [congruence|].
    exists l1, z, k, l2, T', s'. repeat (split; [done|]).
    destruct Hwf' as (Hrep' & _). by eapply end_rep.
Qed.

End Claims.

Section SequenceClaims.

Context {Key : Type}.
Variable CMP : Key -> Key -> bool.
Variable Key0 : Key.
Hypothesis Hswo : StrictWeakOrder CMP.
Implicit Types (h : gmap N (node Key)) (t T : ptree Key) (c : ctx Key) (s : state Key).

Lemma session_wf this ops s0 :
  Z.of_nat (length ops) + 1 < SIZE_MAX1 ->
  exists s nil T,
    session CMP Key0 this ops s0 = Ok tt s /\ wf CMP Key0 this nil T s /\
    keys T = model_ops CMP ops /\ tsize T + 1 < SIZE_MAX1.
Proof.
  intros Hb.
  assert (Hwp : wp (session CMP Key0 this ops) s0
                 (fun _ s => exists nil T, wf CMP Key0 this nil T s /\
                    keys T = model_ops CMP ops /\ tsize T + 1 < SIZE_MAX1)).
  { eapply (wp_session CMP Key0 Hswo); [exact Hb|].
    intros nil T s Hwf Hk Hts. exists nil, T. repeat (split; [done|]). lia. }
  apply wp_ok in Hwp as ([] & s & Heq & nil & T & Hwf & Hk & Hts). eauto 10.
Qed.

(** C3: after a default construction and any sequence of [insert] and
    [erase] calls, the [size] member of every node is one more than the sizes
    of its children, the sentinel counting 0, and the colouring is that of a
    red-black tree: root and sentinel black, no red node with a red child,
    the same number of black nodes on every path from the root down. *)
Theorem mutations_keep_sizes_and_colours this ops s0 :
  Z.of_nat (length ops) + 1 < SIZE_MAX1 ->
  exists s nil T,
    session CMP Key0 this ops s0 = Ok tt s /\
    rep Key0 this nil T s /\ sizes_ok T /\ red_black T /\
    validate this s = true.
Proof.
  intros Hb. destruct (session_wf this ops s0 Hb) as (s & nil & T & Heq & Hwf & _ & _).
  destruct Hwf as (Hrep & _ & Hsz & Hrb). exists s, nil, T.
  repeat (split; [done|]). by eapply validate_rep.
Qed.

(** C6: in a set built by any sequence of [insert] calls, for every [i] below
    [size()], [order_of_key] of the key at the position [find_by_order(i)]
    is [i]. *)
Theorem rank_round_trip this ks s0 :
  Z.of_nat (length ks) + 1 < SIZE_MAX1 ->
  exists s n,
    session CMP Key0 this (map Insert ks) s0 = Ok tt s /\ size_ this s = Ok n s /\
    forall i, 0 <= i < n ->
      exists it k,
        find_by_order this i s = Ok it s /\ it_deref it s = Ok k s /\
        order_of_key CMP this k s = Ok i s.
Proof.
  intros Hb.
  destruct (session_wf this (map Insert ks) s0) as (s & nil & T & Heq & Hwf & _ & Hts).
  { by rewrite length_map. }
  destruct Hwf as (Hrep & Hbst & Hsz & Hrb). exists s, (tsize T).
  split; [done|]. split; [by eapply size_rep|]. intros i Hi.
  pose proof (find_by_order_rep Key0 this nil T s i Hrep Hsz ltac:(lia) ltac:(lia)) as Hf.
  set (p := nth_ptr nil T i) in Hf.
  assert (Hlt : ptrs T !! Z.to_nat i = Some p).
  { apply nth_ptr_lookup. rewrite (sizes_ok_tsize _ Hsz), count_length_ptrs in Hi. lia. }
  assert (Hnode : exists k, nodes T !! Z.to_nat i = Some (p, k)).
  { rewrite ptrs_nodes in Hlt. apply list_lookup_fmap_Some in Hlt as ([p' k] & Hp & Hl).
    cbn in Hp. subst p'. eauto. }
  destruct Hnode as (k & Hnk). exists (mk_it this p), k. split; [done|]. split.
  - eapply deref_rep; [exact Hrep|]. by eapply list_elem_of_lookup_2.
  - rewrite (order_of_key_rep CMP Key0 Hswo this nil T s k Hrep Hbst Hsz ltac:(lia)). f_equal.
    rewrite (count_less_sorted_lookup CMP Hswo (keys T) (Z.to_nat i) k).
    + lia.
    + by apply (bst_sorted CMP Hswo).
    + rewrite keys_nodes. change (map snd (nodes T)) with (snd <$> nodes T).
      by rewrite list_lookup_fmap, Hnk.
Qed.

(** C7: after a default construction and any sequence of [insert] and
    [erase] calls, walking from [begin()] to [end()] with [++] collects the
    stored keys in strictly increasing order, they are the keys the calls
    should have left, and there are [size()] of them. *)
Theorem iteration_is_sorted this ops s0 :
  Z.of_nat (length ops) + 1 < SIZE_MAX1 ->
  exists s ks n,
    session CMP Key0 this ops s0 = Ok tt s /\
    iterate this s = Ok ks s /\ size_ this s = Ok n s /\
    sorted CMP ks /\ ks = model_ops CMP ops /\ Z.of_nat (length ks) = n.
Proof.
  intros Hb. destruct (session_wf this ops s0 Hb) as (s & nil & T & Heq & Hwf & Hk & Hts).
  destruct Hwf as (Hrep & Hbst & Hsz & Hrb). exists s, (keys T), (tsize T).
  split; [done|]. split.
  - assert (Hwp : wp (iterate this) s (fun r s' => r = keys T /\ s' = s)).
    { eapply wp_iterate; eauto. rewrite <- (sizes_ok_tsize _ Hsz). lia. }
    apply wp_ok in Hwp as (r & s' & Hit & -> & ->). exact Hit.
  - split; [by eapply size_rep|]. split; [by apply (bst_sorted CMP Hswo)|].
    split; [done|]. by rewrite (sizes_ok_tsize _ Hsz), count_length.
Qed.

End SequenceClaims.

(** * Sets of integers *)

Notation "x <- m ;; k" := (bind m (fun x => k))
  (at level 100, m at next level, right associativity, only parsing).
Notation "m ;; k" := (bind m (fun _ => k))
  (at level 100, right associativity, only parsing).

Lemma Zltb_swo : StrictWeakOrder Z.ltb.
Proof.
  split.
  - intros a. apply Z.ltb_irrefl.
  - intros a b c H1%Z.ltb_lt H2%Z.ltb_lt. apply Z.ltb_lt. lia.
  - unfold equal. intros a b c.
    destruct (Z.ltb_spec a b), (Z.ltb_spec b a), (Z.ltb_spec b c), (Z.ltb_spec c b),
      (Z.ltb_spec a c), (Z.ltb_spec c a); cbn; try done; lia.
Qed.

(** No object, no node. *)
Definition empty_state : state Z := mk_state ∅ ∅.

(** The set {1, 2, 3} as [insert(2); insert(1); insert(3)] leaves it in an
    object at address 0: the sentinel at 1, the root at 2. *)
Definition ex_heap : gmap N (node Z) :=
  <[1%N := mk_node 0 1 1 1 0 BLACK]>
    (<[2%N := mk_node 3 3 4 1 2 BLACK]>
       (<[3%N := mk_node 1 1 1 2 1 RED]>
          (<[4%N := mk_node 1 1 1 2 3 RED]> ∅))).

Definition ex_state : state Z := mk_state ex_heap (<[0%N := mk_set 1 2]> ∅).

Definition ex_tree : ptree Z :=
  PNode 2 BLACK 3 (PNode 3 RED 1 PLeaf 1 PLeaf) 2 (PNode 4 RED 1 PLeaf 3 PLeaf).

Example ex_state_built :
  session Z.ltb 0 0%N [Insert 2; Insert 1; Insert 3] empty_state = Ok tt ex_state.
Proof. vm_compute. reflexivity. Qed.

Lemma ex_rep : rep 0 0%N 1%N ex_tree ex_state.
Proof.
  split; cbn.
  - reflexivity.
  - reflexivity.
  - exact I.
  - repeat split; reflexivity.
  - apply (bool_decide_unpack _). vm_compute. exact I.
Defined.

Lemma ex_bst : bst Z.ltb ex_tree.
Proof. cbn. repeat split; repeat constructor. Defined.

Lemma ex_sizes : sizes_ok ex_tree.
Proof. cbn. repeat split; reflexivity. Defined.

Lemma ex_red_black : red_black ex_tree.
Proof. split; [reflexivity|]. exists 1%nat. cbn. repeat split; reflexivity. Defined.

Lemma ex_wf : wf Z.ltb 0 0%N 1%N ex_tree ex_state.
Proof. exact (conj ex_rep (conj ex_bst (conj ex_sizes ex_red_black))). Defined.

(** C1: copy assignment does not empty the destination first. With the
    destination holding 1 and the source holding 2, the destination holds 1
    and 2 after [destination = source], while the source still holds 2 only:
    the key sets differ. *)
Theorem copy_assign_keeps_destination_keys :
  exists s,
    (session Z.ltb 0 0%N [Insert 1] ;; session Z.ltb 0 1%N [Insert 2] ;;
     copy_assign Z.ltb 0 0%N 1%N 2%N ;;
     d <- iterate 0%N ;; o <- iterate 1%N ;; ret (d, o)) empty_state
    = Ok ([1; 2], [2]) s.
Proof. eexists. vm_compute. reflexivity. Qed.

(** C2: the sentinel that the move constructor gives to the source has null
    links. After moving the set holding 1 out of the object at 0, [size()] on
    the source is 0, but [begin()] and [order_of_key] on it read through a
    null pointer; a default-constructed set answers both. *)
Theorem moved_from_source_breaks :
  (exists s, (session Z.ltb 0 0%N [Insert 1] ;; move_ctor 0 1%N 0%N ;; size_ 0%N) empty_state
             = Ok 0 s) /\
  (session Z.ltb 0 0%N [Insert 1] ;; move_ctor 0 1%N 0%N ;; begin_ 0%N) empty_state
  = Err NullDeref /\
  (session Z.ltb 0 0%N [Insert 1] ;; move_ctor 0 1%N 0%N ;; order_of_key Z.ltb 0%N 5) empty_state
  = Err NullDeref /\
  (exists s, (ctor 0 0%N ;; begin_ 0%N) empty_state = Ok (mk_it 0 1) s) /\
  (exists s, (ctor 0 0%N ;; order_of_key Z.ltb 0%N 5) empty_state = Ok 0 s).
Proof.
  split; [eexists; vm_compute; reflexivity|].
  split; [vm_compute; reflexivity|].
  split; [vm_compute; reflexivity|].
  split; eexists; vm_compute; reflexivity.
Qed.

(** C10: the copy assignment of an iterator updates its target and returns
    no value. *)
Theorem it_assign_returns_nothing (a b : const_iterator) :
  it_assign a b = (mk_it (m_tree b) (m_node b), None).
Proof. reflexivity. Qed.

(** ** The theorems at work on {1, 2, 3} *)

Lemma find_by_order_position_witness :
  exists n it,
    size_ 0%N ex_state = Ok n ex_state /\ find_by_order 0%N 1 ex_state = Ok it ex_state /\
    m_tree it = 0%N /\
    (1 < n -> ptrs ex_tree !! Z.to_nat 1 = Some (m_node it)) /\
    (n <= 1 -> end_ 0%N ex_state = Ok it ex_state).
Proof.
  apply (find_by_order_position 0 0%N 1%N ex_tree ex_state 1).
  - exact ex_rep.
  - exact ex_sizes.
  - reflexivity.
  - unfold SIZE_MAX1. lia.
Defined.

Lemma order_of_key_counts_less_witness :
  order_of_key Z.ltb 0%N 3 ex_state = Ok (count_less Z.ltb 3 (keys ex_tree)) ex_state /\
  (Forall (fun x => (x <? 3) = false) (keys ex_tree) ->
     count_less Z.ltb 3 (keys ex_tree) = 0) /\
  (Forall (fun x => (x <? 3) = true) (keys ex_tree) ->
     count_less Z.ltb 3 (keys ex_tree) = tsize ex_tree).
Proof.
  apply (order_of_key_counts_less Z.ltb 0 Zltb_swo 0%N 1%N ex_tree ex_state 3).
  - exact ex_rep.
  - exact ex_bst.
  - exact ex_sizes.
  - reflexivity.
Defined.

Lemma insert_present_noop_witness :
  exists p k,
    insert Z.ltb 0%N 3 ex_state = Ok (mk_it 0 p, false) ex_state /\
    (p, k) ∈ nodes ex_tree /\ equal Z.ltb 3 k = true.
Proof.
  apply (insert_present_noop Z.ltb 0 Zltb_swo 0%N 1%N ex_tree ex_state 3).
  - exact ex_wf.
  - reflexivity.
  - reflexivity.
Defined.

Lemma erase_returns_successor_witness :
  (mem_list Z.ltb 2 (keys ex_tree) = false ->
     erase Z.ltb 0%N 2 ex_state = Ok (mk_it 0 1) ex_state /\
     end_ 0%N ex_state = Ok (mk_it 0 1) ex_state) /\
  (mem_list Z.ltb 2 (keys ex_tree) = true ->
     exists l1 z k l2 T' s',
       nodes ex_tree = l1 ++ (z, k) :: l2 /\ equal Z.ltb 2 k = true /\
       erase Z.ltb 0%N 2 ex_state = Ok (mk_it 0 (hd 1%N (map fst l2))) s' /\
       wf Z.ltb 0 0%N 1%N T' s' /\ nodes T' = l1 ++ l2 /\
       end_ 0%N s' = Ok (mk_it 0 1) s').
Proof.
  apply (erase_returns_successor Z.ltb 0 Zltb_swo 0%N 1%N ex_tree ex_state 2).
  - exact ex_wf.
  - reflexivity.
Defined.

Lemma mutations_keep_sizes_and_colours_witness :
  exists s nil T,
    session Z.ltb 0 0%N [Insert 2; Insert 1; Insert 3; Erase 2] empty_state = Ok tt s /\
    rep 0 0%N nil T s /\ sizes_ok T /\ red_black T /\ validate 0%N s = true.
Proof.
  apply (mutations_keep_sizes_and_colours Z.ltb 0 Zltb_swo 0%N
           [Insert 2; Insert 1; Insert 3; Erase 2] empty_state).
  reflexivity.
Defined.

Lemma rank_round_trip_witness :
  exists s n,
    session Z.ltb 0 0%N (map Insert [2; 1; 3]) empty_state = Ok tt s /\
    size_ 0%N s = Ok n s /\
    forall i, 0 <= i < n ->
      exists it k,
        find_by_order 0%N i s = Ok it s /\ it_deref it s = Ok k s /\
        order_of_key Z.ltb 0%N k s = Ok i s.
Proof.
  apply (rank_round_trip Z.ltb 0 Zltb_swo 0%N [2; 1; 3] empty_state).
  reflexivity.
Defined.

Lemma iteration_is_sorted_witness :
  exists s ks n,
    session Z.ltb 0 0%N [Insert 2; Insert 1; Insert 3; Erase 2] empty_state = Ok tt s /\
    iterate 0%N s = Ok ks s /\ size_ 0%N s = Ok n s /\
    sorted Z.ltb ks /\
    ks = model_ops Z.ltb [Insert 2; Insert 1; Insert 3; Erase 2] /\
    Z.of_nat (length ks) = n.
Proof.
  apply (iteration_is_sorted Z.ltb 0 Zltb_swo 0%N
           [Insert 2; Insert 1; Insert 3; Erase 2] empty_state).
  reflexivity.
Defined.

(** * Further properties of the member functions *)

(** ** Walking to the ends and stepping backwards *)

Section Walks.

Context {Key : Type}.
Variable Key0 : Key.
Implicit Types (h : gmap N (node Key)) (t T : ptree Key) (c : ctx Key) (s : state Key).

Notation "x <- m ;; k" := (bind m (fun x => k))
  (at level 100, m at next level, right associativity).
Notation "m ;; k" := (bind m (fun _ => k))
  (at level 100, right associativity).

Definition is_FR (f : frame Key) : Prop :=
  match f with FR _ _ _ _ _ => True | FL _ _ _ _ _ => False end.

Lemma ptrs_after_right_path (rc : ctx Key) : Forall is_FR rc -> ptrs_after rc = [].
Proof.
  induction rc as [|[p cp sp kp r|p cp sp l kp] rc IH]; intros Hall; cbn; [done| |].
  - inversion Hall; subst. done.
  - inversion Hall; subst. auto.
Qed.

Lemma ptrs_before_left_path (lc : ctx Key) : Forall (@is_FL Key) lc -> ptrs_before lc = [].
Proof.
  induction lc as [|[p cp sp kp r|p cp sp l kp] lc IH]; intros Hall; cbn; [done| |].
  - inversion Hall; subst. auto.
  - inversion Hall; subst. done.
Qed.

Lemma ptrs_right_path rc y cy sy ly ky :
  Forall is_FR rc ->
  exists rest, ptrs (plug rc (PNode y cy sy ly ky PLeaf)) = rest ++ [y].
Proof.
  intros Hall. rewrite ptrs_plug, (ptrs_after_right_path rc Hall). cbn [ptrs].
  exists (ptrs_before rc ++ ptrs ly). by rewrite !app_nil_r, <- app_assoc.
Qed.

Lemma wp_max_node this nil np c x cx sx l k r s (Q : ptr -> state Key -> Prop) :
  zrep Key0 this nil np c (PNode x cx sx l k r) s ->
  (forall rc y cy sy ly ky,
     Forall is_FR rc -> plug rc (PNode y cy sy ly ky PLeaf) = PNode x cx sx l k r ->
     Q y s) ->
  wp (max_node this x) s Q.
Proof.
  intros Hrep HQ. destruct s as [h o]. unfold max_node.
  pose proof Hrep as Hrep'. zrep_open Hrep'. wp_run.
  eapply wp_loop with (n := height (PNode x cx sx l k r)) (I := fun n x' s' =>
    s' = mk_state h o /\ exists rc y cy sy ly ky ry,
      Forall is_FR rc /\ plug rc (PNode y cy sy ly ky ry) = PNode x cx sx l k r /\
      x' = y /\ n = height (PNode y cy sy ly ky ry)).
  - intros n x' s' (-> & rc & y & cy & sy & ly & ky & ry & Hall & Hplug & -> & ->).
    assert (Hz : zrep Key0 this nil np (rc ++ c) (PNode y cy sy ly ky ry) (mk_state h o)).
    { apply zrep_app. by rewrite Hplug. }
    pose proof Hz as Hz'. zrep_open Hz'. wp_run.
    open_tree ry as [|pr cr sr lr kr rr]; wp_run.
    + by eapply HQ.
    + exists (height (PNode pr cr sr lr kr rr)). split; [cbn; lia|]. split; [done|].
      exists (FR y cy sy ly ky :: rc), pr, cr, sr, lr, kr, rr.
      split; [by constructor|]. cbn [plug plug1]. by rewrite Hplug.
  - split; [done|]. exists [], x, cx, sx, l, k, r. by split.
  - pose proof (fuel_enough _ _ _ _ _ _ _ Hrep) as Hf.
    pose proof (height_plug_ge c (PNode x cx sx l k r)). cbn [heap] in *. lia.
Qed.

(** The in-order predecessor of the node in focus. *)
Definition pred_ptr (nil : ptr) (c : ctx Key) (l : ptree Key) : ptr :=
  List.last (ptrs_before c ++ ptrs l) nil.

Lemma wp_predecessor this nil c x cx sx l k r s (Q : ptr -> state Key -> Prop) :
  zrep Key0 this nil nil c (PNode x cx sx l k r) s ->
  Q (pred_ptr nil c l) s ->
  wp (predecessor this x) s Q.
Proof.
  intros Hrep HQ. destruct s as [h o]. unfold predecessor.
  pose proof Hrep as Hrep'. zrep_open Hrep'. wp_run.
  open_tree l as [|pl cl sl ll kl rl]; wp_run.
  - (* no left child: climb *)
    unfold pred_ptr in HQ. cbn [ptrs] in HQ. rewrite app_nil_r in HQ.
    eapply wp_loop with (n := S (length c)) (I := fun n x' s' =>
      s' = mk_state h o /\
      ((x' = nil /\ ptrs_before c = [] /\ n = O) \/
       exists c' p cp sp l' k' r',
         zrep Key0 this nil nil c' (PNode p cp sp l' k' r') s' /\ x' = p /\
         List.last (ptrs_before c') nil = List.last (ptrs_before c) nil /\
         n = S (length c'))).
    + intros n x' s' (-> & [(-> & Hnone & ->)|(c' & p & cp & sp & l' & k' & r' & Hz & -> & Hhd & ->)]).
      * wp_run. by rewrite Hnone in HQ.
      * pose proof Hz as Hz'.
        destruct c' as [|[q cq sq kq rq|q cq sq lq kq] up]; zrep_open Hz'; wp_run.
        -- exists O. split; [lia|]. split; [done|]. left. split; [done|]. split; [|done].
           cbn in Hhd. destruct (ptrs_before c) as [|q rest] eqn:Ebf; [done|].
           exfalso.
           assert (Hin : nil ∈ ctx_ptrs c).
           { rewrite ctx_ptrs_perm, Ebf. apply elem_of_app. left.
             rewrite Hhd. apply list_elem_of_In.
             destruct (exists_last (l := q :: rest) ltac:(done)) as (l0 & a & E).
             rewrite E, last_last. apply in_or_app. right. by left. }
           done.
        -- exists (S (length up)). split; [cbn; lia|]. split; [done|]. right.
           exists up, q, cq, sq, (PNode p cp sp l' k' r'), kq, rq.
           split; [by apply zrep_step in Hz|]. done.
        -- cbn [ptrs_before] in Hhd. rewrite app_assoc, last_last in Hhd.
           by rewrite <- Hhd in HQ.
    + split; [done|]. right. exists c, x, cx, sx, PLeaf, k, r. done.
    + pose proof (fuel_enough _ _ _ _ _ _ _ Hrep) as Hf.
      pose proof (height_plug_ge c (PNode x cx sx PLeaf k r)). cbn [heap height] in *. lia.
  - (* rightmost node of the left subtree *)
    eapply (wp_max_node this nil nil (FL x cx sx k r :: c)).
    + apply zrep_step. exact Hrep.
    + intros rc y cy sy ly ky Hall Hplug.
      destruct (ptrs_right_path rc y cy sy ly ky Hall) as [rest Hrest].
      unfold pred_ptr in HQ. rewrite <- Hplug, Hrest, app_assoc, last_last in HQ. exact HQ.
Qed.

Lemma nth_pred_focus nil c p cp sp l k r :
  match (length (ptrs_before c) + length (ptrs l))%nat with
  | O => nil
  | S j => nth j (ptrs (plug c (PNode p cp sp l k r))) nil
  end = pred_ptr nil c l.
Proof.
  unfold pred_ptr. rewrite ptrs_plug, <- length_app. cbn [ptrs].
  destruct (ptrs_before c ++ ptrs l) as [|a pre] eqn:E using rev_ind.
  - done.
  - clear IHpre. rewrite last_last, length_app. cbn [length].
    replace (length pre + 1)%nat with (S (length pre)) by lia.
    replace (ptrs_before c ++ (ptrs l ++ p :: ptrs r) ++ ptrs_after c)
      with ((ptrs_before c ++ ptrs l) ++ p :: ptrs r ++ ptrs_after c)
      by (by rewrite <- !app_assoc).
    rewrite E, <- app_assoc. cbn [app]. by rewrite nth_middle.
Qed.

Lemma empty_rep this nil T s :
  rep Key0 this nil T s -> empty_ this s = Ok (tsize T =? 0) s.
Proof.
  intros Hrep. pose proof (size_rep Key0 this nil T s Hrep) as Hs.
  unfold size_, empty_, bind in *. destruct (get_root this s) as [r s1|e]; [|done].
  by rewrite Hs.
Qed.

Lemma min_rep this nil T s :
  rep Key0 this nil T s -> min_ this s = Ok (mk_it this (hd nil (ptrs T))) s.
Proof.
  intros Hrep.
  assert (Hwp : wp (min_ this) s (fun it s' => it = mk_it this (hd nil (ptrs T)) /\ s' = s)).
  { destruct s as [h o]. unfold min_. pose proof Hrep as Hrep'.
    destruct T as [|x cx sx l k r]; zrep_open Hrep'; wp_run.
    - unfold min_node. wp_run. done.
    - eapply (wp_min_node Key0 this nil nil []); [exact Hrep|].
      intros lc y cy sy ky ry Hall Hplug. wp_run.
      destruct (ptrs_left_path lc y cy sy ky ry Hall) as [rest Hrest].
      rewrite Hplug in Hrest. cbn [ptrs] in Hrest. rewrite Hrest. done. }
  apply wp_ok in Hwp as (it & s' & Heq & -> & ->). exact Heq.
Qed.

Lemma max_rep this nil T s :
  rep Key0 this nil T s -> max_ this s = Ok (mk_it this (List.last (ptrs T) nil)) s.
Proof.
  intros Hrep.
  assert (Hwp : wp (max_ this) s
                 (fun it s' => it = mk_it this (List.last (ptrs T) nil) /\ s' = s)).
  { destruct s as [h o]. unfold max_. pose proof Hrep as Hrep'.
    destruct T as [|x cx sx l k r]; zrep_open Hrep'; wp_run.
    - unfold max_node. wp_run. done.
    - eapply (wp_max_node this nil nil []); [exact Hrep|].
      intros rc y cy sy ly ky Hall Hplug. wp_run.
      destruct (ptrs_right_path rc y cy sy ly ky Hall) as [rest Hrest].
      rewrite Hplug in Hrest. cbn [ptrs] in Hrest. rewrite Hrest, last_last. done. }
  apply wp_ok in Hwp as (it & s' & Heq & -> & ->). exact Heq.
Qed.

Lemma focus_at this nil T s (i : nat) p :
  rep Key0 this nil T s -> ptrs T !! i = Some p ->
  exists c cp sp l k r,
    plug c (PNode p cp sp l k r) = T /\
    (length (ptrs_before c) + length (ptrs l) = i)%nat /\
    zrep Key0 this nil nil c (PNode p cp sp l k r) s.
Proof.
  intros Hrep Hi.
  destruct (zipper_at T i (lookup_lt_Some _ _ _ Hi)) as (c & q & cp & sp & l & k & r & HT & Hidx).
  assert (Hq : nth i (ptrs T) nil = q) by (rewrite <- HT, <- Hidx; apply nth_focus).
  rewrite (nth_lookup_Some _ _ nil _ Hi) in Hq. subst q.
  exists c, cp, sp, l, k, r. split; [done|]. split; [done|].
  apply zrep_plug. rewrite HT. exact Hrep.
Qed.

Lemma incr_rep this nil T s (i : nat) p :
  rep Key0 this nil T s -> ptrs T !! i = Some p ->
  it_incr (mk_it this p) s = Ok (mk_it this (nth (S i) (ptrs T) nil)) s.
Proof.
  intros Hrep Hi.
  destruct (focus_at this nil T s i p Hrep Hi) as (c & cp & sp & l & k & r & HT & Hidx & Hz).
  assert (Hwp : wp (it_incr (mk_it this p)) s
                 (fun it s' => it = mk_it this (nth (S i) (ptrs T) nil) /\ s' = s)).
  { unfold it_incr. wp_run. eapply wp_successor; [exact Hz|]. wp_run.
    rewrite <- HT, <- Hidx. by rewrite nth_succ_focus. }
  apply wp_ok in Hwp as (it & s' & Heq & -> & ->). exact Heq.
Qed.

Lemma decr_rep this nil T s (i : nat) p :
  rep Key0 this nil T s -> ptrs T !! i = Some p ->
  it_decr (mk_it this p) s
  = Ok (mk_it this (match i with O => nil | S j => nth j (ptrs T) nil end)) s.
Proof.
  intros Hrep Hi.
  destruct (focus_at this nil T s i p Hrep Hi) as (c & cp & sp & l & k & r & HT & Hidx & Hz).
  assert (Hwp : wp (it_decr (mk_it this p)) s
                 (fun it s' => it = mk_it this (pred_ptr nil c l) /\ s' = s)).
  { unfold it_decr. wp_run. eapply wp_predecessor; [exact Hz|]. wp_run. done. }
  apply wp_ok in Hwp as (it & s' & Heq & -> & ->). rewrite Heq.
  by rewrite <- HT, <- Hidx, nth_pred_focus.
Qed.

Lemma incr_end_rep this nil T s :
  rep Key0 this nil T s -> it_incr (mk_it this nil) s = Ok (mk_it this nil) s.
Proof.
  intros Hrep.
  assert (Hwp : wp (it_incr (mk_it this nil)) s (fun it s' => it = mk_it this nil /\ s' = s)).
  { destruct s as [h o]. unfold it_incr, successor. pose proof Hrep as Hrep'.
    zrep_open Hrep'. wp_run. destruct (S (size h)) as [|fuel] eqn:E; [done|].
    cbn [loop]. wp_run. done. }
  apply wp_ok in Hwp as (it & s' & Heq & -> & ->). exact Heq.
Qed.

Lemma decr_end_rep this nil T s :
  rep Key0 this nil T s -> it_decr (mk_it this nil) s = Ok (mk_it this nil) s.
Proof.
  intros Hrep.
  assert (Hwp : wp (it_decr (mk_it this nil)) s (fun it s' => it = mk_it this nil /\ s' = s)).
  { destruct s as [h o]. unfold it_decr, predecessor. pose proof Hrep as Hrep'.
    zrep_open Hrep'. wp_run. destruct (S (size h)) as [|fuel] eqn:E; [done|].
    cbn [loop]. wp_run. done. }
  apply wp_ok in Hwp as (it & s' & Heq & -> & ->). exact Heq.
Qed.

End Walks.

Section Ends.

Context {Key : Type}.
Variable Key0 : Key.
Implicit Types (h : gmap N (node Key)) (t T : ptree Key) (c : ctx Key) (s : state Key).

(** X1: on a set with correct [size] members, [size()] is the number of keys
    the tree holds and [empty()] tells whether it holds none; neither changes
    the state. *)
Theorem size_counts_keys this nil T s :
  rep Key0 this nil T s -> sizes_ok T ->
  size_ this s = Ok (Z.of_nat (length (keys T))) s /\
  empty_ this s = Ok (bool_decide (keys T = [])) s.
Proof.
  intros Hrep Hsz. rewrite (size_rep Key0 this nil T s Hrep), (empty_rep Key0 this nil T s Hrep).
  rewrite (sizes_ok_tsize _ Hsz), count_length. split; [done|]. f_equal.
  destruct (keys T) as [|k l]; cbn [length]; [done|].
  rewrite (bool_decide_eq_false_2 (k :: l = [])) by done. apply Z.eqb_neq. lia.
Qed.

(** X2: [min()] and [begin()] both return the first position in key order,
    [max()] the last one; on an empty set all three return [end()]. None of
    them changes the state. *)
Theorem min_max_begin_positions this nil T s :
  rep Key0 this nil T s -> sizes_ok T -> tsize T < SIZE_MAX1 ->
  min_ this s = Ok (mk_it this (hd nil (ptrs T))) s /\
  begin_ this s = Ok (mk_it this (hd nil (ptrs T))) s /\
  max_ this s = Ok (mk_it this (List.last (ptrs T) nil)) s /\
  end_ this s = Ok (mk_it this nil) s.
Proof.
  intros Hrep Hsz Hb. split; [by apply (min_rep Key0)|].
  split; [|split; [by apply (max_rep Key0)|]].
  - unfold begin_. rewrite (find_by_order_rep Key0 this nil T s 0 Hrep Hsz Hb)
      by (unfold SIZE_MAX1; lia).
    unfold nth_ptr. cbn. by destruct (ptrs T).
  - by eapply end_rep.
Qed.

(** X3: [operator++] on the position at in-order index [i] gives the position
    at index [i + 1], which is [end()] for the last key; on [end()] it gives
    [end()] again. The state is unchanged. *)
Theorem increment_steps_forward this nil T s :
  rep Key0 this nil T s ->
  (forall (i : nat) p, ptrs T !! i = Some p ->
     it_incr (mk_it this p) s = Ok (mk_it this (nth (S i) (ptrs T) nil)) s) /\
  it_incr (mk_it this nil) s = Ok (mk_it this nil) s /\
  end_ this s = Ok (mk_it this nil) s.
Proof.
  intros Hrep. split; [|split].
  - intros i p Hi. by apply (incr_rep Key0).
  - by eapply incr_end_rep.
  - by eapply end_rep.
Qed.

(** X4: [operator--] on the position at in-order index [i + 1] gives the
    position at index [i]; on the first position it gives [end()], and on
    [end()] it gives [end()] again, not the last position. The state is
    unchanged. *)
Theorem decrement_steps_backward this nil T s :
  rep Key0 this nil T s ->
  (forall (i : nat) p, ptrs T !! S i = Some p ->
     it_decr (mk_it this p) s = Ok (mk_it this (nth i (ptrs T) nil)) s) /\
  (forall p, ptrs T !! O = Some p -> it_decr (mk_it this p) s = Ok (mk_it this nil) s) /\
  it_decr (mk_it this nil) s = Ok (mk_it this nil) s /\
  end_ this s = Ok (mk_it this nil) s.
Proof.
  intros Hrep. split; [|split; [|split]].
  - intros i p Hi. by rewrite (decr_rep Key0 this nil T s (S i) p).
  - intros p Hi. by rewrite (decr_rep Key0 this nil T s O p).
  - by eapply decr_end_rep.
  - by eapply end_rep.
Qed.

End Ends.

(** ** Looking keys up around insertions and removals *)

Section Lookups.

Context {Key : Type}.
Variable CMP : Key -> Key -> bool.
Variable Key0 : Key.
Hypothesis Hswo : StrictWeakOrder CMP.
Implicit Types (h : gmap N (node Key)) (t T : ptree Key) (c : ctx Key) (s : state Key).

(** [key] splits the nodes: strictly smaller keys in [l1], strictly greater
    ones in [l2]. *)
Definition splits (key : Key) (l1 l2 : list (ptr * Key)) : Prop :=
  Forall (fun x => CMP x key = true) (map snd l1) /\
  Forall (fun x => CMP key x = true) (map snd l2).

Lemma splits_unique key l1 l2 p k q kq :
  splits key l1 l2 -> equal CMP key k = true ->
  (q, kq) ∈ l1 ++ (p, k) :: l2 -> equal CMP key kq = true -> (q, kq) = (p, k).
Proof.
  intros [H1 H2] Hk Hin Hq. apply elem_of_app in Hin as [Hin|Hin].
  - exfalso. rewrite Forall_forall in H1.
    assert (Hlt : CMP kq key = true).
    { apply H1. apply list_elem_of_In, (in_map snd _ (q, kq)), list_elem_of_In, Hin. }
    unfold equal in Hq. by rewrite Hlt, andb_false_r in Hq.
  - apply elem_of_cons in Hin as [Hin|Hin]; [done|].
    exfalso. rewrite Forall_forall in H2.
    assert (Hlt : CMP key kq = true).
    { apply H2. apply list_elem_of_In, (in_map snd _ (q, kq)), list_elem_of_In, Hin. }
    unfold equal in Hq. by rewrite Hlt in Hq.
Qed.

Lemma splits_absent key l1 l2 : splits key l1 l2 -> mem_list CMP key (map snd (l1 ++ l2)) = false.
Proof.
  intros [H1 H2]. rewrite map_app, (mem_list_skip CMP) by done. by apply mem_list_none.
Qed.

Lemma splits_present key l1 p k l2 :
  splits key l1 l2 -> equal CMP key k = true ->
  mem_list CMP key (map snd (l1 ++ (p, k) :: l2)) = true.
Proof.
  intros [H1 H2] Hk. rewrite map_app, (mem_list_skip CMP) by done. by apply mem_list_found.
Qed.

Lemma splits_rank key l1 p k l2 :
  splits key l1 l2 -> equal CMP key k = true ->
  count_less CMP key (map snd (l1 ++ (p, k) :: l2)) = Z.of_nat (length l1).
Proof.
  intros [H1 H2] Hk. rewrite map_app, (count_less_app CMP). cbn [map snd count_less].
  rewrite (count_less_all CMP key _ H1), length_map.
  rewrite (count_less_none CMP key (map snd l2)).
  - unfold equal in Hk. destruct (CMP k key); [|lia]. by rewrite andb_false_r in Hk.
  - eapply Forall_impl; [exact H2|]. intros x Hx. by apply (cmp_asym CMP Hswo).
Qed.

Lemma find_cases this nil T s key :
  rep Key0 this nil T s -> bst CMP T ->
  (exists l1 l2,
     nodes T = l1 ++ l2 /\ splits key l1 l2 /\
     find CMP this key s = Ok (mk_it this nil) s) \/
  (exists l1 p k l2,
     nodes T = l1 ++ (p, k) :: l2 /\ splits key l1 l2 /\ equal CMP key k = true /\
     find CMP this key s = Ok (mk_it this p) s).
Proof.
  intros Hrep Hbst.
  assert (Hwp : wp (find CMP this key) s (fun it s' => s' = s /\
     ((exists l1 l2, nodes T = l1 ++ l2 /\ splits key l1 l2 /\ it = mk_it this nil) \/
      (exists l1 p k l2, nodes T = l1 ++ (p, k) :: l2 /\ splits key l1 l2 /\
         equal CMP key k = true /\ it = mk_it this p)))).
  { unfold find. apply wp_bind. eapply (wp_search CMP Key0 Hswo); [exact Hrep|exact Hbst|].
    intros c t Hf. apply wp_ret. split; [done|]. destruct t as [|p cp sp l k r].
    - left. destruct (found_absent CMP Key0 _ _ _ _ _ _ Hf) as (Hk & Hl & Hr).
      exists (nodes_before c), (nodes_after c). destruct Hf as (HT & _).
      split; [by rewrite <- HT, nodes_plug|]. split; [|done]. unfold splits.
      by rewrite <- keys_before_nodes, <- keys_after_nodes.
    - right. destruct (found_present CMP Key0 Hswo _ _ _ _ _ _ _ _ _ _ _ _ Hf)
        as (Hk & Hn & Hl & Hr & Heq).
      exists (nodes_before c ++ nodes l), p, k, (nodes r ++ nodes_after c).
      split; [done|]. split; [|done]. unfold splits. rewrite !map_app.
      by rewrite <- keys_before_nodes, <- keys_after_nodes, <- !keys_nodes. }
  apply wp_ok in Hwp as (it & s' & Heq & -> &
    [(l1 & l2 & Hn & Hs & ->)|(l1 & p & k & l2 & Hn & Hs & Hk & ->)]).
  - left. by exists l1, l2.
  - right. by exists l1, p, k, l2.
Qed.

Lemma find_present this nil T s key p k :
  rep Key0 this nil T s -> bst CMP T -> (p, k) ∈ nodes T -> equal CMP key k = true ->
  find CMP this key s = Ok (mk_it this p) s.
Proof.
  intros Hrep Hbst Hin Hk.
  destruct (find_cases this nil T s key Hrep Hbst)
    as [(l1 & l2 & Hn & Hs & _)|(l1 & q & kq & l2 & Hn & Hs & Hq & Hf)].
  - exfalso. pose proof (splits_absent key l1 l2 Hs) as Hm. rewrite <- Hn in Hm.
    apply list_elem_of_In, (in_map snd) in Hin. cbn [snd] in Hin.
    unfold mem_list in Hm.
    assert (Ht : existsb (fun x => equal CMP key x) (map snd (nodes T)) = true).
    { apply existsb_exists. by exists k. }
    congruence.
  - rewrite Hn in Hin. by injection (splits_unique key l1 l2 q kq p k Hs Hq Hin Hk) as -> ->.
Qed.

Lemma find_absent this nil T s key :
  rep Key0 this nil T s -> bst CMP T -> mem_list CMP key (keys T) = false ->
  find CMP this key s = Ok (mk_it this nil) s.
Proof.
  intros Hrep Hbst Hm.
  destruct (find_cases this nil T s key Hrep Hbst)
    as [(l1 & l2 & _ & _ & Hf)|(l1 & q & kq & l2 & Hn & Hs & Hq & Hf)]; [done|].
  rewrite keys_nodes, Hn, (splits_present key l1 q kq l2 Hs Hq) in Hm. done.
Qed.

Lemma mem_del_list key l : sorted CMP l -> mem_list CMP key (del_list CMP key l) = false.
Proof.
  induction 1 as [|x l Hs IH Hx]; cbn [del_list]; [done|].
  destruct (CMP key x) eqn:E1; [|destruct (CMP x key) eqn:E2].
  - apply (mem_list_none CMP). constructor; [done|].
    eapply Forall_impl; [exact Hx|]. intros y Hy. by apply (cmp_trans CMP Hswo key x y).
  - unfold mem_list in *. cbn [existsb]. rewrite IH. unfold equal. by rewrite E1, E2.
  - apply (mem_list_none CMP). eapply Forall_impl; [exact Hx|]. intros y Hy.
    apply (equal_cmp_r CMP Hswo x key y); [|done]. unfold equal. by rewrite E1, E2.
Qed.

Lemma insert_cases this nil T s key :
  wf CMP Key0 this nil T s -> tsize T + 1 < SIZE_MAX1 ->
  (mem_list CMP key (keys T) = true /\
   exists p k, insert CMP this key s = Ok (mk_it this p, false) s /\
     (p, k) ∈ nodes T /\ equal CMP key k = true) \/
  (mem_list CMP key (keys T) = false /\
   exists l1 l2 z T' s',
     insert CMP this key s = Ok (mk_it this z, true) s' /\
     wf CMP Key0 this nil T' s' /\ nodes T = l1 ++ l2 /\ nodes T' = l1 ++ (z, key) :: l2 /\
     keys T' = ins_list CMP key (keys T) /\ tsize T' = tsize T + 1).
Proof.
  intros Hwf Hb. pose proof Hwf as (Hrep & Hbst & Hsz & Hrb).
  assert (Hwp : wp (insert CMP this key) s (fun r s' =>
     (mem_list CMP key (keys T) = true /\ s' = s /\
      exists p k, r = (mk_it this p, false) /\ (p, k) ∈ nodes T /\ equal CMP key k = true) \/
     (mem_list CMP key (keys T) = false /\
      exists l1 l2 z T', r = (mk_it this z, true) /\
        wf CMP Key0 this nil T' s' /\ nodes T = l1 ++ l2 /\ nodes T' = l1 ++ (z, key) :: l2 /\
        keys T' = ins_list CMP key (keys T) /\ tsize T' = tsize T + 1))).
  { eapply (wp_insert CMP Key0 Hswo); [exact Hrep|exact Hbst|exact Hsz|exact Hrb|exact Hb| |].
    - intros c x cx sx l k r Hf. left.
      destruct (found_present CMP Key0 Hswo _ _ _ _ _ _ _ _ _ _ _ _ Hf)
        as (Hk & Hn & Hl & Hr & Heq).
      split; [|split; [done|]].
      + rewrite Hk. rewrite (mem_list_skip CMP) by done. by apply mem_list_found.
      + exists x, k. split; [done|]. split; [|done]. rewrite Hn. set_solver.
    - intros c z T' s' Hf Hrep' Hrb' Hnodes Hsz' Hts. right.
      destruct (found_absent CMP Key0 _ _ _ _ _ _ Hf) as (Hk & Hl & Hr).
      assert (Hk' : keys T' = keys_before c ++ key :: keys_after c).
      { rewrite keys_nodes, Hnodes, map_app. cbn [map snd].
        by rewrite <- keys_before_nodes, <- keys_after_nodes. }
      split.
      { rewrite Hk. rewrite (mem_list_skip CMP) by done. by apply mem_list_none. }
      exists (nodes_before c), (nodes_after c), z, T'. split; [done|]. split; [|split; [|split]].
      + split; [done|]. split; [|done]. apply (bst_sorted CMP Hswo). rewrite Hk'.
        apply (sorted_insert CMP); [|done|done]. rewrite <- Hk. by apply (bst_sorted CMP Hswo).
      + destruct Hf as (HT & _). rewrite <- HT, nodes_plug. done.
      + done.
      + split; [|done]. rewrite Hk', Hk. rewrite (ins_list_skip CMP Hswo) by done.
        by rewrite (ins_list_here CMP). }
  apply wp_ok in Hwp as (r & s' & Heq & [(Hm & -> & p & k & -> & Hin & Hk)|
    (Hm & l1 & l2 & z & T' & -> & Hwf' & Hn & Hn' & Hk' & Hts)]).
  - left. split; [done|]. by exists p, k.
  - right. split; [done|]. by exists l1, l2, z, T', s'.
Qed.

Lemma erase_cases this nil T s key :
  wf CMP Key0 this nil T s -> tsize T < SIZE_MAX1 ->
  (mem_list CMP key (keys T) = false /\ erase CMP this key s = Ok (mk_it this nil) s) \/
  (mem_list CMP key (keys T) = true /\
   exists l1 z k l2 T' s',
     erase CMP this key s = Ok (mk_it this (hd nil (map fst l2))) s' /\
     nodes T = l1 ++ (z, k) :: l2 /\ equal CMP key k = true /\
     wf CMP Key0 this nil T' s' /\ nodes T' = l1 ++ l2 /\
     keys T' = del_list CMP key (keys T) /\ tsize T' = tsize T - 1).
Proof.
  intros Hwf Hb.
  assert (Hwp : wp (erase CMP this key) s (fun r s' =>
     (mem_list CMP key (keys T) = false /\ r = mk_it this nil /\ s' = s) \/
     (mem_list CMP key (keys T) = true /\
      exists l1 z k l2 T', r = mk_it this (hd nil (map fst l2)) /\
        nodes T = l1 ++ (z, k) :: l2 /\ equal CMP key k = true /\
        wf CMP Key0 this nil T' s' /\ nodes T' = l1 ++ l2 /\
        keys T' = del_list CMP key (keys T) /\ tsize T' = tsize T - 1))).
  { eapply (wp_erase_wf CMP Key0 Hswo); [exact Hwf|exact Hb| |].
    - intros Hmem _. by left.
    - intros l1 z k l2 T' s' Hn Heq Hmem Hwf' Hn' Hk' Hts. right. split; [done|].
      by exists l1, z, k, l2, T'. }
  apply wp_ok in Hwp as (r & s' & Heq & [(Hm & -> & ->)|
    (Hm & l1 & z & k & l2 & T' & -> & Hn & Hk & Hwf' & Hn' & Hk' & Hts)]).
  - by left.
  - right. split; [done|]. by exists l1, z, k, l2, T', s'.
Qed.

(** X5: on a set in key order, [find(key)] returns the position of the one
    stored key equivalent to [key], or [end()] when there is none, and leaves
    the state as it was. *)
Theorem find_locates_key this nil T s key :
  rep Key0 this nil T s -> bst CMP T ->
  (mem_list CMP key (keys T) = false ->
     find CMP this key s = Ok (mk_it this nil) s /\ end_ this s = Ok (mk_it this nil) s) /\
  (forall p k, (p, k) ∈ nodes T -> equal CMP key k = true ->
     find CMP this key s = Ok (mk_it this p) s /\ it_deref (mk_it this p) s = Ok k s).
Proof.
  intros Hrep Hbst. split.
  - intros Hm. split; [by eapply find_absent|by eapply end_rep].
  - intros p k Hin Hk. split; [by eapply find_present|by eapply deref_rep].
Qed.

(** X6: [insert(key)] of a key with no equivalent in a well-formed set
    returns the position of a new node holding [key] and [true]; the set is
    well-formed again, its keys are the old ones with [key] put in at its
    place in the order, [size()] is one more, and every position held before
    still reads the same key. *)
Theorem insert_absent_adds_key this nil T s key :
  wf CMP Key0 this nil T s -> tsize T + 1 < SIZE_MAX1 ->
  mem_list CMP key (keys T) = false ->
  exists z T' s',
    insert CMP this key s = Ok (mk_it this z, true) s' /\
    wf CMP Key0 this nil T' s' /\
    keys T' = ins_list CMP key (keys T) /\
    size_ this s' = Ok (tsize T + 1) s' /\
    it_deref (mk_it this z) s' = Ok key s' /\
    (forall p k, (p, k) ∈ nodes T -> it_deref (mk_it this p) s' = Ok k s').
Proof.
  intros Hwf Hb Hmem.
  destruct (insert_cases this nil T s key Hwf Hb)
    as [(Hm & _)|(_ & l1 & l2 & z & T' & s' & Hi & Hwf' & Hn & Hn' & Hk' & Hts)]; [congruence|].
  exists z, T', s'. pose proof Hwf' as (Hrep' & _).
  split; [done|]. split; [done|]. split; [done|]. split; [|split].
  - by rewrite (size_rep Key0 this nil T' s' Hrep'), Hts.
  - eapply deref_rep; [exact Hrep'|]. rewrite Hn'. set_solver.
  - intros p k Hin. eapply deref_rep; [exact Hrep'|]. rewrite Hn'. rewrite Hn in Hin. set_solver.
Qed.

(** X7: on a well-formed set, [find(key)] right after [insert(key)] returns
    the position that [insert] returned, whether the key was new or not, and
    that position reads a key equivalent to [key]. *)
Theorem insert_then_find this nil T s key :
  wf CMP Key0 this nil T s -> tsize T + 1 < SIZE_MAX1 ->
  exists it b s' k,
    insert CMP this key s = Ok (it, b) s' /\
    find CMP this key s' = Ok it s' /\
    it_deref it s' = Ok k s' /\ equal CMP key k = true.
Proof.
  intros Hwf Hb. pose proof Hwf as (Hrep & Hbst & _).
  destruct (insert_cases this nil T s key Hwf Hb)
    as [(Hm & p & k & Hi & Hin & Hk)|
        (_ & l1 & l2 & z & T' & s' & Hi & Hwf' & Hn & Hn' & Hk' & Hts)].
  - exists (mk_it this p), false, s, k. split; [done|]. split; [by eapply find_present|].
    split; [by eapply deref_rep|done].
  - pose proof Hwf' as (Hrep' & Hbst' & _).
    assert (Hin : (z, key) ∈ nodes T') by (rewrite Hn'; set_solver).
    exists (mk_it this z), true, s', key. split; [done|].
    pose proof (equal_refl CMP Hswo key) as Hkk.
    split; [by eapply find_present|]. split; [by eapply deref_rep|done].
Qed.

(** X8: on a well-formed set, [find(key)] right after [erase(key)] returns
    [end()], whether the key was stored or not. *)
Theorem erase_then_find this nil T s key :
  wf CMP Key0 this nil T s -> tsize T < SIZE_MAX1 ->
  exists it s' e,
    erase CMP this key s = Ok it s' /\
    end_ this s' = Ok e s' /\ find CMP this key s' = Ok e s'.
Proof.
  intros Hwf Hb. pose proof Hwf as (Hrep & Hbst & _).
  destruct (erase_cases this nil T s key Hwf Hb)
    as [(Hm & He)|(Hm & l1 & z & k & l2 & T' & s' & He & Hn & Hk & Hwf' & Hn' & Hk' & Hts)].
  - exists (mk_it this nil), s, (mk_it this nil). split; [done|].
    split; [by eapply end_rep|].
    by apply (find_absent this nil T s key).
  - pose proof Hwf' as (Hrep' & Hbst' & _).
    exists (mk_it this (hd nil (map fst l2))), s', (mk_it this nil). split; [done|].
    split; [by eapply end_rep|].
    apply (find_absent this nil T' s' key); [done|done|].
    rewrite Hk'. apply mem_del_list. by apply (bst_sorted CMP Hswo).
Qed.

(** X9: on a well-formed set, [find_by_order(order_of_key(key))] is the first
    position, in key order, whose key is not less than [key], and [end()]
    when every key is less; when a key equivalent to [key] is stored it is the
    position that [find(key)] returns. *)
Theorem rank_then_select_is_lower_bound this nil T s key :
  wf CMP Key0 this nil T s -> tsize T < SIZE_MAX1 ->
  exists l1 l2 i,
    nodes T = l1 ++ l2 /\
    Forall (fun x => CMP x key = true) (map snd l1) /\
    Forall (fun x => CMP x key = false) (map snd l2) /\
    order_of_key CMP this key s = Ok i s /\
    find_by_order this i s = Ok (mk_it this (hd nil (map fst l2))) s /\
    (mem_list CMP key (keys T) = true ->
       find CMP this key s = Ok (mk_it this (hd nil (map fst l2))) s).
Proof.
  intros (Hrep & Hbst & Hsz & Hrb) Hb.
  assert (Hgen : forall l1 l2, nodes T = l1 ++ l2 ->
            Forall (fun x => CMP x key = true) (map snd l1) ->
            Forall (fun x => CMP x key = false) (map snd l2) ->
            order_of_key CMP this key s = Ok (Z.of_nat (length l1)) s /\
            find_by_order this (Z.of_nat (length l1)) s
            = Ok (mk_it this (hd nil (map fst l2))) s).
  { intros l1 l2 Hn H1 H2.
    assert (Hlen : Z.of_nat (length l1) <= tsize T).
    { rewrite (sizes_ok_tsize _ Hsz), count_length, keys_nodes, Hn, length_map, length_app.
      lia. }
    split.
    - rewrite (order_of_key_rep CMP Key0 Hswo this nil T s key Hrep Hbst Hsz Hb). f_equal.
      rewrite keys_nodes, Hn, map_app, (count_less_app CMP).
      rewrite (count_less_all CMP key _ H1), (count_less_none CMP key _ H2), length_map. lia.
    - rewrite (find_by_order_rep Key0 this nil T s _ Hrep Hsz Hb) by lia.
      unfold nth_ptr. rewrite Nat2Z.id, ptrs_nodes, Hn, map_app.
      rewrite app_nth2 by (rewrite length_map; lia).
      rewrite length_map, Nat.sub_diag. by destruct (map fst l2). }
  destruct (find_cases this nil T s key Hrep Hbst)
    as [(l1 & l2 & Hn & [H1 H2] & Hf)|(l1 & p & k & l2 & Hn & [H1 H2] & Hk & Hf)].
  - assert (H2' : Forall (fun x => CMP x key = false) (map snd l2)).
    { eapply Forall_impl; [exact H2|]. intros x Hx. by apply (cmp_asym CMP Hswo). }
    destruct (Hgen l1 l2 Hn H1 H2') as (Ho & Hfo).
    exists l1, l2, (Z.of_nat (length l1)). repeat (split; [done|]).
    intros Hm. rewrite keys_nodes, Hn, (splits_absent key l1 l2) in Hm; done.
  - assert (H2' : Forall (fun x => CMP x key = false) (map snd ((p, k) :: l2))).
    { cbn [map snd]. constructor.
      - unfold equal in Hk. destruct (CMP k key); [|done]. by rewrite andb_false_r in Hk.
      - eapply Forall_impl; [exact H2|]. intros x Hx. by apply (cmp_asym CMP Hswo). }
    destruct (Hgen l1 ((p, k) :: l2) Hn H1 H2') as (Ho & Hfo).
    exists l1, ((p, k) :: l2), (Z.of_nat (length l1)). repeat (split; [done|]).
    intros _. exact Hf.
Qed.

(** X10: [erase(key)] of a stored key leaves a well-formed set whose keys are
    the old ones without the key equivalent to [key]; [size()] is one less,
    and every position of another key still reads that key. *)
Theorem erase_present_removes_key this nil T s key :
  wf CMP Key0 this nil T s -> tsize T < SIZE_MAX1 ->
  mem_list CMP key (keys T) = true ->
  exists it T' s',
    erase CMP this key s = Ok it s' /\
    wf CMP Key0 this nil T' s' /\
    keys T' = del_list CMP key (keys T) /\
    mem_list CMP key (keys T') = false /\
    size_ this s' = Ok (tsize T - 1) s' /\
    (forall p k, (p, k) ∈ nodes T -> equal CMP key k = false ->
       it_deref (mk_it this p) s' = Ok k s').
Proof.
  intros Hwf Hb Hmem. pose proof Hwf as (Hrep & Hbst & _).
  destruct (erase_cases this nil T s key Hwf Hb)
    as [(Hm & _)|(_ & l1 & z & k & l2 & T' & s' & He & Hn & Hk & Hwf' & Hn' & Hk' & Hts)];
    [congruence|].
  pose proof Hwf' as (Hrep' & _).
  exists (mk_it this (hd nil (map fst l2))), T', s'. repeat (split; [done|]).
  split; [|split].
  - rewrite Hk'. apply mem_del_list. by apply (bst_sorted CMP Hswo).
  - by rewrite (size_rep Key0 this nil T' s' Hrep'), Hts.
  - intros p kp Hin Hne. eapply deref_rep; [exact Hrep'|]. rewrite Hn'. rewrite Hn in Hin.
    apply elem_of_app in Hin as [Hin|Hin]; [set_solver|].
    apply elem_of_cons in Hin as [Hin|Hin]; [|set_solver].
    injection Hin as -> ->. congruence.
Qed.

End Lookups.

(** ** A freshly constructed set *)

Section Fresh.

Context {Key : Type}.
Variable CMP : Key -> Key -> bool.
Variable Key0 : Key.
Implicit Types (h : gmap N (node Key)) (t T : ptree Key) (c : ctx Key) (s : state Key).

(** X11: the default constructor always succeeds and leaves a well-formed
    empty set: [size()] is 0, [empty()] is true, [begin()] and [end()] are the
    same position, and iterating yields no key. *)
Theorem ctor_gives_empty_set this s0 :
  exists nil s,
    ctor Key0 this s0 = Ok tt s /\ wf CMP Key0 this nil PLeaf s /\
    size_ this s = Ok 0 s /\ empty_ this s = Ok true s /\
    begin_ this s = Ok (mk_it this nil) s /\ end_ this s = Ok (mk_it this nil) s /\
    iterate this s = Ok [] s.
Proof.
  assert (Hwp : wp (ctor Key0 this) s0 (fun _ s => exists nil, wf CMP Key0 this nil PLeaf s)).
  { apply (wp_ctor CMP Key0). intros nil s Hwf. by exists nil. }
  apply wp_ok in Hwp as ([] & s & Heq & nil & Hwf). pose proof Hwf as (Hrep & _ & Hsz & _).
  exists nil, s. split; [done|]. split; [done|].
  split; [by rewrite (size_rep Key0 this nil PLeaf s Hrep)|].
  split; [by rewrite (empty_rep Key0 this nil PLeaf s Hrep)|].
  split; [|split; [by eapply end_rep|]].
  - unfold begin_. rewrite (find_by_order_rep Key0 this nil PLeaf s 0 Hrep Hsz);
      [done|done|unfold SIZE_MAX1; lia].
  - assert (Hit : wp (iterate this) s (fun ks s' => ks = [] /\ s' = s)).
    { eapply (wp_iterate Key0); [exact Hrep|exact Hsz|done|done]. }
    apply wp_ok in Hit as (ks & s' & Hi & -> & ->). exact Hi.
Qed.

End Fresh.

(** ** Releasing the nodes *)

Section Release.

Context {Key : Type}.
Variable Key0 : Key.
Implicit Types (h : gmap N (node Key)) (t T : ptree Key) (c : ctx Key) (s : state Key).

Notation "x <- m ;; k" := (bind m (fun x => k))
  (at level 100, m at next level, right associativity).
Notation "m ;; k" := (bind m (fun _ => k))
  (at level 100, right associativity).

(** The nodes of the subtrees waiting in the queue of a breadth-first walk. *)
Definition fptrs (ts : list (ptree Key)) : list ptr := concat (map ptrs ts).

(** A subtree enters the queue when it is not empty. *)
Definition kids (t : ptree Key) : list (ptree Key) :=
  match t with PLeaf => [] | PNode _ _ _ _ _ _ => [t] end.

Lemma fptrs_app ts1 ts2 : fptrs (ts1 ++ ts2) = fptrs ts1 ++ fptrs ts2.
Proof. unfold fptrs. by rewrite map_app, concat_app. Qed.

Lemma fptrs_kids t : fptrs (kids t) = ptrs t.
Proof. destruct t; cbn; [done|]. by rewrite app_nil_r. Qed.

Lemma fptrs_step x cx sx l k r rest :
  fptrs (PNode x cx sx l k r :: rest) ≡ₚ x :: fptrs (rest ++ kids l ++ kids r).
Proof.
  rewrite !fptrs_app, !fptrs_kids. unfold fptrs. cbn [map concat ptrs]. solve_Permutation.
Qed.

Lemma push_kid nil t (buf : list ptr) :
  nil ∉ ptrs t ->
  (if negb (rootp nil t =?p nil) then buf ++ [rootp nil t] else buf)
  = buf ++ map (rootp nil) (kids t).
Proof.
  intros Hn. destruct t as [|p cp sp l k r]; cbn [rootp kids map].
  - by rewrite ptr_eqb_refl, app_nil_r.
  - rewrite ptr_eqb_ne; [done|]. intros ->. apply Hn. cbn. set_solver.
Qed.

Lemma kids_shape h nil par t :
  shape h nil par t -> Forall (fun t' => t' <> PLeaf /\ exists par', shape h nil par' t') (kids t).
Proof.
  destruct t; cbn [kids]; [constructor|]. intros Hs. constructor; [|constructor].
  split; [done|]. by exists par.
Qed.

Lemma wp_erase_tree this nil T s (Q : unit -> state Key -> Prop) :
  rep Key0 this nil T s ->
  (forall h', (forall p, p ∈ ptrs T -> h' !! p = None) ->
              (forall p, p ∉ ptrs T -> h' !! p = heap s !! p) ->
              Q tt (mk_state h' (objs s))) ->
  wp (erase_tree this (rootp nil T)) s Q.
Proof.
  intros Hrep HQ. destruct s as [h o]. pose proof (zrep_heap_size _ _ _ _ _ _ _ Hrep) as Hsize.
  destruct Hrep as [Hobj Hnil _ Hsub Hnd]. cbn [heap objs plug ctx_ptrs ctx_ptr] in *.
  rewrite app_nil_r in Hnd.
  apply NoDup_cons in Hnd as [Hnull Hnd]. apply NoDup_cons in Hnd as [HnilT HndT].
  assert (HnullT : null ∉ ptrs T) by set_solver.
  unfold erase_tree. apply wp_bind. unfold get_nil. apply wp_bind.
  eapply wp_load_obj; [exact Hobj|]. apply wp_ret. cbn [m_nil].
  destruct T as [|x cx sx l k r].
  { cbn [rootp]. rewrite ptr_eqb_refl. apply wp_ret. apply HQ; [|done].
    intros p Hp. by apply elem_of_nil in Hp. }
  set (T := PNode x cx sx l k r) in *.
  assert (Hx : rootp nil T <> nil).
  { cbn [rootp T]. intros ->. apply HnilT. cbn. set_solver. }
  rewrite ptr_eqb_ne by done. apply wp_bind, wp_get_fuel.
  eapply wp_loop with (n := length (ptrs T)) (I := fun n buf s' =>
    exists h' ts, s' = mk_state h' o /\ buf = map (rootp nil) ts /\
      Forall (fun t => t <> PLeaf /\ exists par, shape h' nil par t) ts /\
      NoDup (fptrs ts) /\ (forall p, p ∈ fptrs ts -> p ∈ ptrs T) /\
      (forall p, p ∈ ptrs T -> p ∉ fptrs ts -> h' !! p = None) /\
      (forall p, p ∉ ptrs T -> h' !! p = h !! p) /\ n = length (fptrs ts)).
  - intros n buf s' (h' & ts & -> & -> & Hall & Hnd & Hin & Hfree & Hsame & ->).
    destruct ts as [|t rest]; cbn [map].
    { apply wp_ret. apply HQ; [|done]. intros p Hp. apply Hfree; [done|]. apply not_elem_of_nil. }
    apply Forall_cons in Hall as [(Hne & par & Hsh) Hrest].
    destruct t as [|y cy sy yl ky yr]; [done|]. clear Hne. cbn [rootp shape] in *.
    destruct Hsh as (Hy & Hyl & Hyr).
    pose proof (fptrs_step y cy sy yl ky yr rest) as Hperm.
    assert (HyT : y ∈ ptrs T).
    { apply Hin. rewrite Hperm. left. }
    assert (Hynull : y <> null) by (intros ->; done).
    assert (Hsub' : forall p, p ∈ fptrs (rest ++ kids yl ++ kids yr) ->
                      p ∈ fptrs (PNode y cy sy yl ky yr :: rest)).
    { intros p Hp. rewrite Hperm. by right. }
    assert (Hnd' : NoDup (y :: fptrs (rest ++ kids yl ++ kids yr))) by (by rewrite <- Hperm).
    apply NoDup_cons in Hnd' as [Hynot Hnd'].
    assert (Hnl : nil ∉ ptrs yl).
    { intros Hn. apply HnilT, Hin. unfold fptrs. cbn [map concat ptrs]. set_solver. }
    assert (Hnr : nil ∉ ptrs yr).
    { intros Hn. apply HnilT, Hin. unfold fptrs. cbn [map concat ptrs]. set_solver. }
    wp_run. rewrite (push_kid nil yl _ Hnl), (push_kid nil yr _ Hnr).
    eapply wp_delete_node; [done|exact Hy|]. apply wp_ret.
    exists (length (fptrs (rest ++ kids yl ++ kids yr))). split.
    { rewrite (Permutation_length Hperm). cbn [length]. lia. }
    exists (delete y h'), (rest ++ kids yl ++ kids yr).
    split; [done|]. split; [by rewrite <- app_assoc, !map_app|].
    rewrite !fptrs_app, !fptrs_kids in Hynot.
    apply notin_app in Hynot as [Hyrest Hynot]. apply notin_app in Hynot as [Hyyl Hyyr].
    split; [|split; [done|split; [|split; [|split; [|done]]]]].
    + apply Forall_app. split; [|apply Forall_app; split].
      * apply Forall_forall. intros t Ht. rewrite Forall_forall in Hrest.
        destruct (Hrest t Ht) as (Hne & par' & Hsh'). split; [done|]. exists par'.
        apply shape_del; [|done]. intros Hyt. apply Hyrest. unfold fptrs.
        apply list_elem_of_In, in_concat. exists (ptrs t).
        split; [apply in_map_iff; exists t; split; [done|by apply list_elem_of_In]|].
        by apply list_elem_of_In.
      * apply kids_shape with (par := y). by apply shape_del.
      * apply kids_shape with (par := y). by apply shape_del.
    + intros p Hp. by apply Hin, Hsub'.
    + intros p HpT Hp. destruct (decide (p = y)) as [->|Hpy].
      * apply lookup_delete_eq.
      * rewrite lookup_delete_ne by done. apply Hfree; [done|].
        rewrite Hperm. apply not_elem_of_cons. by split.
    + intros p Hp. rewrite lookup_delete_ne; [by apply Hsame|]. intros ->. done.
  - exists h, [T]. split; [done|]. split; [done|].
    unfold fptrs. cbn [map concat]. rewrite app_nil_r.
    split; [|split; [done|split; [done|split; [|done]]]].
    + constructor; [|constructor]. split; [done|]. by exists nil.
    + intros p Hp Hnp. done.
  - cbn [plug] in Hsize. lia.
Qed.

Lemma clear_rep this nil T s :
  rep Key0 this nil T s ->
  exists s',
    clear this s = Ok tt s' /\ rep Key0 this nil PLeaf s' /\
    (forall p, p ∈ ptrs T -> heap s' !! p = None) /\
    (forall p, p ∉ ptrs T -> heap s' !! p = heap s !! p) /\
    objs s' = <[this := mk_set nil nil]> (objs s).
Proof.
  intros Hrep.
  assert (Hwp : wp (clear this) s (fun _ s' =>
     rep Key0 this nil PLeaf s' /\
     (forall p, p ∈ ptrs T -> heap s' !! p = None) /\
     (forall p, p ∉ ptrs T -> heap s' !! p = heap s !! p) /\
     objs s' = <[this := mk_set nil nil]> (objs s))).
  { destruct s as [h o]. unfold clear. pose proof Hrep as [Hobj Hnil _ _ Hnd].
    cbn [heap objs ctx_root ctx_ptrs] in *.
    apply wp_bind. unfold get_root. apply wp_bind.
    eapply wp_load_obj; [exact Hobj|]. apply wp_ret. cbn [m_root].
    apply wp_bind. eapply wp_erase_tree; [exact Hrep|]. cbn [heap objs].
    intros h' Hfree Hsame.
    apply wp_bind. unfold get_nil. apply wp_bind.
    eapply wp_load_obj; [exact Hobj|]. apply wp_ret. cbn [m_nil].
    unfold set_root. apply wp_bind. eapply wp_load_obj; [exact Hobj|].
    apply wp_store_obj. cbn [m_nil heap objs].
    rewrite app_nil_r in Hnd. apply NoDup_cons in Hnd as [Hnull Hnd].
    apply NoDup_cons in Hnd as [HnilT _].
    split; [|done]. split; cbn [heap objs ctx_root rootp ctx_shape shape ptrs ctx_ptrs app].
    - apply lookup_insert_eq.
    - by rewrite Hsame.
    - done.
    - done.
    - apply NoDup_cons. split; [set_solver|]. apply NoDup_singleton. }
  apply wp_ok in Hwp as ([] & s' & Heq & H). exists s'. by split.
Qed.

Lemma dtor_rep this nil T s :
  rep Key0 this nil T s ->
  exists s',
    dtor this s = Ok tt s' /\
    (forall p, p ∈ nil :: ptrs T -> heap s' !! p = None) /\
    (forall p, p ∉ nil :: ptrs T -> heap s' !! p = heap s !! p) /\
    objs s' = <[this := mk_set null null]> (objs s).
Proof.
  intros Hrep.
  assert (Hwp : wp (dtor this) s (fun _ s' =>
     (forall p, p ∈ nil :: ptrs T -> heap s' !! p = None) /\
     (forall p, p ∉ nil :: ptrs T -> heap s' !! p = heap s !! p) /\
     objs s' = <[this := mk_set null null]> (objs s))).
  { destruct s as [h o]. unfold dtor, delete_all_memory. pose proof Hrep as [Hobj Hnil _ _ Hnd].
    cbn [heap objs ctx_root ctx_ptrs] in *.
    rewrite app_nil_r in Hnd. apply NoDup_cons in Hnd as [Hnull Hnd].
    apply NoDup_cons in Hnd as [HnilT _].
    assert (Hnn : nil <> null) by set_solver.
    apply wp_bind. unfold get_root. apply wp_bind.
    eapply wp_load_obj; [exact Hobj|]. apply wp_ret. cbn [m_root].
    apply wp_bind. eapply wp_erase_tree; [exact Hrep|]. cbn [heap objs].
    intros h' Hfree Hsame.
    apply wp_bind. unfold get_nil. apply wp_bind.
    eapply wp_load_obj; [exact Hobj|]. apply wp_ret. cbn [m_nil].
    apply wp_bind. eapply wp_delete_node; [done| |].
    { rewrite Hsame by done. exact Hnil. }
    apply wp_bind. unfold set_nil. apply wp_bind. eapply wp_load_obj; [exact Hobj|].
    apply wp_store_obj. cbn [m_root].
    unfold set_root. apply wp_bind. eapply wp_load_obj; [apply lookup_insert_eq|].
    apply wp_store_obj. cbn [m_nil heap objs].
    split; [|split].
    - intros p Hp. apply elem_of_cons in Hp as [->|Hp]; [apply lookup_delete_eq|].
      rewrite lookup_delete_ne by (intros ->; done). by apply Hfree.
    - intros p Hp. apply not_elem_of_cons in Hp as [Hp1 Hp2].
      rewrite lookup_delete_ne by done. by apply Hsame.
    - by rewrite insert_insert_eq. }
  apply wp_ok in Hwp as ([] & s' & Heq & H). exists s'. by split.
Qed.

End Release.

Section Lifetime.

Context {Key : Type}.
Variable CMP : Key -> Key -> bool.
Variable Key0 : Key.
Implicit Types (h : gmap N (node Key)) (t T : ptree Key) (c : ctx Key) (s : state Key).

Lemma wf_leaf this nil s : rep Key0 this nil PLeaf s -> wf CMP Key0 this nil PLeaf s.
Proof. intros Hrep. split; [done|]. split; [done|]. split; [done|]. split; [done|]. by exists O. Qed.

(** X12: [clear()] releases every node of the tree and nothing else, and
    leaves a well-formed empty set on the same sentinel: [size()] is 0 and
    [begin()] is [end()]. *)
Theorem clear_releases_nodes this nil T s :
  rep Key0 this nil T s ->
  exists s',
    clear this s = Ok tt s' /\ wf CMP Key0 this nil PLeaf s' /\
    (forall p, p ∈ ptrs T -> heap s' !! p = None) /\
    (forall p, p ∉ ptrs T -> heap s' !! p = heap s !! p) /\
    size_ this s' = Ok 0 s' /\
    begin_ this s' = Ok (mk_it this nil) s' /\ end_ this s' = Ok (mk_it this nil) s'.
Proof.
  intros Hrep.
  destruct (clear_rep Key0 this nil T s Hrep) as (s' & Hc & Hrep' & Hfree & Hsame & _).
  exists s'. split; [done|]. split; [by apply wf_leaf|]. split; [done|]. split; [done|].
  split; [by rewrite (size_rep Key0 this nil PLeaf s' Hrep')|].
  split; [|by eapply end_rep].
  unfold begin_. rewrite (find_by_order_rep Key0 this nil PLeaf s' 0 Hrep');
    [done|done|done|unfold SIZE_MAX1; lia].
Qed.

(** X13: the destructor releases every node of the tree and the sentinel,
    touches no other cell, and leaves both members of the object null. *)
Theorem dtor_releases_everything this nil T s :
  rep Key0 this nil T s ->
  exists s',
    dtor this s = Ok tt s' /\
    (forall p, p ∈ nil :: ptrs T -> heap s' !! p = None) /\
    (forall p, p ∉ nil :: ptrs T -> heap s' !! p = heap s !! p) /\
    objs s' !! this = Some (mk_set null null).
Proof.
  intros Hrep.
  destruct (dtor_rep Key0 this nil T s Hrep) as (s' & Hd & Hfree & Hsame & Ho).
  exists s'. split; [done|]. split; [done|]. split; [done|].
  rewrite Ho. apply lookup_insert_eq.
Qed.

Lemma move_ctor_rep this other nil T s :
  rep Key0 other nil T s -> this <> other ->
  exists nil',
    heap s !! nil' = None /\ nil' <> null /\
    move_ctor Key0 this other s
    = Ok tt (mk_state (<[nil' := mk_node 0 null null null Key0 BLACK]> (heap s))
                      (<[other := mk_set nil' nil']>
                         (<[this := mk_set nil (rootp nil T)]> (objs s)))) /\
    rep Key0 this nil T
      (mk_state (<[nil' := mk_node 0 null null null Key0 BLACK]> (heap s))
                (<[other := mk_set nil' nil']>
                   (<[this := mk_set nil (rootp nil T)]> (objs s)))).
Proof.
  intros Hrep Hne.
  assert (Hwp : wp (move_ctor Key0 this other) s (fun _ s' => exists nil',
     heap s !! nil' = None /\ nil' <> null /\
     s' = mk_state (<[nil' := mk_node 0 null null null Key0 BLACK]> (heap s))
                   (<[other := mk_set nil' nil']>
                      (<[this := mk_set nil (rootp nil T)]> (objs s))))).
  { destruct s as [h o]. unfold move_ctor. pose proof Hrep as [Hobj Hnil _ _ _].
    cbn [heap objs ctx_root] in *.
    apply wp_bind. eapply wp_load_obj; [exact Hobj|]. cbn [m_nil m_root].
    apply wp_bind, wp_store_obj. apply wp_bind, wp_new_node. intros z Hz Hfresh.
    unfold set_nil, set_root, get_nil.
    apply wp_bind, wp_bind. eapply wp_load_obj; [by rewrite lookup_insert_ne|].
    apply wp_store_obj. cbn [m_root].
    apply wp_bind, wp_bind. eapply wp_load_obj; [apply lookup_insert_eq|]. apply wp_ret.
    cbn [m_nil]. apply wp_bind. eapply wp_load_obj; [apply lookup_insert_eq|].
    apply wp_store_obj. cbn [m_nil]. exists z. split; [done|]. split; [done|].
    by rewrite insert_insert_eq. }
  apply wp_ok in Hwp as ([] & s' & Heq & nil' & Hfresh & Hz & ->).
  exists nil'. split; [done|]. split; [done|]. split; [done|].
  destruct Hrep as [Hobj Hnil Hctx Hsub Hnd]. cbn [heap objs ctx_root ctx_ptr ctx_ptrs] in *.
  split; cbn [heap objs ctx_root ctx_ptr ctx_ptrs ctx_shape].
  - rewrite lookup_insert_ne by done. apply lookup_insert_eq.
  - rewrite lookup_insert_ne; [done|]. intros ->. congruence.
  - done.
  - apply shape_upd; [|done]. by eapply shape_fresh.
  - done.
Qed.

(** X14: the move constructor hands the whole tree to the new object, which
    represents the same tree on the same nodes; the source gets a fresh
    sentinel whose links are null, answers [size()] 0 and [empty()] true, and
    can be destroyed, which gives back exactly that sentinel. *)
Theorem move_ctor_transfers_tree this other nil T s :
  rep Key0 other nil T s -> this <> other ->
  exists nil' s',
    move_ctor Key0 this other s = Ok tt s' /\
    rep Key0 this nil T s' /\
    heap s !! nil' = None /\
    heap s' = <[nil' := mk_node 0 null null null Key0 BLACK]> (heap s) /\
    objs s' !! other = Some (mk_set nil' nil') /\
    size_ other s' = Ok 0 s' /\ empty_ other s' = Ok true s' /\
    exists s'', dtor other s' = Ok tt s'' /\ heap s'' = heap s /\ rep Key0 this nil T s''.
Proof.
  intros Hrep Hne.
  destruct (move_ctor_rep this other nil T s Hrep Hne) as (nil' & Hfresh & Hz & Hm & Hrep').
  set (h' := <[nil' := mk_node 0 null null null Key0 BLACK]> (heap s)) in *.
  set (o' := <[other := mk_set nil' nil']> (<[this := mk_set nil (rootp nil T)]> (objs s))) in *.
  exists nil', (mk_state h' o'). split; [done|]. split; [done|]. split; [done|].
  split; [done|]. cbn [heap objs].
  assert (Ho : o' !! other = Some (mk_set nil' nil')) by apply lookup_insert_eq.
  assert (Hh : h' !! nil' = Some (mk_node 0 null null null Key0 BLACK))
    by apply lookup_insert_eq.
  split; [done|].
  split.
  { assert (Hwp : wp (size_ other) (mk_state h' o') (fun n s'' =>
       n = 0 /\ s'' = mk_state h' o')).
    { unfold size_. wp_run. done. }
    apply wp_ok in Hwp as (n & s'' & Heq & -> & ->). exact Heq. }
  split.
  { assert (Hwp : wp (empty_ other) (mk_state h' o') (fun b s'' =>
       b = true /\ s'' = mk_state h' o')).
    { unfold empty_. wp_run. done. }
    apply wp_ok in Hwp as (n & s'' & Heq & -> & ->). exact Heq. }
  exists (mk_state (heap s) (<[other := mk_set null null]> o')). split; [|split; [done|]].
  - assert (Hwp : wp (dtor other) (mk_state h' o') (fun _ s'' =>
       s'' = mk_state (heap s) (<[other := mk_set null null]> o'))).
    { unfold dtor, delete_all_memory, erase_tree. wp_run.
      eapply wp_delete_node; [done|exact Hh|]. wp_run.
      unfold h'. rewrite delete_insert_eq, delete_id by done. done. }
    apply wp_ok in Hwp as ([] & s'' & Heq & ->). exact Heq.
  - destruct Hrep' as [Hobj Hnil Hctx Hsub Hnd]. destruct Hrep as [_ Hnil0 Hctx0 Hsub0 _].
    cbn [heap objs ctx_root ctx_ptr ctx_ptrs] in *.
    split; cbn [heap objs ctx_root ctx_ptr ctx_ptrs ctx_shape]; try done.
    rewrite lookup_insert_ne by done. unfold o'. rewrite lookup_insert_ne by done.
    apply lookup_insert_eq.
Qed.

End Lifetime.

Section RotationFacts.

Context {Key : Type}.
Variable Key0 : Key.
Implicit Types (h : gmap N (node Key)) (t T A B C : ptree Key) (c : ctx Key) (s : state Key).

(** X15: [rotate_left(x)] on a node with a right child [y] and correct
    [size] members lifts [y] above [x], hands [y]'s left subtree to [x], and
    repairs both sizes; the in-order sequence of nodes of the whole tree is
    unchanged. *)
Theorem rotate_left_keeps_order this nil np c x cx sx A kx y cy sy B ky C s :
  zrep Key0 this nil np c (PNode x cx sx A kx (PNode y cy sy B ky C)) s ->
  sizes_ok (PNode x cx sx A kx (PNode y cy sy B ky C)) -> sx < SIZE_MAX1 ->
  exists s',
    rotate_left this x s = Ok tt s' /\
    zrep Key0 this nil np c
      (PNode y cy sx (PNode x cx (1 + tsize A + tsize B) A kx B) ky C) s' /\
    sizes_ok (PNode y cy sx (PNode x cx (1 + tsize A + tsize B) A kx B) ky C) /\
    nodes (plug c (PNode y cy sx (PNode x cx (1 + tsize A + tsize B) A kx B) ky C))
    = nodes (plug c (PNode x cx sx A kx (PNode y cy sy B ky C))).
Proof.
  intros Hz Hsz Hb.
  destruct (rot_left_sizes x cx cx sx A kx y cy cy sy B ky C Hsz Hb) as (Hsz' & Eup).
  assert (Edown : rot_down sx C = 1 + tsize A + tsize B).
  { cbn [sizes_ok] in Hsz'. tauto. }
  rewrite Eup, Edown in Hsz'.
  assert (Hwp : wp (rotate_left this x) s (fun _ s' =>
     zrep Key0 this nil np c
       (PNode y cy sx (PNode x cx (1 + tsize A + tsize B) A kx B) ky C) s')).
  { eapply (wp_rotate_left Key0); [exact Hz|]. intros s' Hz'. rewrite Eup, Edown in Hz'. exact Hz'. }
  apply wp_ok in Hwp as ([] & s' & Heq & Hz'). exists s'. split; [done|]. split; [done|].
  split; [done|]. rewrite !nodes_plug. cbn [nodes]. do 2 f_equal.
  rewrite <- app_assoc. reflexivity.
Qed.

(** X16: [rotate_right(x)] on a node with a left child [y] and correct
    [size] members lifts [y] above [x], hands [y]'s right subtree to [x], and
    repairs both sizes; the in-order sequence of nodes of the whole tree is
    unchanged. *)
Theorem rotate_right_keeps_order this nil np c x cx sx A kx y cy sy B ky C s :
  zrep Key0 this nil np c (PNode x cx sx (PNode y cy sy A ky B) kx C) s ->
  sizes_ok (PNode x cx sx (PNode y cy sy A ky B) kx C) -> sx < SIZE_MAX1 ->
  exists s',
    rotate_right this x s = Ok tt s' /\
    zrep Key0 this nil np c
      (PNode y cy sx A ky (PNode x cx (1 + tsize B + tsize C) B kx C)) s' /\
    sizes_ok (PNode y cy sx A ky (PNode x cx (1 + tsize B + tsize C) B kx C)) /\
    nodes (plug c (PNode y cy sx A ky (PNode x cx (1 + tsize B + tsize C) B kx C)))
    = nodes (plug c (PNode x cx sx (PNode y cy sy A ky B) kx C)).
Proof.
  intros Hz Hsz Hb.
  destruct (rot_right_sizes x cx cx sx A kx y cy cy sy B ky C Hsz Hb) as (Hsz' & Eup).
  assert (Edown : rot_down sx A = 1 + tsize B + tsize C).
  { cbn [sizes_ok] in Hsz'. tauto. }
  rewrite Eup, Edown in Hsz'.
  assert (Hwp : wp (rotate_right this x) s (fun _ s' =>
     zrep Key0 this nil np c
       (PNode y cy sx A ky (PNode x cx (1 + tsize B + tsize C) B kx C)) s')).
  { eapply (wp_rotate_right Key0); [exact Hz|]. intros s' Hz'. rewrite Eup, Edown in Hz'. exact Hz'. }
  apply wp_ok in Hwp as ([] & s' & Heq & Hz'). exists s'. split; [done|]. split; [done|].
  split; [done|]. rewrite !nodes_plug. cbn [nodes]. do 2 f_equal.
  rewrite <- app_assoc. reflexivity.
Qed.

End RotationFacts.

(** ** The further theorems at work on {1, 2, 3} *)

Lemma size_counts_keys_witness :
  size_ 0%N ex_state = Ok (Z.of_nat (length (keys ex_tree))) ex_state /\
  empty_ 0%N ex_state = Ok (bool_decide (keys ex_tree = [])) ex_state.
Proof.
  apply (size_counts_keys 0 0%N 1%N ex_tree ex_state).
  - exact ex_rep.
  - exact ex_sizes.
Defined.

Lemma min_max_begin_positions_witness :
  min_ 0%N ex_state = Ok (mk_it 0 (hd 1%N (ptrs ex_tree))) ex_state /\
  begin_ 0%N ex_state = Ok (mk_it 0 (hd 1%N (ptrs ex_tree))) ex_state /\
  max_ 0%N ex_state = Ok (mk_it 0 (List.last (ptrs ex_tree) 1%N)) ex_state /\
  end_ 0%N ex_state = Ok (mk_it 0 1) ex_state.
Proof.
  apply (min_max_begin_positions 0 0%N 1%N ex_tree ex_state).
  - exact ex_rep.
  - exact ex_sizes.
  - reflexivity.
Defined.

Lemma increment_steps_forward_witness :
  (forall (i : nat) p, ptrs ex_tree !! i = Some p ->
     it_incr (mk_it 0 p) ex_state = Ok (mk_it 0 (nth (S i) (ptrs ex_tree) 1%N)) ex_state) /\
  it_incr (mk_it 0 1) ex_state = Ok (mk_it 0 1) ex_state /\
  end_ 0%N ex_state = Ok (mk_it 0 1) ex_state.
Proof.
  apply (increment_steps_forward 0 0%N 1%N ex_tree ex_state).
  exact ex_rep.
Defined.

Lemma decrement_steps_backward_witness :
  (forall (i : nat) p, ptrs ex_tree !! S i = Some p ->
     it_decr (mk_it 0 p) ex_state = Ok (mk_it 0 (nth i (ptrs ex_tree) 1%N)) ex_state) /\
  (forall p, ptrs ex_tree !! O = Some p ->
     it_decr (mk_it 0 p) ex_state = Ok (mk_it 0 1) ex_state) /\
  it_decr (mk_it 0 1) ex_state = Ok (mk_it 0 1) ex_state /\
  end_ 0%N ex_state = Ok (mk_it 0 1) ex_state.
Proof.
  apply (decrement_steps_backward 0 0%N 1%N ex_tree ex_state).
  exact ex_rep.
Defined.

Lemma find_locates_key_witness :
  (mem_list Z.ltb 3 (keys ex_tree) = false ->
     find Z.ltb 0%N 3 ex_state = Ok (mk_it 0 1) ex_state /\
     end_ 0%N ex_state = Ok (mk_it 0 1) ex_state) /\
  (forall p k, (p, k) ∈ nodes ex_tree -> equal Z.ltb 3 k = true ->
     find Z.ltb 0%N 3 ex_state = Ok (mk_it 0 p) ex_state /\
     it_deref (mk_it 0 p) ex_state = Ok k ex_state).
Proof.
  apply (find_locates_key Z.ltb 0 Zltb_swo 0%N 1%N ex_tree ex_state 3).
  - exact ex_rep.
  - exact ex_bst.
Defined.

Lemma insert_absent_adds_key_witness :
  exists z T' s',
    insert Z.ltb 0%N 5 ex_state = Ok (mk_it 0 z, true) s' /\
    wf Z.ltb 0 0%N 1%N T' s' /\
    keys T' = ins_list Z.ltb 5 (keys ex_tree) /\
    size_ 0%N s' = Ok (tsize ex_tree + 1) s' /\
    it_deref (mk_it 0 z) s' = Ok 5 s' /\
    (forall p k, (p, k) ∈ nodes ex_tree -> it_deref (mk_it 0 p) s' = Ok k s').
Proof.
  apply (insert_absent_adds_key Z.ltb 0 Zltb_swo 0%N 1%N ex_tree ex_state 5).
  - exact ex_wf.
  - reflexivity.
  - reflexivity.
Defined.

Lemma insert_then_find_witness :
  exists it b s' k,
    insert Z.ltb 0%N 5 ex_state = Ok (it, b) s' /\
    find Z.ltb 0%N 5 s' = Ok it s' /\
    it_deref it s' = Ok k s' /\ equal Z.ltb 5 k = true.
Proof.
  apply (insert_then_find Z.ltb 0 Zltb_swo 0%N 1%N ex_tree ex_state 5).
  - exact ex_wf.
  - reflexivity.
Defined.

Lemma erase_then_find_witness :
  exists it s' e,
    erase Z.ltb 0%N 2 ex_state = Ok it s' /\
    end_ 0%N s' = Ok e s' /\ find Z.ltb 0%N 2 s' = Ok e s'.
Proof.
  apply (erase_then_find Z.ltb 0 Zltb_swo 0%N 1%N ex_tree ex_state 2).
  - exact ex_wf.
  - reflexivity.
Defined.

Lemma rank_then_select_is_lower_bound_witness :
  exists l1 l2 i,
    nodes ex_tree = l1 ++ l2 /\
    Forall (fun x => (x <? 2) = true) (map snd l1) /\
    Forall (fun x => (x <? 2) = false) (map snd l2) /\
    order_of_key Z.ltb 0%N 2 ex_state = Ok i ex_state /\
    find_by_order 0%N i ex_state = Ok (mk_it 0 (hd 1%N (map fst l2))) ex_state /\
    (mem_list Z.ltb 2 (keys ex_tree) = true ->
       find Z.ltb 0%N 2 ex_state = Ok (mk_it 0 (hd 1%N (map fst l2))) ex_state).
Proof.
  apply (rank_then_select_is_lower_bound Z.ltb 0 Zltb_swo 0%N 1%N ex_tree ex_state 2).
  - exact ex_wf.
  - reflexivity.
Defined.

Lemma erase_present_removes_key_witness :
  exists it T' s',
    erase Z.ltb 0%N 2 ex_state = Ok it s' /\
    wf Z.ltb 0 0%N 1%N T' s' /\
    keys T' = del_list Z.ltb 2 (keys ex_tree) /\
    mem_list Z.ltb 2 (keys T') = false /\
    size_ 0%N s' = Ok (tsize ex_tree - 1) s' /\
    (forall p k, (p, k) ∈ nodes ex_tree -> equal Z.ltb 2 k = false ->
       it_deref (mk_it 0 p) s' = Ok k s').
Proof.
  apply (erase_present_removes_key Z.ltb 0 Zltb_swo 0%N 1%N ex_tree ex_state 2).
  - exact ex_wf.
  - reflexivity.
  - reflexivity.
Defined.

Lemma clear_releases_nodes_witness :
  exists s',
    clear 0%N ex_state = Ok tt s' /\ wf Z.ltb 0 0%N 1%N PLeaf s' /\
    (forall p, p ∈ ptrs ex_tree -> heap s' !! p = None) /\
    (forall p, p ∉ ptrs ex_tree -> heap s' !! p = heap ex_state !! p) /\
    size_ 0%N s' = Ok 0 s' /\
    begin_ 0%N s' = Ok (mk_it 0 1) s' /\ end_ 0%N s' = Ok (mk_it 0 1) s'.
Proof.
  apply (clear_releases_nodes Z.ltb 0 0%N 1%N ex_tree ex_state).
  exact ex_rep.
Defined.

Lemma dtor_releases_everything_witness :
  exists s',
    dtor 0%N ex_state = Ok tt s' /\
    (forall p, p ∈ 1%N :: ptrs ex_tree -> heap s' !! p = None) /\
    (forall p, p ∉ 1%N :: ptrs ex_tree -> heap s' !! p = heap ex_state !! p) /\
    objs s' !! 0%N = Some (mk_set null null).
Proof.
  apply (dtor_releases_everything 0 0%N 1%N ex_tree ex_state).
  exact ex_rep.
Defined.

Lemma move_ctor_transfers_tree_witness :
  exists nil' s',
    move_ctor 0 5%N 0%N ex_state = Ok tt s' /\
    rep 0 5%N 1%N ex_tree s' /\
    heap ex_state !! nil' = None /\
    heap s' = <[nil' := mk_node 0 null null null 0 BLACK]> (heap ex_state) /\
    objs s' !! 0%N = Some (mk_set nil' nil') /\
    size_ 0%N s' = Ok 0 s' /\ empty_ 0%N s' = Ok true s' /\
    exists s'', dtor 0%N s' = Ok tt s'' /\ heap s'' = heap ex_state /\
      rep 0 5%N 1%N ex_tree s''.
Proof.
  apply (move_ctor_transfers_tree 0 5%N 0%N 1%N ex_tree ex_state).
  - exact ex_rep.
  - discriminate.
Defined.

Lemma rotate_left_keeps_order_witness :
  exists s',
    rotate_left 0%N 2%N ex_state = Ok tt s' /\
    zrep 0 0%N 1%N 1%N []
      (PNode 4 RED 3
         (PNode 2 BLACK (1 + tsize (PNode 3 RED 1 PLeaf 1 PLeaf) + tsize (@PLeaf Z))
            (PNode 3 RED 1 PLeaf 1 PLeaf) 2 PLeaf) 3 PLeaf) s' /\
    sizes_ok
      (PNode 4 RED 3
         (PNode 2 BLACK (1 + tsize (PNode 3 RED 1 PLeaf 1 PLeaf) + tsize (@PLeaf Z))
            (PNode 3 RED 1 PLeaf 1 PLeaf) 2 PLeaf) 3 PLeaf) /\
    nodes (plug []
      (PNode 4 RED 3
         (PNode 2 BLACK (1 + tsize (PNode 3 RED 1 PLeaf 1 PLeaf) + tsize (@PLeaf Z))
            (PNode 3 RED 1 PLeaf 1 PLeaf) 2 PLeaf) 3 PLeaf))
    = nodes (plug [] ex_tree).
Proof.
  apply (rotate_left_keeps_order 0 0%N 1%N 1%N [] 2%N BLACK 3
           (PNode 3 RED 1 PLeaf 1 PLeaf) 2 4%N RED 1 PLeaf 3 PLeaf ex_state).
  - exact ex_rep.
  - exact ex_sizes.
  - reflexivity.
Defined.

Lemma rotate_right_keeps_order_witness :
  exists s',
    rotate_right 0%N 2%N ex_state = Ok tt s' /\
    zrep 0 0%N 1%N 1%N []
      (PNode 3 RED 3 PLeaf 1
         (PNode 2 BLACK (1 + tsize (@PLeaf Z) + tsize (PNode 4 RED 1 PLeaf 3 PLeaf))
            PLeaf 2 (PNode 4 RED 1 PLeaf 3 PLeaf))) s' /\
    sizes_ok
      (PNode 3 RED 3 PLeaf 1
         (PNode 2 BLACK (1 + tsize (@PLeaf Z) + tsize (PNode 4 RED 1 PLeaf 3 PLeaf))
            PLeaf 2 (PNode 4 RED 1 PLeaf 3 PLeaf))) /\
    nodes (plug []
      (PNode 3 RED 3 PLeaf 1
         (PNode 2 BLACK (1 + tsize (@PLeaf Z) + tsize (PNode 4 RED 1 PLeaf 3 PLeaf))
            PLeaf 2 (PNode 4 RED 1 PLeaf 3 PLeaf))))
    = nodes (plug [] ex_tree).
Proof.
  apply (rotate_right_keeps_order 0 0%N 1%N 1%N [] 2%N BLACK 3
           PLeaf 2 3%N RED 1 PLeaf 1 (PNode 4 RED 1 PLeaf 3 PLeaf) ex_state).
  - exact ex_rep.
  - exact ex_sizes.
  - reflexivity.
Defined.

(** * Insertion next to other objects *)

(** [fzrep F ...]: the object at [this] owns its tree as [zrep] says, and the
    state holds every cell and every object of the frame [F], none of which
    belongs to the tree or is the object itself. *)
Record fzrep {Key} (Key0 : Key) (F : state Key) (this : N) (nil np : ptr)
    (c : ctx Key) (t : ptree Key) (s : state Key) : Prop := {
  fz_rep : zrep Key0 this nil np c t s;
  fz_heap : heap F ⊆ heap s;
  fz_objs : objs F ⊆ objs s;
  fz_this : objs F !! this = None;
  fz_sep : Forall (fun p => heap F !! p = None) (nil :: ptrs t ++ ctx_ptrs c)
}.

Ltac sep_open H :=
  repeat match goal with
  | H : Forall _ [] |- _ => clear H
  | H : Forall _ (_ :: _) |- _ =>
      let H1 := fresh "Hs" in let H2 := fresh "Hs" in
      apply Forall_cons in H as [H1 H2]
  | H : Forall _ (_ ++ _) |- _ =>
      let H1 := fresh "Hs" in let H2 := fresh "Hs" in
      apply Forall_app in H as [H1 H2]
  end.

Ltac sep_solve :=
  lazymatch goal with
  | |- Forall _ [] => apply Forall_nil; exact I
  | |- Forall _ (_ :: _) => apply Forall_cons; split; [assumption | sep_solve]
  | |- Forall _ (_ ++ _) => apply Forall_app; split; sep_solve
  | |- _ => assumption
  end.

Ltac sub_solve :=
  lazymatch goal with
  | |- _ ⊆ <[_ := _]> _ => apply insert_subseteq_r; [assumption | sub_solve]
  | |- _ => assumption
  end.

(** Take an [fzrep] hypothesis apart, down to facts on single addresses. *)
Ltac fzrep_open H :=
  let Hz := fresh "Hz" in let Hfh := fresh "Hfh" in let Hfo := fresh "Hfo" in
  let Hft := fresh "Hft" in let Hsep := fresh "Hsep" in
  destruct H as [Hz Hfh Hfo Hft Hsep];
  cbn [heap objs] in Hfh, Hfo;
  zrep_open Hz; sep_open Hsep.

(** Prove an [fzrep] goal for a heap given as a chain of updates. *)
Ltac fzrep_close :=
  split;
  [ zrep_close
  | cbn [heap]; sub_solve
  | cbn [objs]; sub_solve
  | assumption
  | cbn [ptrs ctx_ptrs app]; sep_solve ].

Section FramedRotations.

Context {Key : Type}.
Variable Key0 : Key.
Variable F : state Key.

Lemma fzrep_zrep this nil np c t s :
  fzrep Key0 F this nil np c t s -> zrep Key0 this nil np c t s.
Proof. by intros []. Qed.

Lemma fzrep_step this nil np f c t s :
  fzrep Key0 F this nil np (f :: c) t s <-> fzrep Key0 F this nil np c (plug1 f t) s.
Proof.
  split; intros [Hz Hfh Hfo Hft Hsep]; (split; [by apply zrep_step in Hz|done|done|done|]).
  all: destruct f as [p cp sp kp r|p cp sp l kp];
    cbn [ptrs ctx_ptrs plug1 app] in *; sep_open Hsep; sep_solve.
Qed.

Lemma fzrep_plug this nil np c t s :
  fzrep Key0 F this nil np c t s <-> fzrep Key0 F this nil np [] (plug c t) s.
Proof.
  revert t. induction c as [|f up IH]; intros t; [done|].
  rewrite fzrep_step. apply IH.
Qed.

Lemma fzrep_app this nil np c1 c2 t s :
  fzrep Key0 F this nil np (c1 ++ c2) t s <-> fzrep Key0 F this nil np c2 (plug c1 t) s.
Proof.
  revert t. induction c1 as [|f c1 IH]; intros t; cbn [app plug]; [done|].
  rewrite fzrep_step. apply IH.
Qed.

Lemma wp_rotate_left_fr this nil np c x cx sx A kx y cy sy B ky C s
    (Q : unit -> state Key -> Prop) :
  fzrep Key0 F this nil np c (PNode x cx sx A kx (PNode y cy sy B ky C)) s ->
  (forall s',
     fzrep Key0 F this nil np c
       (PNode y cy (rot_up sy A) (PNode x cx (rot_down sx C) A kx B) ky C) s' ->
     Q tt s') ->
  wp (rotate_left this x) s Q.
Proof.
  intros H HQ. destruct s as [h o].
  destruct c as [|[p cp sp kp r|p cp sp l kp] up];
  destruct A as [|a ca sa A1 ka A2]; destruct B as [|b cb sb B1 kb B2];
  destruct C as [|c0 cc sc C1 kc C2].
  all: fzrep_open H.
  all: unfold rotate_left; wp_run.
  all: apply HQ; unfold rot_up, rot_down; fzrep_close.
Qed.

Lemma wp_rotate_right_fr this nil np c x cx sx A kx y cy sy B ky C s
    (Q : unit -> state Key -> Prop) :
  fzrep Key0 F this nil np c (PNode x cx sx (PNode y cy sy A ky B) kx C) s ->
  (forall s',
     fzrep Key0 F this nil np c
       (PNode y cy (rot_up sy C) A ky (PNode x cx (rot_down sx A) B kx C)) s' ->
     Q tt s') ->
  wp (rotate_right this x) s Q.
Proof.
  intros H HQ. destruct s as [h o].
  destruct c as [|[p cp sp kp r|p cp sp l kp] up];
  destruct A as [|a ca sa A1 ka A2]; destruct B as [|b cb sb B1 kb B2];
  destruct C as [|c0 cc sc C1 kc C2].
  all: fzrep_open H.
  all: unfold rotate_right; wp_run.
  all: apply HQ; unfold rot_up, rot_down; fzrep_close.
Qed.

End FramedRotations.

Section FramedInsert.

Context {Key : Type}.
Variable CMP : Key -> Key -> bool.
Variable Key0 : Key.
Variable F : state Key.
Hypothesis Hswo : StrictWeakOrder CMP.
Implicit Types (h : gmap N (node Key)) (t T : ptree Key) (c : ctx Key) (f : frame Key).

Notation "x <- m ;; k" := (bind m (fun x => k))
  (at level 100, m at next level, right associativity).
Notation "m ;; k" := (bind m (fun _ => k))
  (at level 100, right associativity).

Lemma wp_updateSize_loop_fr this nil np v c2 c1 :
  forall fuel t s (Q : unit -> state Key -> Prop),
  (length c1 < fuel)%nat ->
  fzrep Key0 F this nil np (c1 ++ c2) t s ->
  (forall s', fzrep Key0 F this nil np (map (frame_add v) c1 ++ c2) t s' -> Q tt s') ->
  wp (loop fuel (fun start =>
        if negb (start =?p ctx_ptr nil c2) then
          add_size start v ;; p <- get_parent start ;; ret (inl p)
        else ret (inr tt)) (ctx_ptr nil (c1 ++ c2))) s Q.
Proof.
  induction c1 as [|f c1 IH]; intros fuel t s Q Hfuel Hz HQ;
    (destruct fuel as [|fuel]; [cbn in Hfuel; lia|]); cbn [loop app map].
  - wp_run. ptr_cmp_simpl. wp_run. by apply HQ.
  - destruct s as [h o]. pose proof Hz as Hz'.
    assert (Hne : frame_ptr f <> ctx_ptr nil c2).
    { destruct (fzrep_zrep _ _ _ _ _ _ _ _ Hz) as [_ _ _ _ Hnd]. cbn [app] in Hnd.
      assert (Hnd' : NoDup (frame_ptr f :: nil :: ctx_ptrs c2)).
      { eapply (NoDup_perm _ ((null :: ptrs t ++
            match f with FL _ _ _ _ r => ptrs r | FR _ _ _ l _ => ptrs l end ++ ctx_ptrs c1)
            ++ frame_ptr f :: nil :: ctx_ptrs c2)) in Hnd.
        2:{ destruct f; cbn; rewrite ctx_ptrs_app; solve_Permutation. }
        by apply NoDup_app_disj in Hnd as (_ & Hnd & _). }
      nodup_facts Hnd'. destruct (ctx_ptr_in nil c2) as [->|Hin]; [done|].
      intros E. rewrite <- E in Hin. done. }
    destruct f as [p cp sp kp r|p cp sp l kp]; fzrep_open Hz'; cbn [frame_ptr] in *; wp_run.
    + eapply (IH _ (plug1 (frame_add v (FL p cp sp kp r)) t)); [cbn in Hfuel; lia| |].
      * cbn [frame_add]. apply fzrep_step. fzrep_close.
      * intros s' Hs'. apply HQ. cbn [map app]. by apply fzrep_step.
    + eapply (IH _ (plug1 (frame_add v (FR p cp sp l kp)) t)); [cbn in Hfuel; lia| |].
      * cbn [frame_add]. apply fzrep_step. fzrep_close.
      * intros s' Hs'. apply HQ. cbn [map app]. by apply fzrep_step.
Qed.

Lemma wp_updateSize_fr this nil np v c1 c2 t s (Q : unit -> state Key -> Prop) :
  fzrep Key0 F this nil np (c1 ++ c2) t s ->
  (forall s', fzrep Key0 F this nil np (map (frame_add v) c1 ++ c2) t s' -> Q tt s') ->
  wp (updateSize (ctx_ptr nil (c1 ++ c2)) (ctx_ptr nil c2) v) s Q.
Proof.
  intros Hz HQ. unfold updateSize. destruct s as [h o]. wp_run.
  eapply wp_updateSize_loop_fr; [|exact Hz|exact HQ].
  pose proof (fuel_enough _ _ _ _ _ _ _ (fzrep_zrep _ _ _ _ _ _ _ _ Hz)) as Hf.
  pose proof (height_plug_ge (c1 ++ c2) t). rewrite length_app in *. cbn [heap] in *. lia.
Qed.

Ltac next_state_fr :=
  let s' := fresh "s" in let Hz := fresh "Hz" in let Hz' := fresh "Hz" in
  intros s' Hz; destruct s' as [? ?]; pose proof Hz as Hz'; fzrep_open Hz'.

Lemma wp_fixup_insert_body_fr this nil c z cz sz zl zk zr s
    (Q : ptr + unit -> state Key -> Prop) :
  fzrep Key0 F this nil nil c (PNode z cz sz zl zk zr) s ->
  ins_fix_pre c ->
  (forall c' t' s', ins_fix_step c (PNode z cz sz zl zk zr) = Some (c', t') ->
     fzrep Key0 F this nil nil c' t' s' -> Q (inl (rootp nil t')) s') ->
  (ins_fix_step c (PNode z cz sz zl zk zr) = None -> Q (inr tt) s) ->
  wp (fixup_insert_body this z) s Q.
Proof.
  intros Hz Hpre Hstep Hdone. destruct s as [h o]. unfold fixup_insert_body.
  destruct c as [|fp [|fg up]].
  - fzrep_open Hz. wp_run. by apply Hdone.
  - cbn in Hpre. destruct fp as [p cp sp kp rs|p cp sp ls kp]; cbn in Hpre; subst cp;
      fzrep_open Hz; wp_run; by apply Hdone.
  - clear Hpre.
    destruct fp as [p [|] sp kp rs|p [|] sp ls kp].
    1,3: fzrep_open Hz; wp_run; by apply Hdone.
    all: clear Hdone.
    all: destruct fg as [g cg sg kg u|g cg sg u kg].
    all: unfold ins_fix_step in Hstep; cbn [frame_color] in Hstep.
    all: destruct (tcolor u) eqn:Hu; cbn [negb] in Hstep.
    all: specialize (Hstep _ _ _ eq_refl) || specialize (fun s' => Hstep _ _ s' eq_refl).
    all: try (destruct u as [|pu cu su ul uk ur]; [discriminate|]; cbn in Hu; subst cu).
    all: pose proof Hz as Hz'; fzrep_open Hz'; wp_run.
    all: rewrite ?Hu; wp_run.
    all: cbn [plug1 frame_set_color set_tcolor] in Hstep.
    all: try (apply Hstep; fzrep_close).
    + (* left-left, black uncle *)
      eapply (wp_rotate_right_fr Key0 F this nil nil up g RED sg (PNode z cz sz zl zk zr) kg
                p BLACK sp rs kp u); [fzrep_close|].
      next_state_fr. wp_run. apply Hstep. by apply fzrep_step.
    + (* left child of a right child *)
      eapply (wp_rotate_right_fr Key0 F this nil nil (FR g cg sg u kg :: up) p RED sp zl kp
                z cz sz zr zk rs); [fzrep_close|].
      next_state_fr. wp_run.
      eapply (wp_rotate_left_fr Key0 F this nil nil up g RED sg u kg z BLACK (rot_up sz rs) zl zk
                (PNode p RED (rot_down sp zl) zr kp rs)); [fzrep_close|].
      next_state_fr. wp_run. apply Hstep. by apply fzrep_step.
    + (* right child of a left child *)
      eapply (wp_rotate_left_fr Key0 F this nil nil (FL g cg sg kg u :: up) p RED sp ls kp
                z cz sz zl zk zr); [fzrep_close|].
      next_state_fr. wp_run.
      eapply (wp_rotate_right_fr Key0 F this nil nil up g RED sg
                (PNode p RED (rot_down sp zr) ls kp zl) kg z BLACK (rot_up sz ls) zr zk u);
        [fzrep_close|].
      next_state_fr. wp_run. apply Hstep. by apply fzrep_step.
    + (* right-right, black uncle *)
      eapply (wp_rotate_left_fr Key0 F this nil nil up g RED sg u kg p BLACK sp ls kp
                (PNode z cz sz zl zk zr)); [fzrep_close|].
      next_state_fr. wp_run. apply Hstep. by apply fzrep_step.
Qed.

Lemma wp_blacken_root_fr this nil T s (Q : unit -> state Key -> Prop) :
  fzrep Key0 F this nil nil [] T s ->
  (forall s', fzrep Key0 F this nil nil [] (set_tcolor BLACK T) s' -> Q tt s') ->
  wp (r <- get_root this ;; set_color r BLACK) s Q.
Proof.
  intros Hrep HQ. destruct s as [h o].
  destruct T as [|p cp sp l k r]; fzrep_open Hrep; wp_run; apply HQ; cbn [set_tcolor];
    fzrep_close.
Qed.

Lemma wp_fixup_insert_fr this nil c t s n (Q : unit -> state Key -> Prop) :
  fzrep Key0 F this nil nil c t s -> ins_inv n c t ->
  sizes_ok (plug c t) -> tsize (plug c t) < SIZE_MAX1 ->
  (forall T' s',
     fzrep Key0 F this nil nil [] T' s' -> red_black T' -> nodes T' = nodes (plug c t) ->
     sizes_ok T' -> tsize T' = tsize (plug c t) -> Q tt s') ->
  wp (fixup_insert this (rootp nil t)) s Q.
Proof.
  intros Hz Hinv Hsz Hb HQ. unfold fixup_insert. destruct s as [h o]. wp_run.
  eapply wp_loop with (n := length c) (I := fun m z s' =>
    exists c' t' n', fzrep Key0 F this nil nil c' t' s' /\ z = rootp nil t' /\ ins_inv n' c' t' /\
      nodes (plug c' t') = nodes (plug c t) /\ sizes_ok (plug c' t') /\
      tsize (plug c' t') = tsize (plug c t) /\ m = length c').
  - intros m z s' (c' & t' & n' & Hz' & -> & Hinv' & Hnodes & Hsz' & Hts & ->).
    assert (Ht' : exists z cz sz zl zk zr, t' = PNode z cz sz zl zk zr).
    { destruct Hinv' as (Hc & _). destruct t'; [discriminate|]. eauto 10. }
    destruct Ht' as (z & cz & sz & zl & zk & zr & ->).
    eapply wp_fixup_insert_body_fr; [exact Hz'|by eapply ins_inv_pre| |].
    + intros c'' t'' s'' Hstep Hz''.
      destruct (ins_fix_step_inv _ _ _ _ _ Hinv' Hstep) as ((n'' & Hinv'') & Hlen).
      assert (Hb' : tsize (plug c' (PNode z cz sz zl zk zr)) < SIZE_MAX1) by (by rewrite Hts).
      destruct (ins_fix_step_sizes _ _ _ _ Hstep Hsz' Hb') as (Hsz'' & Hts'').
      exists (length c''). split; [done|]. exists c'', t'', n''.
      split; [done|]. split; [done|]. split; [done|].
      split; [by rewrite (ins_fix_step_nodes _ _ _ _ Hstep)|].
      split; [done|]. split; [|done]. cbn [rootp] in *. by rewrite Hts''.
    + intros Hnone. cbn [rootp] in *. eapply wp_blacken_root_fr.
      * apply (fzrep_plug Key0 F this nil nil c'). exact Hz'.
      * intros s'' Hrep. eapply HQ; [exact Hrep| | | |].
        -- by eapply ins_fix_done.
        -- by rewrite nodes_set_tcolor.
        -- by apply sizes_ok_set_tcolor.
        -- by rewrite tsize_set_tcolor.
  - exists c, t, n. by repeat (split; [done|]).
  - pose proof (fuel_enough _ _ _ _ _ _ _ (fzrep_zrep _ _ _ _ _ _ _ _ Hz)) as Hf.
    pose proof (height_plug_ge c t). cbn [heap] in *. lia.
Qed.

(** [insert] with a frame: what is not the set's own stays as it is. *)
Lemma wp_insert_fr this nil T s key (Q : const_iterator * bool -> state Key -> Prop) :
  fzrep Key0 F this nil nil [] T s -> bst CMP T -> sizes_ok T -> red_black T ->
  tsize T + 1 < SIZE_MAX1 ->
  (forall c x cx sx l k r,
     found CMP Key0 this nil T key s c (PNode x cx sx l k r) ->
     Q (mk_it this x, false) s) ->
  (forall c z T' s',
     found CMP Key0 this nil T key s c PLeaf ->
     fzrep Key0 F this nil nil [] T' s' -> red_black T' ->
     nodes T' = nodes_before c ++ (z, key) :: nodes_after c ->
     sizes_ok T' -> tsize T' = tsize T + 1 ->
     Q (mk_it this z, true) s') ->
  wp (insert CMP this key) s Q.
Proof.
  intros Hfrep Hbst Hsz Hrb Hbound Hpresent Habsent. destruct s as [h o]. unfold insert.
  pose proof (fzrep_zrep _ _ _ _ _ _ _ _ Hfrep) as Hrep.
  pose proof Hrep as Hrep'. zrep_open Hrep'. wp_run.
  eapply wp_loop with (n := height T) (I := fun n '(x, y) s' =>
    s' = mk_state h o /\ exists c t, plug c t = T /\ fzrep Key0 F this nil nil c t s' /\
      x = rootp nil t /\ y = ctx_ptr nil c /\ bst CMP t /\ around CMP key c /\ n = height t).
  2:{ split; [done|]. exists [], T. repeat (split; [done|]). done. }
  2:{ pose proof (fuel_enough _ _ _ _ _ _ _ Hrep). cbn in *. lia. }
  intros n [x y] s' (-> & c & t & HT & Hfz & -> & -> & Hb & Ha & ->).
  pose proof (fzrep_zrep _ _ _ _ _ _ _ _ Hfz) as Hz.
  pose proof Hz as Hz'. destruct t as [|p cp sp l k r]; zrep_open Hz'; wp_run.
  - (* absent: a new node below the last node of the descent *)
    assert (Hfound : found CMP Key0 this nil T key (mk_state h o) c PLeaf) by done.
    specialize (Habsent c).
    apply wp_bind, wp_new_node. intros z Hznull Hzfresh.
    assert (Hzc : z ∉ ctx_ptrs c) by (by eapply ctx_shape_fresh).
    assert (Hznil : z <> nil) by (intros ->; congruence).
    assert (HzF : heap F !! z = None).
    { destruct Hfz as [_ Hfh _ _ _]. cbn [heap] in Hfh.
      destruct (heap F !! z) as [v|] eqn:E; [|done].
      by rewrite (lookup_weaken _ _ _ _ E Hfh) in Hzfresh. }
    assert (Hsz' : sizes_ok (plug c PLeaf)) by (by rewrite HT).
    assert (Hrb' : red_black (plug c PLeaf)) by (by rewrite HT).
    assert (Hb' : tsize (plug c PLeaf) + 1 < SIZE_MAX1) by (by rewrite HT).
    apply sizes_ok_plug in Hsz' as (_ & Hcs). rewrite tsize_plug in Hb'. cbn [tsize] in *.
    destruct (ctx_sizes_incr 0 c Hcs ltac:(lia) Hb') as (Hcs' & Htop').
    apply rb_unplug in Hrb' as (n0 & Hn0 & Hcrb). cbn [rbt tcolor] in *. subst n0.
    assert (Hpost : forall s1,
      fzrep Key0 F this nil nil (map (frame_add 1) c ++ []) (PNode z RED 1 PLeaf key PLeaf) s1 ->
      wp (fixup_insert this z ;; ret (mk_it this z, true)) s1 Q).
    { intros s1 Hz1. rewrite app_nil_r in Hz1. apply wp_bind.
      eapply (wp_fixup_insert_fr this nil _ (PNode z RED 1 PLeaf key PLeaf) s1 O);
        [exact Hz1| | | |].
      - split; [done|]. split; [done|]. apply ctx_rbw_map_add. by eapply ctx_rb_w.
      - apply sizes_ok_plug. cbn [tsize sizes_ok]. done.
      - rewrite tsize_plug. cbn [tsize]. replace 1 with (0 + 1) at 1 by lia. lia.
      - intros T' s2 Hrep2 Hrb2 Hnodes2 Hsz2 Hts2. wp_run.
        eapply Habsent; [done|exact Hrep2|done| |done|].
        + rewrite Hnodes2, nodes_plug, nodes_before_map_add, nodes_after_map_add. done.
        + rewrite Hts2, tsize_plug. cbn [tsize]. replace 1 with (0 + 1) at 1 by lia.
          rewrite Htop'. rewrite <- HT, tsize_plug. done. }
    pose proof Hfz as [_ Hfh Hfo Hft Hsep]. cbn [heap objs] in Hfh, Hfo.
    destruct c as [|[p cp sp kp r|p cp sp l kp] up]; zrep_open Hz; abs_simpl; ptr_facts;
      sep_open Hsep; wp_run.
    + eapply (wp_updateSize_fr this nil nil 1 [] [] (PNode z RED 1 PLeaf key PLeaf));
        [fzrep_close|exact Hpost].
    + assert (Hk : CMP key kp = true).
      { destruct Ha as [_ Ha]. cbn in Ha. by apply Forall_cons in Ha as [Ha _]. }
      rewrite Hk. wp_run.
      eapply (wp_updateSize_fr this nil nil 1 (FL p cp sp kp r :: up) []
                (PNode z RED 1 PLeaf key PLeaf)); [|exact Hpost].
      rewrite app_nil_r. fzrep_close.
    + assert (Hk : CMP key kp = false).
      { destruct Ha as [Ha _]. cbn in Ha. apply Forall_app in Ha as [_ Ha].
        apply Forall_app in Ha as [_ Ha]. apply Forall_cons in Ha as [Ha _].
        by apply (cmp_asym CMP Hswo). }
      rewrite Hk. wp_run.
      eapply (wp_updateSize_fr this nil nil 1 (FR p cp sp l kp :: up) []
                (PNode z RED 1 PLeaf key PLeaf)); [|exact Hpost].
      rewrite app_nil_r. fzrep_close.
  - destruct (equal CMP key k) eqn:Heq; wp_run.
    + eapply Hpresent. by split.
    + destruct (CMP key k) eqn:Hlt; wp_run.
      * exists (height l). split; [cbn; lia|]. split; [done|].
        exists (FL p cp sp k r :: c), l. split; [done|]. split; [by apply fzrep_step|].
        split; [done|]. split; [done|]. split; [apply Hb|]. split; [by eapply around_left|done].
      * exists (height r). split; [cbn; lia|]. split; [done|].
        assert (CMP k key = true).
        { unfold equal in Heq. rewrite Hlt in Heq. by destruct (CMP k key). }
        exists (FR p cp sp l k :: c), r. split; [done|]. split; [by apply fzrep_step|].
        split; [done|]. split; [done|]. split; [apply Hb|]. split; [by eapply around_right|done].
Qed.

End FramedInsert.

(** * Copying a set *)

Section CopyPure.

Context {Key : Type}.
Variable CMP : Key -> Key -> bool.
Hypothesis Hswo : StrictWeakOrder CMP.

(** The keys [ks] put into the sorted list [l] one after the other, as
    [deep_copy] does with the keys of the source. *)
Definition ins_all (ks l : list Key) : list Key :=
  fold_left (fun l k => ins_list CMP k l) ks l.

Lemma elem_of_ins_list x k l : x ∈ ins_list CMP k l -> x = k \/ x ∈ l.
Proof.
  induction l as [|y l IH]; cbn [ins_list]; [set_solver|].
  destruct (CMP k y); [set_solver|]. destruct (CMP y k); set_solver.
Qed.

Lemma ins_list_keeps y k l : y ∈ l -> y ∈ ins_list CMP k l.
Proof.
  induction l as [|z l IH]; cbn [ins_list]; [set_solver|].
  destruct (CMP k z); [set_solver|]. destruct (CMP z k); set_solver.
Qed.

Lemma ins_list_adds k l :
  (forall b, b ∈ l -> equal CMP k b = true -> k = b) -> k ∈ ins_list CMP k l.
Proof.
  induction l as [|z l IH]; intros Hinj; cbn [ins_list]; [set_solver|].
  destruct (CMP k z) eqn:E1; [set_solver|]. destruct (CMP z k) eqn:E2.
  - apply elem_of_cons. right. apply IH. intros b Hb. apply Hinj. set_solver.
  - rewrite (Hinj z); [set_solver|set_solver|]. unfold equal. by rewrite E1, E2.
Qed.

Lemma elem_of_ins_all x ks : forall l, x ∈ ins_all ks l -> x ∈ ks \/ x ∈ l.
Proof.
  induction ks as [|k ks IH]; intros l; cbn [ins_all fold_left]; [set_solver|].
  intros [H|H]%IH; [set_solver|]. apply elem_of_ins_list in H. set_solver.
Qed.

Lemma ins_all_keeps y ks : forall l, y ∈ l -> y ∈ ins_all ks l.
Proof.
  induction ks as [|k ks IH]; intros l Hy; cbn [ins_all fold_left]; [done|].
  apply IH. by apply ins_list_keeps.
Qed.

Lemma ins_all_adds ks : forall l,
  (forall a b, a ∈ ks ++ l -> b ∈ ks ++ l -> equal CMP a b = true -> a = b) ->
  forall x, x ∈ ks -> x ∈ ins_all ks l.
Proof.
  induction ks as [|k ks IH]; intros l Hinj x Hx; cbn [ins_all fold_left]; [set_solver|].
  assert (Hk : k ∈ ins_list CMP k l).
  { apply ins_list_adds. intros b Hb. apply Hinj; set_solver. }
  apply elem_of_cons in Hx as [->|Hx].
  - by apply ins_all_keeps.
  - apply IH; [|done]. intros a b Ha Hb. apply Hinj.
    + apply elem_of_app in Ha as [Ha|Ha]; [set_solver|].
      apply elem_of_ins_list in Ha. set_solver.
    + apply elem_of_app in Hb as [Hb|Hb]; [set_solver|].
      apply elem_of_ins_list in Hb. set_solver.
Qed.

Lemma sorted_lookup_lt l (i j : nat) a b :
  sorted CMP l -> l !! i = Some a -> l !! j = Some b -> (i < j)%nat -> CMP a b = true.
Proof.
  intros Hs Hi Hj Hlt. pose proof (take_drop_middle l i a Hi) as Hl. rewrite <- Hl in Hs.
  apply (sorted_app CMP) in Hs as (_ & H2 & _). apply StronglySorted_inv in H2 as [_ H2].
  rewrite Forall_forall in H2. apply H2. apply list_elem_of_lookup.
  exists (j - S i)%nat. rewrite lookup_drop. rewrite <- Hj. f_equal. lia.
Qed.

Lemma sorted_equal_eq l a b :
  sorted CMP l -> a ∈ l -> b ∈ l -> equal CMP a b = true -> a = b.
Proof.
  intros Hs [i Hi]%list_elem_of_lookup [j Hj]%list_elem_of_lookup Heq.
  destruct (Nat.lt_trichotomy i j) as [Hlt|[->|Hlt]].
  - pose proof (sorted_lookup_lt l i j a b Hs Hi Hj Hlt) as H.
    unfold equal in Heq. by rewrite H in Heq.
  - congruence.
  - pose proof (sorted_lookup_lt l j i b a Hs Hj Hi Hlt) as H.
    unfold equal in Heq. by rewrite H, andb_false_r in Heq.
Qed.

Lemma sorted_NoDup l : sorted CMP l -> NoDup l.
Proof.
  induction 1 as [|x l Hs IH Hx]; constructor; [|done].
  intros Hin. rewrite Forall_forall in Hx. specialize (Hx x Hin).
  unfold lt in Hx. by rewrite (cmp_irrefl CMP Hswo) in Hx.
Qed.

Lemma sorted_unique l1 l2 :
  sorted CMP l1 -> sorted CMP l2 -> (forall x, x ∈ l1 <-> x ∈ l2) -> l1 = l2.
Proof.
  intros H1 H2 Hin. apply (StronglySorted_unique_strong (lt CMP)); [|done|done|].
  - intros x1 x2 _ _ Hlt Hgt. unfold lt in *. by rewrite (cmp_asym CMP Hswo _ _ Hlt) in Hgt.
  - apply NoDup_Permutation; [by apply sorted_NoDup|by apply sorted_NoDup|done].
Qed.

Lemma ins_all_sorted ks L :
  sorted CMP L -> ks ≡ₚ L -> sorted CMP (ins_all ks []) -> ins_all ks [] = L.
Proof.
  intros HL Hperm HR. apply sorted_unique; [done|done|]. intros x. split.
  - intros [H|H]%elem_of_ins_all; [by rewrite <- Hperm|set_solver].
  - intros Hx. apply ins_all_adds; [|by rewrite Hperm].
    rewrite app_nil_r. intros a b Ha Hb. rewrite Hperm in Ha, Hb.
    by apply (sorted_equal_eq L).
Qed.

Lemma equal_trans_l a b x :
  equal CMP a b = true -> equal CMP x a = equal CMP x b.
Proof.
  intros Hab. destruct (equal CMP x a) eqn:E1, (equal CMP x b) eqn:E2; try done.
  - by rewrite (swo_equiv_trans _ Hswo _ _ _ E1 Hab) in E2.
  - rewrite (equal_sym CMP a b) in Hab.
    by rewrite (swo_equiv_trans _ Hswo _ _ _ E2 Hab) in E1.
Qed.

Lemma mem_ins_list x k l :
  mem_list CMP x (ins_list CMP k l) = equal CMP x k || mem_list CMP x l.
Proof.
  unfold mem_list. induction l as [|y l IH]; cbn [ins_list existsb]; [done|].
  destruct (CMP k y) eqn:E1; [done|]. destruct (CMP y k) eqn:E2; cbn [existsb].
  - rewrite IH. by destruct (equal CMP x y), (equal CMP x k).
  - assert (Hky : equal CMP k y = true) by (unfold equal; by rewrite E1, E2).
    rewrite (equal_trans_l k y x Hky). by destruct (equal CMP x y).
Qed.

Lemma mem_ins_all x ks : forall l,
  mem_list CMP x (ins_all ks l) = mem_list CMP x ks || mem_list CMP x l.
Proof.
  induction ks as [|k ks IH]; intros l; cbn [ins_all fold_left]; [done|].
  fold (ins_all ks (ins_list CMP k l)). rewrite IH, mem_ins_list.
  unfold mem_list. cbn [existsb].
  by destruct (equal CMP x k), (existsb (fun y => equal CMP x y) ks).
Qed.

Lemma mem_list_perm x l1 l2 : l1 ≡ₚ l2 -> mem_list CMP x l1 = mem_list CMP x l2.
Proof.
  unfold mem_list. induction 1 as [|y l1 l2 _ IH|y z l|l1 l2 l3 _ IH1 _ IH2];
    cbn [existsb]; [done|by rewrite IH| |congruence].
  by destruct (equal CMP x y), (equal CMP x z).
Qed.

End CopyPure.

Section DeepCopy.

Context {Key : Type}.
Variable CMP : Key -> Key -> bool.
Variable Key0 : Key.
Hypothesis Hswo : StrictWeakOrder CMP.
Implicit Types (h : gmap N (node Key)) (t T : ptree Key) (c : ctx Key) (s F : state Key).

Notation "x <- m ;; k" := (bind m (fun x => k))
  (at level 100, m at next level, right associativity).
Notation "m ;; k" := (bind m (fun _ => k))
  (at level 100, right associativity).

(** A well-formed set next to the frame [F]. *)
Definition fwf (F : state Key) (this : N) (nil : ptr) (T : ptree Key) (s : state Key) : Prop :=
  fzrep Key0 F this nil nil [] T s /\ bst CMP T /\ sizes_ok T /\ red_black T.

Lemma fwf_wf F this nil T s : fwf F this nil T s -> wf CMP Key0 this nil T s.
Proof. intros (Hz & H). split; [by apply (fzrep_zrep Key0 F)|done]. Qed.

Lemma shape_mono h h' nil t : h ⊆ h' -> forall par, shape h nil par t -> shape h' nil par t.
Proof.
  intros Hsub. induction t as [|p cp sp l IHl k r IHr]; intros par; cbn [shape]; [done|].
  intros (H1 & H2 & H3). split; [by eapply lookup_weaken|]. split; [by apply IHl|by apply IHr].
Qed.

Lemma rep_mono this nil T F s :
  rep Key0 this nil T F -> heap F ⊆ heap s -> objs F ⊆ objs s -> rep Key0 this nil T s.
Proof.
  intros [Hobj Hnil Hctx Hsub Hnd] Hh Ho. split; cbn [ctx_shape ctx_ptr ctx_root] in *.
  - by eapply lookup_weaken.
  - by eapply lookup_weaken.
  - done.
  - by eapply shape_mono.
  - done.
Qed.

Lemma wp_ctor_fr F this s0 (Q : unit -> state Key -> Prop) :
  heap F ⊆ heap s0 -> objs F ⊆ objs s0 -> objs F !! this = None ->
  (forall nil s, fwf F this nil PLeaf s -> heap s0 !! nil = None -> Q tt s) ->
  wp (ctor Key0 this) s0 Q.
Proof.
  intros Hh Ho Ht HQ. destruct s0 as [h o]. cbn [heap objs] in *. unfold ctor.
  apply wp_bind, wp_new_node. intros p Hp Hfresh. wp_run.
  assert (HpF : heap F !! p = None).
  { destruct (heap F !! p) as [v|] eqn:E; [|done].
    by rewrite (lookup_weaken _ _ _ _ E Hh) in Hfresh. }
  eapply HQ with (nil := p); [|done]. split; [|split; [done|split; [done|]]].
  - split; [|cbn [heap]; sub_solve|cbn [objs]; sub_solve|done|].
    + split; cbn [heap objs rootp ctx_root ctx_shape shape ptrs ctx_ptrs app]; try done.
      * lookup_solve.
      * lookup_solve.
      * apply NoDup_cons. split; [set_solver|]. apply NoDup_singleton.
    + cbn [ptrs ctx_ptrs app]. by repeat constructor.
  - split; [done|]. by exists O.
Qed.

Lemma wp_insert_fwf F this nil T s key (Q : const_iterator * bool -> state Key -> Prop) :
  fwf F this nil T s -> tsize T + 1 < SIZE_MAX1 ->
  (forall r, ins_list CMP key (keys T) = keys T -> Q r s) ->
  (forall r T' s', fwf F this nil T' s' -> keys T' = ins_list CMP key (keys T) ->
     tsize T' = tsize T + 1 -> Q r s') ->
  wp (insert CMP this key) s Q.
Proof.
  intros (Hfz & Hbst & Hsz & Hrb) Hb Hpresent Habsent.
  eapply (wp_insert_fr CMP Key0 F Hswo); [exact Hfz|exact Hbst|exact Hsz|exact Hrb|exact Hb| |].
  - intros c x cx sx l k r Hf.
    destruct (found_present CMP Key0 Hswo _ _ _ _ _ _ _ _ _ _ _ _ Hf)
      as (Hk & Hn & Hl & Hr & Heq).
    apply Hpresent. rewrite Hk. rewrite (ins_list_skip CMP Hswo) by done.
    by rewrite (ins_list_found CMP).
  - intros c z T' s' Hf Hrep' Hrb' Hnodes Hsz' Hts.
    destruct (found_absent CMP Key0 _ _ _ _ _ _ Hf) as (Hk & Hl & Hr).
    assert (Hk' : keys T' = keys_before c ++ key :: keys_after c).
    { rewrite keys_nodes, Hnodes, map_app. cbn [map snd].
      by rewrite <- keys_before_nodes, <- keys_after_nodes. }
    eapply Habsent; [ | |exact Hts].
    + split; [done|]. split; [|done]. apply (bst_sorted CMP Hswo). rewrite Hk'.
      apply (sorted_insert CMP); [|done|done]. rewrite <- Hk. by apply (bst_sorted CMP Hswo).
    + rewrite Hk', Hk. rewrite (ins_list_skip CMP Hswo) by done.
      by rewrite (ins_list_here CMP).
Qed.

(** The keys of the subtrees waiting in the queue. *)
Definition fkeys (ts : list (ptree Key)) : list Key := concat (map keys ts).

Lemma fkeys_app ts1 ts2 : fkeys (ts1 ++ ts2) = fkeys ts1 ++ fkeys ts2.
Proof. unfold fkeys. by rewrite map_app, concat_app. Qed.

Lemma fkeys_kids t : fkeys (kids t) = keys t.
Proof. destruct t; cbn; [done|]. by rewrite app_nil_r. Qed.

Lemma fkeys_step x cx sx l k r rest :
  fkeys (PNode x cx sx l k r :: rest) ≡ₚ k :: fkeys (rest ++ kids l ++ kids r).
Proof.
  rewrite !fkeys_app, !fkeys_kids. unfold fkeys. cbn [map concat keys]. solve_Permutation.
Qed.

Lemma ins_all_snoc ks k l : ins_all CMP (ks ++ [k]) l = ins_list CMP k (ins_all CMP ks l).
Proof. unfold ins_all. by rewrite fold_left_app. Qed.

Lemma wp_deep_copy F src dst nilS TS nilD TD s (Q : unit -> state Key -> Prop) :
  rep Key0 src nilS TS F ->
  fwf F dst nilD TD s ->
  tsize TD + Z.of_nat (length (keys TS)) < SIZE_MAX1 ->
  (forall ks TD' s', ks ≡ₚ keys TS ->
     fwf F dst nilD TD' s' -> keys TD' = ins_all CMP ks (keys TD) ->
     tsize TD' <= tsize TD + Z.of_nat (length (keys TS)) -> Q tt s') ->
  wp (deep_copy CMP src dst) s Q.
Proof.
  intros HrepS Hfwf Hbound HQ. destruct s as [h o].
  pose proof (zrep_heap_size _ _ _ _ _ _ _ HrepS) as Hsize. cbn [plug] in Hsize.
  pose proof Hfwf as ([_ Hfh Hfo _ _] & _). cbn [heap objs] in Hfh, Hfo.
  destruct HrepS as [Hobj Hnil _ Hsub Hnd]. cbn [ctx_ptrs ctx_ptr ctx_root] in *.
  rewrite app_nil_r in Hnd.
  apply NoDup_cons in Hnd as [Hnull Hnd]. apply NoDup_cons in Hnd as [HnilT HndT].
  assert (HnullT : null ∉ ptrs TS) by set_solver.
  pose proof (lookup_weaken _ _ _ _ Hobj Hfo) as Hobj'.
  unfold deep_copy. wp_run.
  destruct TS as [|x cx sx l k r].
  { cbn [rootp]. rewrite ptr_eqb_refl. apply wp_ret.
    eapply (HQ [] TD); [done|exact Hfwf|done|cbn; lia]. }
  set (TS := PNode x cx sx l k r) in *.
  assert (Hx : rootp nilS TS <> nilS).
  { cbn [rootp TS]. intros ->. apply HnilT. cbn. set_solver. }
  rewrite ptr_eqb_ne by done. wp_run.
  eapply wp_loop with (n := length (ptrs TS)) (I := fun n buf s' =>
    exists ts ks TD', buf = map (rootp nilS) ts /\
      Forall (fun t => t <> PLeaf /\ exists par, shape (heap F) nilS par t) ts /\
      (forall p, p ∈ fptrs ts -> p ∈ ptrs TS) /\
      ks ++ fkeys ts ≡ₚ keys TS /\
      fwf F dst nilD TD' s' /\ keys TD' = ins_all CMP ks (keys TD) /\
      tsize TD' <= tsize TD + Z.of_nat (length ks) /\ n = length (fptrs ts)).
  - intros n buf s' (ts & ks & TD' & -> & Hall & Hin & Hperm & Hfwf' & Hk & Hts & ->).
    destruct ts as [|t rest]; cbn [map].
    { apply wp_ret. cbn [fkeys map concat] in Hperm. rewrite app_nil_r in Hperm.
      eapply (HQ ks TD'); [done|done|done|].
      rewrite <- (Permutation_length Hperm). exact Hts. }
    apply Forall_cons in Hall as [(Hne & par & Hsh) Hrest].
    destruct t as [|y cy sy yl ky yr]; [done|]. clear Hne. cbn [rootp shape] in *.
    destruct Hsh as (Hy & Hyl & Hyr).
    pose proof (fptrs_step y cy sy yl ky yr rest) as Hpp.
    pose proof (fkeys_step y cy sy yl ky yr rest) as Hkp.
    assert (HyT : y ∈ ptrs TS) by (apply Hin; rewrite Hpp; left).
    assert (Hynull : y <> null) by (intros ->; done).
    assert (Hnl : nilS ∉ ptrs yl).
    { intros Hn. apply HnilT, Hin. unfold fptrs. cbn [map concat ptrs]. set_solver. }
    assert (Hnr : nilS ∉ ptrs yr).
    { intros Hn. apply HnilT, Hin. unfold fptrs. cbn [map concat ptrs]. set_solver. }
    assert (Hlen : (length ks < length (keys TS))%nat).
    { rewrite <- (Permutation_length Hperm), length_app, (Permutation_length Hkp).
      cbn [length]. lia. }
    assert (Hread : forall s1 TD1, fwf F dst nilD TD1 s1 ->
              heap s1 !! y = Some (mk_node sy (rootp nilS yl) (rootp nilS yr) par ky cy) /\
              objs s1 !! src = Some (mk_set nilS (rootp nilS TS))).
    { intros s1 TD1 ([_ Hfh1 Hfo1 _ _] & _).
      split; [exact (lookup_weaken _ _ _ _ Hy Hfh1)|exact (lookup_weaken _ _ _ _ Hobj Hfo1)]. }
    destruct s' as [h' o']. destruct (Hread _ _ Hfwf') as (Hy' & Ho'). cbn [heap objs] in Hy', Ho'.
    wp_run.
    match goal with
    | |- wp (insert _ _ _) _ ?Q' =>
        assert (Hnext : forall res TD1 s1, fwf F dst nilD TD1 s1 ->
                  keys TD1 = ins_list CMP ky (keys TD') -> tsize TD1 <= tsize TD' + 1 ->
                  Q' res s1)
    end.
    { intros res TD1 [h1 o1] Hfwf1 Hk1 Hts1. cbn beta.
      destruct (Hread _ _ Hfwf1) as (Hy1 & Ho1). cbn [heap objs] in Hy1, Ho1.
      wp_run. rewrite (push_kid nilS yl _ Hnl), (push_kid nilS yr _ Hnr).
      exists (length (fptrs (rest ++ kids yl ++ kids yr))). split.
      { rewrite (Permutation_length Hpp). cbn [length]. lia. }
      exists (rest ++ kids yl ++ kids yr), (ks ++ [ky]), TD1.
      split; [by rewrite <- app_assoc, !map_app|].
      split; [|split; [|split; [|split; [done|split; [|split; [|done]]]]]].
      - apply Forall_app. split; [done|]. apply Forall_app.
        split; by apply kids_shape with (par := y).
      - intros p Hp. apply Hin. rewrite Hpp. by right.
      - rewrite <- app_assoc. cbn [app]. by rewrite <- Hkp.
      - by rewrite ins_all_snoc, <- Hk.
      - rewrite length_app. cbn [length]. lia. }
    eapply (wp_insert_fwf F dst nilD TD'); [exact Hfwf'|lia| |].
    + intros res Hins. apply (Hnext res TD' _ Hfwf'); [by rewrite Hins|lia].
    + intros res TD1 s1 Hfwf1 Hk1 Hts1. apply (Hnext res TD1 s1 Hfwf1); [done|lia].
  - exists [TS], [], TD. split; [done|].
    unfold fptrs, fkeys. cbn [map concat]. rewrite !app_nil_r.
    split; [|split; [done|split; [done|split; [done|split; [done|split; [cbn; lia|done]]]]]].
    constructor; [|constructor]. split; [done|]. by exists nilS.
  - pose proof (map_subseteq_size _ _ Hfh). lia.
Qed.

End DeepCopy.

Section Copies.

Context {Key : Type}.
Variable CMP : Key -> Key -> bool.
Variable Key0 : Key.
Hypothesis Hswo : StrictWeakOrder CMP.
Implicit Types (h : gmap N (node Key)) (t T : ptree Key) (c : ctx Key) (s F : state Key).

Notation "x <- m ;; k" := (bind m (fun x => k))
  (at level 100, m at next level, right associativity).
Notation "m ;; k" := (bind m (fun _ => k))
  (at level 100, right associativity).

(** What the state holds apart from the object [this] and the cells [ps]. *)
Definition outside (this : N) (ps : list ptr) (s : state Key) : state Key :=
  mk_state (filter (fun kv => kv.1 ∉ ps) (heap s)) (delete this (objs s)).

Lemma outside_heap this ps s : heap (outside this ps s) ⊆ heap s.
Proof. apply map_filter_subseteq. Qed.

Lemma outside_objs this ps s : objs (outside this ps s) ⊆ objs s.
Proof. apply delete_subseteq. Qed.

Lemma outside_lookup this ps s p v :
  p ∉ ps -> heap s !! p = Some v -> heap (outside this ps s) !! p = Some v.
Proof. intros Hp Hv. by apply map_lookup_filter_Some_2. Qed.

Lemma outside_none this ps s p : p ∈ ps -> heap (outside this ps s) !! p = None.
Proof.
  intros Hp. apply map_lookup_filter_None_2. right. intros x _ Hn. by apply Hn.
Qed.

Lemma outside_fzrep this nil T s :
  rep Key0 this nil T s -> fzrep Key0 (outside this (nil :: ptrs T) s) this nil nil [] T s.
Proof.
  intros Hrep. split; [done|apply outside_heap|apply outside_objs|apply lookup_delete_eq|].
  cbn [ctx_ptrs]. rewrite app_nil_r. apply Forall_forall. intros p Hp. by apply outside_none.
Qed.

Lemma shape_outside this ps s nil t :
  (forall p, p ∈ ptrs t -> p ∉ ps) ->
  forall par, shape (heap s) nil par t -> shape (heap (outside this ps s)) nil par t.
Proof.
  induction t as [|p cp sp l IHl k r IHr]; intros Hps par; cbn [shape ptrs] in *; [done|].
  intros (H1 & H2 & H3). split; [|split].
  - apply outside_lookup; [|done]. apply Hps. set_solver.
  - apply IHl; [|done]. intros q Hq. apply Hps. set_solver.
  - apply IHr; [|done]. intros q Hq. apply Hps. set_solver.
Qed.

Lemma outside_rep this ps other nil T s :
  rep Key0 other nil T s -> other <> this -> (forall p, p ∈ nil :: ptrs T -> p ∉ ps) ->
  rep Key0 other nil T (outside this ps s).
Proof.
  intros [Hobj Hnil Hctx Hsub Hnd] Hne Hps. split; cbn [ctx_shape ctx_ptr ctx_root] in *.
  - cbn [outside objs]. by rewrite lookup_delete_ne.
  - apply outside_lookup; [|done]. apply Hps. set_solver.
  - done.
  - apply shape_outside; [|done]. intros p Hp. apply Hps. set_solver.
  - done.
Qed.

Lemma fwf_rep_frame F this nil T s other nilO TO :
  fwf CMP Key0 F this nil T s -> rep Key0 other nilO TO F -> rep Key0 other nilO TO s.
Proof. intros ([_ Hh Ho _ _] & _) Hrep. by eapply rep_mono. Qed.

Lemma wp_copy_ctor F this other nilO TO s (Q : unit -> state Key -> Prop) :
  rep Key0 other nilO TO F -> bst CMP TO ->
  heap F ⊆ heap s -> objs F ⊆ objs s -> objs F !! this = None ->
  Z.of_nat (length (keys TO)) < SIZE_MAX1 ->
  (forall nil T s', fwf CMP Key0 F this nil T s' -> keys T = keys TO -> Q tt s') ->
  wp (copy_ctor CMP Key0 this other) s Q.
Proof.
  intros HrepO HbstO Hh Ho Ht Hb HQ. unfold copy_ctor. apply wp_bind.
  eapply (wp_ctor_fr CMP Key0 Hswo F); [exact Hh|exact Ho|exact Ht|]. intros nil s1 Hfwf1 _.
  eapply (wp_deep_copy CMP Key0 Hswo F); [exact HrepO|exact Hfwf1|cbn [tsize]; lia|].
  intros ks T s' Hperm Hfwf' Hk _. eapply HQ; [exact Hfwf'|]. cbn [keys] in Hk. rewrite Hk.
  apply (ins_all_sorted CMP Hswo); [by apply (bst_sorted CMP Hswo)|done|].
  rewrite <- Hk. apply (bst_sorted CMP Hswo). apply Hfwf'.
Qed.

(** What [insert] leaves alone. *)
Lemma insert_frame this nil T s key :
  wf CMP Key0 this nil T s -> tsize T + 1 < SIZE_MAX1 ->
  exists res T' s',
    insert CMP this key s = Ok res s' /\ wf CMP Key0 this nil T' s' /\
    fzrep Key0 (outside this (nil :: ptrs T) s) this nil nil [] T' s'.
Proof.
  intros (Hrep & Hbst & Hsz & Hrb) Hb.
  pose proof (outside_fzrep this nil T s Hrep) as Hfz.
  assert (Hwp : wp (insert CMP this key) s (fun _ s' => exists T',
     fwf CMP Key0 (outside this (nil :: ptrs T) s) this nil T' s')).
  { eapply (wp_insert_fwf CMP Key0 Hswo); [by split|exact Hb| |].
    - intros _ _. exists T. by split.
    - intros _ T' s' Hfwf' _ _. by exists T'. }
  apply wp_ok in Hwp as (res & s' & Heq & T' & Hfwf').
  exists res, T', s'. split; [done|]. split; [by eapply fwf_wf|]. apply Hfwf'.
Qed.

Lemma rep_drop_obj this nil T s ob :
  rep Key0 this nil T s -> this <> ob ->
  rep Key0 this nil T (mk_state (heap s) (delete ob (objs s))).
Proof.
  intros [Hobj Hnil Hctx Hsub Hnd] Hne. split; cbn [heap objs] in *; try done.
  by rewrite lookup_delete_ne.
Qed.

Lemma shape_agree h h' nil t :
  (forall p, p ∈ ptrs t -> h' !! p = h !! p) ->
  forall par, shape h nil par t -> shape h' nil par t.
Proof.
  induction t as [|p cp sp l IHl k r IHr]; intros Hag par; cbn [shape ptrs] in *; [done|].
  intros (H1 & H2 & H3). split; [|split].
  - rewrite Hag; [done|set_solver].
  - apply IHl; [|done]. intros q Hq. apply Hag. set_solver.
  - apply IHr; [|done]. intros q Hq. apply Hag. set_solver.
Qed.

Lemma iterate_rep this nil T s :
  rep Key0 this nil T s -> sizes_ok T -> count T < SIZE_MAX1 ->
  iterate this s = Ok (keys T) s.
Proof.
  intros Hrep Hsz Hb.
  assert (Hit : wp (iterate this) s (fun ks s' => ks = keys T /\ s' = s)).
  { eapply (wp_iterate Key0); [exact Hrep|exact Hsz|exact Hb|done]. }
  apply wp_ok in Hit as (ks & s' & Hi & -> & ->). exact Hi.
Qed.

(** X17: [insert(key)] on a well-formed set touches nothing but its own
    tree: every cell outside the tree and every other object keep their
    content, so any other set whose nodes are apart from this one is
    represented exactly as before. *)
Theorem insert_leaves_rest_alone this nil T s key :
  wf CMP Key0 this nil T s -> tsize T + 1 < SIZE_MAX1 ->
  exists res s',
    insert CMP this key s = Ok res s' /\
    (forall p v, p ∉ nil :: ptrs T -> heap s !! p = Some v -> heap s' !! p = Some v) /\
    (forall ob v, ob <> this -> objs s !! ob = Some v -> objs s' !! ob = Some v) /\
    (forall other nilO TO, other <> this -> rep Key0 other nilO TO s ->
       (forall p, p ∈ nilO :: ptrs TO -> p ∉ nil :: ptrs T) -> rep Key0 other nilO TO s').
Proof.
  intros Hwf Hb.
  destruct (insert_frame this nil T s key Hwf Hb) as (res & T' & s' & Heq & _ & Hfz).
  destruct Hfz as [_ Hh Ho _ _]. exists res, s'. split; [done|]. split; [|split].
  - intros p v Hp Hv. eapply lookup_weaken; [|exact Hh]. by apply outside_lookup.
  - intros ob v Hne Hv. eapply lookup_weaken; [|exact Ho].
    cbn [outside objs]. by rewrite lookup_delete_ne.
  - intros other nilO TO Hne Hrep Hdis. eapply rep_mono; [|exact Hh|exact Ho].
    by apply outside_rep.
Qed.

Lemma copy_ctor_rep this other nilO TO s :
  rep Key0 other nilO TO s -> bst CMP TO -> this <> other ->
  Z.of_nat (length (keys TO)) < SIZE_MAX1 ->
  exists nil T s',
    copy_ctor CMP Key0 this other s = Ok tt s' /\
    wf CMP Key0 this nil T s' /\ keys T = keys TO /\
    rep Key0 other nilO TO s' /\ heap s ⊆ heap s'.
Proof.
  intros Hrep Hbst Hne Hb.
  set (F := mk_state (heap s) (delete this (objs s))).
  assert (HrepF : rep Key0 other nilO TO F) by (by apply rep_drop_obj).
  assert (Hwp : wp (copy_ctor CMP Key0 this other) s (fun _ s' => exists nil T,
     fwf CMP Key0 F this nil T s' /\ keys T = keys TO)).
  { eapply (wp_copy_ctor F); [exact HrepF|exact Hbst|done|apply delete_subseteq|
      apply lookup_delete_eq|exact Hb|].
    intros nil T s' Hfwf Hk. by exists nil, T. }
  apply wp_ok in Hwp as ([] & s' & Heq & nil & T & Hfwf & Hk).
  exists nil, T, s'. split; [done|]. split; [by eapply fwf_wf|]. split; [done|].
  split; [by eapply fwf_rep_frame|]. by destruct Hfwf as ([_ Hh _ _ _] & _).
Qed.

(** X18: the copy constructor builds a well-formed set that holds exactly
    the keys of the source, so that iterating it yields the source's keys in
    order, on nodes that were all unallocated before; no cell that existed
    changes, so the source is represented exactly as before. *)
Theorem copy_ctor_copies this other nilO TO s :
  rep Key0 other nilO TO s -> bst CMP TO -> this <> other ->
  Z.of_nat (length (keys TO)) < SIZE_MAX1 ->
  exists nil T s',
    copy_ctor CMP Key0 this other s = Ok tt s' /\
    wf CMP Key0 this nil T s' /\ keys T = keys TO /\
    iterate this s' = Ok (keys TO) s' /\
    rep Key0 other nilO TO s' /\
    heap s ⊆ heap s' /\
    (forall p, p ∈ nil :: ptrs T -> heap s !! p = None).
Proof.
  intros Hrep Hbst Hne Hb.
  set (F := mk_state (heap s) (delete this (objs s))).
  assert (HrepF : rep Key0 other nilO TO F) by (by apply rep_drop_obj).
  assert (Hwp : wp (copy_ctor CMP Key0 this other) s (fun _ s' => exists nil T,
     fwf CMP Key0 F this nil T s' /\ keys T = keys TO)).
  { eapply (wp_copy_ctor F); [exact HrepF|exact Hbst|done|apply delete_subseteq|
      apply lookup_delete_eq|exact Hb|].
    intros nil T s' Hfwf Hk. by exists nil, T. }
  apply wp_ok in Hwp as ([] & s' & Heq & nil & T & Hfwf & Hk).
  exists nil, T, s'. split; [done|]. split; [by eapply fwf_wf|]. split; [done|].
  split.
  { pose proof (fwf_wf CMP Key0 _ _ _ _ _ Hfwf) as (HrepT & _ & HszT & _).
    rewrite <- Hk. apply (iterate_rep this nil); [done|done|].
    by rewrite count_length, Hk. }
  split; [by eapply fwf_rep_frame|]. destruct Hfwf as ([_ Hh _ _ Hsep] & _).
  split; [done|]. cbn [ctx_ptrs] in Hsep. rewrite app_nil_r in Hsep.
  rewrite Forall_forall in Hsep. exact Hsep.
Qed.

(** X19: copy assignment between two different sets does not empty the
    destination: afterwards the destination is well-formed and holds a key
    equivalent to [x] exactly when the destination or the source held one
    before; the source is represented as before, and the set returned by
    value is a well-formed copy of the destination. *)
Theorem copy_assign_merges this other result nilD TD nilS TS s :
  wf CMP Key0 this nilD TD s -> rep Key0 other nilS TS s ->
  this <> other -> result <> this -> result <> other ->
  (forall p, p ∈ nilS :: ptrs TS -> p ∉ nilD :: ptrs TD) ->
  tsize TD + Z.of_nat (length (keys TS)) < SIZE_MAX1 ->
  exists T1 nilR TR s',
    copy_assign CMP Key0 this other result s = Ok tt s' /\
    wf CMP Key0 this nilD T1 s' /\
    (forall x, mem_list CMP x (keys T1)
               = mem_list CMP x (keys TD) || mem_list CMP x (keys TS)) /\
    rep Key0 other nilS TS s' /\
    wf CMP Key0 result nilR TR s' /\ keys TR = keys T1.
Proof.
  intros (HrepD & HbstD & HszD & HrbD) HrepS Hne Hr1 Hr2 Hdis Hb.
  set (F1 := outside this (nilD :: ptrs TD) s).
  assert (HrepF1 : rep Key0 other nilS TS F1) by (by apply outside_rep).
  assert (Hfwf : fwf CMP Key0 F1 this nilD TD s).
  { split; [by apply outside_fzrep|done]. }
  assert (Hwp : wp (copy_assign CMP Key0 this other result) s (fun _ s' =>
     exists T1 nilR TR,
       wf CMP Key0 this nilD T1 s' /\
       (forall x, mem_list CMP x (keys T1)
                  = mem_list CMP x (keys TD) || mem_list CMP x (keys TS)) /\
       rep Key0 other nilS TS s' /\
       wf CMP Key0 result nilR TR s' /\ keys TR = keys T1)).
  { unfold copy_assign. replace (N.eqb other this) with false
      by (symmetry; apply N.eqb_neq; congruence).
    apply wp_bind. eapply (wp_deep_copy CMP Key0 Hswo F1); [exact HrepF1|exact Hfwf|exact Hb|].
    intros ks T1 s1 Hperm Hfwf1 Hk1 Hts1.
    pose proof (fwf_wf CMP Key0 _ _ _ _ _ Hfwf1) as (Hrep1 & Hbst1 & Hsz1 & Hrb1).
    pose proof (fwf_rep_frame _ _ _ _ _ _ _ _ Hfwf1 HrepF1) as HrepS1.
    set (F2 := mk_state (heap s1) (delete result (objs s1))).
    assert (HrepF2 : rep Key0 this nilD T1 F2) by (apply rep_drop_obj; [done|congruence]).
    assert (HrepSF2 : rep Key0 other nilS TS F2) by (apply rep_drop_obj; [done|congruence]).
    eapply (wp_copy_ctor F2); [exact HrepF2|exact Hbst1|done|apply delete_subseteq|
      apply lookup_delete_eq| |].
    { rewrite <- count_length, <- (sizes_ok_tsize _ Hsz1). lia. }
    intros nilR TR s2 Hfwf2 Hk2. exists T1, nilR, TR.
    split; [|split; [|split; [|split; [by eapply fwf_wf|done]]]].
    - split; [by eapply fwf_rep_frame|done].
    - intros x. rewrite Hk1, (mem_ins_all CMP Hswo), (mem_list_perm CMP x ks (keys TS) Hperm).
      apply orb_comm.
    - by eapply fwf_rep_frame. }
  apply wp_ok in Hwp as ([] & s' & Heq & T1 & nilR & TR & H).
  exists T1, nilR, TR, s'. by split.
Qed.

(** X20: move assignment between two different sets hands the destination
    the source's tree, on the same nodes and with the source's sentinel; the
    source gets one fresh sentinel whose links are null; the set returned by
    value is a well-formed copy holding exactly the keys the source held. *)
Theorem move_assign_transfers this other result nilD TD nilS TS s :
  rep Key0 this nilD TD s -> rep Key0 other nilS TS s -> bst CMP TS ->
  this <> other -> result <> this -> result <> other ->
  (forall p, p ∈ nilS :: ptrs TS -> p ∉ nilD :: ptrs TD) ->
  Z.of_nat (length (keys TS)) < SIZE_MAX1 ->
  exists z nilR TR s',
    move_assign CMP Key0 this other result s = Ok tt s' /\
    rep Key0 this nilS TS s' /\
    objs s' !! other = Some (mk_set z z) /\
    heap s' !! z = Some (mk_node 0 null null null Key0 BLACK) /\
    wf CMP Key0 result nilR TR s' /\ keys TR = keys TS.
Proof.
  intros HrepD HrepS HbstS Hne Hr1 Hr2 Hdis Hb.
  destruct (dtor_rep Key0 this nilD TD s HrepD) as (s1 & Hd & Hfree & Hsame & Ho1).
  assert (Hwp : wp (move_assign CMP Key0 this other result) s (fun _ s' =>
     exists z nilR TR,
       rep Key0 this nilS TS s' /\
       objs s' !! other = Some (mk_set z z) /\
       heap s' !! z = Some (mk_node 0 null null null Key0 BLACK) /\
       wf CMP Key0 result nilR TR s' /\ keys TR = keys TS)).
  { unfold move_assign. replace (N.eqb other this) with false
      by (symmetry; apply N.eqb_neq; congruence).
    apply wp_bind. apply wp_ok. exists tt, s1. split; [exact Hd|].
    destruct s as [h o], s1 as [h1 o1]. cbn [heap objs] in *. subst o1.
    destruct HrepS as [HobjS HnilS HctxS HsubS HndS].
    cbn [heap objs ctx_root ctx_ptr ctx_ptrs] in *. rewrite app_nil_r in HndS.
    assert (Hoo : other <> this) by congruence.
    wp_run. apply wp_new_node. intros z Hz Hfresh. wp_run.
    set (h2 := <[z := mk_node 0 null null null Key0 BLACK]> h1).
    match goal with |- wp _ (mk_state _ ?o2') _ => set (o2 := o2') end.
    assert (Hcells : forall p, p ∈ nilS :: ptrs TS -> h1 !! p = h !! p).
    { intros p Hp. apply Hsame. by apply Hdis. }
    assert (HnilS1 : h1 !! nilS = Some (mk_node 0 nilS nilS nilS Key0 BLACK)).
    { rewrite Hcells; [done|set_solver]. }
    assert (Hsub1 : shape h1 nilS nilS TS).
    { eapply shape_agree; [|exact HsubS]. intros p Hp. apply Hcells. set_solver. }
    assert (Hrep2 : rep Key0 this nilS TS (mk_state h2 (delete result o2))).
    { split; cbn [heap objs ctx_root ctx_ptr ctx_ptrs ctx_shape].
      - rewrite lookup_delete_ne by done. unfold o2. lookup_solve.
      - unfold h2. rewrite lookup_insert_ne; [done|]. intros ->. congruence.
      - done.
      - unfold h2. apply shape_upd; [|done]. by eapply shape_fresh.
      - by rewrite app_nil_r. }
    eapply (wp_copy_ctor (mk_state h2 (delete result o2))); [exact Hrep2|exact HbstS|done|
      apply delete_subseteq|apply lookup_delete_eq|exact Hb|].
    intros nilR TR s2 Hfwf2 Hk2. exists z, nilR, TR.
    pose proof Hfwf2 as ([_ Hh2 Hob2 _ _] & _). cbn [heap objs] in Hh2, Hob2.
    split; [by eapply fwf_rep_frame|]. split; [|split; [|split; [by eapply fwf_wf|done]]].
    - eapply lookup_weaken; [|exact Hob2]. rewrite lookup_delete_ne by done.
      unfold o2. lookup_solve.
    - eapply lookup_weaken; [|exact Hh2]. unfold h2. apply lookup_insert_eq. }
  apply wp_ok in Hwp as ([] & s' & Heq & z & nilR & TR & H).
  exists z, nilR, TR, s'. by split.
Qed.

End Copies.

Section SizeUpdates.

Context {Key : Type}.
Variable Key0 : Key.

(** X21: [updateSize(start, end, value)] adds [value], modulo 2^64, to the
    [size] member of every node on the parent path from [start] up to, but
    not including, [end], and changes nothing else; with [end] the sentinel
    the path runs up to the root. *)
Theorem updateSize_adds_along_path this nil np v (c1 c2 : ctx Key) t s :
  zrep Key0 this nil np (c1 ++ c2) t s ->
  exists s',
    updateSize (ctx_ptr nil (c1 ++ c2)) (ctx_ptr nil c2) v s = Ok tt s' /\
    zrep Key0 this nil np (map (frame_add v) c1 ++ c2) t s'.
Proof.
  intros Hz.
  assert (Hwp : wp (updateSize (ctx_ptr nil (c1 ++ c2)) (ctx_ptr nil c2) v) s (fun _ s' =>
     zrep Key0 this nil np (map (frame_add v) c1 ++ c2) t s')).
  { eapply (wp_updateSize Key0); [exact Hz|]. by intros s' Hz'. }
  apply wp_ok in Hwp as ([] & s' & Heq & Hz'). by exists s'.
Qed.

(** X22: [transplant(u, v)] with [v] the right (or left) child of [u] puts
    that child's subtree in the place of [u]: the parent of [u], or the
    [m_root] member when [u] is the root, now points to it, and its [parent]
    member names the parent of [u], also when the child is the sentinel. The
    cell of [u] itself is not written. *)
Theorem transplant_lifts_child this nil c u cu su ul ku ur s :
  zrep Key0 this nil nil c (PNode u cu su ul ku ur) s ->
  (exists s',
     transplant this u (rootp nil ur) s = Ok tt s' /\
     zrep Key0 this nil (match ur with PLeaf => ctx_ptr nil c | _ => nil end) c ur s' /\
     heap s' !! u = heap s !! u) /\
  (exists s',
     transplant this u (rootp nil ul) s = Ok tt s' /\
     zrep Key0 this nil (match ul with PLeaf => ctx_ptr nil c | _ => nil end) c ul s' /\
     heap s' !! u = heap s !! u).
Proof.
  intros Hz. split.
  - assert (Hwp : wp (transplant this u (rootp nil ur)) s (fun _ s' =>
       zrep Key0 this nil (match ur with PLeaf => ctx_ptr nil c | _ => nil end) c ur s' /\
       heap s' !! u = heap s !! u)).
    { destruct s as [h o]. unfold transplant.
      destruct ur as [|pr cr sr rl kr rr];
        destruct c as [|[p cp sp kp r|p cp sp l kp] up]; zrep_open Hz; wp_run.
      all: split; [zrep_close|cbn [heap]; repeat (rewrite lookup_insert_ne by ptr_ne); reflexivity]. }
    apply wp_ok in Hwp as ([] & s' & Heq & H). by exists s'.
  - assert (Hwp : wp (transplant this u (rootp nil ul)) s (fun _ s' =>
       zrep Key0 this nil (match ul with PLeaf => ctx_ptr nil c | _ => nil end) c ul s' /\
       heap s' !! u = heap s !! u)).
    { destruct s as [h o]. unfold transplant.
      destruct ul as [|pl cl sl ll kl lr];
        destruct c as [|[p cp sp kp r|p cp sp l kp] up]; zrep_open Hz; wp_run.
      all: split; [zrep_close|cbn [heap]; repeat (rewrite lookup_insert_ne by ptr_ne); reflexivity]. }
    apply wp_ok in Hwp as ([] & s' & Heq & H). by exists s'.
Qed.

(** X23: dereferencing [end()] does not fail: it reads the key of the
    sentinel, which is the default-constructed key. *)
Theorem deref_end_reads_default_key this nil T s :
  rep Key0 this nil T s ->
  exists e, end_ this s = Ok e s /\ it_deref e s = Ok Key0 s.
Proof.
  intros Hrep. exists (mk_it this nil). split; [by eapply end_rep|].
  destruct Hrep as [_ Hnil _ _ Hnd]. apply NoDup_cons in Hnd as [Hnull _].
  assert (Hne : nil <> null) by (intros ->; apply Hnull; left).
  unfold it_deref, get_key, bind, load, ret. cbn [m_node].
  rewrite ptr_eqb_ne by done. by rewrite Hnil.
Qed.

End SizeUpdates.

(** * Ranks across insertions and removals *)

Section RankShifts.

Context {Key : Type}.
Variable CMP : Key -> Key -> bool.
Variable Key0 : Key.
Hypothesis Hswo : StrictWeakOrder CMP.
Implicit Types (h : gmap N (node Key)) (t T : ptree Key) (c : ctx Key) (s : state Key).

Lemma equal_cmp_eq a b x : equal CMP a b = true -> CMP a x = CMP b x.
Proof.
  intros Hab. destruct (CMP a x) eqn:E1, (CMP b x) eqn:E2; try done.
  - by rewrite (equal_cmp_r CMP Hswo a b x Hab E1) in E2.
  - rewrite (equal_sym CMP) in Hab. by rewrite (equal_cmp_r CMP Hswo b a x Hab E2) in E1.
Qed.


Lemma count_less_del_list x key l :
  sorted CMP l ->
  count_less CMP x (del_list CMP key l)
  = count_less CMP x l - (if mem_list CMP key l && CMP key x then 1 else 0).
Proof.
  induction 1 as [|y l Hs IH Hy]; cbn [del_list count_less]; [cbn; lia|].
  destruct (CMP key y) eqn:E1; [|destruct (CMP y key) eqn:E2].
  - rewrite (mem_list_none CMP key (y :: l)); [cbn [count_less andb]; lia|].
    constructor; [done|]. eapply Forall_impl; [exact Hy|]. intros z Hz.
    by apply (cmp_trans CMP Hswo key y z).
  - cbn [count_less]. rewrite IH. unfold mem_list. cbn [existsb].
    unfold equal at 2. rewrite E1, E2. cbn [negb andb orb]. lia.
  - assert (Hky : equal CMP key y = true) by (unfold equal; by rewrite E1, E2).
    rewrite (mem_list_found CMP key y l Hky). cbn [andb].
    rewrite (equal_cmp_eq key y x Hky). destruct (CMP y x); lia.
Qed.


(** X25: on a well-formed set, [erase(key)] shifts the ranks as a sorted
    sequence does: afterwards [order_of_key(x)] is one less than before when
    a key equivalent to [key] was stored and [key] is less than [x], and as
    before otherwise. *)
Theorem erase_shifts_ranks this nil T s key :
  wf CMP Key0 this nil T s -> tsize T < SIZE_MAX1 ->
  exists it s',
    erase CMP this key s = Ok it s' /\
    forall x n, order_of_key CMP this x s = Ok n s ->
      order_of_key CMP this x s'
      = Ok (n - (if mem_list CMP key (keys T) && CMP key x then 1 else 0)) s'.
Proof.
  intros Hwf Hb. pose proof Hwf as (Hrep & Hbst & Hsz & Hrb).
  pose proof (sizes_ok_nonneg _ Hsz) as Hpos.
  destruct (erase_cases CMP Key0 Hswo this nil T s key Hwf Hb)
    as [(Hm & He)|(Hm & l1 & z & k & l2 & T' & s' & He & Hn & Hk & Hwf' & Hn' & Hk' & Hts)].
  - exists (mk_it this nil), s. split; [done|]. intros x n Hx. rewrite Hx, Hm.
    cbn [andb]. f_equal. lia.
  - exists (mk_it this (hd nil (map fst l2))), s'. split; [done|]. intros x n Hx.
    destruct Hwf' as (Hrep' & Hbst' & Hsz' & Hrb').
    rewrite (order_of_key_rep CMP Key0 Hswo this nil T s x Hrep Hbst Hsz) in Hx by lia.
    injection Hx as <-.
    rewrite (order_of_key_rep CMP Key0 Hswo this nil T' s' x Hrep' Hbst' Hsz') by lia.
    rewrite Hk', count_less_del_list by (by apply (bst_sorted CMP Hswo)). done.
Qed.

(** X26: assigning a set to itself, by copy or by move, leaves it as it is;
    the set returned by value is a well-formed copy holding its keys. *)
Theorem self_assign_keeps_set this result nil T s :
  rep Key0 this nil T s -> bst CMP T -> result <> this ->
  Z.of_nat (length (keys T)) < SIZE_MAX1 ->
  exists nilR TR s',
    copy_assign CMP Key0 this this result s = Ok tt s' /\
    move_assign CMP Key0 this this result s = Ok tt s' /\
    rep Key0 this nil T s' /\ heap s ⊆ heap s' /\
    wf CMP Key0 result nilR TR s' /\ keys TR = keys T.
Proof.
  intros Hrep Hbst Hne Hb.
  destruct (copy_ctor_rep CMP Key0 Hswo result this nil T s Hrep Hbst Hne Hb)
    as (nilR & TR & s' & Hc & Hwf & Hk & Hrep' & Hh).
  exists nilR, TR, s'. unfold copy_assign, move_assign. rewrite N.eqb_refl. done.
Qed.

Lemma del_ins_list key l :
  mem_list CMP key l = false -> del_list CMP key (ins_list CMP key l) = l.
Proof.
  unfold mem_list. induction l as [|y l IH]; cbn [ins_list existsb].
  - intros _. cbn [del_list]. by rewrite (cmp_irrefl CMP Hswo).
  - intros [Hy Hl]%orb_false_elim. destruct (CMP key y) eqn:E1.
    + cbn [del_list]. by rewrite (cmp_irrefl CMP Hswo).
    + destruct (CMP y key) eqn:E2.
      * cbn [del_list]. by rewrite E1, E2, IH.
      * unfold equal in Hy. by rewrite E1, E2 in Hy.
Qed.

(** X27: on a well-formed set without a key equivalent to [key],
    [insert(key)] followed by [erase(key)] gives back a well-formed set with
    the keys and the [size()] it had, on the same sentinel. *)
Theorem insert_then_erase_restores_keys this nil T s key :
  wf CMP Key0 this nil T s -> tsize T + 1 < SIZE_MAX1 ->
  mem_list CMP key (keys T) = false ->
  exists r1 s1 r2 T2 s2 n,
    insert CMP this key s = Ok r1 s1 /\ erase CMP this key s1 = Ok r2 s2 /\
    wf CMP Key0 this nil T2 s2 /\ keys T2 = keys T /\
    size_ this s = Ok n s /\ size_ this s2 = Ok n s2.
Proof.
  intros Hwf Hb Hmem. pose proof Hwf as (Hrep & _).
  destruct (insert_cases CMP Key0 Hswo this nil T s key Hwf Hb)
    as [(Hm & _)|(_ & l1 & l2 & z & T1 & s1 & Hi & Hwf1 & Hn & Hn1 & Hk1 & Hts1)];
    [congruence|].
  assert (Hb1 : tsize T1 < SIZE_MAX1) by lia.
  assert (Hmem1 : mem_list CMP key (keys T1) = true).
  { rewrite Hk1, (mem_ins_list CMP Hswo). by rewrite (equal_refl CMP Hswo). }
  destruct (erase_cases CMP Key0 Hswo this nil T1 s1 key Hwf1 Hb1)
    as [(Hm & _)|(_ & k1 & z' & k & k2 & T2 & s2 & He & _ & _ & Hwf2 & _ & Hk2 & Hts2)];
    [congruence|].
  exists (mk_it this z, true), s1, (mk_it this (hd nil (map fst k2))), T2, s2, (tsize T).
  split; [done|]. split; [done|]. split; [done|].
  split; [by rewrite Hk2, Hk1, del_ins_list|].
  destruct Hwf2 as (Hrep2 & _). split; [by apply (size_rep Key0 this nil)|].
  rewrite (size_rep Key0 this nil T2 s2 Hrep2). f_equal. lia.
Qed.

End RankShifts.

(** ** Two sets side by side: {1, 2, 3} at object 0 and {9} at object 5 *)

Definition two_heap : gmap N (node Z) :=
  <[6%N := mk_node 0 6 6 6 0 BLACK]> (<[7%N := mk_node 1 6 6 6 9 BLACK]> ex_heap).

Definition two_state : state Z :=
  mk_state two_heap (<[5%N := mk_set 6 7]> (<[0%N := mk_set 1 2]> ∅)).

Definition other_tree : ptree Z := PNode 7 BLACK 1 PLeaf 9 PLeaf.

Lemma two_rep_this : rep 0 0%N 1%N ex_tree two_state.
Proof.
  split; cbn.
  - reflexivity.
  - reflexivity.
  - exact I.
  - repeat split; reflexivity.
  - apply (bool_decide_unpack _). vm_compute. exact I.
Defined.

Lemma two_rep_other : rep 0 5%N 6%N other_tree two_state.
Proof.
  split; cbn.
  - reflexivity.
  - reflexivity.
  - exact I.
  - repeat split; reflexivity.
  - apply (bool_decide_unpack _). vm_compute. exact I.
Defined.

Lemma two_apart : forall p, p ∈ 6%N :: ptrs other_tree -> p ∉ 1%N :: ptrs ex_tree.
Proof.
  intros p Hp Hq. cbn in Hp, Hq.
  assert (Hall : Forall (fun q => q ∉ [1%N; 3%N; 2%N; 4%N]) [6%N; 7%N]).
  { apply (bool_decide_unpack _). vm_compute. exact I. }
  rewrite Forall_forall in Hall. exact (Hall p Hp Hq).
Defined.

Lemma insert_leaves_rest_alone_witness :
  exists res s',
    insert Z.ltb 0%N 5 ex_state = Ok res s' /\
    (forall p v, p ∉ 1%N :: ptrs ex_tree -> heap ex_state !! p = Some v ->
       heap s' !! p = Some v) /\
    (forall ob v, ob <> 0%N -> objs ex_state !! ob = Some v -> objs s' !! ob = Some v) /\
    (forall other nilO TO, other <> 0%N -> rep 0 other nilO TO ex_state ->
       (forall p, p ∈ nilO :: ptrs TO -> p ∉ 1%N :: ptrs ex_tree) -> rep 0 other nilO TO s').
Proof.
  apply (insert_leaves_rest_alone Z.ltb 0 Zltb_swo 0%N 1%N ex_tree ex_state 5).
  - exact ex_wf.
  - reflexivity.
Defined.

Lemma copy_ctor_copies_witness :
  exists nil T s',
    copy_ctor Z.ltb 0 5%N 0%N ex_state = Ok tt s' /\
    wf Z.ltb 0 5%N nil T s' /\ keys T = keys ex_tree /\
    iterate 5%N s' = Ok (keys ex_tree) s' /\
    rep 0 0%N 1%N ex_tree s' /\
    heap ex_state ⊆ heap s' /\
    (forall p, p ∈ nil :: ptrs T -> heap ex_state !! p = None).
Proof.
  apply (copy_ctor_copies Z.ltb 0 Zltb_swo 5%N 0%N 1%N ex_tree ex_state).
  - exact ex_rep.
  - exact ex_bst.
  - discriminate.
  - reflexivity.
Defined.

Lemma copy_assign_merges_witness :
  exists T1 nilR TR s',
    copy_assign Z.ltb 0 0%N 5%N 9%N two_state = Ok tt s' /\
    wf Z.ltb 0 0%N 1%N T1 s' /\
    (forall x, mem_list Z.ltb x (keys T1)
               = mem_list Z.ltb x (keys ex_tree) || mem_list Z.ltb x (keys other_tree)) /\
    rep 0 5%N 6%N other_tree s' /\
    wf Z.ltb 0 9%N nilR TR s' /\ keys TR = keys T1.
Proof.
  apply (copy_assign_merges Z.ltb 0 Zltb_swo 0%N 5%N 9%N 1%N ex_tree 6%N other_tree two_state).
  - exact (conj two_rep_this (conj ex_bst (conj ex_sizes ex_red_black))).
  - exact two_rep_other.
  - discriminate.
  - discriminate.
  - discriminate.
  - exact two_apart.
  - reflexivity.
Defined.

Lemma move_assign_transfers_witness :
  exists z nilR TR s',
    move_assign Z.ltb 0 0%N 5%N 9%N two_state = Ok tt s' /\
    rep 0 0%N 6%N other_tree s' /\
    objs s' !! 5%N = Some (mk_set z z) /\
    heap s' !! z = Some (mk_node 0 null null null 0 BLACK) /\
    wf Z.ltb 0 9%N nilR TR s' /\ keys TR = keys other_tree.
Proof.
  apply (move_assign_transfers Z.ltb 0 Zltb_swo 0%N 5%N 9%N 1%N ex_tree 6%N other_tree
           two_state).
  - exact two_rep_this.
  - exact two_rep_other.
  - cbn. repeat split; constructor.
  - discriminate.
  - discriminate.
  - discriminate.
  - exact two_apart.
  - reflexivity.
Defined.

Lemma updateSize_adds_along_path_witness :
  exists s',
    updateSize (ctx_ptr 1%N ([FL 2%N BLACK 3 2 (PNode 4 RED 1 PLeaf 3 PLeaf)] ++ []))
      (ctx_ptr 1%N ([] : ctx Z)) 1 ex_state = Ok tt s' /\
    zrep 0 0%N 1%N 1%N
      (map (frame_add 1) [FL 2%N BLACK 3 2 (PNode 4 RED 1 PLeaf 3 PLeaf)] ++ [])
      (PNode 3 RED 1 PLeaf 1 PLeaf) s'.
Proof.
  apply (updateSize_adds_along_path 0 0%N 1%N 1%N 1
           [FL 2%N BLACK 3 2 (PNode 4 RED 1 PLeaf 3 PLeaf)] []
           (PNode 3 RED 1 PLeaf 1 PLeaf) ex_state).
  apply zrep_step. exact ex_rep.
Defined.

Lemma transplant_lifts_child_witness :
  (exists s',
     transplant 0%N 2%N (rootp 1%N (PNode 4 RED 1 PLeaf 3 PLeaf)) ex_state = Ok tt s' /\
     zrep 0 0%N 1%N
       (match PNode 4 RED 1 PLeaf 3 PLeaf with PLeaf => ctx_ptr 1%N ([] : ctx Z) | _ => 1%N end)
       [] (PNode 4 RED 1 PLeaf 3 PLeaf) s' /\
     heap s' !! 2%N = heap ex_state !! 2%N) /\
  (exists s',
     transplant 0%N 2%N (rootp 1%N (PNode 3 RED 1 PLeaf 1 PLeaf)) ex_state = Ok tt s' /\
     zrep 0 0%N 1%N
       (match PNode 3 RED 1 PLeaf 1 PLeaf with PLeaf => ctx_ptr 1%N ([] : ctx Z) | _ => 1%N end)
       [] (PNode 3 RED 1 PLeaf 1 PLeaf) s' /\
     heap s' !! 2%N = heap ex_state !! 2%N).
Proof.
  apply (transplant_lifts_child 0 0%N 1%N [] 2%N BLACK 3 (PNode 3 RED 1 PLeaf 1 PLeaf) 2
           (PNode 4 RED 1 PLeaf 3 PLeaf) ex_state).
  exact ex_rep.
Defined.

Lemma deref_end_reads_default_key_witness :
  exists e, end_ 0%N ex_state = Ok e ex_state /\ it_deref e ex_state = Ok 0 ex_state.
Proof.
  apply (deref_end_reads_default_key 0 0%N 1%N ex_tree ex_state).
  exact ex_rep.
Defined.


Lemma erase_shifts_ranks_witness :
  exists it s',
    erase Z.ltb 0%N 1 ex_state = Ok it s' /\
    forall x n, order_of_key Z.ltb 0%N x ex_state = Ok n ex_state ->
      order_of_key Z.ltb 0%N x s'
      = Ok (n - (if mem_list Z.ltb 1 (keys ex_tree) && (1 <? x) then 1 else 0)) s'.
Proof.
  apply (erase_shifts_ranks Z.ltb 0 Zltb_swo 0%N 1%N ex_tree ex_state 1).
  - exact ex_wf.
  - reflexivity.
Defined.

Lemma self_assign_keeps_set_witness :
  exists nilR TR s',
    copy_assign Z.ltb 0 0%N 0%N 9%N ex_state = Ok tt s' /\
    move_assign Z.ltb 0 0%N 0%N 9%N ex_state = Ok tt s' /\
    rep 0 0%N 1%N ex_tree s' /\ heap ex_state ⊆ heap s' /\
    wf Z.ltb 0 9%N nilR TR s' /\ keys TR = keys ex_tree.
Proof.
  apply (self_assign_keeps_set Z.ltb 0 Zltb_swo 0%N 9%N 1%N ex_tree ex_state).
  - exact ex_rep.
  - exact ex_bst.
  - discriminate.
  - reflexivity.
Defined.

Lemma insert_then_erase_restores_keys_witness :
  exists r1 s1 r2 T2 s2 n,
    insert Z.ltb 0%N 5 ex_state = Ok r1 s1 /\ erase Z.ltb 0%N 5 s1 = Ok r2 s2 /\
    wf Z.ltb 0 0%N 1%N T2 s2 /\ keys T2 = keys ex_tree /\
    size_ 0%N ex_state = Ok n ex_state /\ size_ 0%N s2 = Ok n s2.
Proof.
  apply (insert_then_erase_restores_keys Z.ltb 0 Zltb_swo 0%N 1%N ex_tree ex_state 5).
  - exact ex_wf.
  - reflexivity.
  - reflexivity.
Defined.

(** * Erasure next to other objects *)

Ltac next_state_fr Hz :=
  let s' := fresh "s" in let Hz' := fresh "Hz" in
  intros s' Hz; destruct s' as [? ?]; pose proof Hz as Hz'; fzrep_open Hz'.

(** Forget the facts on a state that is left behind; what is known of the
    frame stays. *)
Ltac clear_state_fr :=
  repeat match goal with
  | H : ?m !! _ = _ |- _ =>
      lazymatch m with
      | heap _ => fail
      | objs _ => fail
      | _ => clear H
      end
  | H : shape _ _ _ _ |- _ => clear H
  | H : ctx_shape _ _ _ _ |- _ => clear H
  | H : _ <> _ |- _ => clear H
  | H : _ ∉ _ |- _ => clear H
  | H : disj _ _ |- _ => clear H
  | H : NoDup _ |- _ => clear H
  | H : _ ⊆ _ |- _ => clear H
  end.

Section FramedErase.

Context {Key : Type}.
Variable Key0 : Key.
Variable F : state Key.
Implicit Types (h : gmap N (node Key)) (t T w : ptree Key) (c up lc : ctx Key) (f : frame Key).

Notation "x <- m ;; k" := (bind m (fun x => k))
  (at level 100, m at next level, right associativity).
Notation "m ;; k" := (bind m (fun _ => k))
  (at level 100, right associativity).

Lemma wp_fixup_erase_left_tail_fr this nil np up p cp sp kp pw cw sw wl kw wr t s
    (Q : ptr + ptr -> state Key -> Prop) :
  fzrep Key0 F this nil np (FL p cp sp kp (PNode pw cw sw wl kw wr) :: up) t s ->
  (t = PLeaf -> np = p) ->
  (forall c' t' s',
     del_fix_left p cp sp kp (PNode pw cw sw wl kw wr) up t = Some (c', t') ->
     fzrep Key0 F this nil np c' t' s' -> Q (inl (rootp nil t')) s') ->
  wp (fixup_erase_left_tail this (rootp nil t) pw) s Q.
Proof.
  intros Hz Hnp HQ. destruct s as [h o]. unfold fixup_erase_left_tail.
  unfold del_fix_left in HQ.
  destruct (tcolor wl) eqn:Hwl; destruct (tcolor wr) eqn:Hwr; cbn [andb] in HQ.
  - (* both children of the sibling black *)
    with_focus (fzrep_zrep _ _ _ _ _ _ _ _ Hz) Hnp. fzrep_open Hz. er_run Hwl Hwr.
    apply (HQ _ _ _ eq_refl). fzrep_close.
  - (* right child red *)
    destruct wr as [|pr cr sr rl kr rr]; [discriminate|]. cbn in Hwr. subst cr.
    with_focus (fzrep_zrep _ _ _ _ _ _ _ _ Hz) Hnp. fzrep_open Hz. er_run Hwl Hwr.
    eapply (wp_rotate_left_fr Key0 F this nil np up p BLACK sp t kp pw cp sw wl kw
              (PNode pr BLACK sr rl kr rr)); [fzrep_close|].
    next_state_fr Hz1. wp_run. cbn [set_tcolor] in HQ.
    specialize (fun s1 => HQ _ _ s1 eq_refl). rewrite <- ctx_root_plug in HQ. cbn [rootp] in HQ.
    apply HQ. by apply (fzrep_plug Key0 F this nil np up).
  - (* left child red, right child black *)
    destruct wl as [|pl cl sl ll kl lr]; [discriminate|]. cbn in Hwl. subst cl.
    with_focus (fzrep_zrep _ _ _ _ _ _ _ _ Hz) Hnp. pose proof Hz as Hz'. fzrep_open Hz'. er_run Hwl Hwr.
    eapply (wp_rotate_right_fr Key0 F this nil np (FR p cp sp t kp :: up) pw RED sw ll kw
              pl BLACK sl lr kl wr); [fzrep_close|].
    clear_state_fr. intros [h1 o1] Hz1.
    assert (Hnp1 : t = PLeaf -> np = ctx_ptr nil (FL p cp sp kp
       (PNode pl BLACK (rot_up sl wr) ll kl (PNode pw RED (rot_down sw ll) lr kw wr)) :: up))
      by exact Hnp.
    apply fzrep_step in Hz1. cbn [plug1] in Hz1.
    apply (proj2 (fzrep_step Key0 F this nil np (FL p cp sp kp _) up t _)) in Hz1.
    with_focus (fzrep_zrep _ _ _ _ _ _ _ _ Hz1) Hnp1. pose proof Hz1 as Hz2. fzrep_open Hz2.
    er_run Hwl Hwr.
    cbn [set_tcolor] in HQ.
    specialize (fun s1 => HQ _ _ s1 eq_refl); rewrite <- ctx_root_plug in HQ; cbn [rootp] in HQ.
    eapply (wp_rotate_left_fr Key0 F this nil np up p BLACK sp t kp pl cp (rot_up sl wr) ll kl
              (PNode pw BLACK (rot_down sw ll) lr kw wr)); [fzrep_close|].
    next_state_fr Hz3. wp_run.
    apply HQ. by apply (fzrep_plug Key0 F this nil np up).
  - (* both children red *)
    destruct wr as [|pr cr sr rl kr rr]; [discriminate|]. cbn in Hwr. subst cr.
    with_focus (fzrep_zrep _ _ _ _ _ _ _ _ Hz) Hnp. fzrep_open Hz. er_run Hwl Hwr.
    eapply (wp_rotate_left_fr Key0 F this nil np up p BLACK sp t kp pw cp sw wl kw
              (PNode pr BLACK sr rl kr rr)); [fzrep_close|].
    next_state_fr Hz1. wp_run. cbn [set_tcolor] in HQ.
    specialize (fun s1 => HQ _ _ s1 eq_refl). rewrite <- ctx_root_plug in HQ. cbn [rootp] in HQ.
    apply HQ. by apply (fzrep_plug Key0 F this nil np up).
Qed.

Lemma wp_fixup_erase_right_tail_fr this nil np up p cp sp kp pw cw sw wl kw wr t s
    (Q : ptr + ptr -> state Key -> Prop) :
  fzrep Key0 F this nil np (FR p cp sp (PNode pw cw sw wl kw wr) kp :: up) t s ->
  (t = PLeaf -> np = p) ->
  (forall c' t' s',
     del_fix_right p cp sp (PNode pw cw sw wl kw wr) kp up t = Some (c', t') ->
     fzrep Key0 F this nil np c' t' s' -> Q (inl (rootp nil t')) s') ->
  wp (fixup_erase_right_tail this (rootp nil t) pw) s Q.
Proof.
  intros Hz Hnp HQ. destruct s as [h o]. unfold fixup_erase_right_tail.
  unfold del_fix_right in HQ.
  destruct (tcolor wr) eqn:Hwr; destruct (tcolor wl) eqn:Hwl; cbn [andb] in HQ.
  - (* both children of the sibling black *)
    with_focus (fzrep_zrep _ _ _ _ _ _ _ _ Hz) Hnp. fzrep_open Hz. er_run Hwl Hwr.
    apply (HQ _ _ _ eq_refl). fzrep_close.
  - (* left child red *)
    destruct wl as [|pl cl sl ll kl lr]; [discriminate|]. cbn in Hwl. subst cl.
    with_focus (fzrep_zrep _ _ _ _ _ _ _ _ Hz) Hnp. fzrep_open Hz. er_run Hwl Hwr.
    eapply (wp_rotate_right_fr Key0 F this nil np up p BLACK sp (PNode pl BLACK sl ll kl lr) kp
              pw cp sw wr kw t); [fzrep_close|].
    next_state_fr Hz1. wp_run. cbn [set_tcolor] in HQ.
    specialize (fun s1 => HQ _ _ s1 eq_refl). rewrite <- ctx_root_plug in HQ. cbn [rootp] in HQ.
    apply HQ. by apply (fzrep_plug Key0 F this nil np up).
  - (* right child red, left child black *)
    destruct wr as [|pr cr sr rl kr rr]; [discriminate|]. cbn in Hwr. subst cr.
    with_focus (fzrep_zrep _ _ _ _ _ _ _ _ Hz) Hnp. pose proof Hz as Hz'. fzrep_open Hz'. er_run Hwl Hwr.
    eapply (wp_rotate_left_fr Key0 F this nil np (FL p cp sp kp t :: up) pw RED sw wl kw
              pr BLACK sr rl kr rr); [fzrep_close|].
    clear_state_fr. intros [h1 o1] Hz1.
    assert (Hnp1 : t = PLeaf -> np = ctx_ptr nil (FR p cp sp
       (PNode pr BLACK (rot_up sr wl) (PNode pw RED (rot_down sw rr) wl kw rl) kr rr) kp :: up))
      by exact Hnp.
    apply fzrep_step in Hz1. cbn [plug1] in Hz1.
    apply (proj2 (fzrep_step Key0 F this nil np (FR p cp sp _ kp) up t _)) in Hz1.
    with_focus (fzrep_zrep _ _ _ _ _ _ _ _ Hz1) Hnp1. pose proof Hz1 as Hz2. fzrep_open Hz2.
    er_run Hwl Hwr.
    cbn [set_tcolor] in HQ.
    specialize (fun s1 => HQ _ _ s1 eq_refl); rewrite <- ctx_root_plug in HQ; cbn [rootp] in HQ.
    eapply (wp_rotate_right_fr Key0 F this nil np up p BLACK sp
              (PNode pw BLACK (rot_down sw rr) wl kw rl) kp pr cp (rot_up sr wl) rr kr t);
      [fzrep_close|].
    next_state_fr Hz3. wp_run.
    apply HQ. by apply (fzrep_plug Key0 F this nil np up).
  - (* both children red *)
    destruct wl as [|pl cl sl ll kl lr]; [discriminate|]. cbn in Hwl. subst cl.
    with_focus (fzrep_zrep _ _ _ _ _ _ _ _ Hz) Hnp. fzrep_open Hz. er_run Hwl Hwr.
    eapply (wp_rotate_right_fr Key0 F this nil np up p BLACK sp (PNode pl BLACK sl ll kl lr) kp
              pw cp sw wr kw t); [fzrep_close|].
    next_state_fr Hz1. wp_run. cbn [set_tcolor] in HQ.
    specialize (fun s1 => HQ _ _ s1 eq_refl). rewrite <- ctx_root_plug in HQ. cbn [rootp] in HQ.
    apply HQ. by apply (fzrep_plug Key0 F this nil np up).
Qed.

Lemma wp_fixup_erase_body_fr this nil np c t s (Q : ptr + ptr -> state Key -> Prop) :
  fzrep Key0 F this nil np c t s ->
  (t = PLeaf -> np = ctx_ptr nil c) ->
  del_fix_pre c t ->
  (forall c' t' s', del_fix_step c t = Some (c', t') ->
     fzrep Key0 F this nil np c' t' s' -> Q (inl (rootp nil t')) s') ->
  (del_fix_step c t = None -> Q (inr (rootp nil t)) s) ->
  wp (fixup_erase_body this (rootp nil t)) s Q.
Proof.
  intros Hz Hnp Hpre Hstep Hdone. destruct s as [h o]. rewrite fixup_erase_body_eq.
  destruct c as [|fp up].
  { fzrep_open Hz. wp_run. by apply Hdone. }
  assert (Hne : rootp nil t <> ctx_root up (frame_ptr fp)).
  { pose proof Hz as Hz'.
    destruct fp; fzrep_open Hz'; cbn [frame_ptr];
      apply rootp_ctx_root_ne; solve [ptr_ne | done | by apply disj_sym | auto]. }
  cbn [del_fix_step] in Hstep, Hdone.
  destruct (tcolor t) eqn:Ht; cbn [negb] in Hstep, Hdone.
  2: { with_focus (fzrep_zrep _ _ _ _ _ _ _ _ Hz) Hnp. destruct fp; fzrep_open Hz; wp_run; rewrite ?Ht; wp_run;
       by apply Hdone. }
  clear Hdone.
  destruct fp as [p cp sp kp w|p cp sp w kp]; cbn [del_fix_pre] in Hpre;
    specialize (Hpre Ht); destruct w as [|pw [|] sw wl kw wr]; try done.
  - (* left child, black sibling *)
    with_focus (fzrep_zrep _ _ _ _ _ _ _ _ Hz) Hnp. pose proof Hz as Hz'. fzrep_open Hz'. wp_run. rewrite ?Ht. wp_run.
    by eapply wp_fixup_erase_left_tail_fr.
  - (* left child, red sibling *)
    destruct wl as [|pl cl sl ll kl lr]; [by specialize (Hpre eq_refl)|]. clear Hpre.
    with_focus (fzrep_zrep _ _ _ _ _ _ _ _ Hz) Hnp. pose proof Hz as Hz'. fzrep_open Hz'. wp_run. rewrite ?Ht. wp_run.
    eapply (wp_rotate_left_fr Key0 F this nil np up p RED sp t kp pw BLACK sw
              (PNode pl cl sl ll kl lr) kw wr); [fzrep_close|].
    clear_state_fr. intros [h1 o1] Hz1.
    apply (proj2 (fzrep_step Key0 F this nil np (FL pw BLACK _ kw wr) up _ _)) in Hz1.
    apply (proj2 (fzrep_step Key0 F this nil np (FL p RED _ kp _) _ t _)) in Hz1.
    with_focus (fzrep_zrep _ _ _ _ _ _ _ _ Hz1) Hnp. pose proof Hz1 as Hz2. fzrep_open Hz2. wp_run.
    by eapply wp_fixup_erase_left_tail_fr.
  - (* right child, black sibling *)
    with_focus (fzrep_zrep _ _ _ _ _ _ _ _ Hz) Hnp. pose proof Hz as Hz'. fzrep_open Hz'. wp_run. rewrite ?Ht. wp_run.
    by eapply wp_fixup_erase_right_tail_fr.
  - (* right child, red sibling *)
    destruct wr as [|pr cr sr rl kr rr]; [by specialize (Hpre eq_refl)|]. clear Hpre.
    with_focus (fzrep_zrep _ _ _ _ _ _ _ _ Hz) Hnp. pose proof Hz as Hz'. fzrep_open Hz'. wp_run. rewrite ?Ht. wp_run.
    eapply (wp_rotate_right_fr Key0 F this nil np up p RED sp wl kp pw BLACK sw
              (PNode pr cr sr rl kr rr) kw t); [fzrep_close|].
    clear_state_fr. intros [h1 o1] Hz1.
    apply (proj2 (fzrep_step Key0 F this nil np (FR pw BLACK _ wl kw) up _ _)) in Hz1.
    apply (proj2 (fzrep_step Key0 F this nil np (FR p RED _ _ kp) _ t _)) in Hz1.
    with_focus (fzrep_zrep _ _ _ _ _ _ _ _ Hz1) Hnp. pose proof Hz1 as Hz2. fzrep_open Hz2. wp_run.
    by eapply wp_fixup_erase_right_tail_fr.
Qed.

Lemma wp_blacken_focus_fr this nil np c t s (Q : unit -> state Key -> Prop) :
  fzrep Key0 F this nil np c t s ->
  (forall s', fzrep Key0 F this nil np c (set_tcolor BLACK t) s' -> Q tt s') ->
  wp (set_color (rootp nil t) BLACK) s Q.
Proof.
  intros Hz HQ. destruct s as [h o].
  destruct t as [|p cp sp l k r]; pose proof Hz as Hz'; fzrep_open Hz'; wp_run; apply HQ;
    cbn [set_tcolor]; fzrep_close.
Qed.

Lemma wp_fixup_erase_fr this nil np c t s n (Q : unit -> state Key -> Prop) :
  fzrep Key0 F this nil np c t s -> (t = PLeaf -> np = ctx_ptr nil c) -> del_inv n c t ->
  sizes_ok (plug c t) -> tsize (plug c t) < SIZE_MAX1 ->
  (forall T' s',
     fzrep Key0 F this nil np [] T' s' -> red_black T' -> nodes T' = nodes (plug c t) ->
     sizes_ok T' -> tsize T' = tsize (plug c t) -> Q tt s') ->
  wp (fixup_erase this (rootp nil t)) s Q.
Proof.
  intros Hz Hnp Hinv Hsz Hb HQ. unfold fixup_erase. destruct s as [h o]. wp_run.
  eapply wp_loop with (n := del_measure c t) (I := fun m x s' =>
    exists c' t' n', fzrep Key0 F this nil np c' t' s' /\ x = rootp nil t' /\
      (t' = PLeaf -> np = ctx_ptr nil c') /\ del_inv n' c' t' /\
      nodes (plug c' t') = nodes (plug c t) /\ sizes_ok (plug c' t') /\
      tsize (plug c' t') = tsize (plug c t) /\ m = del_measure c' t').
  - intros m x s' (c' & t' & n' & Hz' & -> & Hnp' & Hinv' & Hnodes & Hsz' & Hts & ->).
    eapply wp_fixup_erase_body_fr; [exact Hz'|exact Hnp'|by eapply del_inv_pre| |].
    + intros c'' t'' s'' Hstep Hz''.
      destruct (del_fix_step_inv _ _ _ _ _ Hinv' Hstep) as ((n'' & Hinv'') & Hlen).
      assert (Hb' : tsize (plug c' t') < SIZE_MAX1) by (by rewrite Hts).
      destruct (del_fix_step_sizes _ _ _ _ Hstep Hsz' Hb') as (Hsz'' & Hts'').
      exists (del_measure c'' t''). split; [done|]. exists c'', t'', n''.
      split; [done|]. split; [done|].
      split; [intros E; by apply del_fix_step_node in Hstep|]. split; [done|].
      split; [by rewrite (del_fix_step_nodes _ _ _ _ Hstep)|].
      split; [done|]. split; [|done]. by rewrite Hts''.
    + intros Hnone. eapply wp_blacken_focus_fr; [exact Hz'|].
      intros s'' Hz''. apply fzrep_plug in Hz''.
      assert (Hsz2 : sizes_ok (plug c' (set_tcolor BLACK t')) /\
                     tsize (plug c' (set_tcolor BLACK t')) = tsize (plug c' t')).
      { rewrite !tsize_plug, tsize_set_tcolor. split; [|done].
        apply sizes_ok_plug. rewrite sizes_ok_set_tcolor, tsize_set_tcolor.
        by apply sizes_ok_plug. }
      destruct Hsz2 as (Hsz2 & Hts2).
      eapply HQ; [exact Hz''| | | |].
      * by eapply del_fix_done.
      * by rewrite nodes_plug, nodes_set_tcolor, <- nodes_plug.
      * done.
      * by rewrite Hts2.
  - exists c, t, n. by repeat (split; [done|]).
  - pose proof (fuel_enough _ _ _ _ _ _ _ (fzrep_zrep _ _ _ _ _ _ _ _ Hz)) as Hf.
    pose proof (height_plug_ge c t). cbn [heap] in *.
    assert (del_measure c t <= S (length c))%nat; [|lia].
    unfold del_measure. destruct (tcolor t); [destruct c; simpl|]; lia.
Qed.

Lemma wp_erase_splice_leaf_fr this nil c z cz sz zl zk zr s
    (Q : ptr * bool -> state Key -> Prop) :
  fzrep Key0 F this nil nil c (PNode z cz sz zl zk zr) s ->
  zl = PLeaf \/ zr = PLeaf ->
  (forall yoc c' t' np s',
     splice c (PNode z cz sz zl zk zr) yoc c' t' ->
     fzrep Key0 F this nil np c' t' s' -> (t' = PLeaf -> np = ctx_ptr nil c') ->
     is_Some (heap s' !! z) -> Q (rootp nil t', yoc) s') ->
  wp (erase_splice this z cz (rootp nil zl) nil) s Q.
Proof.
  intros Hz Hleaf HQ. destruct s as [h o]. unfold erase_splice, transplant.
  destruct zl as [|pl cl sl ll kl lr].
  - clear Hleaf.
    specialize (fun np s' => HQ _ _ _ np s' (splice_no_left _ _ _ _ _ _)).
    destruct zr as [|pr cr sr rl kr rr];
      destruct c as [|[p cp sp kp r|p cp sp l kp] up]; fzrep_open Hz; wp_run.
    all: eapply HQ; [fzrep_close | cbn; done | eexists; cbn [heap]; lookup_solve].
  - destruct Hleaf as [Hl | ->]; [done|].
    assert (Hne : PNode pl cl sl ll kl lr <> PLeaf) by done.
    specialize (fun np s' => HQ _ _ _ np s' (splice_no_right _ _ _ _ _ _ Hne)).
    destruct c as [|[p cp sp kp r|p cp sp l kp] up]; fzrep_open Hz; wp_run.
    all: eapply HQ; [fzrep_close | cbn; done | eexists; cbn [heap]; lookup_solve].
Qed.

(** The first half of the deep case: the successor [y], a left child without
    left child, gives its place to its right subtree. *)
Lemma wp_unlink_succ_fr {A} this nil up yp cyp syp kyp ryp y cy sy ky ry s (rest : M Key A)
    (Q : A -> state Key -> Prop) :
  fzrep Key0 F this nil nil (FL yp cyp syp kyp ryp :: up) (PNode y cy sy PLeaf ky ry) s ->
  (forall np s',
     fzrep Key0 F this nil np (FL yp cyp syp kyp ryp :: up) ry s' ->
     (ry = PLeaf -> np = yp) ->
     heap s' !! y = Some (mk_node (wrap (sy - tsize ry)) nil (rootp nil ry) yp ky cy) ->
     NoDup (y :: null :: nil :: ptrs ry ++ ctx_ptrs (FL yp cyp syp kyp ryp :: up)) ->
     wp rest s' Q) ->
  wp (yr <- get_right y ;; s <- get_size yr ;; sub_size y s ;;
      yr <- get_right y ;; transplant this y yr ;; rest) s Q.
Proof.
  intros Hz HQ. destruct s as [h o]. unfold transplant.
  assert (Hnd' : NoDup (y :: null :: nil :: ptrs ry ++ ctx_ptrs (FL yp cyp syp kyp ryp :: up))).
  { destruct (fzrep_zrep _ _ _ _ _ _ _ _ Hz) as [_ _ _ _ Hnd]. eapply NoDup_perm; [|exact Hnd]. cbn. solve_Permutation. }
  specialize (fun np s' H1 H2 H3 => HQ np s' H1 H2 H3 Hnd').
  destruct ry as [|px cx sx xl kx xr]; fzrep_open Hz; wp_run.
  all: eapply HQ; [fzrep_close | cbn; done | cbn [heap tsize rootp]; lookup_solve].
Qed.

Lemma wp_erase_splice_node_fr this nil c z cz sz pl cl sl ll kl lr zk pr cr sr rl kr rr s
    (Q : ptr * bool -> state Key -> Prop) :
  fzrep Key0 F this nil nil c
    (PNode z cz sz (PNode pl cl sl ll kl lr) zk (PNode pr cr sr rl kr rr)) s ->
  (forall yoc c' t' np s',
     splice c (PNode z cz sz (PNode pl cl sl ll kl lr) zk (PNode pr cr sr rl kr rr))
       yoc c' t' ->
     fzrep Key0 F this nil np c' t' s' -> (t' = PLeaf -> np = ctx_ptr nil c') ->
     is_Some (heap s' !! z) -> Q (rootp nil t', yoc) s') ->
  wp (erase_splice this z cz pl nil) s Q.
Proof.
  intros Hz HQ. destruct s as [h o]. unfold erase_splice.
  assert (Hne : PNode pl cl sl ll kl lr <> PLeaf) by done.
  pose proof Hz as Hz'. fzrep_open Hz'. wp_run.
  eapply (wp_min_node Key0 this nil nil (FR z cz sz (PNode pl cl sl ll kl lr) zk :: c));
    [apply (fzrep_zrep Key0 F); by apply fzrep_step|].
  intros lc y cy sy ky ry Hall Hplug. destruct lc as [|f lc].
  - (* the successor is the right child *)
    cbn [plug] in Hplug. injection Hplug as E1 E2 E3 E4 E5 E6. subst y cy sy rl ky ry.
    specialize (fun np s' => HQ _ _ _ np s' (splice_child _ _ _ _ _ _ _ _ _ _ _ Hne)).
    clear_state_fr. clear Hall.
    destruct rr as [|px cx sx xl kx xr];
      destruct c as [|[p cp sp kp r|p cp sp l kp] up]; fzrep_open Hz; unfold transplant; wp_run.
    all: eapply HQ; [fzrep_close | cbn; done | eexists; cbn [heap]; lookup_solve].
  - (* the successor is deeper in the right subtree *)
    destruct f as [yp cyp syp kyp ryp|]; [|by apply Forall_cons in Hall as [[] _]].
    specialize (fun np s' => HQ _ _ _ np s'
      (splice_deep c z cz sz _ zk _ _ lc y cy sy ky ry Hne Hall (eq_sym Hplug))).
    assert (Hzy : fzrep Key0 F this nil nil
                    ((FL yp cyp syp kyp ryp :: lc) ++ FR z cz sz (PNode pl cl sl ll kl lr) zk :: c)
                    (PNode y cy sy PLeaf ky ry) (mk_state h o)).
    { apply fzrep_app. rewrite Hplug. by apply fzrep_step. }
    clear_state_fr. clear Hz.
    assert (Hyz : yp <> z).
    { destruct (fzrep_zrep _ _ _ _ _ _ _ _ Hzy) as [_ _ _ _ Hnd]. cbn [app ctx_ptrs] in Hnd.
      rewrite ctx_ptrs_app in Hnd. cbn [ctx_ptrs] in Hnd.
      intros ->. revert Hnd. clear. intros Hnd.
      apply NoDup_cons in Hnd as [_ Hnd]. apply NoDup_cons in Hnd as [_ Hnd].
      apply NoDup_app in Hnd as (_ & _ & Hnd). apply NoDup_cons in Hnd as [Hnd _].
      apply Hnd. set_solver. }
    pose proof Hzy as Hzy'. cbn [app] in Hzy'. fzrep_open Hzy'.
    wp_run.
    eapply (wp_updateSize_fr Key0 F this nil nil (wrap (-1)) (FL yp cyp syp kyp ryp :: lc)
              (FR z cz sz (PNode pl cl sl ll kl lr) zk :: c) (PNode y cy sy PLeaf ky ry));
      [exact Hzy|].
    clear_state_fr. clear Hzy. intros [h1 o1] Hz1. cbn [map frame_add app] in Hz1.
    eapply wp_unlink_succ_fr; [exact Hz1|]. clear Hz1.
    intros np [h2 o2] Hz2 Hnp Hy Hnd. cbn [heap] in Hy.
    set (lc' := map (frame_add (wrap (-1))) (FL yp cyp syp kyp ryp :: lc)) in HQ.
    change (FL yp cyp (wrap (syp + wrap (-1))) kyp ryp ::
            map (frame_add (wrap (-1))) lc ++ FR z cz sz (PNode pl cl sl ll kl lr) zk :: c)
      with (lc' ++ FR z cz sz (PNode pl cl sl ll kl lr) zk :: c) in Hz2, Hnd.
    assert (HR : plug lc' ry <> PLeaf).
    { unfold lc'. cbn [map plug]. apply plug_node. by destruct ry. }
    apply fzrep_app, fzrep_step in Hz2. cbn [plug1] in Hz2.
    assert (Hnd3 : NoDup (y :: null :: nil ::
                     ptrs (PNode z cz sz (PNode pl cl sl ll kl lr) zk (plug lc' ry)) ++
                     ctx_ptrs c)).
    { eapply NoDup_perm; [|exact Hnd]. rewrite ctx_ptrs_app. cbn [ctx_ptrs ptrs].
      rewrite <- (zptrs_perm lc' ry). solve_Permutation. }
    clear Hnd.
    assert (Hfin : forall sy3 s',
      fzrep Key0 F this nil np c (PNode y cz sy3 (PNode pl cl sl ll kl lr) ky (plug lc' ry)) s' ->
      fzrep Key0 F this nil np (lc' ++ FR y cz sy3 (PNode pl cl sl ll kl lr) ky :: c) ry s').
    { intros sy3 s' Hs'. apply fzrep_app, fzrep_step. exact Hs'. }
    assert (Hnp' : ry = PLeaf -> np = ctx_ptr nil
      (lc' ++ FR y cz (wrap (wrap (wrap (sy - tsize ry) + tsize (plug lc' ry)) +
                             tsize (PNode pl cl sl ll kl lr)))
                 (PNode pl cl sl ll kl lr) ky :: c)) by exact Hnp.
    specialize (fun s' H => HQ np s' (Hfin _ s' H) Hnp'). clear Hfin Hnp Hnp'.
    destruct (plug lc' ry) as [|px cx sx xl kx xr]; [done|]. clear HR. clearbody lc'.
    cbn [tsize] in HQ.
    destruct c as [|[p cp sp kp r|p cp sp l kp] up]; fzrep_open Hz2;
      abs_simpl; nodup_facts Hnd3; destruct_ands; unfold transplant; wp_run.
    all: eapply HQ; [fzrep_close | eexists; cbn [heap]; lookup_solve].
Qed.

Lemma wp_erase_finish_fr this nil np c t s z it yoc (Q : const_iterator -> state Key -> Prop) :
  fzrep Key0 F this nil np c t s -> (t = PLeaf -> np = ctx_ptr nil c) ->
  is_Some (heap s !! z) -> heap F !! z = None ->
  z <> null -> z <> nil -> z ∉ ptrs (plug c t) ->
  (yoc = BLACK -> exists n, del_inv n c t) -> (yoc = RED -> red_black (plug c t)) ->
  sizes_ok (plug c t) -> tsize (plug c t) < SIZE_MAX1 ->
  (forall T' s',
     fzrep Key0 F this nil nil [] T' s' -> heap s' !! z = None ->
     red_black T' -> nodes T' = nodes (plug c t) ->
     sizes_ok T' -> tsize T' = tsize (plug c t) -> Q it s') ->
  wp (erase_finish this z it (rootp nil t) yoc) s Q.
Proof.
  intros Hz Hnp Hsome HFz Hznull Hznil Hzt Hrb Hrb0 Hsz Hb HQ. unfold erase_finish.
  assert (Hend : forall T' s',
    fzrep Key0 F this nil np [] T' s' -> is_Some (heap s' !! z) ->
    red_black T' -> nodes T' = nodes (plug c t) ->
    sizes_ok T' -> tsize T' = tsize (plug c t) ->
    wp (nil <- get_nil this ;; set_parent nil nil ;;
        nil <- get_nil this ;; c <- get_color nil ;;
        (if Bool.eqb c BLACK then ret tt else fail AssertFail) ;;
        delete_node z ;; ret it) s' Q).
  { intros T' [h' o'] Hz' [nz Hnz] Hrb' Hnodes' Hsz' Hts'. cbn [heap] in Hnz.
    assert (HzT : z ∉ ptrs T').
    { rewrite ptrs_nodes, Hnodes', <- ptrs_nodes. exact Hzt. }
    pose proof Hz' as Hz''. fzrep_open Hz''. wp_run.
    eapply wp_delete_node; [done|lookup_solve|]. wp_run.
    eapply HQ; try done; [|cbn [heap]; apply lookup_delete_eq].
    split; [split|..]; cbn [heap objs ctx_shape ctx_ptr ctx_ptrs ctx_root].
    - done.
    - rewrite lookup_delete_ne by done. lookup_solve.
    - done.
    - apply shape_del; [done|]. apply shape_upd; [done|]. exact Hsub.
    - by destruct (fzrep_zrep _ _ _ _ _ _ _ _ Hz') as [_ _ _ _ Hnd'].
    - apply map_subseteq_spec. intros i x Hi.
      assert (i <> z) by (intros ->; congruence).
      rewrite lookup_delete_ne by done.
      eapply lookup_weaken; [exact Hi|]. sub_solve.
    - done.
    - done.
    - by destruct Hz' as [_ _ _ _ Hsep']. }
  destruct yoc; cbn [Bool.eqb BLACK when].
  - destruct (Hrb eq_refl) as (n & Hinv). apply wp_bind.
    eapply wp_mono; [apply wp_keeps; [apply keeps_fixup_erase|]|].
    { eapply wp_fixup_erase_fr with
        (Q := fun _ s' => exists T', fzrep Key0 F this nil np [] T' s' /\ red_black T' /\
                 nodes T' = nodes (plug c t) /\ sizes_ok T' /\ tsize T' = tsize (plug c t));
        [exact Hz|exact Hnp|exact Hinv|exact Hsz|exact Hb|].
      intros T' s' H1 H2 H3 H4 H5. exists T'. done. }
    intros [] s' ((T' & H1 & H2 & H3 & H4 & H5) & Hk). cbn beta.
    eapply Hend; eauto.
  - specialize (Hrb0 eq_refl). apply wp_bind. apply wp_ret. apply fzrep_plug in Hz.
    eapply Hend; eauto.
Qed.

Lemma wp_erase_node_fr this nil c z cz sz zl zk zr s (Q : const_iterator -> state Key -> Prop) :
  fzrep Key0 F this nil nil c (PNode z cz sz zl zk zr) s ->
  sizes_ok (plug c (PNode z cz sz zl zk zr)) ->
  red_black (plug c (PNode z cz sz zl zk zr)) ->
  tsize (plug c (PNode z cz sz zl zk zr)) < SIZE_MAX1 ->
  (forall T' s',
     fzrep Key0 F this nil nil [] T' s' -> heap s' !! z = None ->
     red_black T' -> sizes_ok T' ->
     tsize T' = tsize (plug c (PNode z cz sz zl zk zr)) - 1 ->
     nodes T' = nodes_before c ++ nodes zl ++ nodes zr ++ nodes_after c ->
     Q (mk_it this (succ_ptr nil c zr)) s') ->
  wp (erase_node this z) s Q.
Proof.
  intros Hz Hsz Hrb Hb HQ. destruct s as [h o]. rewrite erase_node_eq.
  set (c' := map (frame_add (wrap (-1))) c).
  assert (HFz : heap F !! z = None).
  { destruct Hz as [_ _ _ _ Hsep]. cbn [ptrs] in Hsep.
    rewrite Forall_forall in Hsep. apply Hsep. set_solver. }
  (* the pure side *)
  apply sizes_ok_plug in Hsz as (HsZ & Hsc). rewrite tsize_plug in Hb, HQ.
  pose proof (sizes_ok_nonneg _ HsZ) as HZn.
  assert (HZ1 : 1 <= tsize (PNode z cz sz zl zk zr)).
  { cbn [sizes_ok tsize] in *. destruct HsZ as (-> & Hl & Hr).
    pose proof (sizes_ok_nonneg _ Hl). pose proof (sizes_ok_nonneg _ Hr). lia. }
  destruct (ctx_sizes_decr _ c Hsc HZ1 Hb) as (Hsc' & Htop'). fold c' in Hsc', Htop'.
  assert (HZb : tsize (PNode z cz sz zl zk zr) < SIZE_MAX1).
  { pose proof (ctx_sizes_le _ _ Hsc HZn). lia. }
  assert (Hrb' : red_black (plug c' (PNode z cz sz zl zk zr))).
  { eapply red_black_sim; [apply ctx_sim_map_add|exact Hrb]. }
  assert (Hcont : forall yoc c'' t'' np s',
    splice c' (PNode z cz sz zl zk zr) yoc c'' t'' ->
    fzrep Key0 F this nil np c'' t'' s' -> (t'' = PLeaf -> np = ctx_ptr nil c'') ->
    is_Some (heap s' !! z) ->
    fzrep Key0 F this nil nil c' (PNode z cz sz zl zk zr) (mk_state h o) \/ True ->
    NoDup (null :: nil :: ptrs (PNode z cz sz zl zk zr) ++ ctx_ptrs c') ->
    wp (erase_finish this z (mk_it this (succ_ptr nil c zr)) (rootp nil t'') yoc) s' Q).
  { intros yoc c'' t'' np s' Hsp Hz'' Hnp Hsome _ Hnd.
    destruct (splice_rb _ _ _ _ _ Hsp Hrb') as (Hr1 & Hr2).
    destruct (splice_sizes _ _ _ _ _ Hsp HsZ HZb Hsc') as (Hs1 & Hs2).
    pose proof (splice_nodes _ _ _ _ _ Hsp) as Hn.
    pose proof (splice_ptrs _ _ _ _ _ nil Hsp) as Hp. cbn [rootp] in Hp.
    assert (Hnd' : NoDup (null :: nil :: z :: ptrs t'' ++ ctx_ptrs c'')).
    { eapply NoDup_perm; [|exact Hnd]. by rewrite Hp. }
    apply NoDup_cons in Hnd' as [Hnull Hnd']. apply NoDup_cons in Hnd' as [Hnil Hnd'].
    apply NoDup_cons in Hnd' as [Hzt _].
    eapply wp_erase_finish_fr; [exact Hz''|exact Hnp|exact Hsome|exact HFz| | | |exact Hr1
                               |exact Hr2|exact Hs1| |].
    - intros ->. apply Hnull. set_solver.
    - intros ->. apply Hnil. set_solver.
    - by rewrite <- zptrs_perm.
    - rewrite Hs2, Htop'. lia.
    - intros T' s'' H1 H0 H2 H3 H4 H5. eapply HQ; [exact H1|exact H0|exact H2|exact H4| |].
      + by rewrite H5, Hs2, Htop'.
      + rewrite H3, Hn. unfold c'. by rewrite nodes_before_map_add, nodes_after_map_add. }
  clear HQ.
  (* the code *)
  pose proof Hz as Hz'. fzrep_open Hz'. wp_run.
  replace (ctx_ptr nil c) with (ctx_ptr nil (c ++ [])) by (by rewrite app_nil_r).
  eapply (wp_updateSize_fr Key0 F this nil nil (wrap (-1)) c [] (PNode z cz sz zl zk zr));
    [by rewrite app_nil_r|].
  clear_state_fr. intros [h1 o1] Hz1. rewrite app_nil_r in Hz1. fold c' in Hz1.
  apply wp_bind. eapply wp_successor; [exact (fzrep_zrep _ _ _ _ _ _ _ _ Hz1)|].
  replace (succ_ptr nil c' zr) with (succ_ptr nil c zr)
    by (unfold succ_ptr, c'; by rewrite ptrs_after_map_add).
  assert (Hnd1 : NoDup (null :: nil :: ptrs (PNode z cz sz zl zk zr) ++ ctx_ptrs c'))
    by (by destruct (fzrep_zrep _ _ _ _ _ _ _ _ Hz1)).
  specialize (fun yoc c'' t'' np s' H1 H2 H3 H4 => Hcont yoc c'' t'' np s' H1 H2 H3 H4
                (or_intror I) Hnd1).
  pose proof Hz1 as Hz1'. fzrep_open Hz1'. wp_run.
  destruct zl as [|pl cl sl ll kl lr].
  - eapply wp_erase_splice_leaf_fr; [exact Hz1|by left|].
    intros yoc c'' t'' np s' G1 G2 G3 G4. wp_run. by eapply Hcont.
  - destruct zr as [|pr cr sr rl kr rr].
    + eapply wp_erase_splice_leaf_fr; [exact Hz1|by right|].
      intros yoc c'' t'' np s' G1 G2 G3 G4. wp_run. by eapply Hcont.
    + eapply wp_erase_splice_node_fr; [exact Hz1|].
      intros yoc c'' t'' np s' G1 G2 G3 G4. wp_run. by eapply Hcont.
Qed.

End FramedErase.

Section FramedEraseKey.

Context {Key : Type}.
Variable CMP : Key -> Key -> bool.
Variable Key0 : Key.
Hypothesis Hswo : StrictWeakOrder CMP.
Implicit Types (h : gmap N (node Key)) (t T : ptree Key) (c : ctx Key) (s F : state Key).

Lemma wp_erase_fr F this nil T s key (Q : const_iterator -> state Key -> Prop) :
  fzrep Key0 F this nil nil [] T s -> bst CMP T -> sizes_ok T -> red_black T ->
  tsize T < SIZE_MAX1 ->
  (forall c, found CMP Key0 this nil T key s c PLeaf -> Q (mk_it this nil) s) ->
  (forall c z cz sz zl zk zr T' s',
     found CMP Key0 this nil T key s c (PNode z cz sz zl zk zr) ->
     fzrep Key0 F this nil nil [] T' s' -> heap s' !! z = None ->
     red_black T' -> sizes_ok T' ->
     tsize T' = tsize T - 1 ->
     nodes T' = nodes_before c ++ nodes zl ++ nodes zr ++ nodes_after c ->
     Q (mk_it this (succ_ptr nil c zr)) s') ->
  wp (erase CMP this key) s Q.
Proof.
  intros Hfz Hbst Hsz Hrb Hb Habsent Hpresent. unfold erase.
  apply wp_bind.
  eapply wp_search; [exact Hswo|exact (fzrep_zrep _ _ _ _ _ _ _ _ Hfz)|exact Hbst|].
  intros c t Hfound. destruct s as [h o].
  pose proof Hfound as (HT & Hz & Hbt & Har & Heq).
  destruct t as [|z cz sz zl zk zr].
  - pose proof Hz as Hz'. zrep_open Hz'. wp_run. by eapply Habsent.
  - pose proof Hz as Hz'. zrep_open Hz'. wp_run.
    eapply (wp_erase_node_fr Key0 F); [apply fzrep_plug; by rewrite HT| | | |].
    + by rewrite HT.
    + by rewrite HT.
    + by rewrite HT.
    + rewrite HT. intros T' s' G1 G0 G2 G3 G4 G5. by eapply Hpresent.
Qed.

Lemma erase_frame this nil T s key :
  wf CMP Key0 this nil T s -> tsize T < SIZE_MAX1 ->
  exists res T' s',
    erase CMP this key s = Ok res s' /\ wf CMP Key0 this nil T' s' /\
    fzrep Key0 (outside this (nil :: ptrs T) s) this nil nil [] T' s' /\
    (forall z k, (z, k) ∈ nodes T -> equal CMP key k = true -> heap s' !! z = None).
Proof.
  intros (Hrep & Hbst & Hsz & Hrb) Hb.
  pose proof (outside_fzrep Key0 this nil T s Hrep) as Hfz.
  assert (Hwp : wp (erase CMP this key) s (fun _ s' => exists T',
     wf CMP Key0 this nil T' s' /\
     fzrep Key0 (outside this (nil :: ptrs T) s) this nil nil [] T' s' /\
     (forall z k, (z, k) ∈ nodes T -> equal CMP key k = true -> heap s' !! z = None))).
  { eapply wp_erase_fr; [exact Hfz|exact Hbst|exact Hsz|exact Hrb|exact Hb| |].
    - intros c Hf. exists T. split; [done|]. split; [done|].
      intros z k Hin Hk. exfalso.
      destruct (found_absent CMP Key0 _ _ _ _ _ _ Hf) as (Hkeys & Hl & Hr).
      assert (Hm : mem_list CMP key (keys T) = false).
      { rewrite Hkeys. rewrite (mem_list_skip CMP) by done. by apply mem_list_none. }
      assert (Ht : existsb (fun x => equal CMP key x) (keys T) = true).
      { apply existsb_exists. exists k. split; [|done].
        rewrite keys_nodes. apply list_elem_of_In in Hin. by apply (in_map snd _ (z, k)). }
      unfold mem_list in Hm. congruence.
    - intros c z cz sz zl zk zr T' s' Hf Hfz' Hfree Hrb' Hsz' Hts Hnodes.
      destruct (found_present CMP Key0 Hswo _ _ _ _ _ _ _ _ _ _ _ _ Hf)
        as (Hkeys & Hn & Hl & Hr & Heq).
      exists T'. split; [|split; [done|]].
      + split; [exact (fzrep_zrep _ _ _ _ _ _ _ _ Hfz')|]. split; [|done].
        apply (bst_sorted CMP Hswo).
        assert (Hk' : keys T' = (keys_before c ++ keys zl) ++ keys zr ++ keys_after c).
        { rewrite keys_nodes, Hnodes, !map_app.
          by rewrite <- keys_before_nodes, <- keys_after_nodes, <- !keys_nodes, <- app_assoc. }
        rewrite Hk'. eapply sorted_remove. rewrite <- Hkeys. by apply (bst_sorted CMP Hswo).
      + intros q kq Hin Hq. rewrite Hn in Hin.
        assert (Hs : splits CMP key (nodes_before c ++ nodes zl) (nodes zr ++ nodes_after c)).
        { split.
          - by rewrite map_app, <- keys_before_nodes, <- keys_nodes.
          - by rewrite map_app, <- keys_after_nodes, <- keys_nodes. }
        by injection (splits_unique CMP key _ _ z zk q kq Hs Heq Hin Hq) as -> ->. }
  apply wp_ok in Hwp as (res & s' & Heq & T' & Hwf' & Hfz' & Hfree).
  by exists res, T', s'.
Qed.

(** X28: [erase(key)] on a well-formed set touches nothing but its own
    tree: every cell outside the tree and every other object keep their
    content, so any other set whose nodes are apart from this one is
    represented exactly as before. The node that held the key equivalent
    to [key] is released, so a position that still points to it is
    dangling, while every other node of the tree stays allocated. *)
Theorem erase_leaves_rest_alone this nil T s key :
  wf CMP Key0 this nil T s -> tsize T < SIZE_MAX1 ->
  exists res s',
    erase CMP this key s = Ok res s' /\
    (forall p v, p ∉ nil :: ptrs T -> heap s !! p = Some v -> heap s' !! p = Some v) /\
    (forall ob v, ob <> this -> objs s !! ob = Some v -> objs s' !! ob = Some v) /\
    (forall other nilO TO, other <> this -> rep Key0 other nilO TO s ->
       (forall p, p ∈ nilO :: ptrs TO -> p ∉ nil :: ptrs T) -> rep Key0 other nilO TO s') /\
    (forall z k, (z, k) ∈ nodes T -> equal CMP key k = true ->
       heap s' !! z = None /\ it_deref (mk_it this z) s' = Err Dangling) /\
    (forall z k, (z, k) ∈ nodes T -> equal CMP key k = false ->
       it_deref (mk_it this z) s' = Ok k s').
Proof.
  intros Hwf Hb. pose proof Hwf as (Hrep & Hbst & _).
  destruct (erase_frame this nil T s key Hwf Hb) as (res & T' & s' & Heq & Hwf' & Hfz & Hfree).
  destruct Hfz as [_ Hh Ho _ _]. exists res, s'. split; [done|].
  split; [|split; [|split; [|split]]].
  - intros p v Hp Hv. eapply lookup_weaken; [|exact Hh]. by apply outside_lookup.
  - intros ob v Hne Hv. eapply lookup_weaken; [|exact Ho].
    cbn [outside objs]. by rewrite lookup_delete_ne.
  - intros other nilO TO Hne Hrepo Hdis. eapply rep_mono; [|exact Hh|exact Ho].
    by apply (outside_rep CMP Key0 Hswo).
  - intros z k Hin Hk. pose proof (Hfree z k Hin Hk) as Hz. split; [done|].
    assert (Hnz : z <> null).
    { destruct Hrep as [_ _ _ _ Hnd]. cbn [ctx_ptrs] in Hnd.
      apply NoDup_cons in Hnd as [Hnull _]. intros ->. apply Hnull.
      right. apply elem_of_app. left. rewrite ptrs_nodes.
      apply list_elem_of_In. apply (in_map fst _ (null, k)). by apply list_elem_of_In. }
    unfold it_deref, get_key, bind, load. cbn [m_node].
    rewrite ptr_eqb_ne by done. by rewrite Hz.
  - intros z k Hin Hk.
    destruct (erase_cases CMP Key0 Hswo this nil T s key Hwf Hb)
      as [(Hm & He)|(_ & l1 & q & kq & l2 & T2 & s2 & He & Hn & Hq & Hwf2 & Hn2 & _)].
    + rewrite He in Heq. injection Heq as <- <-. by eapply deref_rep.
    + rewrite He in Heq. injection Heq as <- <-. destruct Hwf2 as (Hrep2 & _).
      eapply deref_rep; [exact Hrep2|]. rewrite Hn2. rewrite Hn in Hin.
      apply elem_of_app in Hin as [Hin|Hin]; [set_solver|].
      apply elem_of_cons in Hin as [Hin|Hin]; [|set_solver].
      injection Hin as -> ->. congruence.
Qed.

Lemma rep_allocated this nil T s p :
  rep Key0 this nil T s -> p ∈ nil :: ptrs T -> is_Some (heap s !! p).
Proof.
  intros [_ Hnil _ Hsub _] Hp. apply elem_of_cons in Hp as [->|Hp]; [by eexists|].
  rewrite ptrs_nodes in Hp. apply list_elem_of_In, in_map_iff in Hp as ([q k] & <- & Hin).
  apply list_elem_of_In in Hin.
  destruct (shape_nodes_lookup _ _ _ _ _ _ Hsub Hin) as (n & Hn & _). by eexists.
Qed.

(** Any update of one set leaves alone a second set whose nodes are
    apart from the first one's. *)
Lemma update_keeps_other this nil T other nilO TO s key :
  wf CMP Key0 this nil T s -> tsize T + 1 < SIZE_MAX1 ->
  rep Key0 other nilO TO s -> other <> this ->
  (forall p, p ∈ nilO :: ptrs TO -> p ∉ nil :: ptrs T) ->
  (exists r s1, insert CMP this key s = Ok r s1 /\ rep Key0 other nilO TO s1) /\
  (exists r s1, erase CMP this key s = Ok r s1 /\ rep Key0 other nilO TO s1).
Proof.
  intros Hwf Hb Hrep Hne Hdis.
  assert (HrepF : rep Key0 other nilO TO (outside this (nil :: ptrs T) s))
    by (by apply (outside_rep CMP Key0 Hswo)).
  split.
  - destruct (insert_frame CMP Key0 Hswo this nil T s key Hwf Hb) as (r & T' & s1 & He & _ & Hfz).
    exists r, s1. split; [done|]. destruct Hfz as [_ Hh Ho _ _]. by eapply rep_mono.
  - assert (Hb' : tsize T < SIZE_MAX1) by lia.
    destruct (erase_frame this nil T s key Hwf Hb') as (r & T' & s1 & He & _ & Hfz & _).
    exists r, s1. split; [done|]. destruct Hfz as [_ Hh Ho _ _]. by eapply rep_mono.
Qed.

(** X29: a set made by the copy constructor shares nothing with its
    source: inserting or erasing any key in the copy leaves the source
    represented exactly as before, and inserting or erasing any key in the
    source leaves the copy represented exactly as it was made. *)
Theorem copy_is_independent this other nilO TO s key :
  wf CMP Key0 other nilO TO s -> this <> other -> tsize TO + 1 < SIZE_MAX1 ->
  exists nil T s',
    copy_ctor CMP Key0 this other s = Ok tt s' /\
    wf CMP Key0 this nil T s' /\ keys T = keys TO /\
    (exists r s1, insert CMP this key s' = Ok r s1 /\ rep Key0 other nilO TO s1) /\
    (exists r s1, erase CMP this key s' = Ok r s1 /\ rep Key0 other nilO TO s1) /\
    (exists r s1, insert CMP other key s' = Ok r s1 /\ rep Key0 this nil T s1) /\
    (exists r s1, erase CMP other key s' = Ok r s1 /\ rep Key0 this nil T s1).
Proof.
  intros Hwf Hne Hb. pose proof Hwf as (Hrep & Hbst & Hsz & Hrb).
  assert (Hlen : Z.of_nat (length (keys TO)) = tsize TO).
  { by rewrite sizes_ok_tsize, count_length. }
  set (F := mk_state (heap s) (delete this (objs s))).
  assert (HrepF : rep Key0 other nilO TO F) by (by apply rep_drop_obj).
  assert (Hwp : wp (copy_ctor CMP Key0 this other) s (fun _ s' => exists nil T,
     fwf CMP Key0 F this nil T s' /\ keys T = keys TO)).
  { eapply (wp_copy_ctor CMP Key0 Hswo F); [exact HrepF|exact Hbst|done|apply delete_subseteq|
      apply lookup_delete_eq|lia|].
    intros nil T s' Hfwf Hk. by exists nil, T. }
  apply wp_ok in Hwp as ([] & s' & Heq & nil & T & Hfwf & Hk).
  pose proof (fwf_wf CMP Key0 _ _ _ _ _ Hfwf) as HwfT.
  pose proof HwfT as (HrepT & _ & HszT & _).
  assert (HrepO : rep Key0 other nilO TO s') by (by eapply fwf_rep_frame).
  assert (HwfO : wf CMP Key0 other nilO TO s') by (by split).
  assert (HbT : tsize T + 1 < SIZE_MAX1).
  { rewrite (sizes_ok_tsize T), count_length, Hk by done. lia. }
  assert (Hfresh : forall p, p ∈ nil :: ptrs T -> heap s !! p = None).
  { destruct Hfwf as ([_ _ _ _ Hsep] & _). cbn [ctx_ptrs] in Hsep.
    rewrite app_nil_r in Hsep. rewrite Forall_forall in Hsep. exact Hsep. }
  assert (Hdis : forall p, p ∈ nilO :: ptrs TO -> p ∉ nil :: ptrs T).
  { intros p Hp Hq. destruct (rep_allocated other nilO TO s p Hrep Hp) as (n & Hn).
    rewrite (Hfresh p Hq) in Hn. done. }
  assert (Hdis' : forall p, p ∈ nil :: ptrs T -> p ∉ nilO :: ptrs TO).
  { intros p Hp Hq. by apply (Hdis p Hq). }
  exists nil, T, s'. split; [done|]. split; [done|]. split; [done|].
  destruct (update_keeps_other this nil T other nilO TO s' key HwfT HbT HrepO
              (not_eq_sym Hne) Hdis) as (H1 & H2).
  destruct (update_keeps_other other nilO TO this nil T s' key HwfO Hb HrepT Hne Hdis')
    as (H3 & H4).
  done.
Qed.

End FramedEraseKey.

Lemma erase_leaves_rest_alone_witness :
  exists res s',
    erase Z.ltb 0%N 2 ex_state = Ok res s' /\
    (forall p v, p ∉ 1%N :: ptrs ex_tree -> heap ex_state !! p = Some v ->
       heap s' !! p = Some v) /\
    (forall ob v, ob <> 0%N -> objs ex_state !! ob = Some v -> objs s' !! ob = Some v) /\
    (forall other nilO TO, other <> 0%N -> rep 0 other nilO TO ex_state ->
       (forall p, p ∈ nilO :: ptrs TO -> p ∉ 1%N :: ptrs ex_tree) -> rep 0 other nilO TO s') /\
    (forall z k, (z, k) ∈ nodes ex_tree -> equal Z.ltb 2 k = true ->
       heap s' !! z = None /\ it_deref (mk_it 0%N z) s' = Err Dangling) /\
    (forall z k, (z, k) ∈ nodes ex_tree -> equal Z.ltb 2 k = false ->
       it_deref (mk_it 0%N z) s' = Ok k s').
Proof.
  apply (erase_leaves_rest_alone Z.ltb 0 Zltb_swo 0%N 1%N ex_tree ex_state 2).
  - exact ex_wf.
  - reflexivity.
Defined.

Lemma copy_is_independent_witness :
  exists nil T s',
    copy_ctor Z.ltb 0 5%N 0%N ex_state = Ok tt s' /\
    wf Z.ltb 0 5%N nil T s' /\ keys T = keys ex_tree /\
    (exists r s1, insert Z.ltb 5%N 7 s' = Ok r s1 /\ rep 0 0%N 1%N ex_tree s1) /\
    (exists r s1, erase Z.ltb 5%N 7 s' = Ok r s1 /\ rep 0 0%N 1%N ex_tree s1) /\
    (exists r s1, insert Z.ltb 0%N 7 s' = Ok r s1 /\ rep 0 5%N nil T s1) /\
    (exists r s1, erase Z.ltb 0%N 7 s' = Ok r s1 /\ rep 0 5%N nil T s1).
Proof.
  apply (copy_is_independent Z.ltb 0 Zltb_swo 5%N 0%N 1%N ex_tree ex_state 7).
  - exact ex_wf.
  - discriminate.
  - reflexivity.
Defined.
